(** * Session orchestration of codex-agent-management

    A shallow embedding of [src/sessionManager.ts] (class [SessionManager]),
    of the structured-output check of [src/utils/codex.ts], of the hint
    endpoint and the request validation of [src/controller.ts] and of the
    directory names of [src/utils/workspace.ts], followed by the properties
    of the specification that were checked against it and by further
    properties of the code.

    Conventions of the embedding.
    - JavaScript strings are [string]; numbers that the code only counts or
      compares are [Z]; [null]/[undefined] is [None].
    - A value produced by [JSON.parse] is a [json] tree.  An object keeps its
      own keys in a list (one entry per key, as [JSON.parse] builds it).
    - [randomUUID()] is a supply of fresh identifiers ([nextUuid]) and
      [Date.now()] reads a clock that only the environment advances.
    - An [async] method runs up to its first [await] as one atomic step; every
      [await] is a point where other steps may run.  A suspended call of
      [runAgentSession] is a [RunTask] with the program point it waits at.
    - In [step] a request may arrive at any time; [loop_step] leaves out the
      arrivals that the event loop of the platform rules out.
    - Strings are taken in the ASCII range: the white space of [trim] and
      [parseInt] and the letters of [toLowerCase] are those of that range. *)

From Stdlib Require Import ZArith String Ascii List Bool Lia.
From stdpp Require Import base option list gmap strings pretty.

Local Open Scope string_scope.
Local Open Scope Z_scope.
Local Open Scope list_scope.

(** ** Values produced by [JSON.parse] *)

#[warnings="-register-all"]
Inductive json : Type :=
| JNull
| JBool (b : bool)
| JNum (n : Z)
| JStr (s : string)
| JArr (items : list json)
| JObj (fields : list (string * json)).

(** [assoc k fs] is the value stored under the own key [k]. *)
Fixpoint assoc (k : string) (fs : list (string * json)) : option json :=
  match fs with
  | [] => None
  | (k', v) :: fs' => if String.eqb k k' then Some v else assoc k fs'
  end.

(** [record.k] on a parsed value: [None] stands for [undefined].  None of the
    keys read by the code is an array index or a prototype member. *)
Definition prop (k : string) (v : json) : option json :=
  match v with
  | JObj fs => assoc k fs
  | _ => None
  end.

(** [k in record] for an object value. *)
Definition has_prop (k : string) (v : json) : bool :=
  match prop k v with Some _ => true | None => false end.

(** [typeof v === "object" && v !== null] *)
Definition is_object (v : json) : bool :=
  match v with
  | JObj _ | JArr _ => true
  | _ => false
  end.

(** [typeof x === "string"] for a property that may be missing. *)
Definition is_string (x : option json) : bool :=
  match x with Some (JStr _) => true | _ => false end.

(** [x === null] *)
Definition is_null (x : option json) : bool :=
  match x with Some JNull => true | _ => false end.

(** [x != null]: neither [null] nor [undefined]. *)
Definition not_nullish (x : option json) : bool :=
  match x with None | Some JNull => false | _ => true end.

(** [typeof x !== "string" || x.length === 0] *)
Definition not_nonempty_string (x : option json) : bool :=
  match x with
  | Some (JStr s) => Nat.eqb (String.length s) 0
  | _ => true
  end.

(** [x ?? null] *)
Definition or_null (x : option json) : json :=
  match x with
  | None | Some JNull => JNull
  | Some v => v
  end.

(** JavaScript truthiness of a parsed value that may be missing. *)
Definition truthy (x : option json) : bool :=
  match x with
  | None | Some JNull => false
  | Some (JBool b) => b
  | Some (JNum n) => negb (n =? 0)
  | Some (JStr s) => negb (Nat.eqb (String.length s) 0)
  | Some (JArr _) | Some (JObj _) => true
  end.

(** ** [utils/codex.ts]: the shape check of a structured output *)

Definition isAgentGeneratedFile (value : json) : bool :=
  if negb (is_object value) then false
  else if not_nonempty_string (prop "path" value) then false
  else if not_nullish (prop "content" value)
          && negb (is_string (prop "content" value))
          && negb (is_null (prop "content" value)) then false
  else if not_nullish (prop "description" value)
          && negb (is_string (prop "description" value))
          && negb (is_null (prop "description" value)) then false
  else true.

Definition is_inference_status (x : option json) : bool :=
  match x with
  | Some (JStr s) =>
      String.eqb s "solved" || String.eqb s "awaiting_hint" || String.eqb s "failed"
  | _ => false
  end.

(** A field that must be present and hold [null] or a string. *)
Definition nullable_string_field (k : string) (record : json) : bool :=
  has_prop k record
  && negb (negb (is_null (prop k record)) && negb (is_string (prop k record))).

Definition isAgentStructuredOutput (value : json) : bool :=
  if negb (is_object value) then false
  else if negb (is_inference_status (prop "inferenceStatus" value)) then false
  else if not_nonempty_string (prop "summary" value) then false
  else if negb (nullable_string_field "flag" value) then false
  else if negb (nullable_string_field "solveCode" value) then false
  else if negb (nullable_string_field "writeUp" value) then false
  else if negb (has_prop "solutionFiles" value) then false
  else if negb (is_null (prop "solutionFiles" value))
          && negb (match prop "solutionFiles" value with
                   | Some (JArr l) => forallb isAgentGeneratedFile l
                   | _ => false
                   end) then false
  else if negb (has_prop "nextSteps" value) then false
  else if negb (is_null (prop "nextSteps" value))
          && negb (match prop "nextSteps" value with
                   | Some (JArr l) => forallb (fun item => is_string (Some item)) l
                   | _ => false
                   end) then false
  else true.

(** ** Small string helpers of [sessionManager.ts] *)

Definition ellipsis : string :=
  String (ascii_of_nat 226) (String (ascii_of_nat 128) (String (ascii_of_nat 166) "")).

(** [truncate(value, length = 600)] *)
Definition truncate (value : string) (length : nat) : string :=
  if (String.length value <=? length)%nat then value
  else (substring 0 length value ++ ellipsis)%string.

(** White space in the ASCII range: the space and the characters 9 to 13. *)
Definition is_space (c : ascii) : bool :=
  let n := nat_of_ascii c in
  (Nat.eqb n 32 || (Nat.leb 9 n && Nat.leb n 13))%bool.

Fixpoint trim_start (s : string) : string :=
  match s with
  | String c s' => if is_space c then trim_start s' else s
  | EmptyString => EmptyString
  end.

Fixpoint trim_end (s : string) : string :=
  match s with
  | String c s' =>
      match trim_end s' with
      | EmptyString => if is_space c then EmptyString else String c EmptyString
      | t => String c t
      end
  | EmptyString => EmptyString
  end.

(** [s.trim()] on the white space of the ASCII range. *)
Definition trim (s : string) : string := trim_end (trim_start s).

Definition digit_of (c : ascii) : option Z :=
  let n := nat_of_ascii c in
  if (Nat.leb 48 n && Nat.leb n 57)%bool then Some (Z.of_nat n - 48) else None.

Fixpoint parse_digits (s : string) (acc : option Z) : option Z :=
  match s with
  | String c s' =>
      match digit_of c with
      | Some d => parse_digits s' (Some (10 * default 0 acc + d))
      | None => acc
      end
  | EmptyString => acc
  end.

(** [Number.parseInt(s, 10)]; [None] is [NaN].  The result is the exact
    integer (no rounding to a double). *)
Definition parseInt (s : string) : option Z :=
  match trim_start s with
  | String "-" s' => Z.opp <$> parse_digits s' None
  | String "+" s' => parse_digits s' None
  | s' => parse_digits s' None
  end.

(** [clampConcurrency(raw?)] *)
Definition clampConcurrency (raw : option string) : Z :=
  match parseInt (default "" raw) with
  | None => 4
  | Some parsed => if parsed <? 1 then 4 else parsed
  end.

(** ** Data model of [sessionManager.ts] *)

Inductive SessionStatus : Type :=
| pending | running | awaiting_hint | completed | cancelled | status_error.

#[global] Instance SessionStatus_eq_dec : EqDecision SessionStatus.
Proof. solve_decision. Defined.

Inductive Level : Type := info | task | warning | level_error.

Record ProblemMetadata : Type := {
  category : string;
  title : string;
  description : string;
}.

(** [SessionEvent]: a payload ([level], [message], optional [details]) with
    the [id] and [timestamp] that [publishEvent] adds. *)
Record SessionEvent : Type := {
  event_id : nat;
  timestamp : Z;
  level : Level;
  message : string;
  details : option (list (string * json));
}.

Record Session : Type := {
  session_id : nat;
  createdAt : Z;
  updatedAt : Z;
  status : SessionStatus;
  problem : ProblemMetadata;
  workspacePath : string;
  artifactPath : option string;
  threadId : option string;
  result : option json;
  events : list SessionEvent;
  error : option string;
}.

Definition set_status (v : SessionStatus) (s : Session) : Session :=
  {| session_id := session_id s; createdAt := createdAt s; updatedAt := updatedAt s;
     status := v; problem := problem s; workspacePath := workspacePath s;
     artifactPath := artifactPath s; threadId := threadId s; result := result s;
     events := events s; error := error s |}.

Definition set_updatedAt (v : Z) (s : Session) : Session :=
  {| session_id := session_id s; createdAt := createdAt s; updatedAt := v;
     status := status s; problem := problem s; workspacePath := workspacePath s;
     artifactPath := artifactPath s; threadId := threadId s; result := result s;
     events := events s; error := error s |}.

Definition set_threadId (v : option string) (s : Session) : Session :=
  {| session_id := session_id s; createdAt := createdAt s; updatedAt := updatedAt s;
     status := status s; problem := problem s; workspacePath := workspacePath s;
     artifactPath := artifactPath s; threadId := v; result := result s;
     events := events s; error := error s |}.

Definition set_result (v : option json) (s : Session) : Session :=
  {| session_id := session_id s; createdAt := createdAt s; updatedAt := updatedAt s;
     status := status s; problem := problem s; workspacePath := workspacePath s;
     artifactPath := artifactPath s; threadId := threadId s; result := v;
     events := events s; error := error s |}.

Definition set_events (v : list SessionEvent) (s : Session) : Session :=
  {| session_id := session_id s; createdAt := createdAt s; updatedAt := updatedAt s;
     status := status s; problem := problem s; workspacePath := workspacePath s;
     artifactPath := artifactPath s; threadId := threadId s; result := result s;
     events := v; error := error s |}.

Definition set_error (v : option string) (s : Session) : Session :=
  {| session_id := session_id s; createdAt := createdAt s; updatedAt := updatedAt s;
     status := status s; problem := problem s; workspacePath := workspacePath s;
     artifactPath := artifactPath s; threadId := threadId s; result := result s;
     events := events s; error := v |}.

(** Truthiness of [session.threadId]: [null] and the empty string are falsy. *)
Definition thread_established (s : Session) : bool :=
  match threadId s with
  | Some t => negb (Nat.eqb (String.length t) 0)
  | None => false
  end.

(** What a subscriber is sent: the [JSON.stringify] of these payloads, taken
    at the moment of the call. *)
Inductive Message : Type :=
| MsgSnapshot (session : Session)
| MsgEvent (event : SessionEvent)
| MsgStatus (st : SessionStatus) (ts : Z)
| MsgAgentResult (r : json)
| MsgError (text : string).

Inductive ReadyState : Type := CONNECTING | OPEN | CLOSING | CLOSED.

(** A [WebSocket] as the manager sees it: its [readyState], what was sent on
    it, the [close(code, reason)] calls made on it, and the session id and
    [Set] object captured by the handlers [registerClient] installs. *)
Record Socket : Type := {
  readyState : ReadyState;
  sent : list Message;
  closes : list (Z * string);
  handlers : option (nat * nat);
}.

(** The external engine's [ThreadEvent] and its items (@openai/codex-sdk);
    payloads the manager passes through unread are [json]. *)
Inductive ThreadItem : Type :=
| command_execution (command aggregated_output : string) (exit_code : option Z)
    (item_status : string)
| file_change (changes : json) (item_status : string)
| mcp_tool_call (server tool item_status : string) (tool_result tool_error : option json)
| todo_list (items : json)
| agent_message (text : string)
| reasoning (text : string)
| web_search (query : string)
| item_error (item_message : string)
| item_other.

Inductive ThreadEvent : Type :=
| thread_started (thread_id : string)
| turn_started
| turn_completed (usage : list (string * json))
| turn_failed (error_message : string)
| item_started (item : ThreadItem)
| item_updated (item : ThreadItem)
| item_completed (item : ThreadItem)
| stream_error (error_text : string)
| event_other.

Inductive ItemEventPhase : Type := started | updated | phase_completed.

Definition phase_name (p : ItemEventPhase) : string :=
  match p with
  | started => "started"
  | updated => "updated"
  | phase_completed => "completed"
  end.

(** Program points at which a call of [runAgentSession] is suspended. *)
Inductive RunPc : Type :=
| AwaitSlotQueued        (* in [slotQueue], its promise not yet resolved *)
| AwaitSlotWoken         (* [resolve] called; [activeAgentCount += 1] still to run *)
| AwaitSlotGranted       (* [acquireAgentSlot] has returned *)
| AwaitPrompt            (* [await reqPrompt(...)] *)
| AwaitRunStreamed       (* [await thread.runStreamed(...)] *)
| AwaitNext              (* [for await]: waiting for the next stream item *)
| AwaitIteratorReturn (thrown : option string)
                         (* leaving the loop: [await events.return()] *)
| Finished.

Inductive ThreadCall : Type :=
| startThread
| resumeThread (id : string).

(** One call of [runAgentSession(sessionId, options)] that has reached an
    [await]: its arguments, where it waits, its local [cancelled] flag and the
    thread it opened. *)
Record RunTask : Type := {
  run_session : nat;
  isHint : bool;
  hint : option string;
  pc : RunPc;
  run_cancelled : bool;
  thread : option ThreadCall;
}.

Definition set_pc (v : RunPc) (t : RunTask) : RunTask :=
  {| run_session := run_session t; isHint := isHint t; hint := hint t; pc := v;
     run_cancelled := run_cancelled t; thread := thread t |}.

Definition set_cancelled (v : bool) (t : RunTask) : RunTask :=
  {| run_session := run_session t; isHint := isHint t; hint := hint t; pc := pc t;
     run_cancelled := v; thread := thread t |}.

Definition set_thread (v : option ThreadCall) (t : RunTask) : RunTask :=
  {| run_session := run_session t; isHint := isHint t; hint := hint t; pc := pc t;
     run_cancelled := run_cancelled t; thread := v |}.

(** The state of one [SessionManager].

    [heap] holds every [Session] object ever allocated, under its id (an id
    is allocated once, so it names the object).  [sessions] is the key set of
    the [Map] of the same name: [this.sessions.get(id)] finds [heap !! id]
    exactly when [id ∈ sessions].  [clients] maps a session id to a [Set]
    object in [clientSets]; [activeStreams] maps a session id to the run whose
    [StreamController] is registered; [slotQueue] lists the runs whose
    [resolve] callbacks are queued. *)
Record Manager : Type := {
  heap : gmap nat Session;
  sessions : gset nat;
  clients : gmap nat nat;
  clientSets : gmap nat (list nat);
  sockets : gmap nat Socket;
  activeStreams : gmap nat nat;
  maxConcurrentAgents : Z;
  activeAgentCount : Z;
  slotQueue : list nat;
  tasks : gmap nat RunTask;
  removals : gmap nat nat;
  nextUuid : nat;
  nextTask : nat;
  nextSocket : nat;
  nextSet : nat;
  nextRemoval : nat;
  clock : Z;
}.

Definition set_heap v (m : Manager) : Manager :=
  {| heap := v; sessions := sessions m; clients := clients m; clientSets := clientSets m;
     sockets := sockets m; activeStreams := activeStreams m;
     maxConcurrentAgents := maxConcurrentAgents m; activeAgentCount := activeAgentCount m;
     slotQueue := slotQueue m; tasks := tasks m; removals := removals m;
     nextUuid := nextUuid m; nextTask := nextTask m; nextSocket := nextSocket m;
     nextSet := nextSet m; nextRemoval := nextRemoval m; clock := clock m |}.

Definition set_sessions v (m : Manager) : Manager :=
  {| heap := heap m; sessions := v; clients := clients m; clientSets := clientSets m;
     sockets := sockets m; activeStreams := activeStreams m;
     maxConcurrentAgents := maxConcurrentAgents m; activeAgentCount := activeAgentCount m;
     slotQueue := slotQueue m; tasks := tasks m; removals := removals m;
     nextUuid := nextUuid m; nextTask := nextTask m; nextSocket := nextSocket m;
     nextSet := nextSet m; nextRemoval := nextRemoval m; clock := clock m |}.

Definition set_clients v (m : Manager) : Manager :=
  {| heap := heap m; sessions := sessions m; clients := v; clientSets := clientSets m;
     sockets := sockets m; activeStreams := activeStreams m;
     maxConcurrentAgents := maxConcurrentAgents m; activeAgentCount := activeAgentCount m;
     slotQueue := slotQueue m; tasks := tasks m; removals := removals m;
     nextUuid := nextUuid m; nextTask := nextTask m; nextSocket := nextSocket m;
     nextSet := nextSet m; nextRemoval := nextRemoval m; clock := clock m |}.

Definition set_clientSets v (m : Manager) : Manager :=
  {| heap := heap m; sessions := sessions m; clients := clients m; clientSets := v;
     sockets := sockets m; activeStreams := activeStreams m;
     maxConcurrentAgents := maxConcurrentAgents m; activeAgentCount := activeAgentCount m;
     slotQueue := slotQueue m; tasks := tasks m; removals := removals m;
     nextUuid := nextUuid m; nextTask := nextTask m; nextSocket := nextSocket m;
     nextSet := nextSet m; nextRemoval := nextRemoval m; clock := clock m |}.

Definition set_sockets v (m : Manager) : Manager :=
  {| heap := heap m; sessions := sessions m; clients := clients m; clientSets := clientSets m;
     sockets := v; activeStreams := activeStreams m;
     maxConcurrentAgents := maxConcurrentAgents m; activeAgentCount := activeAgentCount m;
     slotQueue := slotQueue m; tasks := tasks m; removals := removals m;
     nextUuid := nextUuid m; nextTask := nextTask m; nextSocket := nextSocket m;
     nextSet := nextSet m; nextRemoval := nextRemoval m; clock := clock m |}.

Definition set_activeStreams v (m : Manager) : Manager :=
  {| heap := heap m; sessions := sessions m; clients := clients m; clientSets := clientSets m;
     sockets := sockets m; activeStreams := v;
     maxConcurrentAgents := maxConcurrentAgents m; activeAgentCount := activeAgentCount m;
     slotQueue := slotQueue m; tasks := tasks m; removals := removals m;
     nextUuid := nextUuid m; nextTask := nextTask m; nextSocket := nextSocket m;
     nextSet := nextSet m; nextRemoval := nextRemoval m; clock := clock m |}.

Definition set_activeAgentCount v (m : Manager) : Manager :=
  {| heap := heap m; sessions := sessions m; clients := clients m; clientSets := clientSets m;
     sockets := sockets m; activeStreams := activeStreams m;
     maxConcurrentAgents := maxConcurrentAgents m; activeAgentCount := v;
     slotQueue := slotQueue m; tasks := tasks m; removals := removals m;
     nextUuid := nextUuid m; nextTask := nextTask m; nextSocket := nextSocket m;
     nextSet := nextSet m; nextRemoval := nextRemoval m; clock := clock m |}.

Definition set_slotQueue v (m : Manager) : Manager :=
  {| heap := heap m; sessions := sessions m; clients := clients m; clientSets := clientSets m;
     sockets := sockets m; activeStreams := activeStreams m;
     maxConcurrentAgents := maxConcurrentAgents m; activeAgentCount := activeAgentCount m;
     slotQueue := v; tasks := tasks m; removals := removals m;
     nextUuid := nextUuid m; nextTask := nextTask m; nextSocket := nextSocket m;
     nextSet := nextSet m; nextRemoval := nextRemoval m; clock := clock m |}.

Definition set_tasks v (m : Manager) : Manager :=
  {| heap := heap m; sessions := sessions m; clients := clients m; clientSets := clientSets m;
     sockets := sockets m; activeStreams := activeStreams m;
     maxConcurrentAgents := maxConcurrentAgents m; activeAgentCount := activeAgentCount m;
     slotQueue := slotQueue m; tasks := v; removals := removals m;
     nextUuid := nextUuid m; nextTask := nextTask m; nextSocket := nextSocket m;
     nextSet := nextSet m; nextRemoval := nextRemoval m; clock := clock m |}.

Definition set_removals v (m : Manager) : Manager :=
  {| heap := heap m; sessions := sessions m; clients := clients m; clientSets := clientSets m;
     sockets := sockets m; activeStreams := activeStreams m;
     maxConcurrentAgents := maxConcurrentAgents m; activeAgentCount := activeAgentCount m;
     slotQueue := slotQueue m; tasks := tasks m; removals := v;
     nextUuid := nextUuid m; nextTask := nextTask m; nextSocket := nextSocket m;
     nextSet := nextSet m; nextRemoval := nextRemoval m; clock := clock m |}.

Definition set_nextUuid v (m : Manager) : Manager :=
  {| heap := heap m; sessions := sessions m; clients := clients m; clientSets := clientSets m;
     sockets := sockets m; activeStreams := activeStreams m;
     maxConcurrentAgents := maxConcurrentAgents m; activeAgentCount := activeAgentCount m;
     slotQueue := slotQueue m; tasks := tasks m; removals := removals m;
     nextUuid := v; nextTask := nextTask m; nextSocket := nextSocket m;
     nextSet := nextSet m; nextRemoval := nextRemoval m; clock := clock m |}.

Definition set_nextTask v (m : Manager) : Manager :=
  {| heap := heap m; sessions := sessions m; clients := clients m; clientSets := clientSets m;
     sockets := sockets m; activeStreams := activeStreams m;
     maxConcurrentAgents := maxConcurrentAgents m; activeAgentCount := activeAgentCount m;
     slotQueue := slotQueue m; tasks := tasks m; removals := removals m;
     nextUuid := nextUuid m; nextTask := v; nextSocket := nextSocket m;
     nextSet := nextSet m; nextRemoval := nextRemoval m; clock := clock m |}.

Definition set_nextSocket v (m : Manager) : Manager :=
  {| heap := heap m; sessions := sessions m; clients := clients m; clientSets := clientSets m;
     sockets := sockets m; activeStreams := activeStreams m;
     maxConcurrentAgents := maxConcurrentAgents m; activeAgentCount := activeAgentCount m;
     slotQueue := slotQueue m; tasks := tasks m; removals := removals m;
     nextUuid := nextUuid m; nextTask := nextTask m; nextSocket := v;
     nextSet := nextSet m; nextRemoval := nextRemoval m; clock := clock m |}.

Definition set_nextSet v (m : Manager) : Manager :=
  {| heap := heap m; sessions := sessions m; clients := clients m; clientSets := clientSets m;
     sockets := sockets m; activeStreams := activeStreams m;
     maxConcurrentAgents := maxConcurrentAgents m; activeAgentCount := activeAgentCount m;
     slotQueue := slotQueue m; tasks := tasks m; removals := removals m;
     nextUuid := nextUuid m; nextTask := nextTask m; nextSocket := nextSocket m;
     nextSet := v; nextRemoval := nextRemoval m; clock := clock m |}.

Definition set_nextRemoval v (m : Manager) : Manager :=
  {| heap := heap m; sessions := sessions m; clients := clients m; clientSets := clientSets m;
     sockets := sockets m; activeStreams := activeStreams m;
     maxConcurrentAgents := maxConcurrentAgents m; activeAgentCount := activeAgentCount m;
     slotQueue := slotQueue m; tasks := tasks m; removals := removals m;
     nextUuid := nextUuid m; nextTask := nextTask m; nextSocket := nextSocket m;
     nextSet := nextSet m; nextRemoval := v; clock := clock m |}.

Definition set_clock v (m : Manager) : Manager :=
  {| heap := heap m; sessions := sessions m; clients := clients m; clientSets := clientSets m;
     sockets := sockets m; activeStreams := activeStreams m;
     maxConcurrentAgents := maxConcurrentAgents m; activeAgentCount := activeAgentCount m;
     slotQueue := slotQueue m; tasks := tasks m; removals := removals m;
     nextUuid := nextUuid m; nextTask := nextTask m; nextSocket := nextSocket m;
     nextSet := nextSet m; nextRemoval := nextRemoval m; clock := v |}.

(** [new SessionManager()] with [process.env.AGENT_MAX_CONCURRENCY = env]. *)
Definition newManager (env : option string) : Manager :=
  {| heap := ∅; sessions := ∅; clients := ∅; clientSets := ∅; sockets := ∅;
     activeStreams := ∅; maxConcurrentAgents := clampConcurrency env;
     activeAgentCount := 0; slotQueue := []; tasks := ∅; removals := ∅;
     nextUuid := 0; nextTask := 0; nextSocket := 0; nextSet := 0; nextRemoval := 0;
     clock := 0 |}.

(** ** Effects: the manager state and thrown exceptions *)

Inductive Exn : Type :=
| SessionManagerError (text : string) (statusCode : Z) (code : string)
| Error (text : string).

Definition exn_message (e : Exn) : string :=
  match e with
  | SessionManagerError t _ _ => t
  | Error t => t
  end.

Inductive Completion (A : Type) : Type :=
| Normal (a : A)
| Throw (e : Exn).
Arguments Normal {A} a.
Arguments Throw {A} e.

(** A method body: from the state to how it completes and the state it
    leaves.  A [Throw] keeps every mutation made before it. *)
Definition M (A : Type) : Type := Manager -> Completion A * Manager.

Definition ret {A} (a : A) : M A := fun m => (Normal a, m).

Definition bind {A B} (c : M A) (k : A -> M B) : M B :=
  fun m =>
    match c m with
    | (Normal a, m') => k a m'
    | (Throw e, m') => (Throw e, m')
    end.

Definition throw {A} (e : Exn) : M A := fun m => (Throw e, m).
Definition gets {A} (f : Manager -> A) : M A := fun m => (Normal (f m), m).
Definition modify (f : Manager -> Manager) : M unit := fun m => (Normal tt, f m).

#[global] Instance M_ret : MRet M := @ret.
#[global] Instance M_bind : MBind M := fun A B k c => bind c k.

(** [try { body } finally { fin }] *)
Definition try_finally {A} (body : M A) (fin : M unit) : M A :=
  fun m =>
    match body m with
    | (r, m') =>
        match fin m' with
        | (Normal _, m'') => (r, m'')
        | (Throw e, m'') => (Throw e, m'')
        end
    end.

(** The completion of [body] as a value. *)
Definition attempt {A} (body : M A) : M (Completion A) :=
  fun m => match body m with (r, m') => (Normal r, m') end.

(** [void body]: the promise of an [async] call is dropped, and with it a
    rejection. *)
Definition void {A} (body : M A) : M unit :=
  fun m => (Normal tt, snd (body m)).

Definition randomUUID : M nat :=
  fun m => (Normal (nextUuid m), set_nextUuid (S (nextUuid m)) m).

Definition Date_now : M Z := gets clock.

(** ** The session store *)

(** [this.sessions.get(sessionId)] *)
Definition sessions_get (sessionId : nat) (m : Manager) : option Session :=
  if decide (sessionId ∈ sessions m) then heap m !! sessionId else None.

(** [this.sessions.has(sessionId)] *)
Definition sessions_has (sessionId : nat) (m : Manager) : bool :=
  match sessions_get sessionId m with Some _ => true | None => false end.

(** An assignment to fields of the [Session] object [sessionId]. *)
Definition assign (sessionId : nat) (f : Session -> Session) : M unit :=
  modify (fun m => set_heap (alter f sessionId (heap m)) m).

Definition getSession (sessionId : nat) : M (option Session) :=
  gets (sessions_get sessionId).

(** ** The subscriber registry *)

Definition socket_send (msg : Message) (s : Socket) : Socket :=
  {| readyState := readyState s; sent := sent s ++ [msg]; closes := closes s;
     handlers := handlers s |}.

(** [socket.close(code, reason)]: an open socket starts closing. *)
Definition socket_close (code : Z) (reason : string) (s : Socket) : Socket :=
  {| readyState := match readyState s with OPEN => CLOSING | r => r end;
     sent := sent s; closes := closes s ++ [(code, reason)]; handlers := handlers s |}.

Definition set_readyState (r : ReadyState) (s : Socket) : Socket :=
  {| readyState := r; sent := sent s; closes := closes s; handlers := handlers s |}.

Definition set_handlers (h : option (nat * nat)) (s : Socket) : Socket :=
  {| readyState := readyState s; sent := sent s; closes := closes s; handlers := h |}.

(** [set.delete(socket)] *)
Definition set_delete (k : nat) (l : list nat) : list nat :=
  List.filter (fun x => negb (Nat.eqb x k)) l.

(** [set.add(socket)] *)
Definition set_add (k : nat) (l : list nat) : list nat :=
  if existsb (Nat.eqb k) l then l else l ++ [k].

(** One turn of the loop of [broadcast] over the [Set] object [r]. *)
Definition broadcast_one (r : nat) (msg : Message) (m : Manager) (k : nat) : Manager :=
  match sockets m !! k with
  | Some s =>
      match readyState s with
      | OPEN => set_sockets (alter (socket_send msg) k (sockets m)) m
      | CLOSING | CLOSED => set_clientSets (alter (set_delete k) r (clientSets m)) m
      | CONNECTING => m
      end
  | None => m
  end.

(** [broadcast(sessionId, payload)] *)
Definition broadcast (sessionId : nat) (payload : Message) : M unit :=
  modify (fun m =>
    match clients m !! sessionId with
    | None => m
    | Some r => foldl (broadcast_one r payload) m (default [] (clientSets m !! r))
    end).

(** [serializeSession] copies every field; the snapshot is the record. *)
Definition serializeSession (session : Session) : Session := session.

(** [broadcastSnapshot(sessionId)] *)
Definition broadcastSnapshot (sessionId : nat) : M unit :=
  session ← gets (sessions_get sessionId);
  match session with
  | None => ret tt
  | Some session => broadcast sessionId (MsgSnapshot (serializeSession session))
  end.

(** ** Events and status *)

Definition not_found (what : string) (sessionId : nat) : Exn :=
  Error (what ++ ": session " ++ pretty sessionId ++ " not found.")%string.

(** [publishEvent(sessionId, payload)] *)
Definition publishEvent (sessionId : nat) (lvl : Level) (msg : string)
    (det : option (list (string * json))) : M SessionEvent :=
  session ← gets (sessions_get sessionId);
  match session with
  | None => throw (not_found "Cannot publish event" sessionId)
  | Some _ =>
      uuid ← randomUUID;
      now ← Date_now;
      let event := {| event_id := uuid; timestamp := now; level := lvl;
                      message := msg; details := det |} in
      assign sessionId (fun s => set_events (events s ++ [event]) (set_updatedAt now s)) ;;
      broadcast sessionId (MsgEvent event) ;;
      ret event
  end.

(** [updateStatus(sessionId, status)] *)
Definition updateStatus (sessionId : nat) (st : SessionStatus) : M unit :=
  session ← gets (sessions_get sessionId);
  match session with
  | None => throw (not_found "Cannot update status" sessionId)
  | Some _ =>
      now ← Date_now;
      assign sessionId (fun s => set_updatedAt now (set_status st s)) ;;
      broadcast sessionId (MsgStatus st now)
  end.

(** [updateSessionMetadata(sessionId, mutator)] *)
Definition updateSessionMetadata (sessionId : nat) (mutator : Session -> Session) : M unit :=
  session ← gets (sessions_get sessionId);
  match session with
  | None => ret tt
  | Some _ =>
      now ← Date_now;
      assign sessionId (fun s => set_updatedAt now (mutator s))
  end.

(** ** The admission controller *)

Definition alter_task (tid : nat) (f : RunTask -> RunTask) : M unit :=
  modify (fun m => set_tasks (alter f tid (tasks m)) m).

(** [acquireAgentSlot()] up to its [await], called by run [tid]: the program
    point the run is left at. *)
Definition acquireAgentSlot (tid : nat) : M RunPc :=
  count ← gets activeAgentCount;
  limit ← gets maxConcurrentAgents;
  if count <? limit then
    modify (set_activeAgentCount (count + 1)) ;;
    ret AwaitSlotGranted
  else
    modify (fun m => set_slotQueue (slotQueue m ++ [tid]) m) ;;
    ret AwaitSlotQueued.

(** The rest of [acquireAgentSlot()] once the queued promise is resolved. *)
Definition acquireAgentSlot_resumed : M RunPc :=
  modify (fun m => set_activeAgentCount (activeAgentCount m + 1) m) ;;
  ret AwaitSlotGranted.

(** [releaseAgentSlot()]: calling the [resolve] that was queued first makes
    its run ready to continue. *)
Definition releaseAgentSlot : M unit :=
  modify (fun m => set_activeAgentCount (Z.max 0 (activeAgentCount m - 1)) m) ;;
  queue ← gets slotQueue;
  match queue with
  | [] => ret tt
  | next :: rest =>
      modify (set_slotQueue rest) ;;
      alter_task next (set_pc AwaitSlotWoken)
  end.

(** ** The event normalizer and the orchestrator *)

Section Orchestrator.

(** [JSON.parse]: a built-in of the platform; [None] when it throws. *)
Variable JSON_parse : string -> option json.

(** [parseAgentStructuredOutput(raw)] of [utils/codex.ts]: the parsed value
    itself when it passes the shape check. *)
Definition parseAgentStructuredOutput (raw : string) : option json :=
  match JSON_parse raw with
  | Some parsed => if isAgentStructuredOutput parsed then Some parsed else None
  | None => None
  end.

Definition str_prop (k : string) (v : json) : string :=
  match prop k v with Some (JStr s) => s | _ => "" end.

(** The [details] of the event that reports a structured output. *)
Definition detailPayload (structured : json) : list (string * json) :=
  [ ("inferenceStatus", or_null (prop "inferenceStatus" structured));
    ("summary", or_null (prop "summary" structured));
    ("flag", or_null (prop "flag" structured));
    ("solveCodePath", or_null (prop "solveCodePath" structured));
    ("writeUpPath", or_null (prop "writeUpPath" structured)) ]
  ++ (if truthy (prop "solutionFiles" structured)
      then [("solutionFiles", or_null (prop "solutionFiles" structured))] else [])
  ++ (if truthy (prop "nextSteps" structured)
      then [("nextSteps", or_null (prop "nextSteps" structured))] else []).

(** [handleAgentMessage(sessionId, item)] with [item.text = text] *)
Definition handleAgentMessage (sessionId : nat) (text : string) : M unit :=
  match parseAgentStructuredOutput text with
  | None =>
      publishEvent sessionId info "Agent response"
        (Some [("content", JStr (truncate text 600))]) ;;
      ret tt
  | Some structured =>
      updateSessionMetadata sessionId
        (fun session => set_error None (set_result (Some structured) session)) ;;
      let inferenceStatus := str_prop "inferenceStatus" structured in
      let lvl :=
        if String.eqb inferenceStatus "solved" then info
        else if String.eqb inferenceStatus "failed" then level_error
        else warning in
      publishEvent sessionId lvl
        ("Agent reported status: " ++ inferenceStatus)%string
        (Some (detailPayload structured)) ;;
      broadcast sessionId (MsgAgentResult structured) ;;
      broadcastSnapshot sessionId ;;
      if String.eqb inferenceStatus "solved" then updateStatus sessionId completed
      else if String.eqb inferenceStatus "failed" then updateStatus sessionId awaiting_hint
      else updateStatus sessionId awaiting_hint
  end.

(** [handleCommandExecution(sessionId, item, phase)] *)
Definition handleCommandExecution (sessionId : nat)
    (command aggregated_output : string) (exit_code : option Z) (item_status : string)
    (phase : ItemEventPhase) : M unit :=
  let baseDetails :=
    [ ("command", JStr command); ("status", JStr item_status) ]
    ++ (if Nat.eqb (String.length aggregated_output) 0 then []
        else [("output", JStr (truncate aggregated_output 600))])
    ++ (match exit_code with Some c => [("exitCode", JNum c)] | None => [] end) in
  let lvl := if String.eqb item_status "failed" then level_error else task in
  publishEvent sessionId lvl
    (match phase with
     | started => "Executing command: " ++ command
     | _ => "Command " ++ phase_name phase ++ ": " ++ command
     end)%string
    (Some baseDetails) ;;
  ret tt.

(** [handleMcpToolCall(sessionId, item, phase)] *)
Definition handleMcpToolCall (sessionId : nat) (server tool item_status : string)
    (tool_result tool_error : option json) (phase : ItemEventPhase) : M unit :=
  let lvl := if String.eqb item_status "failed" then level_error else info in
  let det :=
    [ ("server", JStr server); ("tool", JStr tool); ("status", JStr item_status);
      ("phase", JStr (phase_name phase)) ]
    ++ (if truthy tool_result then [("result", or_null tool_result)] else [])
    ++ (if truthy tool_error then [("error", or_null tool_error)] else []) in
  publishEvent sessionId lvl
    ("MCP tool call " ++ phase_name phase ++ ": " ++ tool)%string (Some det) ;;
  ret tt.

(** [handleItemEvent(sessionId, event, phase)] with [event.item = item] *)
Definition handleItemEvent (sessionId : nat) (item : ThreadItem)
    (phase : ItemEventPhase) : M unit :=
  match item with
  | command_execution command aggregated_output exit_code item_status =>
      handleCommandExecution sessionId command aggregated_output exit_code item_status phase
  | file_change changes item_status =>
      match phase with
      | phase_completed =>
          publishEvent sessionId info "Agent applied file changes."
            (Some [("status", JStr item_status); ("changes", changes)]) ;;
          ret tt
      | _ => ret tt
      end
  | mcp_tool_call server tool item_status tool_result tool_error =>
      handleMcpToolCall sessionId server tool item_status tool_result tool_error phase
  | todo_list items =>
      publishEvent sessionId info
        (match phase with
         | phase_completed => "Agent plan finalised."
         | _ => "Agent plan updated."
         end)
        (Some [("items", items); ("phase", JStr (phase_name phase))]) ;;
      ret tt
  | agent_message text =>
      match phase with
      | phase_completed => handleAgentMessage sessionId text
      | _ =>
          publishEvent sessionId info "Agent update"
            (Some [("content", JStr (truncate text 400));
                   ("phase", JStr (phase_name phase))]) ;;
          ret tt
      end
  | reasoning text =>
      publishEvent sessionId info "Agent reasoning update."
        (Some [("content", JStr (truncate text 400));
               ("phase", JStr (phase_name phase))]) ;;
      ret tt
  | web_search query =>
      publishEvent sessionId task "Agent performing web search."
        (Some [("query", JStr query); ("phase", JStr (phase_name phase))]) ;;
      ret tt
  | item_error item_message =>
      publishEvent sessionId level_error "Agent reported an error."
        (Some [("message", JStr item_message)]) ;;
      updateStatus sessionId awaiting_hint
  | item_other => ret tt
  end.

(** [handleThreadEvent(sessionId, event)] *)
Definition handleThreadEvent (sessionId : nat) (event : ThreadEvent) : M unit :=
  match event with
  | thread_started thread_id =>
      updateSessionMetadata sessionId (set_threadId (Some thread_id)) ;;
      publishEvent sessionId info "Codex thread established."
        (Some [("threadId", JStr thread_id)]) ;;
      broadcastSnapshot sessionId
  | turn_started =>
      publishEvent sessionId task "Agent turn started." None ;;
      ret tt
  | turn_completed usage =>
      publishEvent sessionId info "Agent turn completed." (Some usage) ;;
      ret tt
  | turn_failed error_message =>
      publishEvent sessionId level_error "Agent turn failed."
        (Some [("message", JStr error_message)]) ;;
      updateStatus sessionId awaiting_hint ;;
      updateSessionMetadata sessionId (set_error (Some error_message))
  | item_started item => handleItemEvent sessionId item started
  | item_updated item => handleItemEvent sessionId item updated
  | item_completed item => handleItemEvent sessionId item phase_completed
  | stream_error error_text =>
      publishEvent sessionId level_error error_text None ;;
      updateStatus sessionId awaiting_hint
  | event_other => ret tt
  end.

(** ** [runAgentSession] *)

Definition task_cancelled (tid : nat) (m : Manager) : bool :=
  match tasks m !! tid with Some t => run_cancelled t | None => false end.

(** [runAgentSession(sessionId, options)] up to its first [await], which is
    [await this.acquireAgentSlot()]. *)
Definition runAgentSession (sessionId : nat) (is_hint : bool)
    (hint_text : option string) : M unit :=
  controller ← gets (fun m => activeStreams m !! sessionId);
  match controller with
  | Some _ => ret tt
  | None =>
      session ← gets (sessions_get sessionId);
      match session with
      | None => ret tt
      | Some session =>
          if is_hint && negb (thread_established session) then
            throw (SessionManagerError "Cannot run hint without an established thread."
                     409 "SESSION_THREAD_UNAVAILABLE")
          else
            count ← gets activeAgentCount;
            limit ← gets maxConcurrentAgents;
            (if limit <=? count then
               publishEvent sessionId info
                 "Agent run queued awaiting available execution slot."
                 (Some [("maxConcurrentAgents", JNum limit)]) ;;
               ret tt
             else ret tt) ;;
            tid ← gets nextTask;
            modify (set_nextTask (S tid)) ;;
            point ← acquireAgentSlot tid;
            modify (fun m =>
              set_tasks (<[tid := {| run_session := sessionId; isHint := is_hint;
                                     hint := hint_text; pc := point;
                                     run_cancelled := false; thread := None |}]>
                           (tasks m)) m)
      end
  end.

(** The outer [finally]: the permit goes back and the call is over. *)
Definition run_exit (tid : nat) : M unit :=
  releaseAgentSlot ;;
  alter_task tid (set_pc Finished).

(** A stretch of the outer [try] block between two [await]s: [Some point]
    when it reaches the next [await], [None] when it returns. *)
Definition outer_try (tid : nat) (body : M (option RunPc)) : M unit :=
  r ← attempt body;
  match r with
  | Normal (Some point) => alter_task tid (set_pc point)
  | Normal None => run_exit tid
  | Throw e => run_exit tid ;; throw e
  end.

(** From [updateStatus(sessionId, "running")] to [await thread.runStreamed]. *)
Definition start_run (tid : nat) (t : RunTask) : M (option RunPc) :=
  let sessionId := run_session t in
  updateStatus sessionId running ;;
  updateSessionMetadata sessionId
    (fun state => (if isHint t then set_result None else (fun s => s)) (set_error None state)) ;;
  publishEvent sessionId info
    (if isHint t then "Processing operator hint with Codex agent."
     else "Starting Codex agent run.")
    (Some [("source", JStr (if isHint t then "hint" else "initial"))]) ;;
  currentSession ← gets (fun m => heap m !! sessionId);
  alter_task tid (set_thread
    (match currentSession with
     | Some cs =>
         if thread_established cs then Some (resumeThread (default "" (threadId cs)))
         else Some startThread
     | None => Some startThread
     end)) ;;
  ret (Some AwaitRunStreamed).

(** After the permit: from [this.sessions.get(sessionId)] to the prompt.  A
    hint with text builds its prompt in place; otherwise [reqPrompt] is
    awaited. *)
Definition admitted (tid : nat) (t : RunTask) : M (option RunPc) :=
  currentSession ← gets (sessions_get (run_session t));
  match currentSession with
  | None => ret None
  | Some _ =>
      if isHint t && match hint t with
                     | Some h => negb (Nat.eqb (String.length h) 0)
                     | None => false
                     end
      then start_run tid t
      else ret (Some AwaitPrompt)
  end.

(** After [runStreamed]: the controller is registered and the loop asks for
    the first item. *)
Definition open_stream (tid : nat) (t : RunTask) : M (option RunPc) :=
  modify (fun m => set_activeStreams (<[run_session t := tid]> (activeStreams m)) m) ;;
  ret (Some AwaitNext).

(** The [catch] block of the stream loop. *)
Definition stream_catch (tid sessionId : nat) (text : string) : M unit :=
  was_cancelled ← gets (task_cancelled tid);
  has ← gets (sessions_has sessionId);
  if was_cancelled || negb has then ret tt
  else
    publishEvent sessionId level_error text None ;;
    updateStatus sessionId awaiting_hint ;;
    updateSessionMetadata sessionId (set_error (Some text)).

(** The [finally] block of the stream loop. *)
Definition stream_finally (tid sessionId : nat) : M unit :=
  modify (fun m => set_activeStreams (delete sessionId (activeStreams m)) m) ;;
  was_cancelled ← gets (task_cancelled tid);
  has ← gets (sessions_has sessionId);
  if negb was_cancelled && has then
    latest ← gets (sessions_get sessionId);
    (match latest with
     | Some l =>
         match status l with
         | running => updateStatus sessionId awaiting_hint
         | _ => ret tt
         end
     | None => ret tt
     end) ;;
    broadcastSnapshot sessionId
  else ret tt.

(** Leaving the stream loop: [body] is what still runs inside the inner
    [try]/[catch]; both [finally] blocks follow. *)
Definition leave_stream (tid sessionId : nat) (body : M unit) : M unit :=
  try_finally (try_finally body (stream_finally tid sessionId)) (run_exit tid).

Definition default_stream_error : string := "Unexpected Codex streaming error.".

(** One turn of [for await (const event of events)]. *)
Definition stream_item (tid : nat) (t : RunTask) (event : ThreadEvent) : M unit :=
  let sessionId := run_session t in
  has ← gets (sessions_has sessionId);
  if negb has then
    alter_task tid (set_cancelled true) ;;
    alter_task tid (set_pc (AwaitIteratorReturn None))
  else
    r ← attempt (handleThreadEvent sessionId event);
    match r with
    | Normal _ => ret tt
    | Throw e => alter_task tid (set_pc (AwaitIteratorReturn (Some (exn_message e))))
    end.

(** The continuation of run [tid] after the [await] it is suspended at. *)
Definition resumeRun (tid : nat) (t : RunTask) : M unit :=
  match pc t with
  | AwaitSlotWoken =>
      point ← acquireAgentSlot_resumed;
      alter_task tid (set_pc point)
  | AwaitSlotGranted => outer_try tid (admitted tid t)
  | AwaitPrompt => outer_try tid (start_run tid t)
  | AwaitRunStreamed => outer_try tid (open_stream tid t)
  | AwaitIteratorReturn thrown =>
      leave_stream tid (run_session t)
        (match thrown with
         | Some text => stream_catch tid (run_session t) text
         | None => ret tt
         end)
  | AwaitSlotQueued | AwaitNext | Finished => ret tt
  end.

(** ** Entry points *)

(** [createSession(problem, runtime)]; the result is the new session's id. *)
Definition createSession (pb : ProblemMetadata) (workspace : string)
    (artifact : option string) : M nat :=
  now ← Date_now;
  uuid ← randomUUID;
  let session :=
    {| session_id := uuid; createdAt := now; updatedAt := now; status := pending;
       problem := pb; workspacePath := workspace; artifactPath := artifact;
       threadId := None; result := None; events := []; error := None |} in
  modify (fun m => set_sessions ({[uuid]} ∪ sessions m) (set_heap (<[uuid := session]> (heap m)) m)) ;;
  broadcastSnapshot uuid ;;
  publishEvent uuid info "Session created and workspace prepared."
    (Some [("workspacePath", JStr workspace);
           ("artifactPath", match artifact with Some a => JStr a | None => JNull end)]) ;;
  void (runAgentSession uuid false None) ;;
  ret uuid.

(** [submitHint(sessionId, hint)] *)
Definition submitHint (sessionId : nat) (hint_text : string) : M unit :=
  session ← gets (sessions_get sessionId);
  match session with
  | None =>
      throw (SessionManagerError ("Session " ++ pretty sessionId ++ " not found.")%string
               404 "SESSION_NOT_FOUND")
  | Some session =>
      if negb (thread_established session) then
        throw (SessionManagerError
                 "Session has not established a Codex thread yet. Wait for the initial run to finish."
                 409 "SESSION_THREAD_UNAVAILABLE")
      else
        controller ← gets (fun m => activeStreams m !! sessionId);
        match controller with
        | Some _ =>
            throw (SessionManagerError
                     "Session is already processing. Try again after the current run completes."
                     409 "SESSION_BUSY")
        | None =>
            let normalizedHint := trim hint_text in
            publishEvent sessionId task "Operator hint received."
              (Some [("hint", JStr (truncate normalizedHint 400))]) ;;
            updateStatus sessionId pending ;;
            updateSessionMetadata sessionId (set_result None) ;;
            void (runAgentSession sessionId true (Some normalizedHint))
        end
  end.

(** [removeSession] from [const session = this.sessions.get(sessionId)] on. *)
Definition removeSession_tail (sessionId : nat) : M bool :=
  session ← gets (sessions_get sessionId);
  match session with
  | None => ret false
  | Some _ =>
      now ← Date_now;
      assign sessionId (fun s => set_updatedAt now (set_status cancelled s)) ;;
      broadcastSnapshot sessionId ;;
      modify (fun m => set_sessions (sessions m ∖ {[sessionId]}) m) ;;
      socks ← gets (fun m => clients m !! sessionId);
      (match socks with
       | Some r =>
           members ← gets (fun m => default [] (clientSets m !! r));
           modify (fun m =>
             set_sockets
               (foldl (fun acc k => alter (socket_close 1000 "Session cancelled") k acc)
                      (sockets m) members) m) ;;
           modify (fun m => set_clients (delete sessionId (clients m)) m)
       | None => ret tt
       end) ;;
      ret true
  end.

(** [removeSession(sessionId)] up to [await controller.cancel()]: [Some b]
    when it has returned [b], [None] when it is suspended.  [cancel()] sets
    the [cancelled] flag of the run that owns the controller. *)
Definition removeSession (sessionId : nat) : M (option bool) :=
  controller ← gets (fun m => activeStreams m !! sessionId);
  match controller with
  | Some tid =>
      alter_task tid (set_cancelled true) ;;
      rid ← gets nextRemoval;
      modify (fun m => set_removals (<[rid := sessionId]> (removals m)) (set_nextRemoval (S rid) m)) ;;
      ret None
  | None =>
      b ← removeSession_tail sessionId;
      ret (Some b)
  end.

(** The rest of [removeSession] after [await controller.cancel()]. *)
Definition removeSession_resumed (rid sessionId : nat) : M bool :=
  modify (fun m => set_removals (delete rid (removals m)) m) ;;
  modify (fun m => set_activeStreams (delete sessionId (activeStreams m)) m) ;;
  removeSession_tail sessionId.

(** [registerClient(sessionId, socket)] for a socket that has just been
    upgraded (open, nothing sent yet). *)
Definition registerClient (sessionId : nat) : M nat :=
  k ← gets nextSocket;
  modify (fun m =>
    set_sockets (<[k := {| readyState := OPEN; sent := []; closes := []; handlers := None |}]>
                   (sockets m)) (set_nextSocket (S k) m)) ;;
  session ← gets (sessions_get sessionId);
  match session with
  | None =>
      modify (fun m =>
        set_sockets (alter (fun s => socket_close 1008 "Session not found"
                                       (socket_send (MsgError "Session not found") s))
                           k (sockets m)) m) ;;
      ret k
  | Some session =>
      existing ← gets (fun m => clients m !! sessionId);
      r ← match existing with
          | Some r => ret r
          | None =>
              r ← gets nextSet;
              modify (fun m => set_clientSets (<[r := []]> (clientSets m)) (set_nextSet (S r) m)) ;;
              ret r
          end;
      modify (fun m => set_clientSets (alter (set_add k) r (clientSets m)) m) ;;
      modify (fun m => set_clients (<[sessionId := r]> (clients m)) m) ;;
      modify (fun m => set_sockets (alter (set_handlers (Some (sessionId, r))) k (sockets m)) m) ;;
      modify (fun m =>
        set_sockets (alter (socket_send (MsgSnapshot (serializeSession session))) k (sockets m)) m) ;;
      ret k
  end.

(** The ["close"] handler installed by [registerClient]. *)
Definition on_close (k : nat) : M unit :=
  modify (fun m => set_sockets (alter (set_readyState CLOSED) k (sockets m)) m) ;;
  h ← gets (fun m => s ← sockets m !! k; handlers s);
  match h with
  | Some (sessionId, r) =>
      modify (fun m => set_clientSets (alter (set_delete k) r (clientSets m)) m) ;;
      members ← gets (fun m => default [] (clientSets m !! r));
      match members with
      | [] => modify (fun m => set_clients (delete sessionId (clients m)) m)
      | _ => ret tt
      end
  | None => ret tt
  end.

(** The ["error"] handler installed by [registerClient]. *)
Definition on_error (k : nat) : M unit :=
  h ← gets (fun m => s ← sockets m !! k; handlers s);
  match h with
  | Some (_, r) => modify (fun m => set_clientSets (alter (set_delete k) r (clientSets m)) m)
  | None => ret tt
  end.

(** ** The transition system

    A [Label] is one thing that can happen next: a call of a public method,
    the continuation of a suspended call, an item, the end or a failure of an
    engine stream, a change of a socket, or time passing. *)

Inductive Label : Type :=
| CreateSession (pb : ProblemMetadata) (workspace : string) (artifact : option string)
| SubmitHint (sessionId : nat) (hint_text : string)
| RemoveSession (sessionId : nat)
| RemoveSessionResumed (rid : nat)
| RegisterClient (sessionId : nat)
| Resume (tid : nat)
| RunStreamedRejected (tid : nat) (text : string)
| StreamItem (tid : nat) (event : ThreadEvent)
| StreamEnd (tid : nat)
| StreamError (tid : nat) (text : option string)
| SocketClosing (k : nat)
| SocketClose (k : nat)
| SocketError (k : nat)
| Tick (dt : Z).

Definition exec {A} (c : M A) (m : Manager) : option Manager := Some (snd (c m)).

Definition resumable (p : RunPc) : bool :=
  match p with
  | AwaitSlotWoken | AwaitSlotGranted | AwaitPrompt | AwaitRunStreamed
  | AwaitIteratorReturn _ => true
  | AwaitSlotQueued | AwaitNext | Finished => false
  end.

Definition is_AwaitNext (p : RunPc) : bool :=
  match p with AwaitNext => true | _ => false end.

Definition is_AwaitRunStreamed (p : RunPc) : bool :=
  match p with AwaitRunStreamed => true | _ => false end.

(** [step l m] is the state after [l], or [None] when [l] cannot happen in
    [m].  A request can happen in every state here; [loop_step] below leaves
    out the requests that the event loop rules out. *)
Definition step (l : Label) (m : Manager) : option Manager :=
  match l with
  | CreateSession pb workspace artifact => exec (createSession pb workspace artifact) m
  | SubmitHint sessionId hint_text => exec (submitHint sessionId hint_text) m
  | RemoveSession sessionId => exec (removeSession sessionId) m
  | RemoveSessionResumed rid =>
      match removals m !! rid with
      | Some sessionId => exec (removeSession_resumed rid sessionId) m
      | None => None
      end
  | RegisterClient sessionId => exec (registerClient sessionId) m
  | Resume tid =>
      match tasks m !! tid with
      | Some t => if resumable (pc t) then exec (resumeRun tid t) m else None
      | None => None
      end
  | RunStreamedRejected tid text =>
      match tasks m !! tid with
      | Some t =>
          if is_AwaitRunStreamed (pc t) then exec (outer_try tid (throw (Error text))) m
          else None
      | None => None
      end
  | StreamItem tid event =>
      match tasks m !! tid with
      | Some t => if is_AwaitNext (pc t) then exec (stream_item tid t event) m else None
      | None => None
      end
  | StreamEnd tid =>
      match tasks m !! tid with
      | Some t =>
          if is_AwaitNext (pc t) then exec (leave_stream tid (run_session t) (ret tt)) m
          else None
      | None => None
      end
  | StreamError tid text =>
      match tasks m !! tid with
      | Some t =>
          if is_AwaitNext (pc t) then
            exec (leave_stream tid (run_session t)
                    (stream_catch tid (run_session t) (default default_stream_error text))) m
          else None
      | None => None
      end
  | SocketClosing k =>
      match sockets m !! k with
      | Some s =>
          match readyState s with
          | CONNECTING | OPEN =>
              Some (set_sockets (alter (set_readyState CLOSING) k (sockets m)) m)
          | _ => None
          end
      | None => None
      end
  | SocketClose k =>
      match sockets m !! k with
      | Some s =>
          match readyState s with
          | CLOSED => None
          | _ => exec (on_close k) m
          end
      | None => None
      end
  | SocketError k =>
      match sockets m !! k with
      | Some s =>
          match readyState s with
          | CLOSED => None
          | _ => exec (on_error k) m
          end
      | None => None
      end
  | Tick dt => if 0 <=? dt then Some (set_clock (clock m + dt) m) else None
  end.

(** The states a manager started with [env] can be in. *)
Inductive reachable (env : option string) : Manager -> Prop :=
| reachable_init : reachable env (newManager env)
| reachable_step l m m' : reachable env m -> step l m = Some m' -> reachable env m'.

(** Running a list of labels; [None] as soon as one cannot happen. *)
Fixpoint run (ls : list Label) (m : Manager) : option Manager :=
  match ls with
  | [] => Some m
  | l :: ls' =>
      match step l m with
      | Some m' => run ls' m'
      | None => None
      end
  end.

(** ** The event loop

    [releaseAgentSlot] is called from the outer [finally] of
    [runAgentSession], which runs after an [await], hence in a promise job;
    the [resolve] it calls queues the continuation of the woken run as a
    promise job.  The event loop empties the job queue before it starts
    another callback, and the requests come from callbacks of their own:
    [createSession], [submitHint] and [removeSession] are called by the HTTP
    handlers of [controller.ts] and by nothing else, [submitHint] and
    [removeSession] by the handler itself, [createSession] by the jobs that
    follow the file-system callback settling [prepareWorkspace].  So no
    request runs between the call of [resolve] and the continuation of the
    run it wakes.  [loop_step] is [step] with this one restriction.  Every
    other order is left free: the continuations of the runs (those that
    follow the return of [acquireAgentSlot] and of [reqPrompt] are promise
    jobs as well, which is not used), the events of the engine, the
    callbacks of the sockets and the clock. *)

Definition is_AwaitSlotWoken (p : RunPc) : bool :=
  match p with AwaitSlotWoken => true | _ => false end.

(** Whether some run was woken by [releaseAgentSlot] and has not continued
    yet. *)
Definition wake_pending (m : Manager) : bool :=
  bool_decide (map_Exists (fun _ (t : RunTask) => is_AwaitSlotWoken (pc t) = true) (tasks m)).

(** The calls that the HTTP handlers make. *)
Definition is_request (l : Label) : bool :=
  match l with
  | CreateSession _ _ _ | SubmitHint _ _ | RemoveSession _ => true
  | _ => false
  end.

(** [step] as the event loop lets it happen: no request while a woken run
    has not continued. *)
Definition loop_step (l : Label) (m : Manager) : option Manager :=
  if is_request l && wake_pending m then None else step l m.

(** The states a manager started with [env] can be in under the event
    loop. *)
Inductive scheduled (env : option string) : Manager -> Prop :=
| scheduled_init : scheduled env (newManager env)
| scheduled_step l m m' : scheduled env m -> loop_step l m = Some m' -> scheduled env m'.

(** Running a list of labels under the event loop. *)
Fixpoint loop_run (ls : list Label) (m : Manager) : option Manager :=
  match ls with
  | [] => Some m
  | l :: ls' =>
      match loop_step l m with
      | Some m' => loop_run ls' m'
      | None => None
      end
  end.

End Orchestrator.

(** * [controller.ts]: the HTTP handlers

    A handler answers with [res.status(...).json(...)]; [res_status] is the
    status and [res_body] what was passed to [json].  The id of the route is
    an identifier of the supply, [None] when the parameter is missing or
    empty. *)

(** What a handler passes to [res.json]. *)
Inductive Body : Type :=
| ErrorBody (error : string)
| ManagerErrorBody (error : string) (code : string)
| MessageBody (message : string).

(** [res.status(res_status).json(res_body)] *)
Record Response : Type := { res_status : Z; res_body : Body }.

(** [req.body ?? {}] *)
Definition or_empty (body : option json) : json :=
  match body with
  | None | Some JNull => JObj []
  | Some v => v
  end.

(** [typeof x !== "string" || x.trim().length === 0] *)
Definition not_filled_string (x : option json) : bool :=
  match x with
  | Some (JStr s) => Nat.eqb (String.length (trim s)) 0
  | _ => true
  end.

Definition validateCreateSessionBody (body : json) : list string :=
  (if not_filled_string (prop "probCategory" body)
   then ["`probCategory` must be a non-empty string."] else [])
  ++ (if not_filled_string (prop "probTitle" body)
      then ["`probTitle` must be a non-empty string."] else [])
  ++ (if not_filled_string (prop "probDescription" body)
      then ["`probDescription` must be a non-empty string."] else [])
  ++ (if not_nullish (prop "probFile" body) && negb (is_string (prop "probFile" body))
      then ["`probFile`, when provided, must be a string (e.g. base64 encoded content)."]
      else []).

(** [submitHint(req, res)]: [id] is [req.params.id], [None] when it is
    missing or empty. *)
Definition submitHint_handler (id : option nat) (body : option json) : M Response :=
  let hint := prop "hint" (or_empty body) in
  match id with
  | None => ret {| res_status := 400; res_body := ErrorBody "Session id is required." |}
  | Some sessionId =>
      match hint with
      | Some (JStr hint_text) =>
          if Nat.eqb (String.length (trim hint_text)) 0 then
            ret {| res_status := 400;
                   res_body := ErrorBody "`hint` must be a non-empty string." |}
          else
            r ← attempt (submitHint sessionId hint_text);
            match r with
            | Throw (SessionManagerError text statusCode code) =>
                ret {| res_status := statusCode; res_body := ManagerErrorBody text code |}
            | Throw (Error _) =>
                ret {| res_status := 500; res_body := ErrorBody "Failed to process hint." |}
            | Normal _ =>
                ret {| res_status := 202; res_body := MessageBody "Hint accepted." |}
            end
      | _ =>
          ret {| res_status := 400;
                 res_body := ErrorBody "`hint` must be a non-empty string." |}
      end
  end.

(** * [utils/workspace.ts]: the directory name of a workspace *)

(** [c.toLowerCase()] on the letters of the ASCII range. *)
Definition to_lower (c : ascii) : ascii :=
  let n := nat_of_ascii c in
  if (Nat.leb 65 n && Nat.leb n 90)%bool then ascii_of_nat (n + 32) else c.

Fixpoint toLowerCase (s : string) : string :=
  match s with
  | String c s' => String (to_lower c) (toLowerCase s')
  | EmptyString => EmptyString
  end.

(** The class [[a-z0-9]]. *)
Definition is_slug_char (c : ascii) : bool :=
  let n := nat_of_ascii c in
  ((Nat.leb 97 n && Nat.leb n 122) || (Nat.leb 48 n && Nat.leb n 57))%bool.

Definition is_dash (c : ascii) : bool := Nat.eqb (nat_of_ascii c) 45.

(** [s.replace(/[^a-z0-9]+/g, "-")]: every maximal run of other characters
    becomes one dash.  [in_run] says that the run has been replaced
    already. *)
Fixpoint replace_runs (in_run : bool) (s : string) : string :=
  match s with
  | String c s' =>
      if is_slug_char c then String c (replace_runs false s')
      else if in_run then replace_runs true s'
      else String "-" (replace_runs true s')
  | EmptyString => EmptyString
  end.

(** [s.replace(/^-+|-+$/g, "")]: the dashes at the start, then those at
    the end. *)
Fixpoint strip_start (s : string) : string :=
  match s with
  | String c s' => if is_dash c then strip_start s' else s
  | EmptyString => EmptyString
  end.

Fixpoint strip_end (s : string) : string :=
  match s with
  | String c s' =>
      match strip_end s' with
      | EmptyString => if is_dash c then EmptyString else String c EmptyString
      | t => String c t
      end
  | EmptyString => EmptyString
  end.

(** [sanitizeTitle(title)] when [Date.now()] is [now]. *)
Definition sanitizeTitle (now : Z) (title : string) : string :=
  let trimmed := toLowerCase (trim title) in
  let normalized := strip_end (strip_start (replace_runs false trimmed)) in
  if (0 <? String.length normalized)%nat then normalized
  else ("challenge-" ++ pretty now)%string.

(** * Definitions used by the statements and the proofs *)

(** ** Following a body *)

(** [preserves R c]: whatever the state, [R] relates it to the state [c]
    leaves. *)
Definition preserves (R : Manager -> Manager -> Prop) {A} (c : M A) : Prop :=
  forall m, R m (snd (c m)).

(** [yields Q c]: whenever [c] completes normally, its value satisfies [Q]. *)
Definition yields {A} (Q : A -> Prop) (c : M A) : Prop :=
  forall m a, fst (c m) = Normal a -> Q a.

(** [tracks sid c P]: on a store that holds session [sid], [c] completes
    normally, the session is still there, and [P] relates its record before
    and after. *)
Definition tracks (sid : nat) {A} (c : M A) (P : Session -> Session -> Prop) : Prop :=
  forall m s, sessions_get sid m = Some s ->
    exists a s', fst (c m) = Normal a /\ sessions_get sid (snd (c m)) = Some s' /\ P s s'.

(** ** What a method leaves untouched *)

(** The admission state (the runs, the counter, the queue and the cap) is
    what it was. *)
Definition same_admission (m m' : Manager) : Prop :=
  tasks m' = tasks m /\ activeAgentCount m' = activeAgentCount m
  /\ slotQueue m' = slotQueue m /\ nextTask m' = nextTask m
  /\ maxConcurrentAgents m' = maxConcurrentAgents m.

(** Nothing but the sockets and the [Set] objects has changed. *)
Definition only_sockets (m m' : Manager) : Prop :=
  heap m' = heap m /\ sessions m' = sessions m /\ clients m' = clients m
  /\ activeStreams m' = activeStreams m
  /\ maxConcurrentAgents m' = maxConcurrentAgents m
  /\ activeAgentCount m' = activeAgentCount m /\ slotQueue m' = slotQueue m
  /\ tasks m' = tasks m /\ removals m' = removals m /\ nextUuid m' = nextUuid m
  /\ nextTask m' = nextTask m /\ nextSocket m' = nextSocket m /\ nextSet m' = nextSet m
  /\ nextRemoval m' = nextRemoval m /\ clock m' = clock m.

(** ** Events *)

(** The event [publishEvent] builds in state [m]. *)
Definition new_event (m : Manager) (lvl : Level) (msg : string)
    (det : option (list (string * json))) : SessionEvent :=
  {| event_id := nextUuid m; timestamp := clock m; level := lvl; message := msg;
     details := det |}.

(** What [publishEvent] does to the record: [events.push(event)] and
    [updatedAt = event.timestamp]. *)
Definition push_event (ev : SessionEvent) (s : Session) : Session :=
  set_events (events s ++ [ev]) (set_updatedAt (timestamp ev) s).

(** ** The store over time *)

(** Every allocated object's id is below the supply. *)
Definition fresh_ok (m : Manager) : Prop :=
  forall sid, is_Some (heap m !! sid) -> (sid < nextUuid m)%nat.

(** [evolves keep_thread m m']: what any stretch of execution may do to the
    store.  Objects are never dropped; an object that is not in the store is
    not written and does not come back; no object in the store becomes
    [cancelled]; and, when [keep_thread] is set, no [threadId] changes. *)
Definition evolves (keep_thread : bool) (m m' : Manager) : Prop :=
  fresh_ok m ->
  fresh_ok m'
  /\ (forall sid s, heap m !! sid = Some s ->
        exists s', heap m' !! sid = Some s'
          /\ (sid ∉ sessions m -> s' = s)
          /\ (keep_thread = true -> threadId s' = threadId s))
  /\ (forall sid, sid ∈ sessions m' -> sid ∈ sessions m \/ heap m !! sid = None)
  /\ (forall sid s', heap m' !! sid = Some s' -> sid ∈ sessions m' ->
        status s' = cancelled ->
        exists s, heap m !! sid = Some s /\ sid ∈ sessions m /\ status s = cancelled).

(** Whether the event is [thread.started]. *)
Definition is_thread_started (ev : ThreadEvent) : bool :=
  match ev with thread_started _ => true | _ => false end.

(** Whether a label leaves every [threadId] as it is. *)
Definition keeps_thread (l : Label) : bool :=
  match l with
  | StreamItem _ ev => negb (is_thread_started ev)
  | _ => true
  end.

(** ** Subscribers *)

(** Socket [k] is an open member of the [Set] object [r]. *)
Definition subscribed (r k : nat) (m : Manager) : Prop :=
  exists members sk, clientSets m !! r = Some members /\ k ∈ members
    /\ sockets m !! k = Some sk /\ readyState sk = OPEN.

(** Socket [k] is open and the last thing sent on it is [msg]. *)
Definition last_sent (msg : Message) (k : nat) (m : Manager) : Prop :=
  exists sk, sockets m !! k = Some sk /\ readyState sk = OPEN /\ last (sent sk) = Some msg.

(** Open members stay open members, and the registry's keys stay. *)
Definition keeps_subscribers (m m' : Manager) : Prop :=
  clients m' = clients m /\ forall r k, subscribed r k m -> subscribed r k m'.

(** ** [createSession] and [removeSession] in parts *)

(** [createSession] in two parts: the allocation of the record, and what
    follows once it is in the store. *)
Definition allocate (pb : ProblemMetadata) (workspace : string) (artifact : option string)
    (m : Manager) : Manager :=
  set_sessions ({[nextUuid m]} ∪ sessions m)
    (set_heap
       (<[nextUuid m :=
            {| session_id := nextUuid m; createdAt := clock m; updatedAt := clock m;
               status := pending; problem := pb; workspacePath := workspace;
               artifactPath := artifact; threadId := None; result := None; events := [];
               error := None |}]> (heap m))
       (set_nextUuid (S (nextUuid m)) m)).

Definition announce (uuid : nat) (workspace : string) (artifact : option string) : M nat :=
  broadcastSnapshot uuid ;;
  publishEvent uuid info "Session created and workspace prepared."
    (Some [("workspacePath", JStr workspace);
           ("artifactPath", match artifact with Some a => JStr a | None => JNull end)]) ;;
  void (runAgentSession uuid false None) ;;
  ret uuid.

(** What is left of [removeSession_tail] once the session is out of the
    store: closing the subscribers. *)
Definition close_subscribers (sessionId : nat) : M bool :=
  socks ← gets (fun m => clients m !! sessionId);
  (match socks with
   | Some r =>
       members ← gets (fun m => default [] (clientSets m !! r));
       modify (fun m =>
         set_sockets
           (foldl (fun acc k => alter (socket_close 1000 "Session cancelled") k acc)
                  (sockets m) members) m) ;;
       modify (fun m => set_clients (delete sessionId (clients m)) m)
   | None => ret tt
   end) ;;
  ret true.

(** The state in which [removeSession_tail] reaches [close_subscribers]. *)
Definition retired (sessionId : nat) (m : Manager) : Manager :=
  let m2 :=
    snd (broadcastSnapshot sessionId
           (snd (assign sessionId
                   (fun s => set_updatedAt (clock m) (set_status cancelled s)) m))) in
  set_sessions (sessions m2 ∖ {[sessionId]}) m2.

(** The loop of [removeSession] over the members of the session's [Set]. *)
Definition close_all (members : list nat) (socks : gmap nat Socket) : gmap nat Socket :=
  foldl (fun acc k => alter (socket_close 1000 "Session cancelled") k acc) socks members.




(** ** Permits *)

(** A run holds a permit from the moment [acquireAgentSlot] has counted it
    until its outer [finally] has run. *)
Definition holds_permit (p : RunPc) : bool :=
  match p with
  | AwaitSlotGranted | AwaitPrompt | AwaitRunStreamed | AwaitNext
  | AwaitIteratorReturn _ => true
  | AwaitSlotQueued | AwaitSlotWoken | Finished => false
  end.

(** Where each run is. *)
Definition pcs (m : Manager) : gmap nat RunPc := pc <$> tasks m.

(** The number of runs that hold a permit. *)
Definition permits_held (m : Manager) : Z :=
  Z.of_nat (size (filter (fun kv : nat * RunPc => holds_permit kv.2 = true) (pcs m))).

(** What a run at [p] counts for. *)
Definition permit_of (p : RunPc) : Z := if holds_permit p then 1 else 0.

(** The ledger, as a property of the four things it reads: every run has
    an id below the supply, the queue lists each queued run once and nothing
    else, and the counter is the number of runs that hold a permit. *)
Definition ledger_on (mp : gmap nat RunPc) (q : list nat) (c : Z) (n : nat) : Prop :=
  (forall tid p, mp !! tid = Some p -> (tid < n)%nat)
  /\ NoDup q
  /\ (forall tid, tid ∈ q -> mp !! tid = Some AwaitSlotQueued)
  /\ c = Z.of_nat (size (filter (fun kv : nat * RunPc => holds_permit kv.2 = true) mp)).

(** The ledger of a state. *)
Definition ledger (m : Manager) : Prop :=
  ledger_on (pcs m) (slotQueue m) (activeAgentCount m) (nextTask m).

(** The admission state up to what a run has recorded besides its place. *)
Definition same_permits (m m' : Manager) : Prop :=
  pcs m' = pcs m /\ activeAgentCount m' = activeAgentCount m
  /\ slotQueue m' = slotQueue m /\ nextTask m' = nextTask m.

(** A state with the ledger is left with the ledger. *)
Definition keeps_ledger (m m' : Manager) : Prop := ledger m -> ledger m'.

(** ** Concrete runs *)

(** The double quote. *)
Definition dq : string := String (ascii_of_nat 34) "".

(** ["k":"v"] and ["k":null] as JSON text *)
Definition text_str (k v : string) : string := (dq ++ k ++ dq ++ ":" ++ dq ++ v ++ dq)%string.
Definition text_null (k : string) : string := (dq ++ k ++ dq ++ ":null")%string.

(** A reply with the seven keys of the output schema, as text and as the
    value [JSON.parse] gives for it. *)
Definition solved_text : string :=
  ("{" ++ text_str "inferenceStatus" "solved" ++ "," ++ text_str "summary" "done" ++ ","
   ++ text_str "flag" "FLAG{test}" ++ "," ++ text_str "solveCode" "print(1)" ++ ","
   ++ text_str "writeUp" "steps" ++ "," ++ text_null "solutionFiles" ++ ","
   ++ text_null "nextSteps" ++ "}")%string.

Definition solved_value : json :=
  JObj [ ("inferenceStatus", JStr "solved"); ("summary", JStr "done");
         ("flag", JStr "FLAG{test}"); ("solveCode", JStr "print(1)");
         ("writeUp", JStr "steps"); ("solutionFiles", JNull); ("nextSteps", JNull) ].

(** A reply that also carries the two keys the handler reads. *)
Definition extra_text : string :=
  ("{" ++ text_str "inferenceStatus" "solved" ++ "," ++ text_str "summary" "done" ++ ","
   ++ text_str "flag" "FLAG{test}" ++ "," ++ text_str "solveCode" "print(1)" ++ ","
   ++ text_str "writeUp" "steps" ++ "," ++ text_null "solutionFiles" ++ ","
   ++ text_null "nextSteps" ++ "," ++ text_str "solveCodePath" "exploit.py" ++ ","
   ++ text_str "writeUpPath" "notes.md" ++ "}")%string.

Definition extra_value : json :=
  JObj [ ("inferenceStatus", JStr "solved"); ("summary", JStr "done");
         ("flag", JStr "FLAG{test}"); ("solveCode", JStr "print(1)");
         ("writeUp", JStr "steps"); ("solutionFiles", JNull); ("nextSteps", JNull);
         ("solveCodePath", JStr "exploit.py"); ("writeUpPath", JStr "notes.md") ].

(** [JSON.parse] on the texts used below: the two replies above parse to the
    objects above; the other texts used are not JSON and make it throw. *)
Definition JSON_parse_demo (raw : string) : option json :=
  if String.eqb raw solved_text then Some solved_value
  else if String.eqb raw extra_text then Some extra_value
  else None.

(** The challenge every session below is created for. *)
Definition heap_playground : ProblemMetadata :=
  {| category := "pwn"; title := "Heap playground"; description := "Pop a shell." |}.

Definition create : Label := CreateSession heap_playground "/work/heap-playground" None.

(** One session, run to the end of a first stream that established thread
    [t1]; the session waits for a hint. *)
Definition first_run_done : list Label :=
  [ create; Resume 0%nat; Resume 0%nat; Resume 0%nat;
    StreamItem 0%nat (thread_started "t1"); StreamEnd 0%nat ].

(** Two hints in a row for session 0, both runs then taken up to the stream
    loop. *)
Definition two_hints : list Label :=
  first_run_done
  ++ [ SubmitHint 0%nat "look at the tcache"; SubmitHint 0%nat "try a double free";
       Resume 1%nat; Resume 1%nat; Resume 2%nat; Resume 2%nat ].

(** With two permits, both held by the runs of two other sessions, two hints
    for session 0: both runs queue. *)
Definition hints_queued : list Label :=
  first_run_done
  ++ [ create; Resume 1%nat; Resume 1%nat; Resume 1%nat;
       create; Resume 2%nat; Resume 2%nat; Resume 2%nat;
       SubmitHint 0%nat "look at the tcache"; SubmitHint 0%nat "try a double free" ].

(** The first of the other runs ends: the run of the first hint is woken and
    goes up to its stream loop. *)
Definition first_hint_streaming : list Label :=
  hints_queued ++ [ StreamEnd 1%nat; Resume 3%nat; Resume 3%nat; Resume 3%nat ].

(** The second of the other runs ends: the run of the second hint is woken
    and goes up to its stream loop too. *)
Definition both_hints_streaming : list Label :=
  first_hint_streaming ++ [ StreamEnd 2%nat; Resume 4%nat; Resume 4%nat; Resume 4%nat ].

(** With one permit: A runs, B queues, A ends and wakes B, C arrives before B
    continues. *)
Definition barging : list Label :=
  [ create; create; Resume 0%nat; Resume 0%nat; Resume 0%nat; StreamEnd 0%nat;
    create; Resume 1%nat ].

(** With one permit: A runs, B and C queue, A ends and wakes B, D arrives. *)
Definition overtaking : list Label :=
  [ create; create; create; Resume 0%nat; Resume 0%nat; Resume 0%nat; StreamEnd 0%nat;
    create ].

(** A first run whose reply reports the challenge solved. *)
Definition solved_run : list Label :=
  [ create; Resume 0%nat; Resume 0%nat; Resume 0%nat;
    StreamItem 0%nat (thread_started "t1");
    StreamItem 0%nat (item_completed (agent_message solved_text));
    StreamEnd 0%nat ].


(** A resumed run whose stream reports another thread. *)
Definition rethreaded : list Label :=
  first_run_done
  ++ [ SubmitHint 0%nat "look at the tcache"; Resume 1%nat; Resume 1%nat;
       StreamItem 1%nat (thread_started "t2") ].

(** A first run whose reply carries [solveCodePath] and [writeUpPath]. *)
Definition extra_run : list Label :=
  [ create; Resume 0%nat; Resume 0%nat; Resume 0%nat;
    StreamItem 0%nat (item_completed (agent_message extra_text)) ].

(** The state after a list of labels, with [JSON_parse_demo]. *)
Definition after (ls : list Label) (env : option string) : Manager :=
  default (newManager env) (run JSON_parse_demo ls (newManager env)).

(** Session 0 right after [create]. *)
Definition created_session : Session :=
  {| session_id := 0; createdAt := 0; updatedAt := 0; status := pending;
     problem := heap_playground; workspacePath := "/work/heap-playground";
     artifactPath := None; threadId := None; result := None;
     events := [ {| event_id := 1; timestamp := 0; level := info;
                    message := "Session created and workspace prepared.";
                    details := Some [("workspacePath", JStr "/work/heap-playground");
                                     ("artifactPath", JNull)] |} ];
     error := None |}.

(** ** The declared shape of a structured output

    The interfaces [AgentGeneratedFile] and [AgentStructuredOutput] of
    [utils/codex.ts], read as predicates on a parsed value: a property typed
    [string | null] holds a string or [null]; an optional one may also be
    missing. *)
Definition string_or_null (x : option json) : Prop :=
  x = Some JNull \/ exists s, x = Some (JStr s).

Definition AgentGeneratedFile (v : json) : Prop :=
  (exists fs, v = JObj fs)
  /\ (exists p, prop "path" v = Some (JStr p))
  /\ (prop "content" v = None \/ string_or_null (prop "content" v))
  /\ (prop "description" v = None \/ string_or_null (prop "description" v)).

Definition AgentInferenceStatus (x : option json) : Prop :=
  x = Some (JStr "solved") \/ x = Some (JStr "awaiting_hint") \/ x = Some (JStr "failed").

Definition AgentStructuredOutput (v : json) : Prop :=
  (exists fs, v = JObj fs)
  /\ AgentInferenceStatus (prop "inferenceStatus" v)
  /\ (exists s, prop "summary" v = Some (JStr s))
  /\ string_or_null (prop "flag" v)
  /\ string_or_null (prop "solveCode" v)
  /\ string_or_null (prop "writeUp" v)
  /\ (prop "solutionFiles" v = Some JNull
      \/ exists l, prop "solutionFiles" v = Some (JArr l) /\ Forall AgentGeneratedFile l)
  /\ (prop "nextSteps" v = Some JNull
      \/ exists l, prop "nextSteps" v = Some (JArr l)
           /\ Forall (fun item => exists s, item = JStr s) l).

(** What the check asks beyond the declared shape: a summary and file paths
    that are not empty. *)
Definition nonempty_texts (v : json) : Prop :=
  prop "summary" v <> Some (JStr "")
  /\ forall l, prop "solutionFiles" v = Some (JArr l) ->
       Forall (fun file => prop "path" file <> Some (JStr "")) l.

(** ** What a step keeps *)

(** [g] bears on the fields a run or a handler assigns: [status],
    [threadId], [result] and [error]. *)
Definition fields_only (g : Session -> Session) : Prop :=
  forall s,
    session_id (g s) = session_id s /\ createdAt (g s) = createdAt s
    /\ updatedAt (g s) = updatedAt s /\ problem (g s) = problem s
    /\ workspacePath (g s) = workspacePath s /\ artifactPath (g s) = artifactPath s
    /\ events (g s) = events s.

(** The store, the clock and the cap are what they were. *)
Definition same_store (m m' : Manager) : Prop :=
  heap m' = heap m /\ sessions m' = sessions m /\ clock m' = clock m
  /\ maxConcurrentAgents m' = maxConcurrentAgents m.

(** The cap is what it was. *)
Definition same_cap (m m' : Manager) : Prop :=
  maxConcurrentAgents m' = maxConcurrentAgents m.

(** [extends s s']: [s'] is [s] with, at most, other values of the fields
    that are assigned ([updatedAt], [status], [threadId], [result], [error])
    and more events at the end. *)
Definition extends (s s' : Session) : Prop :=
  session_id s' = session_id s /\ createdAt s' = createdAt s
  /\ problem s' = problem s /\ workspacePath s' = workspacePath s
  /\ artifactPath s' = artifactPath s /\ events s `prefix_of` events s'.

(** Every record of [m] is on the heap of [m'], extended. *)
Definition grows (m m' : Manager) : Prop :=
  forall sid s, heap m !! sid = Some s ->
    exists s', heap m' !! sid = Some s' /\ extends s s'.

(** The events of [s] are in the order of their time stamps, which lie
    between the creation and the last update of [s]. *)
Definition chronological (s : Session) : Prop :=
  (forall i j a b, (i <= j)%nat -> events s !! i = Some a -> events s !! j = Some b ->
     timestamp a <= timestamp b)
  /\ (forall ev, ev ∈ events s -> createdAt s <= timestamp ev <= updatedAt s).

(** Every record is under its own id, was last updated between its
    creation and now, and is chronological. *)
Definition well_stamped (m : Manager) : Prop :=
  forall sid s, heap m !! sid = Some s ->
    session_id s = sid /\ createdAt s <= updatedAt s <= clock m /\ chronological s.

(** The clock did not go back and, the time stamps being in order, they
    still are and no [updatedAt] went back. *)
Definition ages (m m' : Manager) : Prop :=
  clock m <= clock m'
  /\ (well_stamped m ->
      well_stamped m'
      /\ forall sid s, heap m !! sid = Some s ->
           exists s', heap m' !! sid = Some s' /\ updatedAt s <= updatedAt s').

(** ** The subscriber registry *)

(** What holds of the registry of subscribers in every state the manager
    can be in: an entry is for a session of the store and holds a [Set] of
    its own; a [Set] lists a socket once, and only sockets that were
    registered into it and did not report their closing; the handlers of a
    socket name the session whose entry its [Set] can be. *)
Definition registry_ok (m : Manager) : Prop :=
  (forall sid r, clients m !! sid = Some r ->
     sid ∈ sessions m /\ is_Some (clientSets m !! r))
  /\ (forall sid sid' r,
        clients m !! sid = Some r -> clients m !! sid' = Some r -> sid = sid')
  /\ (forall r members, clientSets m !! r = Some members ->
        (r < nextSet m)%nat /\ NoDup members)
  /\ (forall r members k, clientSets m !! r = Some members -> k ∈ members ->
        exists s sid, sockets m !! k = Some s /\ handlers s = Some (sid, r)
                      /\ readyState s <> CLOSED)
  /\ (forall k s, sockets m !! k = Some s -> (k < nextSocket m)%nat)
  /\ (forall k s sid r, sockets m !! k = Some s -> handlers s = Some (sid, r) ->
        (r < nextSet m)%nat /\ forall sid', clients m !! sid' = Some r -> sid' = sid).

(** A registry in order is left in order. *)
Definition keeps_registry (m m' : Manager) : Prop := registry_ok m -> registry_ok m'.

(** A socket after a write that leaves its handlers, and does not make it
    [CLOSED]. *)
Definition socket_alike (s s' : Socket) : Prop :=
  handlers s' = handlers s /\ (readyState s <> CLOSED -> readyState s' <> CLOSED).

(** [registerClient] in parts.  The socket that was just upgraded: *)
Definition fresh_socket : Socket :=
  {| readyState := OPEN; sent := []; closes := []; handlers := None |}.

(** The state once the socket is there. *)
Definition upgraded (m : Manager) : Manager :=
  set_sockets (<[nextSocket m := fresh_socket]> (sockets m))
    (set_nextSocket (S (nextSocket m)) m).

(** [new Set<WebSocket>()] *)
Definition new_set (m : Manager) : Manager :=
  set_clientSets (<[nextSet m := []]> (clientSets m)) (set_nextSet (S (nextSet m)) m).

(** [clients.add(socket)], [this.clients.set(sessionId, clients)] and the two
    handlers. *)
Definition subscribe (sid r k : nat) (m : Manager) : Manager :=
  set_sockets (alter (set_handlers (Some (sid, r))) k (sockets m))
    (set_clients (<[sid := r]> (clients m))
       (set_clientSets (alter (set_add k) r (clientSets m)) m)).

(** The first message, a snapshot of the session. *)
Definition greeted (s : Session) (k : nat) (m : Manager) : Manager :=
  set_sockets (alter (socket_send (MsgSnapshot (serializeSession s))) k (sockets m)) m.

(** The answer to a socket whose session is not in the store. *)
Definition refused (k : nat) (m : Manager) : Manager :=
  set_sockets
    (alter (fun s => socket_close 1008 "Session not found"
                       (socket_send (MsgError "Session not found") s)) k (sockets m)) m.

(** What [broadcast] does to one socket of the [Set] it goes through. *)
Definition deliver (msg : Message) (s : Socket) : Socket :=
  match readyState s with OPEN => socket_send msg s | _ => s end.

(** A socket that [broadcast] takes out of the [Set]. *)
Definition gone (s : Socket) : bool :=
  match readyState s with CLOSING | CLOSED => true | _ => false end.

(** Socket [k] is a member of the [Set] that the registry holds for [sid]. *)
Definition member_of (sid k : nat) (m : Manager) : Prop :=
  exists r members, clients m !! sid = Some r /\ clientSets m !! r = Some members
                    /\ k ∈ members.

(** Two sockets subscribe to a session.  The first reports an error and the
    second closes, which leaves their [Set] empty and deletes the entry; a
    third socket subscribes, into a new [Set]. *)
Definition stale_close : list Label :=
  [ create; RegisterClient 0%nat; RegisterClient 0%nat; SocketError 0%nat;
    SocketClose 1%nat; RegisterClient 0%nat ].

(** ** New runs and registered controllers *)

(** The run that [runAgentSession] records when it reaches its first
    [await]. *)
Definition new_run (sid : nat) (is_hint : bool) (hint_text : option string) (p : RunPc)
    : RunTask :=
  {| run_session := sid; isHint := is_hint; hint := hint_text; pc := p;
     run_cancelled := false; thread := None |}.

(** The admission of a new run in state [m]: granted at once, or queued
    with an event that says so. *)
Definition admission_of (m m' : Manager) (sid : nat) (s s' : Session) (t : RunTask) : Prop :=
  if activeAgentCount m <? maxConcurrentAgents m
  then s' = s /\ pc t = AwaitSlotGranted
       /\ activeAgentCount m' = activeAgentCount m + 1 /\ slotQueue m' = slotQueue m
  else (exists ev, s' = push_event ev s /\ level ev = info
                   /\ message ev = "Agent run queued awaiting available execution slot."
                   /\ details ev
                      = Some [("maxConcurrentAgents", JNum (maxConcurrentAgents m))])
       /\ pc t = AwaitSlotQueued
       /\ activeAgentCount m' = activeAgentCount m
       /\ slotQueue m' = slotQueue m ++ [nextTask m].

(** A run is in its stream loop from the registration of its controller to
    the [finally] block that unregisters it. *)
Definition streaming (p : RunPc) : bool :=
  match p with
  | AwaitNext | AwaitIteratorReturn _ => true
  | _ => false
  end.

(** A controller registered for a session belongs to a run of that session
    that is in its stream loop, and every run is of a session that was
    created. *)
Definition streams_ok (m : Manager) : Prop :=
  (forall sid tid, activeStreams m !! sid = Some tid ->
     exists t, tasks m !! tid = Some t /\ run_session t = sid /\ streaming (pc t) = true)
  /\ (forall tid t, tasks m !! tid = Some t -> is_Some (heap m !! run_session t)).

(** The runs are where they were and are runs of the same sessions, the
    registered controllers are the same, and no record was dropped. *)
Definition same_streams (m m' : Manager) : Prop :=
  (forall tid, (fun t => (run_session t, pc t)) <$> tasks m' !! tid
               = (fun t => (run_session t, pc t)) <$> tasks m !! tid)
  /\ activeStreams m' = activeStreams m
  /\ (forall sid, is_Some (heap m !! sid) -> is_Some (heap m' !! sid)).

(** What the inner [finally] does after it has unregistered the controller. *)
Definition settle (tid sessionId : nat) : M unit :=
  was_cancelled ← gets (task_cancelled tid);
  has ← gets (sessions_has sessionId);
  if negb was_cancelled && has then
    latest ← gets (sessions_get sessionId);
    (match latest with
     | Some l =>
         match status l with
         | running => updateStatus sessionId awaiting_hint
         | _ => ret tt
         end
     | None => ret tt
     end) ;;
    broadcastSnapshot sessionId
  else ret tt.

(** The ledger and the controllers together. *)
Definition runs_ok (m : Manager) : Prop := ledger m /\ streams_ok m.

(** Runs in order are left in order. *)
Definition keeps_runs (m m' : Manager) : Prop := runs_ok m -> runs_ok m'.

(** A session is created, time passes, and its first run reaches the
    stream loop. *)
Definition streaming_later : list Label :=
  [create; Tick 5; Resume 0%nat; Resume 0%nat; Tick 2; Resume 0%nat].

(** ** Requests and directory names *)

(** A request body that [validateCreateSessionBody] has nothing to say
    about. *)
Definition filled (k : string) (body : json) : Prop :=
  exists s, prop k body = Some (JStr s) /\ trim s <> "".

(** The three texts are there and [probFile], when given, is a string. *)
Definition valid_session_request (body : json) : Prop :=
  filled "probCategory" body /\ filled "probTitle" body /\ filled "probDescription" body
  /\ (prop "probFile" body = None \/ prop "probFile" body = Some JNull
      \/ exists s, prop "probFile" body = Some (JStr s)).

(** The language [[a-z0-9]+(-[a-z0-9]+)*]: [after_dash] says that a
    character of [[a-z0-9]] has to come next. *)
Fixpoint slug_from (after_dash : bool) (s : string) : bool :=
  match s with
  | String c s' =>
      if is_slug_char c then slug_from false s'
      else is_dash c && negb after_dash && slug_from true s'
  | EmptyString => negb after_dash
  end.

(** [s] is in that language. *)
Definition is_slug (s : string) : bool := slug_from true s.

(** Characters of [[a-z0-9-]] with no dash next to a dash, and none at the
    start when [after_dash] is set. *)
Fixpoint dashed (after_dash : bool) (s : string) : bool :=
  match s with
  | String c s' =>
      if is_slug_char c then dashed false s'
      else is_dash c && negb after_dash && dashed true s'
  | EmptyString => true
  end.

(** ** The wait queue *)

(** A run that [releaseAgentSlot] has taken off the queue and that has not
    counted itself yet. *)
Definition is_woken (p : RunPc) : bool :=
  match p with AwaitSlotWoken => true | _ => false end.

(** What a run at [p] counts for among them. *)
Definition woken_of (p : RunPc) : Z := if is_woken p then 1 else 0.

(** The number of such runs. *)
Definition woken_on (mp : gmap nat RunPc) : Z :=
  Z.of_nat (size (filter (fun kv : nat * RunPc => is_woken kv.2 = true) mp)).

(** The number of runs of [m] that were woken. *)
Definition woken (m : Manager) : Z := woken_on (pcs m).

(** While a run waits in the queue, every permit is held or on its way to
    a run that was woken. *)
Definition served_on (cap : Z) (mp : gmap nat RunPc) (q : list nat) (c : Z) : Prop :=
  q <> [] -> cap <= c + woken_on mp.

(** The same of a state. *)
Definition served (cap : Z) (m : Manager) : Prop :=
  served_on cap (pcs m) (slotQueue m) (activeAgentCount m).

(** The ledger, the cap and the queue together. *)
Definition service (cap : Z) (m : Manager) : Prop :=
  ledger m /\ maxConcurrentAgents m = cap /\ served cap m.

(** A state in which all three hold is left in such a state. *)
Definition keeps_service (cap : Z) (m m' : Manager) : Prop :=
  service cap m -> service cap m'.

(** Three sessions under a cap of one: the first run ends while the other
    two wait. *)
Definition first_of_three_done : list Label :=
  [ create; create; create; Resume 0%nat; Resume 0%nat; Resume 0%nat; StreamEnd 0%nat ].

(** ** Runs that end early *)

(** What the outer [finally] of run [tid] leaves: the permit went back, the
    head of the queue, if any, was woken, the run is over, and neither the
    records, the store, the registry, the sockets nor the controllers were
    touched. *)
Definition released (tid : nat) (m m' : Manager) : Prop :=
  heap m' = heap m /\ sessions m' = sessions m /\ clients m' = clients m
  /\ clientSets m' = clientSets m /\ sockets m' = sockets m
  /\ activeStreams m' = activeStreams m
  /\ activeAgentCount m' = activeAgentCount m - 1
  /\ pcs m' !! tid = Some Finished
  /\ match slotQueue m with
     | [] => slotQueue m' = []
     | next :: rest => slotQueue m' = rest /\ pcs m' !! next = Some AwaitSlotWoken
     end.

(** A session removed right after its creation, while its run holds a
    permit and has not looked at the store again. *)
Definition removed_at_once : list Label := [ create; RemoveSession 0%nat ].

(** A run that waits for [thread.runStreamed]. *)
Definition awaiting_runStreamed : list Label := [ create; Resume 0%nat; Resume 0%nat ].

(** ** Status and result *)

(** The result says that the challenge is solved. *)
Definition solved_result (s : Session) : Prop :=
  exists r, result s = Some r /\ prop "inferenceStatus" r = Some (JStr "solved").

(** What the status and the result of a record say together: the status is
    one of the five that are ever assigned, a result is a value that passed
    the shape check, and a [completed] session has a result that says
    ["solved"]. *)
Definition sound (s : Session) : Prop :=
  status s <> status_error
  /\ (forall r, result s = Some r -> isAgentStructuredOutput r = true)
  /\ (status s = completed -> solved_result s).

(** Every record is in order. *)
Definition all_sound (m : Manager) : Prop :=
  forall sid s, heap m !! sid = Some s -> sound s.

(** Records in order are left in order. *)
Definition keeps_sound (m m' : Manager) : Prop := all_sound m -> all_sound m'.

(** Nothing is written but the record of session [sid], and this one only
    while the session is in the store; the store has the same keys. *)
Definition writes_to (sid : nat) (m m' : Manager) : Prop :=
  sessions m' = sessions m
  /\ (forall j, j <> sid -> heap m' !! j = heap m !! j)
  /\ (sessions_get sid m = None -> heap m' !! sid = heap m !! sid).

(** ** Progress events *)

(** The events of a stream that report progress: every event but
    [thread.started], [turn.failed], [error], an item of type [error], and a
    completed agent message. *)
Definition is_progress (ev : ThreadEvent) : bool :=
  match ev with
  | turn_started | turn_completed _ | event_other => true
  | item_started item | item_updated item =>
      match item with item_error _ => false | _ => true end
  | item_completed item =>
      match item with item_error _ | agent_message _ => false | _ => true end
  | thread_started _ | turn_failed _ | stream_error _ => false
  end.

(** ** Admission under the event loop *)

(** What a request does to the admission state: nothing, or one new run
    under the next id, which is counted at once when the counter is below the
    cap and goes to the end of the queue otherwise. *)
Definition enters (m m' : Manager) : Prop :=
  same_permits m m'
  \/ (nextTask m' = S (nextTask m)
      /\ ((activeAgentCount m < maxConcurrentAgents m
           /\ pcs m' = <[nextTask m := AwaitSlotGranted]> (pcs m)
           /\ activeAgentCount m' = activeAgentCount m + 1
           /\ slotQueue m' = slotQueue m)
          \/ (maxConcurrentAgents m <= activeAgentCount m
              /\ pcs m' = <[nextTask m := AwaitSlotQueued]> (pcs m)
              /\ activeAgentCount m' = activeAgentCount m
              /\ slotQueue m' = slotQueue m ++ [nextTask m]))).

(** What any other step does to it: nothing; or a woken run counts itself
    in; or a run that holds a permit goes on to a place where it holds it; or
    such a run gives the permit back, which takes the head of the queue, if
    any, out of the queue and wakes it. *)
Inductive advances (m m' : Manager) : Prop :=
| advances_same : same_permits m m' -> advances m m'
| advances_counted tid :
    pcs m !! tid = Some AwaitSlotWoken ->
    pcs m' = <[tid := AwaitSlotGranted]> (pcs m) ->
    activeAgentCount m' = activeAgentCount m + 1 ->
    slotQueue m' = slotQueue m -> nextTask m' = nextTask m -> advances m m'
| advances_along tid p0 p :
    pcs m !! tid = Some p0 -> holds_permit p0 = true -> holds_permit p = true ->
    pcs m' = <[tid := p]> (pcs m) ->
    activeAgentCount m' = activeAgentCount m ->
    slotQueue m' = slotQueue m -> nextTask m' = nextTask m -> advances m m'
| advances_released tid p0 :
    pcs m !! tid = Some p0 -> holds_permit p0 = true ->
    activeAgentCount m' = activeAgentCount m - 1 ->
    nextTask m' = nextTask m ->
    match slotQueue m with
    | [] => slotQueue m' = [] /\ pcs m' = <[tid := Finished]> (pcs m)
    | next :: rest =>
        slotQueue m' = rest /\ next <> tid /\ pcs m !! next = Some AwaitSlotQueued
        /\ pcs m' = <[tid := Finished]> (<[next := AwaitSlotWoken]> (pcs m))
    end -> advances m m'.

(** The runs counted in [activeAgentCount] and the runs that were woken fit
    under the cap together. *)
Definition capped (m : Manager) : Prop :=
  activeAgentCount m + woken m <= maxConcurrentAgents m.

(** Runs are numbered as they call [acquireAgentSlot]: a queue in the order
    of arrival lists smaller ids first. *)
Definition in_arrival_order (q : list nat) : Prop :=
  forall i j a b, q !! i = Some a -> q !! j = Some b -> (i < j)%nat -> (a < b)%nat.

(** Every run that is not waiting in the queue arrived before every run that
    is. *)
Definition waiters_last (m : Manager) : Prop :=
  forall tid p q, pcs m !! tid = Some p -> p <> AwaitSlotQueued -> q ∈ slotQueue m ->
    (tid < q)%nat.

(** The queue is in the order of arrival and holds the latest arrivals. *)
Definition fifo (m : Manager) : Prop := in_arrival_order (slotQueue m) /\ waiters_last m.

(** Three sessions under a cap of one: the first run is started, the other
    two queue, and the first run streams and ends, which wakes the second. *)
Definition handover : list Label :=
  [ create; Resume 0%nat; Resume 0%nat; create; create; Resume 0%nat; StreamEnd 0%nat ].

(** ** The thread a step reports *)

(** The identifier that label [l] reports for session [sid], if any: the one
    of a thread-established event delivered to a run of [sid] while [sid] is
    in the store. *)
Definition reported_thread (l : Label) (sid : nat) (m : Manager) : option string :=
  match l with
  | StreamItem tid (thread_started x) =>
      match tasks m !! tid with
      | Some t =>
          if bool_decide (run_session t = sid) && sessions_has sid m then Some x else None
      | None => None
      end
  | _ => None
  end.

(** The first run of session 0 waits for the first item of its stream. *)
Definition first_run_streaming : list Label :=
  [ create; Resume 0%nat; Resume 0%nat; Resume 0%nat ].

(** * Reasoning about method bodies *)

(** ** A relation kept by every statement of a body *)

Section Preservation.

Variable R : Manager -> Manager -> Prop.
Hypothesis R_refl : forall m, R m m.
Hypothesis R_trans : forall a b c, R a b -> R b c -> R a c.

Lemma preserves_ret {A} (a : A) : preserves R (ret a).
Proof. intros m. apply R_refl. Qed.

Lemma preserves_throw {A} (e : Exn) : preserves R (@throw A e).
Proof. intros m. apply R_refl. Qed.

Lemma preserves_gets {A} (f : Manager -> A) : preserves R (gets f).
Proof. intros m. apply R_refl. Qed.

Lemma preserves_modify (f : Manager -> Manager) :
  (forall m, R m (f m)) -> preserves R (modify f).
Proof. intros H m. apply H. Qed.

Lemma preserves_bind {A B} (c : M A) (k : A -> M B) :
  preserves R c -> (forall a, preserves R (k a)) -> preserves R (bind c k).
Proof.
  intros Hc Hk m. unfold bind. specialize (Hc m).
  destruct (c m) as [[a|e] m1]; simpl in *; [|exact Hc].
  eapply R_trans; [exact Hc|apply Hk].
Qed.

Lemma preserves_try_finally {A} (body : M A) (fin : M unit) :
  preserves R body -> preserves R fin -> preserves R (try_finally body fin).
Proof.
  intros Hb Hf m. unfold try_finally. specialize (Hb m).
  destruct (body m) as [r m1]; simpl in *. specialize (Hf m1).
  destruct (fin m1) as [[u|e] m2]; simpl in *; eapply R_trans; eauto.
Qed.

Lemma preserves_attempt {A} (body : M A) : preserves R body -> preserves R (attempt body).
Proof. intros Hb m. unfold attempt. specialize (Hb m). by destruct (body m). Qed.

Lemma preserves_void {A} (body : M A) : preserves R body -> preserves R (void body).
Proof. intros Hb m. apply Hb. Qed.

End Preservation.

(** [pres] walks through a body, statement by statement; what it cannot
    close is left as a goal about one statement. *)
Create HintDb pres.

Ltac pres_step :=
  match goal with
  | |- preserves _ (mbind _ _) => unfold mbind, M_bind
  | |- preserves _ (bind _ _) => apply preserves_bind; [eauto with pres.. | | intros]
  | |- preserves _ (ret _) => apply preserves_ret; eauto with pres
  | |- preserves _ (throw _) => apply preserves_throw; eauto with pres
  | |- preserves _ (gets _) => apply preserves_gets; eauto with pres
  | |- preserves _ (try_finally _ _) =>
      apply preserves_try_finally; [eauto with pres.. | | ]
  | |- preserves _ (attempt _) => apply preserves_attempt
  | |- preserves _ (void _) => apply preserves_void
  | |- preserves _ (match ?x with _ => _ end) => destruct x
  | |- preserves _ (if ?x then _ else _) => destruct x
  | |- preserves _ (let _ := _ in _) => cbv zeta
  end.

(** ** The admission state is left alone by the store and the registry *)

Lemma same_admission_refl m : same_admission m m.
Proof. by repeat split. Qed.

Lemma same_admission_trans a b c :
  same_admission a b -> same_admission b c -> same_admission a c.
Proof. unfold same_admission. intros (?&?&?&?&?) (?&?&?&?&?). repeat split; congruence. Qed.

#[local] Hint Resolve same_admission_refl same_admission_trans : pres.

Ltac pres := eauto with pres; repeat (pres_step; eauto with pres).

Lemma broadcast_one_admission r msg m k : same_admission m (broadcast_one r msg m k).
Proof.
  unfold broadcast_one. destruct (sockets m !! k) as [s|]; [|apply same_admission_refl].
  destruct (readyState s); by repeat split.
Qed.

Lemma foldl_rel {A} (R : Manager -> Manager -> Prop) (f : Manager -> A -> Manager) :
  (forall m, R m m) -> (forall a b c, R a b -> R b c -> R a c) ->
  (forall m x, R m (f m x)) -> forall l m, R m (foldl f m l).
Proof.
  intros Hr Ht Hf l. induction l as [|x l IH]; intros m; simpl; [apply Hr|].
  eapply Ht; [apply Hf|apply IH].
Qed.

Lemma broadcast_admission sid msg : preserves same_admission (broadcast sid msg).
Proof.
  apply preserves_modify. intros m. destruct (clients m !! sid); [|apply same_admission_refl].
  apply foldl_rel; eauto with pres. intros; apply broadcast_one_admission.
Qed.
#[local] Hint Resolve broadcast_admission : pres.

Lemma broadcastSnapshot_admission sid : preserves same_admission (broadcastSnapshot sid).
Proof. unfold broadcastSnapshot. pres. Qed.
#[local] Hint Resolve broadcastSnapshot_admission : pres.

Lemma assign_admission sid f : preserves same_admission (assign sid f).
Proof. apply preserves_modify. intros m. by repeat split. Qed.
#[local] Hint Resolve assign_admission : pres.

Lemma randomUUID_admission : preserves same_admission randomUUID.
Proof. intros m. by repeat split. Qed.
#[local] Hint Resolve randomUUID_admission : pres.

Lemma publishEvent_admission sid lvl msg det :
  preserves same_admission (publishEvent sid lvl msg det).
Proof. unfold publishEvent, Date_now. pres. Qed.
#[local] Hint Resolve publishEvent_admission : pres.

Lemma updateStatus_admission sid st : preserves same_admission (updateStatus sid st).
Proof. unfold updateStatus, Date_now. pres. Qed.
#[local] Hint Resolve updateStatus_admission : pres.

Lemma updateSessionMetadata_admission sid f :
  preserves same_admission (updateSessionMetadata sid f).
Proof. unfold updateSessionMetadata, Date_now. pres. Qed.
#[local] Hint Resolve updateSessionMetadata_admission : pres.

Lemma handleThreadEvent_admission parse sid ev :
  preserves same_admission (handleThreadEvent parse sid ev).
Proof.
  unfold handleThreadEvent, handleItemEvent, handleAgentMessage, handleCommandExecution,
    handleMcpToolCall.
  pres.
Qed.
#[local] Hint Resolve handleThreadEvent_admission : pres.

(** ** What a broadcast can change: sockets and the member lists *)

Lemma only_sockets_refl m : only_sockets m m.
Proof. by repeat split. Qed.

Lemma only_sockets_trans a b c : only_sockets a b -> only_sockets b c -> only_sockets a c.
Proof.
  unfold only_sockets.
  intros (?&?&?&?&?&?&?&?&?&?&?&?&?&?&?) (?&?&?&?&?&?&?&?&?&?&?&?&?&?&?).
  repeat split; congruence.
Qed.

Lemma broadcast_one_only_sockets r msg m k : only_sockets m (broadcast_one r msg m k).
Proof.
  unfold broadcast_one. destruct (sockets m !! k) as [s|]; [|apply only_sockets_refl].
  destruct (readyState s); by repeat split.
Qed.

Lemma broadcast_only_sockets sid msg m : only_sockets m (snd (broadcast sid msg m)).
Proof.
  simpl. destruct (clients m !! sid); [|apply only_sockets_refl].
  apply foldl_rel;
    [apply only_sockets_refl | apply only_sockets_trans
    | intros; apply broadcast_one_only_sockets].
Qed.

Lemma sessions_get_only_sockets m m' j :
  only_sockets m m' -> sessions_get j m' = sessions_get j m.
Proof. intros (Hh&Hs&_). unfold sessions_get. by rewrite Hh, Hs. Qed.

Lemma sessions_get_broadcast sid msg m j :
  sessions_get j (snd (broadcast sid msg m)) = sessions_get j m.
Proof. apply sessions_get_only_sockets, broadcast_only_sockets. Qed.

Lemma sessions_get_Some sid m s :
  sessions_get sid m = Some s -> sid ∈ sessions m /\ heap m !! sid = Some s.
Proof. unfold sessions_get. case_decide; [done|discriminate]. Qed.

(** Reading the store after an assignment to the object [sid]. *)
Lemma sessions_get_assign sid f m j :
  sessions_get j (snd (assign sid f m))
  = if decide (sid = j) then f <$> sessions_get j m else sessions_get j m.
Proof.
  unfold sessions_get; simpl. destruct (decide (sid = j)) as [->|Hj].
  - case_decide; [|done]. by rewrite lookup_alter_eq.
  - case_decide; [|done]. by rewrite lookup_alter_ne.
Qed.

(** ** The three store operations on a session that is in the store *)

Lemma publishEvent_live sid lvl msg det m s :
  sessions_get sid m = Some s ->
  publishEvent sid lvl msg det m
  = (Normal (new_event m lvl msg det),
     snd (broadcast sid (MsgEvent (new_event m lvl msg det))
            (snd (assign sid (push_event (new_event m lvl msg det))
                    (set_nextUuid (S (nextUuid m)) m))))).
Proof.
  intros H. unfold publishEvent, mbind, M_bind, bind, gets. rewrite H. reflexivity.
Qed.

Lemma publishEvent_dead sid lvl msg det m :
  sessions_get sid m = None ->
  publishEvent sid lvl msg det m = (Throw (not_found "Cannot publish event" sid), m).
Proof.
  intros H. unfold publishEvent, mbind, M_bind, bind, gets. rewrite H. reflexivity.
Qed.

Lemma updateStatus_live sid st m s :
  sessions_get sid m = Some s ->
  updateStatus sid st m
  = (Normal tt,
     snd (broadcast sid (MsgStatus st (clock m))
            (snd (assign sid (fun s => set_updatedAt (clock m) (set_status st s)) m)))).
Proof.
  intros H. unfold updateStatus, mbind, M_bind, bind, gets. rewrite H. reflexivity.
Qed.

Lemma updateStatus_dead sid st m :
  sessions_get sid m = None ->
  updateStatus sid st m = (Throw (not_found "Cannot update status" sid), m).
Proof.
  intros H. unfold updateStatus, mbind, M_bind, bind, gets. rewrite H. reflexivity.
Qed.

Lemma updateSessionMetadata_live sid f m s :
  sessions_get sid m = Some s ->
  updateSessionMetadata sid f m
  = (Normal tt, snd (assign sid (fun s => set_updatedAt (clock m) (f s)) m)).
Proof.
  intros H. unfold updateSessionMetadata, mbind, M_bind, bind, gets. rewrite H. reflexivity.
Qed.

Lemma updateSessionMetadata_dead sid f m :
  sessions_get sid m = None -> updateSessionMetadata sid f m = (Normal tt, m).
Proof.
  intros H. unfold updateSessionMetadata, mbind, M_bind, bind, gets. rewrite H. reflexivity.
Qed.

Lemma broadcastSnapshot_live sid m s :
  sessions_get sid m = Some s ->
  broadcastSnapshot sid m = (Normal tt, snd (broadcast sid (MsgSnapshot s) m)).
Proof.
  intros H. unfold broadcastSnapshot, mbind, M_bind, bind, gets. rewrite H. reflexivity.
Qed.

Lemma broadcastSnapshot_dead sid m :
  sessions_get sid m = None -> broadcastSnapshot sid m = (Normal tt, m).
Proof.
  intros H. unfold broadcastSnapshot, mbind, M_bind, bind, gets. rewrite H. reflexivity.
Qed.

Lemma sessions_get_set_nextUuid j n m :
  sessions_get j (set_nextUuid n m) = sessions_get j m.
Proof. reflexivity. Qed.

Lemma sessions_get_publishEvent sid lvl msg det m s :
  sessions_get sid m = Some s ->
  sessions_get sid (snd (publishEvent sid lvl msg det m))
  = Some (push_event (new_event m lvl msg det) s).
Proof.
  intros H. rewrite (publishEvent_live _ _ _ _ _ _ H). cbn [snd].
  rewrite sessions_get_broadcast, sessions_get_assign, decide_True by done.
  by rewrite sessions_get_set_nextUuid, H.
Qed.

Lemma sessions_get_updateStatus sid st m s :
  sessions_get sid m = Some s ->
  sessions_get sid (snd (updateStatus sid st m))
  = Some (set_updatedAt (clock m) (set_status st s)).
Proof.
  intros H. rewrite (updateStatus_live _ _ _ _ H). cbn [snd].
  rewrite sessions_get_broadcast, sessions_get_assign, decide_True by done.
  by rewrite H.
Qed.

Lemma sessions_get_updateSessionMetadata sid f m s :
  sessions_get sid m = Some s ->
  sessions_get sid (snd (updateSessionMetadata sid f m))
  = Some (set_updatedAt (clock m) (f s)).
Proof.
  intros H. rewrite (updateSessionMetadata_live _ _ _ _ H). cbn [snd].
  rewrite sessions_get_assign, decide_True by done. by rewrite H.
Qed.

(** * Concrete runs *)

Lemma bind_normal {A B} (c : M A) (k : A -> M B) m a m' :
  c m = (Normal a, m') -> bind c k m = k a m'.
Proof. intros H. unfold bind. by rewrite H. Qed.

Lemma parsed_inference_status parse text structured :
  parseAgentStructuredOutput parse text = Some structured ->
  exists x, prop "inferenceStatus" structured = Some (JStr x)
    /\ (x = "solved" \/ x = "awaiting_hint" \/ x = "failed").
Proof.
  unfold parseAgentStructuredOutput. destruct (parse text) as [v|]; [|discriminate].
  destruct (isAgentStructuredOutput v) eqn:Hv; [|discriminate]. intros [= <-].
  unfold isAgentStructuredOutput in Hv.
  destruct (is_object v); simpl in Hv; [|discriminate].
  destruct (is_inference_status (prop "inferenceStatus" v)) eqn:Hi; simpl in Hv;
    [|discriminate].
  unfold is_inference_status in Hi.
  destruct (prop "inferenceStatus" v) as [[| | |x| |]|]; try discriminate.
  exists x. split; [done|].
  apply orb_true_iff in Hi as [Hi|Hi]; [apply orb_true_iff in Hi as [Hi|Hi]|];
    apply String.eqb_eq in Hi; auto.
Qed.

(** ** Following one session through a body *)

Lemma tracks_weaken sid {A} (c : M A) (P Q : Session -> Session -> Prop) :
  tracks sid c P -> (forall s s', P s s' -> Q s s') -> tracks sid c Q.
Proof.
  intros Hc HPQ m s H. destruct (Hc m s H) as (a & s' & ? & ? & ?). eauto 10.
Qed.

Lemma tracks_ret sid {A} (a : A) : tracks sid (ret a) eq.
Proof. intros m s H. exists a, s. by simpl. Qed.

Lemma tracks_bind sid {A B} (c : M A) (k : A -> M B) P Q :
  tracks sid c P -> (forall a, tracks sid (k a) Q) ->
  tracks sid (bind c k) (fun s s'' => exists s', P s s' /\ Q s' s'').
Proof.
  intros Hc Hk m s H. destruct (Hc m s H) as (a & s1 & Hn & H1 & HP).
  unfold bind. destruct (c m) as [r m1]; simpl in *. subst r.
  destruct (Hk a m1 s1 H1) as (b & s2 & Hn2 & H2 & HQ). eauto 10.
Qed.

Lemma tracks_broadcast sid msg : tracks sid (broadcast sid msg) eq.
Proof.
  intros m s H. exists tt, s. split; [done|].
  by rewrite (sessions_get_broadcast sid msg m sid).
Qed.

Lemma tracks_broadcastSnapshot sid : tracks sid (broadcastSnapshot sid) eq.
Proof.
  intros m s H. exists tt, s. rewrite (broadcastSnapshot_live _ _ _ H). cbn [fst snd].
  split; [done|]. by rewrite (sessions_get_broadcast sid (MsgSnapshot s) m sid).
Qed.

Lemma tracks_publishEvent sid lvl msg det :
  tracks sid (publishEvent sid lvl msg det)
    (fun s s' => exists ev, s' = push_event ev s /\ level ev = lvl /\ message ev = msg
                            /\ details ev = det).
Proof.
  intros m s H. exists (new_event m lvl msg det), (push_event (new_event m lvl msg det) s).
  split; [by rewrite (publishEvent_live _ _ _ _ _ _ H)|].
  split; [by apply sessions_get_publishEvent|]. by eexists.
Qed.

Lemma tracks_updateStatus sid st :
  tracks sid (updateStatus sid st)
    (fun s s' => exists ts, s' = set_updatedAt ts (set_status st s)).
Proof.
  intros m s H. exists tt, (set_updatedAt (clock m) (set_status st s)).
  split; [by rewrite (updateStatus_live _ _ _ _ H)|].
  split; [by apply sessions_get_updateStatus|]. by eexists.
Qed.

Lemma tracks_updateSessionMetadata sid f :
  tracks sid (updateSessionMetadata sid f)
    (fun s s' => exists ts, s' = set_updatedAt ts (f s)).
Proof.
  intros m s H. exists tt, (set_updatedAt (clock m) (f s)).
  split; [by rewrite (updateSessionMetadata_live _ _ _ _ H)|].
  split; [by apply sessions_get_updateSessionMetadata|]. by eexists.
Qed.

Lemma tracks_use sid {A} (c : M A) P (Phi : Session -> Prop) m s :
  tracks sid c P -> sessions_get sid m = Some s ->
  (forall s', P s s' -> Phi s') ->
  exists s', sessions_get sid (snd (c m)) = Some s' /\ Phi s'.
Proof.
  intros Hc H HP. destruct (Hc m s H) as (a & s' & _ & Hget & Hrel). eauto.
Qed.

Ltac tracking :=
  unfold mbind, M_bind;
  repeat first
    [ apply tracks_publishEvent
    | apply tracks_updateStatus
    | apply tracks_updateSessionMetadata
    | apply tracks_broadcastSnapshot
    | apply tracks_broadcast
    | apply tracks_ret
    | eassumption
    | apply tracks_bind; [|intros] ].

(** C5.  [handleAgentMessage] on a session that is in the store.  When the
    text parses against the result schema, the parsed value becomes
    [session.result] as it is, and the status becomes [completed] exactly when
    the parsed [inferenceStatus] is ["solved"] and [awaiting_hint] otherwise.
    When it does not parse, the session is as before but for one appended
    [info] event (and the [updatedAt] stamp that goes with it): [result],
    [status] and every other field are untouched. *)
Theorem handleAgentMessage_structured_output parse sid text m s :
  sessions_get sid m = Some s ->
  exists s', sessions_get sid (snd (handleAgentMessage parse sid text m)) = Some s'
    /\ match parseAgentStructuredOutput parse text with
       | Some structured =>
           result s' = Some structured
           /\ (status s' = completed
               <-> prop "inferenceStatus" structured = Some (JStr "solved"))
           /\ (prop "inferenceStatus" structured <> Some (JStr "solved")
               -> status s' = awaiting_hint)
       | None =>
           exists ev,
             s' = set_events (events s ++ [ev]) (set_updatedAt (timestamp ev) s)
             /\ level ev = info /\ message ev = "Agent response"
             /\ result s' = result s /\ status s' = status s
       end.
Proof.
  intros H. unfold handleAgentMessage.
  destruct (parseAgentStructuredOutput parse text) as [structured|] eqn:Hp.
  - destruct (parsed_inference_status _ _ _ Hp) as (x & Hx & Hcases).
    assert (Hs : str_prop "inferenceStatus" structured = x)
      by (unfold str_prop; by rewrite Hx).
    rewrite Hs, Hx. cbv zeta. unfold mbind, M_bind.
    assert (Hlast : tracks sid
      (if (x =? "solved")%string then updateStatus sid completed
       else if (x =? "failed")%string then updateStatus sid awaiting_hint
            else updateStatus sid awaiting_hint)
      (fun s s' => exists ts, s' = set_updatedAt ts
         (set_status (if (x =? "solved")%string then completed else awaiting_hint) s))).
    { destruct (x =? "solved")%string; [|destruct (x =? "failed")%string];
        apply tracks_updateStatus. }
    eapply tracks_use; [tracking|exact H|].
    intros s' (s1 & [ts1 ->] & s2 & (ev & -> & _) & s3 & <- & s4 & <- & ts & ->).
    simpl. split; [done|]. destruct (String.eqb_spec x "solved") as [->|Hne].
    + split; [done|]. intros Hn. done.
    + split; [|done]. split; [discriminate|]. intros [= ->]. done.
  - eapply tracks_use; [tracking|exact H|].
    intros s' (s1 & (ev & -> & Hl & Hm & _) & <-).
    exists ev. by repeat split.
Qed.

(** Closing a conjunction of closed equations by evaluation. *)
Ltac by_computation :=
  repeat match goal with |- _ /\ _ => split end; vm_compute; reflexivity.

Lemma handleAgentMessage_structured_output_witness :
  sessions_get 0 (after [create] None) = Some created_session
  /\ exists s',
       sessions_get 0 (snd (handleAgentMessage JSON_parse_demo 0 solved_text
                              (after [create] None))) = Some s'
       /\ result s' = Some solved_value /\ status s' = completed.
Proof.
  split; [vm_compute; reflexivity|].
  destruct (handleAgentMessage_structured_output JSON_parse_demo 0%nat solved_text
              (after [create] None) created_session) as (s' & Hget & Hs');
    [vm_compute; reflexivity|].
  exists s'. split; [exact Hget|].
  change (parseAgentStructuredOutput JSON_parse_demo solved_text)
    with (Some solved_value) in Hs'.
  destruct Hs' as (Hr & Hst & _). split; [exact Hr|]. apply Hst. reflexivity.
Defined.

Lemma assoc_app k (l1 l2 : list (string * json)) :
  assoc k (l1 ++ l2) = match assoc k l1 with Some v => Some v | None => assoc k l2 end.
Proof.
  induction l1 as [|[k' v] l1 IH]; simpl; [done|]. by destruct (String.eqb k k').
Qed.

(** C10 (amended).  For every parsed structured output, the event that
    reports it carries under [solveCodePath] and [writeUpPath] what the
    parsed object holds under keys of those very names, and [null] when it
    has no such key (as the output schema, which allows no other key than its
    seven, prescribes); the keys [solveCode] and [writeUp] are not copied
    into the details. *)
Theorem agent_status_event_details parse sid text m s structured :
  sessions_get sid m = Some s ->
  parseAgentStructuredOutput parse text = Some structured ->
  exists s',
    sessions_get sid (snd (handleAgentMessage parse sid text m)) = Some s'
    /\ exists ev d,
    events s' = events s ++ [ev]
    /\ details ev = Some d
    /\ assoc "solveCodePath" d = Some (or_null (prop "solveCodePath" structured))
    /\ assoc "writeUpPath" d = Some (or_null (prop "writeUpPath" structured))
    /\ (prop "solveCodePath" structured = None -> assoc "solveCodePath" d = Some JNull)
    /\ (prop "writeUpPath" structured = None -> assoc "writeUpPath" d = Some JNull)
    /\ assoc "solveCode" d = None
    /\ assoc "writeUp" d = None.
Proof.
  intros H Hp. unfold handleAgentMessage. rewrite Hp. cbv zeta.
  assert (Hlast : forall x, tracks sid
      (if (x =? "solved")%string then updateStatus sid completed
       else if (x =? "failed")%string then updateStatus sid awaiting_hint
            else updateStatus sid awaiting_hint)
      (fun s s' => exists ts st, s' = set_updatedAt ts (set_status st s))).
  { intros x. destruct (x =? "solved")%string; [|destruct (x =? "failed")%string];
      (eapply tracks_weaken; [apply tracks_updateStatus|]);
      intros ? ? [ts ->]; eauto. }
  eapply tracks_use; [tracking; apply Hlast|exact H|].
  intros s' (s1 & [ts1 ->] & s2 & (ev & -> & _ & _ & Hd) & s3 & <- & s4 & <- & ts & st & ->).
  exists ev. eexists. simpl. split; [reflexivity|]. split; [exact Hd|].
  unfold detailPayload. rewrite !assoc_app. simpl.
  repeat split; try reflexivity.
  - by intros ->.
  - by intros ->.
  - destruct (truthy (prop "solutionFiles" structured)),
      (truthy (prop "nextSteps" structured)); reflexivity.
  - destruct (truthy (prop "solutionFiles" structured)),
      (truthy (prop "nextSteps" structured)); reflexivity.
Qed.

Lemma agent_status_event_details_witness :
  sessions_get 0 (after [create] None) = Some created_session
  /\ parseAgentStructuredOutput JSON_parse_demo solved_text = Some solved_value
  /\ exists s' ev d,
       sessions_get 0 (snd (handleAgentMessage JSON_parse_demo 0 solved_text
                              (after [create] None))) = Some s'
       /\ events s' = events created_session ++ [ev]
       /\ details ev = Some d
       /\ assoc "solveCodePath" d = Some JNull
       /\ assoc "writeUpPath" d = Some JNull.
Proof.
  split; [vm_compute; reflexivity|]. split; [vm_compute; reflexivity|].
  destruct (agent_status_event_details JSON_parse_demo 0%nat solved_text
              (after [create] None) created_session solved_value)
    as (s' & Hget & ev & d & Hev & Hd & _ & _ & Hc & Hw & _);
    [vm_compute; reflexivity|vm_compute; reflexivity|].
  exists s', ev, d. split; [exact Hget|]. split; [exact Hev|]. split; [exact Hd|].
  split; [apply Hc; reflexivity|apply Hw; reflexivity].
Defined.

(** C10 (as stated) fails: a reply that passes the shape check and also has
    the keys [solveCodePath] and [writeUpPath] gets them into the details. *)
Lemma extra_keys_reach_the_details :
  parseAgentStructuredOutput JSON_parse_demo extra_text = Some extra_value
  /\ exists s ev d,
       sessions_get 0 (after extra_run None) = Some s
       /\ last (events s) = Some ev
       /\ message ev = "Agent reported status: solved"
       /\ details ev = Some d
       /\ assoc "solveCodePath" d = Some (JStr "exploit.py")
       /\ assoc "writeUpPath" d = Some (JStr "notes.md").
Proof.
  split; [vm_compute; reflexivity|].
  eexists _, _, _. by_computation.
Qed.

Lemma tracks_then_normal sid {A B} (c : M A) (k : A -> M B) P (b : B) m s :
  tracks sid c P -> sessions_get sid m = Some s ->
  (forall a m' s', sessions_get sid m' = Some s' -> fst (k a m') = Normal b) ->
  fst (bind c k m) = Normal b.
Proof.
  intros Hc H Hk. destruct (Hc m s H) as (a & s' & Hn & Hget & _).
  unfold bind. destruct (c m) as [r m1]; simpl in *. subst r. eauto.
Qed.

(** C4 (amended).  [submitHint] throws a [SessionManagerError] and leaves
    the whole manager state as it was whenever the session is not in the
    store (which is where a cancelled session is), has no established thread,
    or has a run registered in [activeStreams]; in every other case,
    whatever the session's status, the hint is accepted. *)
Theorem submitHint_refusal sid hint_text m :
  ((sessions_get sid m = None
    \/ (exists s, sessions_get sid m = Some s /\ thread_established s = false)
    \/ is_Some (activeStreams m !! sid)) ->
   exists text statusCode code,
     submitHint sid hint_text m = (Throw (SessionManagerError text statusCode code), m))
  /\ (forall s, sessions_get sid m = Some s -> thread_established s = true ->
      activeStreams m !! sid = None ->
      fst (submitHint sid hint_text m) = Normal tt).
Proof.
  split.
  - intros Hcase. unfold submitHint, mbind, M_bind, bind, gets, throw.
    destruct (sessions_get sid m) as [s|] eqn:Hs; [|by eauto].
    destruct (thread_established s) eqn:Ht; [|by eauto]. simpl.
    destruct (activeStreams m !! sid) as [tid|] eqn:Ha; [by eauto|].
    destruct Hcase as [?|[(s0 & [= <-] & ?)|[? ?]]]; congruence.
  - intros s Hs Ht Ha. unfold submitHint, mbind, M_bind.
    rewrite (bind_normal _ _ m (Some s) m) by (unfold gets; by rewrite Hs).
    cbv beta iota. rewrite Ht. cbn [negb].
    rewrite (bind_normal _ _ m None m) by (unfold gets; by rewrite Ha).
    cbv beta iota zeta.
    eapply tracks_then_normal; [apply tracks_publishEvent|exact Hs|].
    intros _ m1 s1 H1.
    eapply tracks_then_normal; [apply tracks_updateStatus|exact H1|].
    intros _ m2 s2 H2.
    eapply tracks_then_normal; [apply tracks_updateSessionMetadata|exact H2|].
    reflexivity.
Qed.

Lemma submitHint_refusal_witness :
  is_Some (activeStreams
             (after (first_run_done ++ [SubmitHint 0%nat "hint"; Resume 1%nat; Resume 1%nat])
                    None) !! 0%nat)
  /\ exists text statusCode code,
       submitHint 0 "another hint"
         (after (first_run_done ++ [SubmitHint 0%nat "hint"; Resume 1%nat; Resume 1%nat])
                None)
       = (Throw (SessionManagerError text statusCode code),
          after (first_run_done ++ [SubmitHint 0%nat "hint"; Resume 1%nat; Resume 1%nat])
                None).
Proof.
  assert (H : is_Some (activeStreams
             (after (first_run_done ++ [SubmitHint 0%nat "hint"; Resume 1%nat; Resume 1%nat])
                    None) !! 0%nat)).
  { exists 1%nat. vm_compute. reflexivity. }
  split; [exact H|].
  apply (proj1 (submitHint_refusal 0%nat "another hint"
    (after (first_run_done ++ [SubmitHint 0%nat "hint"; Resume 1%nat; Resume 1%nat]) None))).
  right. right. exact H.
Defined.

(** C4 (as stated) fails: a completed session with a thread and no
    registered run accepts a hint, which changes its status, result and
    events. *)
Lemma hint_accepted_on_completed_session :
  exists s s',
    sessions_get 0 (after solved_run None) = Some s
    /\ status s = completed /\ result s = Some solved_value
    /\ fst (submitHint 0 "again" (after solved_run None)) = Normal tt
    /\ sessions_get 0 (snd (submitHint 0 "again" (after solved_run None))) = Some s'
    /\ status s' = pending /\ result s' = None
    /\ length (events s') = S (length (events s)).
Proof. eexists _, _. by_computation. Qed.

(** C3 (as stated) fails: [completed] is left again, by a hint (to
    [pending]) and by a removal (to [cancelled]). *)
Lemma completed_is_not_terminal :
  exists s m1 s1 m2 s2,
    heap (after solved_run None) !! 0%nat = Some s /\ status s = completed
    /\ step JSON_parse_demo (SubmitHint 0%nat "again") (after solved_run None) = Some m1
    /\ heap m1 !! 0%nat = Some s1 /\ status s1 = pending
    /\ step JSON_parse_demo (RemoveSession 0%nat) (after solved_run None) = Some m2
    /\ heap m2 !! 0%nat = Some s2 /\ status s2 = cancelled.
Proof. eexists _, _, _, _, _. by_computation. Qed.

(** * The store over time *)

Lemma evolves_refl b m : evolves b m m.
Proof.
  intros Hf. split; [done|]. split; [|split]; [by eauto|by eauto|]. eauto.
Qed.

Lemma evolves_trans b m1 m2 m3 : evolves b m1 m2 -> evolves b m2 m3 -> evolves b m1 m3.
Proof.
  intros H12 H23 Hf1. destruct (H12 Hf1) as (Hf2 & Ho12 & Hd12 & Hc12).
  destruct (H23 Hf2) as (Hf3 & Ho23 & Hd23 & Hc23).
  split; [done|]. split; [|split].
  - intros sid s Hs. destruct (Ho12 sid s Hs) as (s2 & Hs2 & Hdead2 & Ht2).
    destruct (Ho23 sid s2 Hs2) as (s3 & Hs3 & Hdead3 & Ht3).
    exists s3. split; [done|]. split.
    + intros Hn. rewrite <- (Hdead2 Hn). apply Hdead3.
      intros Hin. destruct (Hd12 sid Hin) as [?|Hnone]; [done|congruence].
    + intros Hb. by rewrite Ht3, Ht2.
  - intros sid Hin. destruct (Hd23 sid Hin) as [Hin2|Hnone2].
    + apply Hd12, Hin2.
    + right. destruct (heap m1 !! sid) as [s|] eqn:Hs; [|done].
      destruct (Ho12 sid s Hs) as (s2 & Hs2 & _). congruence.
  - intros sid s3 Hs3 Hin3 Hc3.
    destruct (Hc23 sid s3 Hs3 Hin3 Hc3) as (s2 & Hs2 & Hin2 & Hc2).
    apply (Hc12 sid s2 Hs2 Hin2 Hc2).
Qed.

(** A state change that leaves the heap and the key set alone. *)
Lemma evolves_same_store b m m' :
  heap m' = heap m -> sessions m' = sessions m -> (nextUuid m <= nextUuid m')%nat ->
  evolves b m m'.
Proof.
  intros Hh Hs Hn Hf. split.
  { intros sid Hsome. rewrite Hh in Hsome. specialize (Hf sid Hsome). lia. }
  rewrite Hh, Hs. split; [|split]; eauto.
Qed.

Lemma evolves_only_sockets b m m' : only_sockets m m' -> evolves b m m'.
Proof.
  intros (Hh & Hs & _ & _ & _ & _ & _ & _ & _ & Hn & _).
  apply evolves_same_store; [done|done|lia].
Qed.

(** An assignment to a session that is in the store. *)
Lemma evolves_assign b sid f m s :
  sessions_get sid m = Some s ->
  (forall s, status (f s) = cancelled -> status s = cancelled) ->
  (b = true -> forall s, threadId (f s) = threadId s) ->
  evolves b m (snd (assign sid f m)).
Proof.
  intros Hget Hst Hth Hf. apply sessions_get_Some in Hget as [Hin Hs]. simpl.
  split; [|split; [|split]].
  - intros j Hj. apply Hf. simpl in Hj. destruct (decide (sid = j)) as [->|Hne].
    + by rewrite Hs.
    + by rewrite lookup_alter_ne in Hj.
  - intros j sj Hj. destruct (decide (sid = j)) as [->|Hne].
    + rewrite lookup_alter_eq, Hj. simpl. eexists. split; [done|].
      split; [done|]. intros Hb. by apply Hth.
    + rewrite lookup_alter_ne by done. eauto.
  - eauto.
  - intros j sj' Hj Hinj Hc. destruct (decide (sid = j)) as [->|Hne].
    + rewrite lookup_alter_eq, Hs in Hj. simpl in Hj. injection Hj as <-.
      exists s. eauto.
    + rewrite lookup_alter_ne in Hj by done. eauto.
Qed.

#[local] Hint Resolve evolves_refl evolves_trans : pres.
#[local] Hint Extern 1 (_ <> cancelled) => discriminate : pres.

Lemma broadcast_evolves b sid msg : preserves (evolves b) (broadcast sid msg).
Proof. intros m. apply evolves_only_sockets, broadcast_only_sockets. Qed.
#[local] Hint Resolve broadcast_evolves : pres.

Lemma broadcastSnapshot_evolves b sid : preserves (evolves b) (broadcastSnapshot sid).
Proof. unfold broadcastSnapshot. pres. Qed.
#[local] Hint Resolve broadcastSnapshot_evolves : pres.

Lemma publishEvent_evolves b sid lvl msg det :
  preserves (evolves b) (publishEvent sid lvl msg det).
Proof.
  intros m. destruct (sessions_get sid m) as [s|] eqn:H.
  - rewrite (publishEvent_live _ _ _ _ _ _ H). cbn [snd].
    eapply evolves_trans; [|apply evolves_only_sockets, broadcast_only_sockets].
    eapply evolves_trans;
      [apply (evolves_same_store b m (set_nextUuid (S (nextUuid m)) m)); simpl; auto|].
    by eapply evolves_assign.
  - rewrite (publishEvent_dead _ _ _ _ _ H). apply evolves_refl.
Qed.
#[local] Hint Resolve publishEvent_evolves : pres.

Lemma updateStatus_evolves b sid st :
  st <> cancelled -> preserves (evolves b) (updateStatus sid st).
Proof.
  intros Hst m. destruct (sessions_get sid m) as [s|] eqn:H.
  - rewrite (updateStatus_live _ _ _ _ H). cbn [snd].
    eapply evolves_trans; [|apply evolves_only_sockets, broadcast_only_sockets].
    by eapply evolves_assign.
  - rewrite (updateStatus_dead _ _ _ H). apply evolves_refl.
Qed.
#[local] Hint Resolve updateStatus_evolves : pres.

Lemma updateSessionMetadata_evolves b sid f :
  (forall s, status (f s) = status s) ->
  (b = true -> forall s, threadId (f s) = threadId s) ->
  preserves (evolves b) (updateSessionMetadata sid f).
Proof.
  intros Hst Hth m. destruct (sessions_get sid m) as [s|] eqn:H.
  - rewrite (updateSessionMetadata_live _ _ _ _ H). cbn [snd].
    eapply evolves_assign; [done| |].
    + intros s0. simpl. by rewrite Hst.
    + intros Hb s0. simpl. by apply Hth.
  - rewrite (updateSessionMetadata_dead _ _ _ H). apply evolves_refl.
Qed.

Ltac session_fields :=
  intros;
  repeat match goal with |- context [if ?b then _ else _] => destruct b end;
  try discriminate; reflexivity.

#[local] Hint Extern 2 (preserves (evolves _) (updateSessionMetadata _ _)) =>
  apply updateSessionMetadata_evolves; session_fields : pres.

Lemma handleThreadEvent_evolves parse sid ev :
  preserves (evolves (negb (is_thread_started ev))) (handleThreadEvent parse sid ev).
Proof.
  unfold handleThreadEvent, handleItemEvent, handleAgentMessage, handleCommandExecution,
    handleMcpToolCall.
  destruct ev; simpl negb; pres.
Qed.

#[local] Hint Extern 3 (preserves (evolves _) (modify _)) =>
  apply preserves_modify; intros; apply evolves_same_store; simpl; auto : pres.

Lemma alter_task_evolves b tid f : preserves (evolves b) (alter_task tid f).
Proof. unfold alter_task. pres. Qed.
#[local] Hint Resolve alter_task_evolves : pres.

Lemma acquireAgentSlot_evolves b tid : preserves (evolves b) (acquireAgentSlot tid).
Proof. unfold acquireAgentSlot. pres. Qed.

Lemma acquireAgentSlot_resumed_evolves b : preserves (evolves b) acquireAgentSlot_resumed.
Proof. unfold acquireAgentSlot_resumed. pres. Qed.

Lemma releaseAgentSlot_evolves b : preserves (evolves b) releaseAgentSlot.
Proof. unfold releaseAgentSlot. pres. Qed.
#[local] Hint Resolve acquireAgentSlot_evolves acquireAgentSlot_resumed_evolves
  releaseAgentSlot_evolves : pres.

Lemma runAgentSession_evolves b sid is_hint hint_text :
  preserves (evolves b) (runAgentSession sid is_hint hint_text).
Proof. unfold runAgentSession. pres. Qed.
#[local] Hint Resolve runAgentSession_evolves : pres.

Lemma run_exit_evolves b tid : preserves (evolves b) (run_exit tid).
Proof. unfold run_exit. pres. Qed.
#[local] Hint Resolve run_exit_evolves : pres.

Lemma outer_try_evolves b tid body :
  preserves (evolves b) body -> preserves (evolves b) (outer_try tid body).
Proof. intros Hb. unfold outer_try. pres. Qed.

Lemma start_run_evolves b tid t : preserves (evolves b) (start_run tid t).
Proof. unfold start_run. pres. Qed.
#[local] Hint Resolve start_run_evolves : pres.

Lemma admitted_evolves b tid t : preserves (evolves b) (admitted tid t).
Proof. unfold admitted. pres. Qed.

Lemma open_stream_evolves b tid t : preserves (evolves b) (open_stream tid t).
Proof. unfold open_stream. pres. Qed.

Lemma stream_catch_evolves b tid sid text : preserves (evolves b) (stream_catch tid sid text).
Proof. unfold stream_catch. pres. Qed.

Lemma stream_finally_evolves b tid sid : preserves (evolves b) (stream_finally tid sid).
Proof. unfold stream_finally. pres. Qed.
#[local] Hint Resolve admitted_evolves open_stream_evolves stream_catch_evolves
  stream_finally_evolves outer_try_evolves : pres.

Lemma leave_stream_evolves b tid sid body :
  preserves (evolves b) body -> preserves (evolves b) (leave_stream tid sid body).
Proof. intros Hb. unfold leave_stream. pres. Qed.
#[local] Hint Resolve leave_stream_evolves : pres.

Lemma stream_item_evolves parse tid t ev :
  preserves (evolves (negb (is_thread_started ev))) (stream_item parse tid t ev).
Proof.
  unfold stream_item. pres. apply handleThreadEvent_evolves.
Qed.

Lemma resumeRun_evolves b tid t : preserves (evolves b) (resumeRun tid t).
Proof. unfold resumeRun. pres. apply leave_stream_evolves. pres. Qed.

Lemma submitHint_evolves b sid hint_text : preserves (evolves b) (submitHint sid hint_text).
Proof. unfold submitHint. pres. Qed.

Lemma registerClient_evolves b sid : preserves (evolves b) (registerClient sid).
Proof. unfold registerClient. pres. Qed.

Lemma on_close_evolves b k : preserves (evolves b) (on_close k).
Proof. unfold on_close. pres. Qed.

Lemma on_error_evolves b k : preserves (evolves b) (on_error k).
Proof. unfold on_error. pres. Qed.

(** Allocating a session under the next identifier. *)
Lemma evolves_alloc b m session :
  status session <> cancelled ->
  evolves b m
    (set_sessions ({[nextUuid m]} ∪ sessions m)
       (set_heap (<[nextUuid m := session]> (heap m)) (set_nextUuid (S (nextUuid m)) m))).
Proof.
  intros Hst Hf. simpl.
  assert (Hnew : heap m !! nextUuid m = None).
  { destruct (heap m !! nextUuid m) eqn:E; [|done].
    assert (nextUuid m < nextUuid m)%nat by (apply Hf; by rewrite E). lia. }
  split; [|split; [|split]].
  - intros j Hj. simpl in *. destruct (decide (nextUuid m = j)) as [<-|Hne]; [lia|].
    rewrite lookup_insert_ne in Hj by done. specialize (Hf j Hj). lia.
  - intros j sj Hj. assert (nextUuid m <> j) by congruence.
    rewrite lookup_insert_ne by done. eauto.
  - intros j Hin. apply elem_of_union in Hin as [Hin|Hin]; [|by left].
    apply elem_of_singleton in Hin as ->. by right.
  - intros j sj Hj Hin Hc. destruct (decide (nextUuid m = j)) as [<-|Hne].
    + rewrite lookup_insert_eq in Hj. congruence.
    + rewrite lookup_insert_ne in Hj by done.
      apply elem_of_union in Hin as [Hin|Hin]; [|by eauto].
      apply elem_of_singleton in Hin. congruence.
Qed.

Lemma createSession_unfold pb workspace artifact m :
  createSession pb workspace artifact m
  = announce (nextUuid m) workspace artifact (allocate pb workspace artifact m).
Proof. reflexivity. Qed.

Lemma announce_evolves b uuid workspace artifact :
  preserves (evolves b) (announce uuid workspace artifact).
Proof. unfold announce. pres. Qed.

Lemma createSession_evolves b pb workspace artifact :
  preserves (evolves b) (createSession pb workspace artifact).
Proof.
  intros m. rewrite createSession_unfold.
  eapply evolves_trans; [|apply announce_evolves].
  unfold allocate. apply evolves_alloc. simpl. discriminate.
Qed.

Lemma broadcastSnapshot_normal sid m : fst (broadcastSnapshot sid m) = Normal tt.
Proof.
  unfold broadcastSnapshot, mbind, M_bind, bind, gets.
  by destruct (sessions_get sid m).
Qed.

(** Taking a session out of the store, with a last assignment to it. *)
Lemma evolves_retire b sid f m m' s :
  sessions_get sid m = Some s ->
  heap m' = alter f sid (heap m) -> sessions m' = sessions m ∖ {[sid]} ->
  nextUuid m' = nextUuid m ->
  (forall s, threadId (f s) = threadId s) ->
  evolves b m m'.
Proof.
  intros Hget Hh Hs Hn Hth Hf. apply sessions_get_Some in Hget as [Hin Hsid].
  rewrite Hh, Hs. split; [|split; [|split]].
  - intros j Hj. rewrite Hn. apply Hf. rewrite Hh in Hj.
    destruct (decide (sid = j)) as [->|Hne]; [by rewrite Hsid|].
    by rewrite lookup_alter_ne in Hj.
  - intros j sj Hj. destruct (decide (sid = j)) as [->|Hne].
    + rewrite lookup_alter_eq, Hj. simpl. eexists. split; [done|]. split; [done|].
      intros _. apply Hth.
    + rewrite lookup_alter_ne by done. eauto.
  - intros j Hj. left. by apply elem_of_difference in Hj as [? _].
  - intros j sj Hj Hinj Hc.
    apply elem_of_difference in Hinj as [Hinj Hne].
    assert (sid <> j) by (intros ->; by apply Hne, elem_of_singleton).
    rewrite lookup_alter_ne in Hj by done. by exists sj.
Qed.

Lemma surjective_pairing_normal {A} (c : Completion A * Manager) a :
  fst c = Normal a -> c = (Normal a, snd c).
Proof. destruct c; simpl; by intros ->. Qed.

Lemma removeSession_tail_live sid m s :
  sessions_get sid m = Some s ->
  removeSession_tail sid m = close_subscribers sid (retired sid m).
Proof.
  intros H. unfold removeSession_tail, mbind, M_bind.
  rewrite (bind_normal _ _ m (Some s) m) by (unfold gets; by rewrite H).
  unfold Date_now. rewrite (bind_normal _ _ m (clock m) m) by reflexivity.
  erewrite bind_normal by reflexivity.
  erewrite bind_normal
    by (apply surjective_pairing_normal, broadcastSnapshot_normal).
  erewrite bind_normal by reflexivity.
  reflexivity.
Qed.

Lemma removeSession_tail_dead sid m :
  sessions_get sid m = None -> removeSession_tail sid m = (Normal false, m).
Proof.
  intros H. unfold removeSession_tail, mbind, M_bind.
  rewrite (bind_normal _ _ m None m) by (unfold gets; by rewrite H). reflexivity.
Qed.

Lemma close_subscribers_evolves b sid : preserves (evolves b) (close_subscribers sid).
Proof. unfold close_subscribers. pres. Qed.

Lemma retired_store sid m :
  heap (retired sid m)
  = alter (fun s => set_updatedAt (clock m) (set_status cancelled s)) sid (heap m)
  /\ sessions (retired sid m) = sessions m ∖ {[sid]}
  /\ nextUuid (retired sid m) = nextUuid m.
Proof.
  unfold retired. simpl.
  set (m1 := set_heap _ m).
  assert (Hos : only_sockets m1 (snd (broadcastSnapshot sid m1))).
  { destruct (sessions_get sid m1) as [s|] eqn:H.
    - rewrite (broadcastSnapshot_live _ _ _ H). apply broadcast_only_sockets.
    - rewrite (broadcastSnapshot_dead _ _ H). apply only_sockets_refl. }
  destruct Hos as (Hh & Hs & _ & _ & _ & _ & _ & _ & _ & Hn & _).
  by rewrite Hh, Hs, Hn.
Qed.

Lemma removeSession_tail_evolves b sid : preserves (evolves b) (removeSession_tail sid).
Proof.
  intros m. destruct (sessions_get sid m) as [s|] eqn:H.
  - rewrite (removeSession_tail_live _ _ _ H).
    eapply evolves_trans; [|apply close_subscribers_evolves].
    destruct (retired_store sid m) as (Hh & Hs & Hn).
    by eapply evolves_retire.
  - rewrite (removeSession_tail_dead _ _ H). apply evolves_refl.
Qed.
#[local] Hint Resolve removeSession_tail_evolves : pres.

Lemma removeSession_evolves b sid : preserves (evolves b) (removeSession sid).
Proof. unfold removeSession. pres. Qed.

Lemma removeSession_resumed_evolves b rid sid :
  preserves (evolves b) (removeSession_resumed rid sid).
Proof. unfold removeSession_resumed. pres. Qed.

Lemma exec_evolves b {A} (c : M A) m m' :
  preserves (evolves b) c -> exec c m = Some m' -> evolves b m m'.
Proof. intros Hc [= <-]. apply Hc. Qed.

Lemma step_evolves parse l m m' :
  step parse l m = Some m' -> evolves (keeps_thread l) m m'.
Proof.
  destruct l; simpl; intros Hstep;
    repeat match type of Hstep with
    | match ?x with _ => _ end = Some _ => destruct x eqn:?; try discriminate
    | (if ?x then _ else _) = Some _ => destruct x eqn:?; try discriminate
    end;
    try (eapply exec_evolves; [|exact Hstep]).
  - apply createSession_evolves.
  - apply submitHint_evolves.
  - apply removeSession_evolves.
  - apply removeSession_resumed_evolves.
  - apply registerClient_evolves.
  - apply resumeRun_evolves.
  - pres.
  - apply stream_item_evolves.
  - pres.
  - pres.
  - injection Hstep as <-. by apply evolves_same_store.
  - injection Hstep as <-. by apply evolves_same_store.
  - apply on_close_evolves.
  - apply on_close_evolves.
  - apply on_close_evolves.
  - apply on_error_evolves.
  - apply on_error_evolves.
  - apply on_error_evolves.
  - injection Hstep as <-. by apply evolves_same_store.
Qed.

Lemma newManager_fresh env : fresh_ok (newManager env).
Proof. intros sid [s Hs]. simpl in Hs. by rewrite lookup_empty in Hs. Qed.

Lemma reachable_fresh parse env m : reachable parse env m -> fresh_ok m.
Proof.
  induction 1 as [|l m m' _ IH Hstep]; [apply newManager_fresh|].
  by destruct (step_evolves _ _ _ _ Hstep IH).
Qed.

(** No session in the store is ever [cancelled]. *)
Lemma reachable_store_not_cancelled parse env m sid s :
  reachable parse env m -> heap m !! sid = Some s -> sid ∈ sessions m ->
  status s <> cancelled.
Proof.
  intros Hr. revert sid s. induction Hr as [|l m m' Hr IH Hstep]; intros sid s Hs Hin Hc.
  - simpl in Hs. by rewrite lookup_empty in Hs.
  - destruct (step_evolves _ _ _ _ Hstep (reachable_fresh _ _ _ Hr)) as (_ & _ & _ & Hcan).
    destruct (Hcan sid s Hs Hin Hc) as (s0 & Hs0 & Hin0 & Hc0). by eapply IH.
Qed.

(** C3 (amended).  [cancelled] is terminal: a session takes the status
    [cancelled] as it leaves the store, and from then on no step changes any
    field of its record, its status in particular.  ([completed] is not
    terminal in this sense; neither a hint nor a removal is refused for a
    completed session.) *)
Theorem cancelled_is_terminal parse env m l m' sid s :
  reachable parse env m -> step parse l m = Some m' ->
  heap m !! sid = Some s -> status s = cancelled ->
  heap m' !! sid = Some s /\ sid ∉ sessions m'.
Proof.
  intros Hr Hstep Hs Hc.
  assert (Hdead : sid ∉ sessions m).
  { intros Hin. by apply (reachable_store_not_cancelled _ _ _ _ _ Hr Hs Hin). }
  destruct (step_evolves _ _ _ _ Hstep (reachable_fresh _ _ _ Hr)) as (_ & Ho & Hd & _).
  destruct (Ho sid s Hs) as (s' & Hs' & Heq & _). rewrite (Heq Hdead) in Hs'.
  split; [done|]. intros Hin. destruct (Hd sid Hin); congruence.
Qed.

Lemma reachable_run parse env ls m m' :
  reachable parse env m -> run parse ls m = Some m' -> reachable parse env m'.
Proof.
  revert m. induction ls as [|l ls IH]; intros m Hr; simpl.
  - by intros [= <-].
  - destruct (step parse l m) as [m1|] eqn:Hstep; [|discriminate].
    intros Hrun. eapply IH; [|exact Hrun]. by eapply reachable_step.
Qed.

Lemma reachable_after ls env m :
  run JSON_parse_demo ls (newManager env) = Some m ->
  reachable JSON_parse_demo env (after ls env).
Proof.
  intros H. unfold after. rewrite H. simpl.
  eapply reachable_run; [apply reachable_init|exact H].
Qed.

Lemma cancelled_is_terminal_witness :
  exists s,
    heap (after [create; RemoveSession 0%nat] None) !! 0%nat = Some s
    /\ status s = cancelled
    /\ step JSON_parse_demo (Resume 0%nat) (after [create; RemoveSession 0%nat] None)
       = Some (after [create; RemoveSession 0%nat; Resume 0%nat] None)
    /\ heap (after [create; RemoveSession 0%nat; Resume 0%nat] None) !! 0%nat = Some s.
Proof.
  eexists. split; [vm_compute; reflexivity|]. split; [vm_compute; reflexivity|].
  split; [vm_compute; reflexivity|].
  eapply (cancelled_is_terminal JSON_parse_demo None
            (after [create; RemoveSession 0%nat] None) (Resume 0%nat)).
  - eapply reachable_after. vm_compute. reflexivity.
  - vm_compute. reflexivity.
  - vm_compute. reflexivity.
  - vm_compute. reflexivity.
Defined.

(** ** Thread identifiers *)

Lemma tracks_admission sid {A} (c : M A) P m s :
  tracks sid c P -> preserves same_admission c -> sessions_get sid m = Some s ->
  exists a m1 s1, c m = (Normal a, m1) /\ sessions_get sid m1 = Some s1 /\ P s s1
    /\ same_admission m m1.
Proof.
  intros Hc Ha H. destruct (Hc m s H) as (a & s1 & Hn & Hget & HP).
  exists a, (snd (c m)), s1. split; [by apply surjective_pairing_normal|].
  split; [done|]. split; [done|apply Ha].
Qed.

(** A run started for a session with an established thread resumes that
    thread. *)
Lemma start_run_resumes tid t m s x :
  tasks m !! tid = Some t -> sessions_get (run_session t) m = Some s ->
  threadId s = Some x -> x <> "" ->
  exists t', tasks (snd (start_run tid t m)) !! tid = Some t'
    /\ thread t' = Some (resumeThread x).
Proof.
  intros Ht Hs Hx Hne. unfold start_run. cbv zeta. unfold mbind, M_bind.
  destruct (tracks_admission _ _ _ m s (tracks_updateStatus (run_session t) running)
              (updateStatus_admission _ _) Hs)
    as (a1 & m1 & s1 & E1 & G1 & [ts1 ->] & A1).
  rewrite (bind_normal _ _ _ _ _ E1).
  destruct (tracks_admission _ _ _ m1 _
              (tracks_updateSessionMetadata (run_session t)
                 (fun state => (if isHint t then set_result None else fun s0 => s0)
                                 (set_error None state)))
              (updateSessionMetadata_admission _ _) G1)
    as (a2 & m2 & s2 & E2 & G2 & [ts2 ->] & A2).
  rewrite (bind_normal _ _ _ _ _ E2).
  destruct (tracks_admission _ _ _ m2 _
              (tracks_publishEvent (run_session t) info
                 (if isHint t then "Processing operator hint with Codex agent."
                  else "Starting Codex agent run.")
                 (Some [("source", JStr (if isHint t then "hint" else "initial"))]))
              (publishEvent_admission _ _ _ _) G2)
    as (a3 & m3 & s3 & E3 & G3 & (ev & -> & _) & A3).
  rewrite (bind_normal _ _ _ _ _ E3).
  apply sessions_get_Some in G3 as [_ G3].
  unfold bind, gets, alter_task, modify, ret. cbn [fst snd]. rewrite G3.
  cbn [tasks set_tasks snd].
  destruct A1 as (T1 & _), A2 as (T2 & _), A3 as (T3 & _).
  rewrite lookup_alter_eq, T3, T2, T1, Ht. simpl. eexists. split; [reflexivity|].
  simpl. assert (Hth :
    threadId ((if isHint t then set_result None else fun s0 => s0)
                (set_error None (set_updatedAt ts1 (set_status running s)))) = Some x)
    by (by destruct (isHint t)).
  unfold thread_established. simpl. rewrite Hth. simpl.
  destruct x; [done|reflexivity].
Qed.

(** ** Delivery to subscribers *)

Lemma keeps_subscribers_refl m : keeps_subscribers m m.
Proof. by split. Qed.

Lemma keeps_subscribers_trans a b c :
  keeps_subscribers a b -> keeps_subscribers b c -> keeps_subscribers a c.
Proof. intros [? ?] [? ?]. split; [congruence|eauto]. Qed.

Lemma keeps_subscribers_same m m' :
  clients m' = clients m -> clientSets m' = clientSets m -> sockets m' = sockets m ->
  keeps_subscribers m m'.
Proof. intros Hc Hs Hk. split; [done|]. unfold subscribed. by rewrite Hs, Hk. Qed.

Lemma elem_of_set_delete k j (l : list nat) : j ∈ l -> j <> k -> j ∈ set_delete k l.
Proof.
  intros Hin Hne. unfold set_delete. apply list_elem_of_In, filter_In.
  split; [by apply list_elem_of_In|]. apply negb_true_iff, Nat.eqb_neq. done.
Qed.

Lemma broadcast_one_subscribed r0 msg m k0 r k :
  subscribed r k m -> subscribed r k (broadcast_one r0 msg m k0).
Proof.
  intros (members & sk & Hm & Hin & Hk & Ho). unfold broadcast_one.
  destruct (sockets m !! k0) as [s0|] eqn:H0; [|by exists members, sk].
  destruct (readyState s0) eqn:Hr0.
  - by exists members, sk.
  - simpl. destruct (decide (k0 = k)) as [->|Hne].
    + exists members, (socket_send msg sk). simpl.
      rewrite lookup_alter_eq, Hk. by repeat split.
    + exists members, sk. simpl. rewrite lookup_alter_ne by done. by repeat split.
  - assert (k <> k0) by (intros ->; congruence).
    destruct (decide (r0 = r)) as [->|Hner].
    + exists (set_delete k0 members), sk. simpl. rewrite lookup_alter_eq, Hm. simpl.
      repeat split; auto using elem_of_set_delete.
    + exists members, sk. simpl. rewrite lookup_alter_ne by done. by repeat split.
  - assert (k <> k0) by (intros ->; congruence).
    destruct (decide (r0 = r)) as [->|Hner].
    + exists (set_delete k0 members), sk. simpl. rewrite lookup_alter_eq, Hm. simpl.
      repeat split; auto using elem_of_set_delete.
    + exists members, sk. simpl. rewrite lookup_alter_ne by done. by repeat split.
Qed.

Lemma broadcast_keeps_subscribers sid msg : preserves keeps_subscribers (broadcast sid msg).
Proof.
  intros m. split; [by destruct (broadcast_only_sockets sid msg m) as (_ & _ & ? & _)|].
  intros r k. simpl. destruct (clients m !! sid) as [r0|]; [|done].
  generalize (default [] (clientSets m !! r0)). intros l. revert m.
  induction l as [|k0 l IH]; intros m Hsub; simpl; [done|].
  apply IH. by apply broadcast_one_subscribed.
Qed.

Lemma last_app_one {A} (l : list A) (x : A) : last (l ++ [x]) = Some x.
Proof. induction l as [|y l IH]; [done|]. simpl. destruct (l ++ [x]) eqn:E; [by destruct l|done]. Qed.

Lemma broadcast_one_last_sent r msg m k0 k :
  last_sent msg k m -> last_sent msg k (broadcast_one r msg m k0).
Proof.
  intros (sk & Hk & Ho & Hl). unfold broadcast_one.
  destruct (sockets m !! k0) as [s0|] eqn:H0; [|by exists sk].
  destruct (readyState s0) eqn:Hr0; try (by exists sk).
  unfold last_sent. simpl. destruct (decide (k0 = k)) as [->|Hne].
  - exists (socket_send msg sk). rewrite lookup_alter_eq, Hk. simpl.
    split; [done|]. split; [done|apply last_app_one].
  - exists sk. by rewrite lookup_alter_ne.
Qed.

Lemma broadcast_one_delivers r msg m k sk :
  sockets m !! k = Some sk -> readyState sk = OPEN ->
  last_sent msg k (broadcast_one r msg m k).
Proof.
  intros Hk Ho. unfold broadcast_one, last_sent. rewrite Hk, Ho. simpl.
  exists (socket_send msg sk). rewrite lookup_alter_eq, Hk. simpl.
  split; [done|]. split; [done|apply last_app_one].
Qed.

(** A socket that is open stays open while the others are served. *)
Lemma broadcast_one_open r msg m k0 k sk :
  sockets m !! k = Some sk -> readyState sk = OPEN ->
  exists sk', sockets (broadcast_one r msg m k0) !! k = Some sk' /\ readyState sk' = OPEN.
Proof.
  intros Hk Ho. unfold broadcast_one.
  destruct (sockets m !! k0) as [s0|] eqn:H0; [|by exists sk].
  destruct (readyState s0) eqn:Hr0; try (by exists sk).
  simpl. destruct (decide (k0 = k)) as [->|Hne].
  - exists (socket_send msg sk). by rewrite lookup_alter_eq, Hk.
  - exists sk. by rewrite lookup_alter_ne.
Qed.

Lemma foldl_broadcast_delivers r msg l : forall m k,
  (last_sent msg k m \/ (k ∈ l /\ exists sk, sockets m !! k = Some sk /\ readyState sk = OPEN)) ->
  last_sent msg k (foldl (broadcast_one r msg) m l).
Proof.
  induction l as [|k0 l IH]; intros m k H; simpl.
  - destruct H as [?|[Hin _]]; [done|]. by apply elem_of_nil in Hin.
  - apply IH. destruct H as [Hl|(Hin & sk & Hk & Ho)].
    + left. by apply broadcast_one_last_sent.
    + apply elem_of_cons in Hin as [->|Hin].
      * left. by eapply broadcast_one_delivers.
      * right. split; [done|]. by eapply broadcast_one_open.
Qed.

(** A broadcast reaches every open member of the session's [Set]. *)
Lemma broadcast_delivers sid msg m r k :
  clients m !! sid = Some r -> subscribed r k m ->
  last_sent msg k (snd (broadcast sid msg m)).
Proof.
  intros Hc (members & sk & Hm & Hin & Hk & Ho). simpl. rewrite Hc, Hm. simpl.
  apply foldl_broadcast_delivers. right. eauto.
Qed.

Lemma assign_keeps_subscribers sid f : preserves keeps_subscribers (assign sid f).
Proof. intros m. by apply keeps_subscribers_same. Qed.

Lemma updateStatus_full sid st m s :
  sessions_get sid m = Some s ->
  exists m1, updateStatus sid st m = (Normal tt, m1)
    /\ sessions_get sid m1 = Some (set_updatedAt (clock m) (set_status st s))
    /\ same_admission m m1 /\ keeps_subscribers m m1.
Proof.
  intros H. eexists. split; [apply (updateStatus_live _ _ _ _ H)|].
  split; [|split].
  - rewrite <- (sessions_get_updateStatus _ st _ _ H).
    by rewrite (updateStatus_live _ _ _ _ H).
  - eapply same_admission_trans; [apply assign_admission|apply broadcast_admission].
  - eapply keeps_subscribers_trans;
      [apply assign_keeps_subscribers|apply broadcast_keeps_subscribers].
Qed.

Lemma broadcastSnapshot_full sid m s :
  sessions_get sid m = Some s ->
  exists m1, broadcastSnapshot sid m = (Normal tt, m1)
    /\ sessions_get sid m1 = Some s
    /\ same_admission m m1 /\ keeps_subscribers m m1
    /\ (forall r k, clients m !! sid = Some r -> subscribed r k m ->
          last_sent (MsgSnapshot s) k m1).
Proof.
  intros H. eexists. split; [apply (broadcastSnapshot_live _ _ _ H)|].
  split; [|split; [|split]].
  - by rewrite (sessions_get_broadcast sid (MsgSnapshot s) m sid).
  - apply broadcast_admission.
  - apply broadcast_keeps_subscribers.
  - intros r k Hc Hsub. by eapply broadcast_delivers.
Qed.

(** The inner [finally] on a run that was not cancelled and whose session is
    in the store. *)
Lemma stream_finally_spec tid sid m s :
  task_cancelled tid m = false -> sessions_get sid m = Some s ->
  exists m' s',
    stream_finally tid sid m = (Normal tt, m')
    /\ sessions_get sid m' = Some s'
    /\ status s' <> running
    /\ (status s = running -> status s' = awaiting_hint)
    /\ (status s <> running -> s' = s)
    /\ same_admission m m'
    /\ (forall r k, clients m !! sid = Some r -> subscribed r k m ->
          last_sent (MsgSnapshot s') k m').
Proof.
  intros Hc Hs. unfold stream_finally, mbind, M_bind.
  erewrite bind_normal by reflexivity. cbv beta.
  set (m1 := set_activeStreams (delete sid (activeStreams m)) m).
  assert (Hs1 : sessions_get sid m1 = Some s) by exact Hs.
  rewrite (bind_normal _ _ m1 false m1) by (unfold gets; by rewrite <- Hc).
  cbv beta.
  rewrite (bind_normal _ _ m1 true m1)
    by (unfold gets, sessions_has; by rewrite Hs1).
  cbv beta. cbn [negb andb].
  rewrite (bind_normal _ _ m1 (Some s) m1) by (unfold gets; by rewrite Hs1).
  cbv beta iota.
  destruct (decide (status s = running)) as [Hrun|Hrun].
  - rewrite Hrun.
    destruct (updateStatus_full sid awaiting_hint m1 s Hs1) as (m2 & E2 & G2 & A2 & K2).
    rewrite (bind_normal _ _ _ _ _ E2). cbv beta.
    destruct (broadcastSnapshot_full sid m2 _ G2) as (m3 & E3 & G3 & A3 & K3 & D3).
    rewrite E3. eexists m3, _. split; [reflexivity|]. split; [exact G3|].
    simpl. split; [discriminate|]. split; [done|]. split; [done|].
    split; [eapply same_admission_trans; [|exact A3]; eapply same_admission_trans;
            [|exact A2]; by repeat split|].
    intros r k Hcl Hsub. apply (D3 r k).
    + destruct K2 as [-> _]. exact Hcl.
    + apply K2. exact Hsub.
  - assert (Hskip : (match status s with
                     | running => updateStatus sid awaiting_hint
                     | _ => ret tt
                     end) m1 = (Normal tt, m1)) by (by destruct (status s)).
    rewrite (bind_normal _ _ _ _ _ Hskip). cbv beta.
    destruct (broadcastSnapshot_full sid m1 _ Hs1) as (m3 & E3 & G3 & A3 & K3 & D3).
    rewrite E3. eexists m3, s. split; [reflexivity|]. split; [exact G3|].
    split; [done|]. split; [done|]. split; [done|].
    split; [eapply same_admission_trans; [|exact A3]; by repeat split|].
    intros r k Hcl Hsub. by apply (D3 r k).
Qed.

(** The outer [finally]: the store and the sockets are as before, the count
    is one less (never below zero) and the run is over. *)
Lemma run_exit_spec tid m t :
  tasks m !! tid = Some t ->
  exists m', run_exit tid m = (Normal tt, m')
    /\ heap m' = heap m /\ sessions m' = sessions m /\ sockets m' = sockets m
    /\ activeAgentCount m' = Z.max 0 (activeAgentCount m - 1)
    /\ exists t', tasks m' !! tid = Some t' /\ pc t' = Finished.
Proof.
  intros Ht. unfold run_exit, releaseAgentSlot, alter_task, mbind, M_bind, bind, modify,
    gets, ret. simpl. destruct (slotQueue m) as [|next rest]; simpl.
  - eexists. split; [reflexivity|]. simpl. repeat split; try reflexivity.
    rewrite lookup_alter_eq, Ht. simpl. eauto.
  - eexists. split; [reflexivity|]. simpl. repeat split; try reflexivity.
    rewrite lookup_alter_eq. destruct (decide (next = tid)) as [->|Hne].
    + rewrite lookup_alter_eq, Ht. simpl. eauto.
    + rewrite lookup_alter_ne, Ht by done. simpl. eauto.
Qed.

Lemma sessions_get_same_store j m m' :
  heap m' = heap m -> sessions m' = sessions m -> sessions_get j m' = sessions_get j m.
Proof. intros Hh Hs. unfold sessions_get. by rewrite Hh, Hs. Qed.

Lemma publishEvent_full sid lvl msg det m s :
  sessions_get sid m = Some s ->
  exists ev m1, publishEvent sid lvl msg det m = (Normal ev, m1)
    /\ sessions_get sid m1 = Some (push_event ev s)
    /\ same_admission m m1 /\ keeps_subscribers m m1.
Proof.
  intros H. eexists _, _. split; [apply (publishEvent_live _ _ _ _ _ _ H)|].
  split; [|split].
  - rewrite <- (sessions_get_publishEvent _ lvl msg det _ _ H).
    by rewrite (publishEvent_live _ _ _ _ _ _ H).
  - eapply same_admission_trans; [|apply broadcast_admission].
    eapply same_admission_trans; [|apply assign_admission]. by repeat split.
  - eapply keeps_subscribers_trans; [|apply broadcast_keeps_subscribers].
    eapply keeps_subscribers_trans; [|apply assign_keeps_subscribers].
    by apply keeps_subscribers_same.
Qed.

Lemma updateSessionMetadata_full sid f m s :
  sessions_get sid m = Some s ->
  exists m1, updateSessionMetadata sid f m = (Normal tt, m1)
    /\ sessions_get sid m1 = Some (set_updatedAt (clock m) (f s))
    /\ same_admission m m1 /\ keeps_subscribers m m1.
Proof.
  intros H. eexists. split; [apply (updateSessionMetadata_live _ _ _ _ H)|].
  split; [|split].
  - rewrite <- (sessions_get_updateSessionMetadata _ f _ _ H).
    by rewrite (updateSessionMetadata_live _ _ _ _ H).
  - apply assign_admission.
  - apply assign_keeps_subscribers.
Qed.

(** The [catch] block on a run that was not cancelled and whose session is
    in the store. *)
Lemma stream_catch_spec tid sid text m s :
  task_cancelled tid m = false -> sessions_get sid m = Some s ->
  exists m' s',
    stream_catch tid sid text m = (Normal tt, m')
    /\ sessions_get sid m' = Some s' /\ status s' = awaiting_hint
    /\ same_admission m m' /\ keeps_subscribers m m'.
Proof.
  intros Hc Hs. unfold stream_catch, mbind, M_bind.
  rewrite (bind_normal _ _ m false m) by (unfold gets; by rewrite Hc).
  cbv beta.
  rewrite (bind_normal _ _ m true m) by (unfold gets, sessions_has; by rewrite Hs).
  cbv beta. cbn [negb orb].
  destruct (publishEvent_full sid level_error text None m s Hs)
    as (ev & m1 & E1 & G1 & A1 & K1).
  rewrite (bind_normal _ _ _ _ _ E1). cbv beta.
  destruct (updateStatus_full sid awaiting_hint m1 _ G1) as (m2 & E2 & G2 & A2 & K2).
  rewrite (bind_normal _ _ _ _ _ E2). cbv beta.
  destruct (updateSessionMetadata_full sid (set_error (Some text)) m2 _ G2)
    as (m3 & E3 & G3 & A3 & K3).
  rewrite E3. eexists m3, _. split; [reflexivity|]. split; [exact G3|].
  split; [reflexivity|].
  split; [eauto using same_admission_trans|eauto using keeps_subscribers_trans].
Qed.

(** C6.  When the stream of a run that was not cancelled ends, by exhaustion
    or by a failure, while its session is in the store, the step that ends
    the run leaves the session with a status other than [running]: a session
    still [running] is moved to [awaiting_hint] (on exhaustion any other
    status, and every other field, is kept), every open subscriber of the
    session is sent, last, a snapshot of the session as it then is, and the
    run is finished. *)
Theorem stream_end_never_leaves_running parse tid t m s l :
  tasks m !! tid = Some t -> pc t = AwaitNext -> run_cancelled t = false ->
  sessions_get (run_session t) m = Some s ->
  (l = StreamEnd tid \/ exists text, l = StreamError tid text) ->
  exists m' s' t',
    step parse l m = Some m'
    /\ sessions_get (run_session t) m' = Some s'
    /\ status s' <> running
    /\ (status s = running -> status s' = awaiting_hint)
    /\ (l = StreamEnd tid -> status s <> running -> s' = s)
    /\ (forall r k, clients m !! run_session t = Some r -> subscribed r k m ->
          last_sent (MsgSnapshot s') k m')
    /\ tasks m' !! tid = Some t' /\ pc t' = Finished.
Proof.
  intros Ht Hpc Hc Hs Hl.
  assert (Hcan : task_cancelled tid m = false) by (unfold task_cancelled; by rewrite Ht).
  assert (Hbody : exists body mb sb,
    step parse l m = exec (leave_stream tid (run_session t) body) m
    /\ body m = (Normal tt, mb) /\ sessions_get (run_session t) mb = Some sb
    /\ same_admission m mb /\ keeps_subscribers m mb
    /\ (status s = running -> status sb = running \/ status sb = awaiting_hint)
    /\ (l = StreamEnd tid -> sb = s)
    /\ (l <> StreamEnd tid -> status sb = awaiting_hint)).
  { destruct Hl as [->|[text ->]]; simpl; rewrite Ht, Hpc; simpl.
    - exists (ret tt), m, s.
      repeat match goal with |- _ /\ _ => split end;
        auto using same_admission_refl, keeps_subscribers_refl; done.
    - destruct (stream_catch_spec tid (run_session t)
                  (default default_stream_error text) m s Hcan Hs)
        as (mb & sb & Eb & Gb & Hst & Ab & Kb).
      exists (stream_catch tid (run_session t) (default default_stream_error text)), mb, sb.
      repeat match goal with |- _ /\ _ => split end; auto; discriminate. }
  destruct Hbody as (body & mb & sb & -> & Eb & Gb & Ab & Kb & Hrun & Hend & Herr).
  unfold exec, leave_stream, try_finally. rewrite Eb.
  assert (Htb : tasks mb !! tid = Some t) by (destruct Ab as (-> & _); exact Ht).
  destruct (stream_finally_spec tid (run_session t) mb sb) as
    (m1 & s' & E1 & G1 & Hnr & Hrun1 & Hkeep & A1 & D1);
    [unfold task_cancelled; by rewrite Htb|exact Gb|].
  rewrite E1.
  assert (Ht1 : tasks m1 !! tid = Some t) by (destruct A1 as (-> & _); exact Htb).
  destruct (run_exit_spec tid m1 t Ht1) as (m2 & E2 & Hh & Hss & Hk & _ & t' & Ht' & Hfin).
  rewrite E2. simpl. exists m2, s', t'. split; [reflexivity|].
  split; [by rewrite (sessions_get_same_store _ _ _ Hh Hss)|].
  split; [done|]. split; [|split; [|split; [|done]]].
  - intros Hr. destruct Hl as [He|[text He]].
    + rewrite (Hend He) in *. auto.
    + assert (Hne : l <> StreamEnd tid) by (rewrite He; discriminate).
      specialize (Herr Hne). rewrite (Hkeep ltac:(congruence)). done.
  - intros He Hne. rewrite (Hend He) in *. auto.
  - intros r k Hcl Hsub. destruct (D1 r k) as (sk & ? & ? & ?).
    + destruct Kb as [-> _]. exact Hcl.
    + apply Kb. exact Hsub.
    + exists sk. by rewrite Hk.
Qed.

Lemma stream_end_never_leaves_running_witness :
  exists t s m' s' t',
    tasks (after [create; Resume 0%nat; Resume 0%nat; Resume 0%nat] None) !! 0%nat = Some t
    /\ pc t = AwaitNext /\ run_cancelled t = false
    /\ sessions_get 0 (after [create; Resume 0%nat; Resume 0%nat; Resume 0%nat] None)
       = Some s
    /\ status s = running
    /\ step JSON_parse_demo (StreamEnd 0%nat)
         (after [create; Resume 0%nat; Resume 0%nat; Resume 0%nat] None) = Some m'
    /\ sessions_get 0 m' = Some s' /\ status s' = awaiting_hint
    /\ tasks m' !! 0%nat = Some t' /\ pc t' = Finished.
Proof.
  destruct (stream_end_never_leaves_running JSON_parse_demo 0%nat
    (default {| run_session := 0; isHint := false; hint := None; pc := Finished;
                run_cancelled := false; thread := None |}
       (tasks (after [create; Resume 0%nat; Resume 0%nat; Resume 0%nat] None) !! 0%nat))
    (after [create; Resume 0%nat; Resume 0%nat; Resume 0%nat] None)
    (default created_session
       (sessions_get 0 (after [create; Resume 0%nat; Resume 0%nat; Resume 0%nat] None)))
    (StreamEnd 0%nat))
    as (m' & s' & t' & Hstep & Hget & _ & Hrun & _ & _ & Ht' & Hfin).
  - vm_compute. reflexivity.
  - vm_compute. reflexivity.
  - vm_compute. reflexivity.
  - vm_compute. reflexivity.
  - left. reflexivity.
  - eexists _, _, m', s', t'.
    split; [vm_compute; reflexivity|]. split; [vm_compute; reflexivity|].
    split; [vm_compute; reflexivity|]. split; [vm_compute; reflexivity|].
    split; [vm_compute; reflexivity|]. split; [exact Hstep|].
    split; [exact Hget|]. split; [apply Hrun; vm_compute; reflexivity|].
    split; [exact Ht'|exact Hfin].
Defined.

(** * The permit ledger *)

Lemma same_permits_refl m : same_permits m m.
Proof. by repeat split. Qed.

Lemma same_permits_trans a b c : same_permits a b -> same_permits b c -> same_permits a c.
Proof. intros (?&?&?&?) (?&?&?&?). repeat split; congruence. Qed.

Lemma same_admission_permits m m' : same_admission m m' -> same_permits m m'.
Proof. intros (Ht&?&?&?&?). unfold same_permits, pcs. by rewrite Ht. Qed.

Lemma ledger_same_permits m m' : same_permits m m' -> ledger m -> ledger m'.
Proof.
  intros (Hp & Hc & Hq & Hn) K. unfold ledger. by rewrite Hp, Hc, Hq, Hn.
Qed.

Lemma size_filter_insert (P : nat * RunPc -> Prop) `{!forall x, Decision (P x)}
    (mp : gmap nat RunPc) i p :
  Z.of_nat (size (filter P (<[i := p]> mp)))
  = Z.of_nat (size (filter P mp))
    - (match mp !! i with Some q => if decide (P (i, q)) then 1 else 0 | None => 0 end)
    + (if decide (P (i, p)) then 1 else 0).
Proof.
  assert (Hdel : Z.of_nat (size (filter P (delete i mp)))
    = Z.of_nat (size (filter P mp))
      - (match mp !! i with Some q => if decide (P (i, q)) then 1 else 0 | None => 0 end)).
  { destruct (mp !! i) as [q|] eqn:Hq.
    - rewrite <- (insert_delete_id mp i q) at 2 by done.
      destruct (decide (P (i, q))).
      + rewrite map_filter_insert_True by done.
        rewrite map_size_insert_None by (rewrite map_lookup_filter_None; left;
          apply lookup_delete_eq). lia.
      + rewrite map_filter_insert_False by done.
        rewrite delete_delete_eq. lia.
    - rewrite delete_id by done. lia. }
  rewrite <- insert_delete_eq. destruct (decide (P (i, p))).
  - rewrite map_filter_insert_True by done.
    rewrite map_size_insert_None by (rewrite map_lookup_filter_None; left;
      apply lookup_delete_eq). lia.
  - rewrite map_filter_insert_False by done. rewrite delete_delete_eq. lia.
Qed.

Lemma pc_fmap_alter (f : RunTask -> RunTask) (g : RunPc -> RunPc) tid
    (ts : gmap nat RunTask) :
  (forall t, pc (f t) = g (pc t)) ->
  pc <$> alter f tid ts = alter g tid (pc <$> ts).
Proof.
  intros Hfg. apply map_eq. intros j.
  destruct (decide (tid = j)) as [->|Hne].
  - rewrite lookup_fmap, !lookup_alter_eq, lookup_fmap.
    destruct (ts !! j); simpl; [by rewrite Hfg|done].
  - by rewrite lookup_fmap, !lookup_alter_ne, lookup_fmap.
Qed.

Lemma pc_fmap_alter_same (f : RunTask -> RunTask) tid (ts : gmap nat RunTask) :
  (forall t, pc (f t) = pc t) -> pc <$> alter f tid ts = pc <$> ts.
Proof.
  intros Hf. rewrite (pc_fmap_alter f (fun p => p)) by done.
  apply map_eq. intros j. destruct (decide (tid = j)) as [->|Hne].
  - rewrite lookup_alter_eq. by destruct ((pc <$> ts) !! j).
  - by rewrite lookup_alter_ne.
Qed.

Lemma held_insert (mp : gmap nat RunPc) i p :
  Z.of_nat (size (filter (fun kv : nat * RunPc => holds_permit kv.2 = true) (<[i := p]> mp)))
  = Z.of_nat (size (filter (fun kv : nat * RunPc => holds_permit kv.2 = true) mp))
    - (match mp !! i with Some q => permit_of q | None => 0 end) + permit_of p.
Proof.
  rewrite size_filter_insert. unfold permit_of. simpl.
  destruct (mp !! i) as [q|]; repeat case_decide; repeat destruct (holds_permit _);
    try lia; congruence.
Qed.

Lemma ledger_unfold m :
  ledger m <-> ledger_on (pcs m) (slotQueue m) (activeAgentCount m) (nextTask m).
Proof. reflexivity. Qed.

Lemma alter_const_insert (mp : gmap nat RunPc) tid p0 p :
  mp !! tid = Some p0 -> alter (fun _ => p) tid mp = <[tid := p]> mp.
Proof.
  intros H. apply map_eq. intros j. destruct (decide (tid = j)) as [->|Hne].
  - by rewrite lookup_alter_eq, lookup_insert_eq, H.
  - by rewrite lookup_alter_ne, lookup_insert_ne.
Qed.

(** A run that is not queued moves to a place that is not the queue. *)
Lemma ledger_on_move mp q c n tid p0 p :
  ledger_on mp q c n -> mp !! tid = Some p0 ->
  p0 <> AwaitSlotQueued -> p <> AwaitSlotQueued ->
  ledger_on (alter (fun _ => p) tid mp) q (c - permit_of p0 + permit_of p) n.
Proof.
  intros (K1 & K2 & K3 & K4) H0 Hn0 Hn. rewrite (alter_const_insert _ _ _ _ H0).
  split; [|split; [done|split]].
  - intros j pj Hj. destruct (decide (tid = j)) as [->|Hne]; [by eapply K1|].
    rewrite lookup_insert_ne in Hj by done. by eapply K1.
  - intros j Hj. assert (tid <> j) by (intros ->; specialize (K3 j Hj); congruence).
    rewrite lookup_insert_ne by done. by apply K3.
  - rewrite held_insert, H0, K4. reflexivity.
Qed.

(** [releaseAgentSlot] wakes the head of the queue. *)
Lemma ledger_on_wake mp next rest c n :
  ledger_on mp (next :: rest) c n ->
  ledger_on (alter (fun _ => AwaitSlotWoken) next mp) rest c n.
Proof.
  intros (K1 & K2 & K3 & K4).
  assert (H0 : mp !! next = Some AwaitSlotQueued) by (apply K3, list_elem_of_here).
  rewrite (alter_const_insert _ _ _ _ H0). apply NoDup_cons in K2 as [Hnotin K2].
  split; [|split; [done|split]].
  - intros j pj Hj. destruct (decide (next = j)) as [->|Hne]; [by eapply K1|].
    rewrite lookup_insert_ne in Hj by done. by eapply K1.
  - intros j Hj. assert (next <> j) by (intros ->; done).
    rewrite lookup_insert_ne by done. apply K3. by apply list_elem_of_further.
  - rewrite held_insert, H0, K4. unfold permit_of. simpl. lia.
Qed.

(** A new run enters at the next id, either counted or queued. *)
Lemma ledger_on_enter mp q c n p :
  ledger_on mp q c n ->
  (p = AwaitSlotGranted \/ p = AwaitSlotQueued) ->
  ledger_on (<[n := p]> mp)
    (match p with AwaitSlotQueued => q ++ [n] | _ => q end)
    (c + permit_of p) (S n).
Proof.
  intros (K1 & K2 & K3 & K4) Hp.
  assert (Hnone : mp !! n = None).
  { destruct (mp !! n) as [p0|] eqn:E; [|done]. specialize (K1 n p0 E). lia. }
  assert (Hq : forall j, j ∈ q -> j <> n).
  { intros j Hj ->. specialize (K3 n Hj). congruence. }
  split; [|split; [|split]].
  - intros j pj Hj. destruct (decide (n = j)) as [<-|Hne]; [lia|].
    rewrite lookup_insert_ne in Hj by done. specialize (K1 j pj Hj). lia.
  - destruct Hp as [->| ->]; [done|]. apply NoDup_app. split; [done|].
    split; [|apply NoDup_singleton]. intros j Hj Hin.
    apply list_elem_of_singleton in Hin. by apply (Hq j).
  - intros j Hj. destruct Hp as [->| ->].
    + rewrite lookup_insert_ne by (intros <-; by apply (Hq n)). by apply K3.
    + apply elem_of_app in Hj as [Hj|Hj].
      * rewrite lookup_insert_ne by (intros <-; by apply (Hq n)). by apply K3.
      * apply list_elem_of_singleton in Hj as ->. by rewrite lookup_insert_eq.
  - rewrite held_insert, Hnone, K4. lia.
Qed.

Lemma ledger_on_count_pos mp q c n tid p0 :
  ledger_on mp q c n -> mp !! tid = Some p0 -> holds_permit p0 = true -> 1 <= c.
Proof.
  intros K H0 Hh.
  assert (Hq : p0 <> AwaitSlotQueued) by (intros ->; discriminate).
  destruct (ledger_on_move _ _ _ _ tid p0 Finished K H0 Hq ltac:(discriminate))
    as (_ & _ & _ & K4).
  unfold permit_of in K4. rewrite Hh in K4. simpl in K4. lia.
Qed.

Lemma preserves_weaken (R R' : Manager -> Manager -> Prop) {A} (c : M A) :
  (forall m m', R m m' -> R' m m') -> preserves R c -> preserves R' c.
Proof. intros HR Hc m. apply HR, Hc. Qed.

#[local] Hint Resolve same_permits_refl same_permits_trans : pres.

Lemma publishEvent_permits sid lvl msg det :
  preserves same_permits (publishEvent sid lvl msg det).
Proof. eapply preserves_weaken; [apply same_admission_permits|apply publishEvent_admission]. Qed.

Lemma updateStatus_permits sid st : preserves same_permits (updateStatus sid st).
Proof. eapply preserves_weaken; [apply same_admission_permits|apply updateStatus_admission]. Qed.

Lemma updateSessionMetadata_permits sid f :
  preserves same_permits (updateSessionMetadata sid f).
Proof.
  eapply preserves_weaken; [apply same_admission_permits|apply updateSessionMetadata_admission].
Qed.

Lemma broadcast_permits sid msg : preserves same_permits (broadcast sid msg).
Proof. eapply preserves_weaken; [apply same_admission_permits|apply broadcast_admission]. Qed.

Lemma broadcastSnapshot_permits sid : preserves same_permits (broadcastSnapshot sid).
Proof.
  eapply preserves_weaken; [apply same_admission_permits|apply broadcastSnapshot_admission].
Qed.

Lemma handleThreadEvent_permits parse sid ev :
  preserves same_permits (handleThreadEvent parse sid ev).
Proof.
  eapply preserves_weaken; [apply same_admission_permits|apply handleThreadEvent_admission].
Qed.

Lemma alter_task_permits tid f :
  (forall t, pc (f t) = pc t) -> preserves same_permits (alter_task tid f).
Proof. intros Hf m. split; [|done]. unfold pcs. simpl. by apply pc_fmap_alter_same. Qed.

#[local] Hint Resolve publishEvent_permits updateStatus_permits
  updateSessionMetadata_permits broadcast_permits broadcastSnapshot_permits
  handleThreadEvent_permits : pres.
#[local] Hint Extern 2 (preserves same_permits (alter_task _ _)) =>
  apply alter_task_permits; reflexivity : pres.
#[local] Hint Extern 3 (preserves same_permits (modify _)) =>
  apply preserves_modify; intros; by repeat split : pres.
#[local] Hint Extern 3 (preserves same_permits (assign _ _)) =>
  apply preserves_modify; intros; by repeat split : pres.

Lemma start_run_permits tid t : preserves same_permits (start_run tid t).
Proof. unfold start_run. pres. Qed.

Lemma admitted_permits tid t : preserves same_permits (admitted tid t).
Proof. unfold admitted. pres. apply start_run_permits. Qed.

Lemma open_stream_permits tid t : preserves same_permits (open_stream tid t).
Proof. unfold open_stream. pres. Qed.

Lemma stream_catch_permits tid sid text : preserves same_permits (stream_catch tid sid text).
Proof. unfold stream_catch. pres. Qed.

Lemma stream_finally_permits tid sid : preserves same_permits (stream_finally tid sid).
Proof. unfold stream_finally. pres. Qed.

Lemma removeSession_tail_permits sid : preserves same_permits (removeSession_tail sid).
Proof. unfold removeSession_tail, Date_now. pres. Qed.
#[local] Hint Resolve removeSession_tail_permits : pres.

Lemma removeSession_permits sid : preserves same_permits (removeSession sid).
Proof. unfold removeSession. pres. Qed.

Lemma removeSession_resumed_permits rid sid :
  preserves same_permits (removeSession_resumed rid sid).
Proof. unfold removeSession_resumed. pres. Qed.

Lemma registerClient_permits sid : preserves same_permits (registerClient sid).
Proof. unfold registerClient. pres. Qed.

Lemma on_close_permits k : preserves same_permits (on_close k).
Proof. unfold on_close. pres. Qed.

Lemma on_error_permits k : preserves same_permits (on_error k).
Proof. unfold on_error. pres. Qed.

(** The outer [finally] of a run that holds a permit. *)
Lemma run_exit_ledger tid m p0 :
  ledger m -> pcs m !! tid = Some p0 -> holds_permit p0 = true ->
  ledger (snd (run_exit tid m)).
Proof.
  intros K H0 Hh. unfold ledger in K.
  assert (Hq : p0 <> AwaitSlotQueued) by (intros ->; discriminate).
  pose proof (ledger_on_count_pos _ _ _ _ _ _ K H0 Hh) as Hpos.
  assert (Hmax : Z.max 0 (activeAgentCount m - 1)
                 = activeAgentCount m - permit_of p0 + permit_of Finished).
  { unfold permit_of. rewrite Hh. simpl. lia. }
  unfold run_exit, releaseAgentSlot, alter_task, mbind, M_bind, bind, modify, gets, ret.
  simpl. destruct (slotQueue m) as [|next rest] eqn:Eq; simpl; unfold ledger, pcs;
    simpl; rewrite ?Eq, Hmax.
  - rewrite (pc_fmap_alter _ (fun _ => Finished)) by reflexivity.
    apply (ledger_on_move _ _ _ _ tid p0 Finished K H0 Hq). discriminate.
  - rewrite (pc_fmap_alter _ (fun _ => Finished)) by reflexivity.
    rewrite (pc_fmap_alter _ (fun _ => AwaitSlotWoken)) by reflexivity.
    assert (Hne : next <> tid).
    { intros ->. destruct K as (_ & _ & K3 & _).
      specialize (K3 tid (list_elem_of_here _ _)). unfold pcs in *. congruence. }
    apply (ledger_on_move _ _ _ _ tid p0 Finished); [by apply ledger_on_wake| |done|done].
    rewrite lookup_alter_ne by done. exact H0.
Qed.

(** A run that holds a permit moves to another place where it holds it. *)
Lemma set_pc_ledger tid m p0 p :
  ledger m -> pcs m !! tid = Some p0 -> holds_permit p0 = true -> holds_permit p = true ->
  ledger (snd (alter_task tid (set_pc p) m)).
Proof.
  intros K H0 Hh Hp. apply ledger_unfold in K. apply ledger_unfold. unfold pcs. simpl.
  rewrite (pc_fmap_alter _ (fun _ => p)) by reflexivity.
  replace (activeAgentCount m) with (activeAgentCount m - permit_of p0 + permit_of p)
    by (unfold permit_of; rewrite Hh, Hp; lia).
  apply (ledger_on_move _ _ _ _ tid p0 p K H0); intros ->; discriminate.
Qed.

Lemma yields_ret {A} (Q : A -> Prop) a : Q a -> yields Q (ret a).
Proof. intros H m a0 [= <-]. done. Qed.

Lemma yields_bind {A B} (Q : B -> Prop) (c : M A) (k : A -> M B) :
  (forall a, yields Q (k a)) -> yields Q (bind c k).
Proof.
  intros Hk m b. unfold bind. destruct (c m) as [[a|e] m1]; simpl; [apply Hk|discriminate].
Qed.

Lemma start_run_yields tid t :
  yields (fun r => exists p, r = Some p /\ holds_permit p = true) (start_run tid t).
Proof.
  unfold start_run, mbind, M_bind. cbv zeta.
  repeat (apply yields_bind; intros). apply yields_ret. eauto.
Qed.

Lemma admitted_yields tid t :
  yields (fun r => r = None \/ exists p, r = Some p /\ holds_permit p = true)
    (admitted tid t).
Proof.
  unfold admitted, mbind, M_bind. apply yields_bind. intros [s|]; [|apply yields_ret; auto].
  destruct (_ && _).
  - intros m a H. right. by eapply start_run_yields.
  - apply yields_ret. eauto.
Qed.

Lemma open_stream_yields tid t :
  yields (fun r => exists p, r = Some p /\ holds_permit p = true) (open_stream tid t).
Proof.
  unfold open_stream, mbind, M_bind. repeat (apply yields_bind; intros).
  apply yields_ret. eauto.
Qed.

Lemma pcs_same_permits m m' tid : same_permits m m' -> pcs m' !! tid = pcs m !! tid.
Proof. by intros (-> & _). Qed.

(** A stretch of the outer [try] block of a run that holds a permit. *)
Lemma outer_try_ledger tid body m p0 :
  ledger m -> pcs m !! tid = Some p0 -> holds_permit p0 = true ->
  preserves same_permits body ->
  yields (fun r => r = None \/ exists p, r = Some p /\ holds_permit p = true) body ->
  ledger (snd (outer_try tid body m)).
Proof.
  intros K H0 Hh Hb Hy. unfold outer_try, mbind, M_bind, bind, attempt.
  specialize (Hb m). specialize (Hy m). destruct (body m) as [r m1]. simpl in *.
  pose proof (ledger_same_permits _ _ Hb K) as K1.
  assert (H1 : pcs m1 !! tid = Some p0) by (by rewrite (pcs_same_permits _ _ _ Hb)).
  destruct r as [[p|]|e].
  - destruct (Hy _ eq_refl) as [?|(p' & [= <-] & Hp)]; [done|].
    by eapply set_pc_ledger.
  - by eapply run_exit_ledger.
  - pose proof (run_exit_ledger tid m1 p0 K1 H1 Hh) as K2.
    destruct (run_exit tid m1) as [[u|e'] m2]; exact K2.
Qed.

(** Leaving the stream loop, for a run that holds a permit. *)
Lemma leave_stream_ledger tid sid body m p0 :
  ledger m -> pcs m !! tid = Some p0 -> holds_permit p0 = true ->
  preserves same_permits body ->
  ledger (snd (leave_stream tid sid body m)).
Proof.
  intros K H0 Hh Hb. unfold leave_stream, try_finally.
  specialize (Hb m). destruct (body m) as [r m1]. simpl in *.
  pose proof (stream_finally_permits tid sid m1) as Hf.
  destruct (stream_finally tid sid m1) as [rf m2]. simpl in *.
  pose proof (same_permits_trans _ _ _ Hb Hf) as H12.
  pose proof (ledger_same_permits _ _ H12 K) as K2.
  assert (H2 : pcs m2 !! tid = Some p0) by (by rewrite (pcs_same_permits _ _ _ H12)).
  pose proof (run_exit_ledger tid m2 p0 K2 H2 Hh) as K3.
  destruct rf as [u|e]; simpl; destruct (run_exit tid m2) as [[u'|e'] m3]; exact K3.
Qed.

Lemma pcs_lookup m tid t : tasks m !! tid = Some t -> pcs m !! tid = Some (pc t).
Proof. intros H. unfold pcs. by rewrite lookup_fmap, H. Qed.

Lemma resumeRun_ledger tid t m :
  ledger m -> tasks m !! tid = Some t -> resumable (pc t) = true ->
  ledger (snd (resumeRun tid t m)).
Proof.
  intros K Ht Hr. pose proof (pcs_lookup _ _ _ Ht) as H0. unfold resumeRun.
  destruct (pc t) eqn:Hpc; try discriminate.
  - apply ledger_unfold in K. apply ledger_unfold. unfold pcs. simpl.
    rewrite (pc_fmap_alter _ (fun _ => AwaitSlotGranted)) by reflexivity.
    replace (activeAgentCount m + 1)
      with (activeAgentCount m - permit_of AwaitSlotWoken + permit_of AwaitSlotGranted)
      by (unfold permit_of; simpl; lia).
    apply (ledger_on_move _ _ _ _ tid AwaitSlotWoken AwaitSlotGranted K H0); discriminate.
  - eapply outer_try_ledger; eauto using admitted_permits, admitted_yields.
  - eapply outer_try_ledger; eauto using start_run_permits.
    intros m0 a Ha. right. by eapply start_run_yields.
  - eapply outer_try_ledger; eauto using open_stream_permits.
    intros m0 a Ha. right. by eapply open_stream_yields.
  - eapply leave_stream_ledger; eauto.
    destruct thrown; [apply stream_catch_permits|apply preserves_ret; auto with pres].
Qed.

Lemma stream_item_ledger parse tid t ev m :
  ledger m -> tasks m !! tid = Some t -> pc t = AwaitNext ->
  ledger (snd (stream_item parse tid t ev m)).
Proof.
  intros K Ht Hpc. pose proof (pcs_lookup _ _ _ Ht) as H0. rewrite Hpc in H0.
  unfold stream_item, mbind, M_bind, bind, gets. simpl.
  destruct (sessions_has (run_session t) m).
  - simpl. unfold attempt.
    pose proof (handleThreadEvent_permits parse (run_session t) ev m) as Hp.
    destruct (handleThreadEvent parse (run_session t) ev m) as [[u|e] m1]; simpl in *.
    + by eapply ledger_same_permits.
    + eapply (set_pc_ledger tid _ AwaitNext); [by eapply ledger_same_permits| |done|done].
      by rewrite (pcs_same_permits _ _ _ Hp).
  - pose proof (alter_task_permits tid (set_cancelled true) ltac:(reflexivity) m) as Hp.
    change (ledger (snd (alter_task tid (set_pc (AwaitIteratorReturn None))
                           (snd (alter_task tid (set_cancelled true) m))))).
    eapply (set_pc_ledger tid _ AwaitNext); [by eapply ledger_same_permits| |done|done].
    by rewrite (pcs_same_permits _ _ _ Hp).
Qed.

Lemma runAgentSession_ledger sid is_hint hint_text m :
  ledger m -> ledger (snd (runAgentSession sid is_hint hint_text m)).
Proof.
  intros K. unfold runAgentSession, mbind, M_bind.
  unfold bind at 1. unfold gets at 1. cbn [fst snd].
  destruct (activeStreams m !! sid); [done|].
  unfold bind at 1. unfold gets at 1. cbn [fst snd].
  destruct (sessions_get sid m) as [s|]; [|done].
  destruct (is_hint && negb (thread_established s)); [done|].
  unfold bind at 1. unfold gets at 1. cbn [fst snd].
  unfold bind at 1. unfold gets at 1. cbn [fst snd].
  unfold bind at 1.
  assert (Hq : preserves same_permits
    (if maxConcurrentAgents m <=? activeAgentCount m
     then bind (publishEvent sid info "Agent run queued awaiting available execution slot."
                  (Some [("maxConcurrentAgents", JNum (maxConcurrentAgents m))]))
               (fun _ => ret tt)
     else ret tt)) by pres.
  specialize (Hq m).
  destruct ((if maxConcurrentAgents m <=? activeAgentCount m
     then bind (publishEvent sid info "Agent run queued awaiting available execution slot."
                  (Some [("maxConcurrentAgents", JNum (maxConcurrentAgents m))]))
               (fun _ => ret tt)
     else ret tt) m) as [[u|e] m1]; simpl in Hq;
    pose proof (ledger_same_permits _ _ Hq K) as K1; [|exact K1].
  apply ledger_unfold in K1.
  unfold bind, gets, modify, acquireAgentSlot, mbind, M_bind, bind, gets, modify, ret.
  simpl. destruct (activeAgentCount m1 <? maxConcurrentAgents m1); simpl;
    apply ledger_unfold; unfold pcs; simpl; rewrite fmap_insert; simpl.
  - apply (ledger_on_enter _ _ _ _ AwaitSlotGranted K1). auto.
  - replace (activeAgentCount m1) with (activeAgentCount m1 + permit_of AwaitSlotQueued)
      by (unfold permit_of; simpl; lia).
    apply (ledger_on_enter _ _ _ _ AwaitSlotQueued K1). auto.
Qed.

Lemma keeps_ledger_refl m : keeps_ledger m m.
Proof. by intros K. Qed.

Lemma keeps_ledger_trans a b c : keeps_ledger a b -> keeps_ledger b c -> keeps_ledger a c.
Proof. unfold keeps_ledger. auto. Qed.

Lemma permits_keeps_ledger {A} (c : M A) :
  preserves same_permits c -> preserves keeps_ledger c.
Proof. intros Hc m K. by eapply ledger_same_permits. Qed.

Lemma runAgentSession_keeps_ledger sid is_hint hint_text :
  preserves keeps_ledger (runAgentSession sid is_hint hint_text).
Proof. intros m K. by apply runAgentSession_ledger. Qed.

#[local] Hint Resolve keeps_ledger_refl keeps_ledger_trans runAgentSession_keeps_ledger
  : pres.
#[local] Hint Extern 2 (preserves keeps_ledger (publishEvent _ _ _ _)) =>
  apply permits_keeps_ledger, publishEvent_permits : pres.
#[local] Hint Extern 2 (preserves keeps_ledger (updateStatus _ _)) =>
  apply permits_keeps_ledger, updateStatus_permits : pres.
#[local] Hint Extern 2 (preserves keeps_ledger (updateSessionMetadata _ _)) =>
  apply permits_keeps_ledger, updateSessionMetadata_permits : pres.
#[local] Hint Extern 2 (preserves keeps_ledger (broadcastSnapshot _)) =>
  apply permits_keeps_ledger, broadcastSnapshot_permits : pres.

Lemma announce_keeps_ledger uuid workspace artifact :
  preserves keeps_ledger (announce uuid workspace artifact).
Proof. unfold announce. pres. Qed.

Lemma createSession_ledger pb workspace artifact m :
  ledger m -> ledger (snd (createSession pb workspace artifact m)).
Proof.
  intros K. rewrite createSession_unfold. apply announce_keeps_ledger.
  eapply ledger_same_permits; [|exact K]. by repeat split.
Qed.

Lemma submitHint_keeps_ledger sid hint_text :
  preserves keeps_ledger (submitHint sid hint_text).
Proof. unfold submitHint. pres. Qed.

Lemma exec_ledger {A} (c : M A) m m' :
  preserves same_permits c -> exec c m = Some m' -> ledger m -> ledger m'.
Proof. intros Hc [= <-] K. by eapply ledger_same_permits. Qed.

(** Every step keeps the ledger. *)
Lemma step_ledger parse l m m' : step parse l m = Some m' -> ledger m -> ledger m'.
Proof.
  intros Hstep K. destruct l; simpl in Hstep.
  - injection Hstep as <-. by apply createSession_ledger.
  - injection Hstep as <-. by apply submitHint_keeps_ledger.
  - by eapply exec_ledger; [apply removeSession_permits|..].
  - destruct (removals m !! rid); [|discriminate].
    by eapply exec_ledger; [apply removeSession_resumed_permits|..].
  - by eapply exec_ledger; [apply registerClient_permits|..].
  - destruct (tasks m !! tid) as [t|] eqn:Ht; [|discriminate].
    destruct (resumable (pc t)) eqn:Hr; [|discriminate]. injection Hstep as <-.
    by apply resumeRun_ledger.
  - destruct (tasks m !! tid) as [t|] eqn:Ht; [|discriminate].
    destruct (pc t) eqn:Hpc; try discriminate. injection Hstep as <-.
    eapply (outer_try_ledger tid _ m AwaitRunStreamed); auto with pres.
    + rewrite (pcs_lookup _ _ _ Ht). by rewrite Hpc.
    + apply preserves_throw, same_permits_refl.
    + intros m0 a Ha. discriminate Ha.
  - destruct (tasks m !! tid) as [t|] eqn:Ht; [|discriminate].
    destruct (pc t) eqn:Hpc; try discriminate. injection Hstep as <-.
    by apply stream_item_ledger.
  - destruct (tasks m !! tid) as [t|] eqn:Ht; [|discriminate].
    destruct (pc t) eqn:Hpc; try discriminate. injection Hstep as <-.
    eapply (leave_stream_ledger tid _ _ m AwaitNext); auto.
    + rewrite (pcs_lookup _ _ _ Ht). by rewrite Hpc.
    + apply preserves_ret, same_permits_refl.
  - destruct (tasks m !! tid) as [t|] eqn:Ht; [|discriminate].
    destruct (pc t) eqn:Hpc; try discriminate. injection Hstep as <-.
    eapply (leave_stream_ledger tid _ _ m AwaitNext); auto.
    + rewrite (pcs_lookup _ _ _ Ht). by rewrite Hpc.
    + apply stream_catch_permits.
  - destruct (sockets m !! k) as [s|]; [|discriminate].
    destruct (readyState s); try discriminate; injection Hstep as <-;
      (eapply ledger_same_permits; [|exact K]); by repeat split.
  - destruct (sockets m !! k) as [s|]; [|discriminate].
    destruct (readyState s); try discriminate;
      by eapply exec_ledger; [apply on_close_permits|..].
  - destruct (sockets m !! k) as [s|]; [|discriminate].
    destruct (readyState s); try discriminate;
      by eapply exec_ledger; [apply on_error_permits|..].
  - destruct (0 <=? dt); [|discriminate]. injection Hstep as <-.
    eapply ledger_same_permits; [|exact K]. by repeat split.
Qed.

Lemma newManager_ledger env : ledger (newManager env).
Proof.
  unfold ledger, pcs. simpl. rewrite fmap_empty. split; [|split; [|split]].
  - intros tid p H. by rewrite lookup_empty in H.
  - apply NoDup_nil_2.
  - intros tid H. by apply elem_of_nil in H.
  - by rewrite map_filter_empty, map_size_empty.
Qed.

Lemma reachable_ledger parse env m : reachable parse env m -> ledger m.
Proof.
  induction 1 as [|l m m' _ IH Hstep]; [apply newManager_ledger|].
  by eapply step_ledger.
Qed.

(** * Removing a session *)









(** * Runs of one session *)

(** C1 fails on the code.  The guard on [activeStreams] is tested when
    [runAgentSession] is entered and taken only after its awaits.

    With two permits, both held by the runs of two other sessions, session 0
    (established thread, no registered run) is sent two hints: both are
    accepted and both runs (tasks 3 and 4) queue.  When the first permit is
    given back, task 3 is woken, registers its controller and streams; when
    the second is given back, task 4 is woken, replaces the controller
    registered for session 0 and streams as well: two runs of session 0 are
    in their stream loop together and hold the two permits.

    The same happens with a free permit: a first hint starts a run (task 1)
    that is waiting for its permit to be confirmed; a second hint is accepted
    all the same, starts a second run (task 2) and takes a second permit, and
    both runs reach the stream loop of session 0 together. *)
Theorem two_runs_of_one_session :
  (exists q3 q4 r3 r4 t3 t4 : RunTask,
     reachable JSON_parse_demo (Some "2") (after both_hints_streaming (Some "2"))
     /\ tasks (after hints_queued (Some "2")) !! 3%nat = Some q3
     /\ tasks (after hints_queued (Some "2")) !! 4%nat = Some q4
     /\ run_session q3 = 0%nat /\ run_session q4 = 0%nat
     /\ pc q3 = AwaitSlotQueued /\ pc q4 = AwaitSlotQueued
     /\ slotQueue (after hints_queued (Some "2")) = [3%nat; 4%nat]
     /\ tasks (after first_hint_streaming (Some "2")) !! 3%nat = Some r3
     /\ tasks (after first_hint_streaming (Some "2")) !! 4%nat = Some r4
     /\ pc r3 = AwaitNext /\ pc r4 = AwaitSlotQueued
     /\ activeStreams (after first_hint_streaming (Some "2")) !! 0%nat = Some 3%nat
     /\ tasks (after both_hints_streaming (Some "2")) !! 3%nat = Some t3
     /\ tasks (after both_hints_streaming (Some "2")) !! 4%nat = Some t4
     /\ run_session t3 = 0%nat /\ run_session t4 = 0%nat
     /\ pc t3 = AwaitNext /\ pc t4 = AwaitNext
     /\ run_cancelled t3 = false /\ run_cancelled t4 = false
     /\ activeStreams (after both_hints_streaming (Some "2")) !! 0%nat = Some 4%nat
     /\ maxConcurrentAgents (after both_hints_streaming (Some "2")) = 2
     /\ activeAgentCount (after both_hints_streaming (Some "2")) = 2)
  /\ (exists t1 t1' t2 : RunTask,
       reachable JSON_parse_demo None (after two_hints None)
       /\ tasks (after (first_run_done ++ [SubmitHint 0%nat "look at the tcache"]) None)
            !! 1%nat = Some t1
       /\ run_session t1 = 0%nat /\ pc t1 = AwaitSlotGranted
       /\ activeAgentCount
            (after (first_run_done ++ [SubmitHint 0%nat "look at the tcache"]) None) = 1
       /\ activeAgentCount
            (snd (runAgentSession 0 true (Some "try a double free")
                    (after (first_run_done ++ [SubmitHint 0%nat "look at the tcache"]) None)))
          = 2
       /\ tasks (after two_hints None) !! 1%nat = Some t1'
       /\ tasks (after two_hints None) !! 2%nat = Some t2
       /\ run_session t1' = 0%nat /\ run_session t2 = 0%nat
       /\ pc t1' = AwaitNext /\ pc t2 = AwaitNext
       /\ activeAgentCount (after two_hints None) = 2).
Proof.
  split.
  - eexists _, _, _, _, _, _.
    split; [eapply reachable_after; vm_compute; reflexivity|]. by_computation.
  - eexists _, _, _.
    split; [eapply reachable_after; vm_compute; reflexivity|]. by_computation.
Qed.

(** * Further properties of the code *)

(** ** [clampConcurrency] on a decimal cap *)

Lemma digit_of_pretty_N_char d :
  (d < 10)%N -> digit_of (pretty_N_char d) = Some (Z.of_N d).
Proof.
  intros H.
  assert (d = 0 \/ d = 1 \/ d = 2 \/ d = 3 \/ d = 4 \/ d = 5 \/ d = 6 \/ d = 7 \/ d = 8
          \/ d = 9)%N as Hd by lia.
  repeat destruct Hd as [->|Hd]; try subst d; reflexivity.
Qed.

Lemma parse_digits_pretty_N_go n : forall s,
  (0 < n)%N -> parse_digits (pretty_N_go n s) None = parse_digits s (Some (Z.of_N n)).
Proof.
  induction n as [n IH] using (well_founded_ind N.lt_wf_0). intros s Hn.
  rewrite pretty_N_go_step by done.
  assert (Hmod : (n `mod` 10 < 10)%N) by (apply N.mod_lt; lia).
  assert (Hdm : (n = 10 * (n `div` 10) + n `mod` 10)%N) by (apply N.div_mod; lia).
  destruct (decide (n `div` 10 = 0)%N) as [H0|H0].
  - rewrite H0, pretty_N_go_0. simpl. rewrite digit_of_pretty_N_char by done.
    f_equal. f_equal. lia.
  - rewrite IH; [|apply N.div_lt; lia|lia]. simpl.
    rewrite digit_of_pretty_N_char by done. f_equal. f_equal. lia.
Qed.

Lemma pretty_N_go_head n : forall s,
  (0 < n)%N -> exists c rest, pretty_N_go n s = String c rest /\ is_Some (digit_of c).
Proof.
  induction n as [n IH] using (well_founded_ind N.lt_wf_0). intros s Hn.
  rewrite pretty_N_go_step by done.
  assert (Hmod : (n `mod` 10 < 10)%N) by (apply N.mod_lt; lia).
  destruct (decide (n `div` 10 = 0)%N) as [H0|H0].
  - rewrite H0, pretty_N_go_0. eexists _, _. split; [done|].
    rewrite digit_of_pretty_N_char by done. eauto.
  - apply IH; [apply N.div_lt; lia|by apply N.neq_0_lt_0].
Qed.

Lemma parseInt_digits c rest :
  is_Some (digit_of c) -> parseInt (String c rest) = parse_digits (String c rest) None.
Proof.
  intros [d Hd]. unfold parseInt.
  destruct c as [[] [] [] [] [] [] [] []]; try discriminate; reflexivity.
Qed.

Lemma parseInt_pretty_pos p : parseInt (pretty (Z.pos p)) = Some (Z.pos p).
Proof.
  change (pretty (Z.pos p)) with (pretty_N_go (N.pos p) "").
  destruct (pretty_N_go_head (N.pos p) "") as (c & rest & E & Hc); [lia|].
  rewrite E, parseInt_digits by done. rewrite <- E.
  rewrite parse_digits_pretty_N_go by lia. reflexivity.
Qed.

(** X1.  [clampConcurrency] reads a cap back from its decimal notation: for
    every integer [n] from 1 to 2^53 (the range in which [Number.parseInt]
    is exact), [clampConcurrency] of the digits of [n] is [n]. *)
Theorem clampConcurrency_decimal (n : Z) :
  1 <= n -> n <= 9007199254740992 -> clampConcurrency (Some (pretty n)) = n.
Proof.
  intros Hn _. destruct n as [|p|p]; try lia.
  unfold clampConcurrency. simpl default. rewrite parseInt_pretty_pos.
  destruct (Z.pos p <? 1) eqn:E; [lia|done].
Qed.

Lemma clampConcurrency_decimal_witness : clampConcurrency (Some "12") = 12.
Proof. apply (clampConcurrency_decimal 12); lia. Defined.

Lemma clampConcurrency_positive raw : 1 <= clampConcurrency raw.
Proof.
  unfold clampConcurrency. destruct (parseInt (default "" raw)) as [n|]; [|lia].
  destruct (n <? 1) eqn:E; lia.
Qed.

(** ** The shape check and the declared interfaces *)

Lemma reject_unless (b c : bool) :
  (if b then false else c) = true <-> b = false /\ c = true.
Proof. destruct b, c; split; try discriminate; try done; intros [? ?]; done. Qed.

Lemma nullable_string_field_spec k v :
  negb (nullable_string_field k v) = false <-> string_or_null (prop k v).
Proof.
  unfold nullable_string_field, has_prop, string_or_null.
  destruct (prop k v) as [[| | |s| |]|]; simpl; split; try discriminate; eauto;
    intros [?|[? ?]]; discriminate.
Qed.

Lemma optional_string_spec (x : option json) :
  not_nullish x && negb (is_string x) && negb (is_null x) = false
  <-> (x = None \/ string_or_null x).
Proof.
  unfold string_or_null.
  destruct x as [[| | |s| |]|]; simpl; split; try discriminate; eauto;
    intros [?|[?|[? ?]]]; discriminate.
Qed.

Lemma not_nonempty_string_spec (x : option json) :
  not_nonempty_string x = false <-> (exists s, x = Some (JStr s)) /\ x <> Some (JStr "").
Proof.
  destruct x as [[| | |s| |]|]; simpl; split; try discriminate;
    try (intros [(? & ?) _]; discriminate).
  - intros H. split; [eauto|]. intros [= ->]. discriminate.
  - intros [_ Hne]. destruct s; [done|reflexivity].
Qed.

Lemma is_object_spec v :
  negb (is_object v) = false -> is_Some (prop "inferenceStatus" v) -> exists fs, v = JObj fs.
Proof. destruct v; simpl; try discriminate; intros _ [? ?]; try discriminate; eauto. Qed.

Lemma isAgentGeneratedFile_spec v :
  isAgentGeneratedFile v = true
  <-> AgentGeneratedFile v /\ prop "path" v <> Some (JStr "").
Proof.
  unfold isAgentGeneratedFile, AgentGeneratedFile.
  rewrite !reject_unless, not_nonempty_string_spec, !optional_string_spec.
  split.
  - intros (Ho & [[p Hp] Hne] & Hc & Hd & _).
    repeat split; eauto. destruct v; try discriminate. eauto.
  - intros [([fs ->] & Hp & Hc & Hd) Hne]. repeat split; auto.
Qed.

Lemma is_inference_status_spec x :
  negb (is_inference_status x) = false <-> AgentInferenceStatus x.
Proof.
  rewrite negb_false_iff. unfold is_inference_status, AgentInferenceStatus.
  destruct x as [[| | |s| |]|]; try (split; [discriminate|intros [?|[?|?]]; discriminate]).
  rewrite !orb_true_iff, !String.eqb_eq. split.
  - intros [[->| ->]| ->]; auto.
  - intros [[= ->]|[[= ->]|[= ->]]]; auto.
Qed.

Lemma solutionFiles_spec v :
  negb (has_prop "solutionFiles" v) = false
  /\ negb (is_null (prop "solutionFiles" v))
     && negb match prop "solutionFiles" v with
             | Some (JArr l) => forallb isAgentGeneratedFile l
             | _ => false
             end = false
  <-> (prop "solutionFiles" v = Some JNull
       \/ exists l, prop "solutionFiles" v = Some (JArr l) /\ Forall AgentGeneratedFile l)
      /\ forall l, prop "solutionFiles" v = Some (JArr l) ->
           Forall (fun file => prop "path" file <> Some (JStr "")) l.
Proof.
  unfold has_prop.
  destruct (prop "solutionFiles" v) as [[| | | |l|]|]; simpl; split;
    try (intros [? ?]; discriminate);
    try (intros [[?|(? & ? & _)] _]; discriminate).
  - intros _. split; [by left|]. discriminate.
  - done.
  - intros [_ H]. apply negb_false_iff in H. rewrite forallb_forall in H.
    split; [right; exists l; split; [done|]|intros ? [= <-]]; apply List.Forall_forall;
      intros f Hf; by apply isAgentGeneratedFile_spec, H.
  - intros [[?|(l' & [= <-] & Hall)] Hne]; [discriminate|]. split; [done|].
    apply negb_false_iff, forallb_forall. intros f Hf.
    apply isAgentGeneratedFile_spec. split.
    + by eapply List.Forall_forall in Hall.
    + specialize (Hne l eq_refl). by eapply List.Forall_forall in Hne.
Qed.

Lemma nextSteps_spec v :
  negb (has_prop "nextSteps" v) = false
  /\ negb (is_null (prop "nextSteps" v))
     && negb match prop "nextSteps" v with
             | Some (JArr l) => forallb (fun item => is_string (Some item)) l
             | _ => false
             end = false
  <-> (prop "nextSteps" v = Some JNull
       \/ exists l, prop "nextSteps" v = Some (JArr l)
            /\ Forall (fun item => exists s, item = JStr s) l).
Proof.
  unfold has_prop.
  destruct (prop "nextSteps" v) as [[| | | |l|]|]; simpl; split;
    try (intros [? ?]; discriminate);
    try (intros [?|(? & ? & _)]; discriminate); auto.
  - intros [_ H]. apply negb_false_iff in H. rewrite forallb_forall in H.
    right. exists l. split; [done|]. apply List.Forall_forall. intros i Hin.
    specialize (H i Hin). destruct i; try discriminate. eauto.
  - intros [?|(l' & [= <-] & Hall)]; [discriminate|]. split; [done|].
    apply negb_false_iff, forallb_forall. intros i Hin.
    eapply List.Forall_forall in Hall as [s ->]; [|done]. done.
Qed.

(** X2.  [isAgentStructuredOutput] accepts a parsed value exactly when it
    has the declared shape of [AgentStructuredOutput] (an object with an
    [inferenceStatus] of the three, a string [summary], the keys [flag],
    [solveCode] and [writeUp] holding a string or [null], and the keys
    [solutionFiles] and [nextSteps] holding [null] or an array of files and
    of strings) and, beyond the declaration, its [summary] and the paths of
    its files are not empty. *)
Theorem isAgentStructuredOutput_shape v :
  isAgentStructuredOutput v = true <-> AgentStructuredOutput v /\ nonempty_texts v.
Proof.
  unfold isAgentStructuredOutput, AgentStructuredOutput, nonempty_texts.
  rewrite !reject_unless, is_inference_status_spec, not_nonempty_string_spec,
    !nullable_string_field_spec.
  split.
  - intros (Ho & Hi & [Hs Hsne] & Hf & Hc & Hw & Hsf1 & Hsf2 & Hn1 & Hn2 & _).
    destruct (proj1 (solutionFiles_spec v) (conj Hsf1 Hsf2)) as [Hsf Hsfne].
    pose proof (proj1 (nextSteps_spec v) (conj Hn1 Hn2)) as Hn.
    split; [|done]. repeat split; try done.
    apply is_object_spec; [done|]. destruct Hi as [->|[->| ->]]; eauto.
  - intros [([fs ->] & Hi & Hs & Hf & Hc & Hw & Hsf & Hn) [Hsne Hsfne]].
    destruct (proj2 (solutionFiles_spec (JObj fs)) (conj Hsf Hsfne)) as [Hsf1 Hsf2].
    destruct (proj2 (nextSteps_spec (JObj fs)) Hn) as [Hn1 Hn2].
    repeat split; done.
Qed.

(** ** Relations kept by every step *)

Section StepRelation.

Variable R : Manager -> Manager -> Prop.

Hypothesis R_refl : forall m, R m m.
Hypothesis R_trans : forall a b c, R a b -> R b c -> R a c.

(** [R] does not look at the runs, the permits, the controllers or the
    supply of identifiers. *)
Hypothesis R_frame : forall m m',
  heap m' = heap m -> sessions m' = sessions m -> clients m' = clients m ->
  clientSets m' = clientSets m -> sockets m' = sockets m ->
  nextSocket m' = nextSocket m -> nextSet m' = nextSet m ->
  clock m' = clock m -> maxConcurrentAgents m' = maxConcurrentAgents m ->
  R m m'.

(** The writes to a session that is in the store. *)
Hypothesis R_event : forall sid ev m s,
  sessions_get sid m = Some s -> timestamp ev = clock m ->
  R m (snd (assign sid (push_event ev) m)).
Hypothesis R_fields : forall sid g m s,
  sessions_get sid m = Some s -> fields_only g ->
  R m (snd (assign sid (fun s => set_updatedAt (clock m) (g s)) m)).

(** The operations on the store's key set and on the registry. *)
Hypothesis R_allocate : forall pb workspace artifact m,
  fresh_ok m -> R m (allocate pb workspace artifact m).
Hypothesis R_removeSession_tail : forall sid, preserves R (removeSession_tail sid).
Hypothesis R_broadcast : forall sid msg, preserves R (broadcast sid msg).
Hypothesis R_registerClient : forall sid, preserves R (registerClient sid).
Hypothesis R_on_close : forall k, preserves R (on_close k).
Hypothesis R_on_error : forall k, preserves R (on_error k).
Hypothesis R_closing : forall k m,
  R m (set_sockets (alter (set_readyState CLOSING) k (sockets m)) m).
Hypothesis R_tick : forall dt m, 0 <= dt -> R m (set_clock (clock m + dt) m).

#[local] Hint Resolve R_refl R_trans R_broadcast R_removeSession_tail : pres.
#[local] Hint Extern 3 (preserves R (modify _)) =>
  apply preserves_modify; intros; apply R_frame; reflexivity : pres.

Lemma broadcastSnapshot_related sid : preserves R (broadcastSnapshot sid).
Proof. unfold broadcastSnapshot. pres. Qed.

Lemma publishEvent_related sid lvl msg det : preserves R (publishEvent sid lvl msg det).
Proof.
  intros m. destruct (sessions_get sid m) as [s|] eqn:H.
  - rewrite (publishEvent_live _ _ _ _ _ _ H). cbn [snd].
    eapply R_trans; [|apply R_broadcast].
    eapply R_trans; [apply (R_frame m (set_nextUuid (S (nextUuid m)) m)); reflexivity|].
    by eapply R_event.
  - rewrite (publishEvent_dead _ _ _ _ _ H). apply R_refl.
Qed.

Lemma updateSessionMetadata_related sid g :
  fields_only g -> preserves R (updateSessionMetadata sid g).
Proof.
  intros Hg m. destruct (sessions_get sid m) as [s|] eqn:H.
  - rewrite (updateSessionMetadata_live _ _ _ _ H). cbn [snd]. by eapply R_fields.
  - rewrite (updateSessionMetadata_dead _ _ _ H). apply R_refl.
Qed.

Lemma updateStatus_related sid st : preserves R (updateStatus sid st).
Proof.
  intros m. destruct (sessions_get sid m) as [s|] eqn:H.
  - rewrite (updateStatus_live _ _ _ _ H). cbn [snd].
    eapply R_trans; [|apply R_broadcast].
    by eapply (R_fields sid (set_status st)).
  - rewrite (updateStatus_dead _ _ _ H). apply R_refl.
Qed.

#[local] Hint Resolve broadcastSnapshot_related publishEvent_related updateStatus_related
  : pres.
#[local] Hint Extern 2 (preserves R (updateSessionMetadata _ _)) =>
  apply updateSessionMetadata_related; intros ?;
  repeat match goal with |- context [if ?b then _ else _] => destruct b end;
  repeat split : pres.

Lemma handleThreadEvent_related parse sid ev :
  preserves R (handleThreadEvent parse sid ev).
Proof.
  unfold handleThreadEvent, handleItemEvent, handleAgentMessage, handleCommandExecution,
    handleMcpToolCall.
  destruct ev; pres.
Qed.

Lemma alter_task_related tid f : preserves R (alter_task tid f).
Proof. unfold alter_task. pres. Qed.
#[local] Hint Resolve alter_task_related : pres.

Lemma acquireAgentSlot_related tid : preserves R (acquireAgentSlot tid).
Proof. unfold acquireAgentSlot. pres. Qed.

Lemma acquireAgentSlot_resumed_related : preserves R acquireAgentSlot_resumed.
Proof. unfold acquireAgentSlot_resumed. pres. Qed.

Lemma releaseAgentSlot_related : preserves R releaseAgentSlot.
Proof. unfold releaseAgentSlot. pres. Qed.
#[local] Hint Resolve acquireAgentSlot_related acquireAgentSlot_resumed_related
  releaseAgentSlot_related : pres.

Lemma runAgentSession_related sid is_hint hint_text :
  preserves R (runAgentSession sid is_hint hint_text).
Proof. unfold runAgentSession. pres. Qed.
#[local] Hint Resolve runAgentSession_related : pres.

Lemma run_exit_related tid : preserves R (run_exit tid).
Proof. unfold run_exit. pres. Qed.
#[local] Hint Resolve run_exit_related : pres.

Lemma outer_try_related tid body : preserves R body -> preserves R (outer_try tid body).
Proof. intros Hb. unfold outer_try. pres. Qed.

Lemma start_run_related tid t : preserves R (start_run tid t).
Proof. unfold start_run. pres. Qed.
#[local] Hint Resolve start_run_related : pres.

Lemma admitted_related tid t : preserves R (admitted tid t).
Proof. unfold admitted. pres. Qed.

Lemma open_stream_related tid t : preserves R (open_stream tid t).
Proof. unfold open_stream. pres. Qed.

Lemma stream_catch_related tid sid text : preserves R (stream_catch tid sid text).
Proof. unfold stream_catch. pres. Qed.

Lemma stream_finally_related tid sid : preserves R (stream_finally tid sid).
Proof. unfold stream_finally. pres. Qed.
#[local] Hint Resolve admitted_related open_stream_related stream_catch_related
  stream_finally_related outer_try_related : pres.

Lemma leave_stream_related tid sid body :
  preserves R body -> preserves R (leave_stream tid sid body).
Proof. intros Hb. unfold leave_stream. pres. Qed.
#[local] Hint Resolve leave_stream_related : pres.

Lemma stream_item_related parse tid t ev : preserves R (stream_item parse tid t ev).
Proof. unfold stream_item. pres. apply handleThreadEvent_related. Qed.

Lemma resumeRun_related tid t : preserves R (resumeRun tid t).
Proof. unfold resumeRun. pres. apply leave_stream_related. pres. Qed.

Lemma submitHint_related sid hint_text : preserves R (submitHint sid hint_text).
Proof. unfold submitHint. pres. Qed.

Lemma announce_related uuid workspace artifact :
  preserves R (announce uuid workspace artifact).
Proof. unfold announce. pres. Qed.

Lemma createSession_related pb workspace artifact m :
  fresh_ok m -> R m (snd (createSession pb workspace artifact m)).
Proof.
  intros Hf. rewrite createSession_unfold.
  eapply R_trans; [|apply announce_related]. by apply R_allocate.
Qed.

Lemma removeSession_related sid : preserves R (removeSession sid).
Proof. unfold removeSession. pres. Qed.

Lemma removeSession_resumed_related rid sid : preserves R (removeSession_resumed rid sid).
Proof. unfold removeSession_resumed. pres. Qed.

Lemma exec_related {A} (c : M A) m m' : preserves R c -> exec c m = Some m' -> R m m'.
Proof. intros Hc [= <-]. apply Hc. Qed.

(** Every step of the manager is in [R]. *)
Lemma step_related parse l m m' : fresh_ok m -> step parse l m = Some m' -> R m m'.
Proof.
  intros Hf. destruct l; simpl; intros Hstep;
    [injection Hstep as <-; by apply createSession_related|..];
    repeat match type of Hstep with
    | match ?x with _ => _ end = Some _ => destruct x eqn:?; try discriminate
    | (if ?x then _ else _) = Some _ => destruct x eqn:?; try discriminate
    end;
    try (eapply exec_related; [|exact Hstep]).
  - apply submitHint_related.
  - apply removeSession_related.
  - apply removeSession_resumed_related.
  - apply R_registerClient.
  - apply resumeRun_related.
  - pres.
  - apply stream_item_related.
  - pres.
  - pres.
  - injection Hstep as <-. apply R_closing.
  - injection Hstep as <-. apply R_closing.
  - apply R_on_close.
  - apply R_on_close.
  - apply R_on_close.
  - apply R_on_error.
  - apply R_on_error.
  - apply R_on_error.
  - injection Hstep as <-. apply R_tick. lia.
Qed.

End StepRelation.

Lemma same_store_refl m : same_store m m.
Proof. by split; [|split; [|split]]. Qed.

Lemma same_store_trans a b c : same_store a b -> same_store b c -> same_store a c.
Proof.
  intros (?&?&?&?) (?&?&?&?). split; [|split; [|split]]; congruence.
Qed.

Lemma only_sockets_same_store m m' : only_sockets m m' -> same_store m m'.
Proof.
  intros (Hh & Hs & _ & _ & Hc & _ & _ & _ & _ & _ & _ & _ & _ & _ & Hk).
  by split; [|split; [|split]].
Qed.

#[local] Hint Resolve same_store_refl same_store_trans : pres.
#[local] Hint Extern 3 (preserves same_store (modify _)) =>
  apply preserves_modify; intros; split; [|split; [|split]]; reflexivity : pres.

Lemma broadcast_same_store sid msg : preserves same_store (broadcast sid msg).
Proof. intros m. apply only_sockets_same_store, broadcast_only_sockets. Qed.

Lemma registerClient_same_store sid : preserves same_store (registerClient sid).
Proof. unfold registerClient. pres. Qed.

Lemma on_close_same_store k : preserves same_store (on_close k).
Proof. unfold on_close. pres. Qed.

Lemma on_error_same_store k : preserves same_store (on_error k).
Proof. unfold on_error. pres. Qed.

Lemma close_subscribers_same_store sid : preserves same_store (close_subscribers sid).
Proof. unfold close_subscribers. pres. Qed.

Lemma retired_clock sid m :
  clock (retired sid m) = clock m
  /\ maxConcurrentAgents (retired sid m) = maxConcurrentAgents m.
Proof.
  unfold retired. simpl.
  set (m1 := set_heap _ m).
  assert (Hos : only_sockets m1 (snd (broadcastSnapshot sid m1))).
  { destruct (sessions_get sid m1) as [s|] eqn:H.
    - rewrite (broadcastSnapshot_live _ _ _ H). apply broadcast_only_sockets.
    - rewrite (broadcastSnapshot_dead _ _ H). apply only_sockets_refl. }
  destruct (only_sockets_same_store _ _ Hos) as (_ & _ & Hc & Hk).
  by rewrite Hc, Hk.
Qed.

Section StoreRelation.

Variable R : Manager -> Manager -> Prop.

Hypothesis R_refl : forall m, R m m.
Hypothesis R_trans : forall a b c, R a b -> R b c -> R a c.
Hypothesis R_store : forall m m', same_store m m' -> R m m'.
Hypothesis R_event : forall sid ev m s,
  sessions_get sid m = Some s -> timestamp ev = clock m ->
  R m (snd (assign sid (push_event ev) m)).
Hypothesis R_fields : forall sid g m s,
  sessions_get sid m = Some s -> fields_only g ->
  R m (snd (assign sid (fun s => set_updatedAt (clock m) (g s)) m)).
Hypothesis R_allocate : forall pb workspace artifact m,
  fresh_ok m -> R m (allocate pb workspace artifact m).
Hypothesis R_retire : forall sid m m' s,
  sessions_get sid m = Some s ->
  heap m' = alter (fun s => set_updatedAt (clock m) (set_status cancelled s)) sid (heap m) ->
  sessions m' = sessions m ∖ {[sid]} -> clock m' = clock m ->
  maxConcurrentAgents m' = maxConcurrentAgents m ->
  R m m'.
Hypothesis R_tick : forall dt m, 0 <= dt -> R m (set_clock (clock m + dt) m).

Lemma removeSession_tail_store sid : preserves R (removeSession_tail sid).
Proof.
  intros m. destruct (sessions_get sid m) as [s|] eqn:H.
  - rewrite (removeSession_tail_live _ _ _ H).
    eapply R_trans; [|apply R_store, close_subscribers_same_store].
    destruct (retired_store sid m) as (Hh & Hs & _).
    destruct (retired_clock sid m) as (Hc & Hk).
    by eapply R_retire.
  - rewrite (removeSession_tail_dead _ _ H). apply R_refl.
Qed.

(** Every step of the manager is in a relation on the store that the writes
    of the code respect. *)
Lemma store_step_related parse l m m' :
  fresh_ok m -> step parse l m = Some m' -> R m m'.
Proof.
  apply (step_related R); auto using removeSession_tail_store.
  - intros a b Hh Hs _ _ _ _ _ Hc Hk. apply R_store. by split; [|split; [|split]].
  - intros sid msg m0. apply R_store, broadcast_same_store.
  - intros sid m0. apply R_store, registerClient_same_store.
  - intros k m0. apply R_store, on_close_same_store.
  - intros k m0. apply R_store, on_error_same_store.
  - intros k m0. apply R_store. by split; [|split; [|split]].
Qed.

End StoreRelation.

(** ** The cap, the records and the time stamps *)

Lemma extends_refl s : extends s s.
Proof. unfold extends. by repeat match goal with |- _ /\ _ => split end. Qed.

Lemma extends_trans a b c : extends a b -> extends b c -> extends a c.
Proof.
  intros (?&?&?&?&?&?) (?&?&?&?&?&?). unfold extends.
  repeat match goal with |- _ /\ _ => split end; try congruence. by etrans.
Qed.

Lemma grows_refl m : grows m m.
Proof. intros sid s H. eauto using extends_refl. Qed.

Lemma grows_trans a b c : grows a b -> grows b c -> grows a c.
Proof.
  intros Hab Hbc sid s H. destruct (Hab sid s H) as (s1 & H1 & E1).
  destruct (Hbc sid s1 H1) as (s2 & H2 & E2). eauto using extends_trans.
Qed.

Lemma grows_alter sid f (m m' : Manager) :
  heap m' = alter f sid (heap m) -> (forall s, extends s (f s)) -> grows m m'.
Proof.
  intros Hh Hf j s Hj. rewrite Hh. destruct (decide (sid = j)) as [->|Hne].
  - rewrite lookup_alter_eq, Hj. simpl. eauto.
  - rewrite lookup_alter_ne by done. eauto using extends_refl.
Qed.

Lemma fresh_ok_unused m : fresh_ok m -> heap m !! nextUuid m = None.
Proof.
  intros Hf. destruct (heap m !! nextUuid m) eqn:E; [|done].
  assert (nextUuid m < nextUuid m)%nat by (apply Hf; by rewrite E). lia.
Qed.

Lemma step_grows parse l m m' : fresh_ok m -> step parse l m = Some m' -> grows m m'.
Proof.
  apply (store_step_related grows); auto using grows_refl.
  - apply grows_trans.
  - intros a b (Hh & _). intros sid s H. rewrite Hh. eauto using extends_refl.
  - intros sid ev a s _ _. eapply grows_alter; [reflexivity|]. intros s0. unfold extends.
    repeat match goal with |- _ /\ _ => split end; try reflexivity.
    by apply prefix_app_r.
  - intros sid g a s _ Hg. eapply grows_alter; [reflexivity|]. intros s0.
    destruct (Hg s0) as (?&?&?&?&?&?&He). unfold extends.
    repeat match goal with |- _ /\ _ => split end; simpl; try done. by rewrite He.
  - intros pb ws art a Hf sid s H. unfold allocate. simpl.
    rewrite lookup_insert_ne; [eauto using extends_refl|].
    intros <-. by rewrite fresh_ok_unused in H.
  - intros sid a b s _ Hh _ _ _. eapply grows_alter; [exact Hh|]. intros s0.
    unfold extends. by repeat match goal with |- _ /\ _ => split end.
  - intros dt a _ sid s H. eauto using extends_refl.
Qed.

Lemma step_same_cap parse l m m' :
  fresh_ok m -> step parse l m = Some m' -> same_cap m m'.
Proof.
  apply (store_step_related same_cap); unfold same_cap; try done.
  - congruence.
  - by intros a b (_ & _ & _ & ?).
Qed.

Lemma reachable_cap parse env m :
  reachable parse env m -> maxConcurrentAgents m = clampConcurrency env.
Proof.
  induction 1 as [|l m m' Hr IH Hstep]; [done|].
  rewrite <- IH. by eapply step_same_cap; [eapply reachable_fresh|].
Qed.

Lemma ages_refl m : ages m m.
Proof. split; [lia|]. intros H. split; [done|]. intros sid s Hs. exists s. split; [done|lia]. Qed.

Lemma ages_trans a b c : ages a b -> ages b c -> ages a c.
Proof.
  intros [Hab1 Hab2] [Hbc1 Hbc2]. split; [lia|]. intros Ha.
  destruct (Hab2 Ha) as [Hb Hab]. destruct (Hbc2 Hb) as [Hc Hbc]. split; [done|].
  intros sid s Hs. destruct (Hab sid s Hs) as (s1 & H1 & ?).
  destruct (Hbc sid s1 H1) as (s2 & H2 & ?). exists s2. split; [done|lia].
Qed.

(** An assignment that stamps the record with the present time. *)
Lemma ages_alter sid f (m m' : Manager) :
  heap m' = alter f sid (heap m) -> clock m' = clock m ->
  (forall s, session_id (f s) = session_id s /\ createdAt (f s) = createdAt s
     /\ updatedAt (f s) = clock m
     /\ (events (f s) = events s
         \/ exists ev, events (f s) = events s ++ [ev] /\ timestamp ev = clock m)) ->
  ages m m'.
Proof.
  intros Hh Hc Hf. split; [lia|]. intros Hw. split.
  - intros j s' Hj. rewrite Hh in Hj. rewrite Hc.
    destruct (decide (sid = j)) as [->|Hne]; [|rewrite lookup_alter_ne in Hj by done; eauto].
    rewrite lookup_alter_eq in Hj. destruct (heap m !! j) as [s|] eqn:Hs; [|done].
    injection Hj as <-. destruct (Hw j s Hs) as (Hid & [Hcu Huc] & Hord & Hin).
    destruct (Hf s) as (Hid' & Hcr & Hup & Hev).
    unfold chronological. rewrite Hid', Hcr, Hup. split; [done|]. split; [lia|].
    destruct Hev as [->|(ev & -> & Hts)]; split.
    + exact Hord.
    + intros ev Hev. specialize (Hin ev Hev). lia.
    + intros i k a b Hik Ha Hb.
      destruct (decide (k < length (events s))%nat) as [Hlt|Hge].
      * rewrite lookup_app_l in Ha, Hb by lia. eauto.
      * assert (timestamp b = clock m) as ->.
        { rewrite lookup_app_r in Hb by lia.
          destruct (k - length (events s))%nat; simpl in Hb; [|done]. congruence. }
        destruct (decide (i < length (events s))%nat) as [Hlt|Hge'].
        -- rewrite lookup_app_l in Ha by lia.
           apply list_elem_of_lookup_2 in Ha. specialize (Hin a Ha). lia.
        -- rewrite lookup_app_r in Ha by lia.
           destruct (i - length (events s))%nat; simpl in Ha; [|done].
           injection Ha as <-. lia.
    + intros e He. apply elem_of_app in He as [He|He].
      * specialize (Hin e He). lia.
      * apply list_elem_of_singleton in He as ->. lia.
  - intros j s Hs. rewrite Hh. destruct (decide (sid = j)) as [->|Hne].
    + rewrite lookup_alter_eq, Hs. simpl. eexists. split; [done|].
      destruct (Hf s) as (_ & _ & -> & _). destruct (Hw j s Hs) as (_ & [_ ?] & _). lia.
    + rewrite lookup_alter_ne by done. exists s. split; [done|lia].
Qed.

Lemma step_ages parse l m m' : fresh_ok m -> step parse l m = Some m' -> ages m m'.
Proof.
  apply (store_step_related ages); auto using ages_refl.
  - apply ages_trans.
  - intros a b (Hh & _ & Hc & _). split; [lia|]. intros Hw. split.
    + intros sid s. rewrite Hh, Hc. apply Hw.
    + intros sid s Hs. rewrite Hh. exists s. split; [done|lia].
  - intros sid ev a s _ Hts. eapply ages_alter; [reflexivity|reflexivity|]. intros s0.
    simpl. split; [done|]. split; [done|]. split; [done|]. right. eauto.
  - intros sid g a s _ Hg. eapply ages_alter; [reflexivity|reflexivity|]. intros s0.
    destruct (Hg s0) as (?&?&?&?&?&?&?). simpl. auto.
  - intros pb ws art a Hf. split; [simpl; lia|]. intros Hw.
    pose proof (fresh_ok_unused _ Hf) as Hnew. split.
    + intros sid s. unfold allocate. simpl. destruct (decide (nextUuid a = sid)) as [<-|Hne].
      * rewrite lookup_insert_eq. intros [= <-]. simpl. split; [done|]. split; [lia|].
        split; [intros i j x y _ Hx; by destruct i|].
        intros ev Hev. by apply elem_of_nil in Hev.
      * rewrite lookup_insert_ne by done. apply Hw.
    + intros sid s Hs. unfold allocate. simpl. rewrite lookup_insert_ne by congruence.
      exists s. split; [done|lia].
  - intros sid a b s _ Hh _ Hc _. eapply ages_alter; [exact Hh|exact Hc|]. intros s0.
    simpl. auto.
  - intros dt a Hdt. split; [simpl; lia|]. intros Hw. split.
    + intros sid s Hs. destruct (Hw sid s Hs) as (? & [? ?] & ?). simpl.
      split; [done|]. split; [lia|done].
    + intros sid s Hs. exists s. split; [done|lia].
Qed.

Lemma newManager_well_stamped env : well_stamped (newManager env).
Proof. intros sid s H. simpl in H. by rewrite lookup_empty in H. Qed.

Lemma reachable_well_stamped parse env m : reachable parse env m -> well_stamped m.
Proof.
  induction 1 as [|l m m' Hr IH Hstep]; [apply newManager_well_stamped|].
  by destruct (step_ages _ _ _ _ (reachable_fresh _ _ _ Hr) Hstep) as [_ [? _]].
Qed.

(** X3.  The cap is fixed when the manager is built: in every reachable state
    [maxConcurrentAgents] is what [clampConcurrency] made of
    [AGENT_MAX_CONCURRENCY], and it is at least 1. *)
Theorem cap_is_fixed parse env m :
  reachable parse env m ->
  maxConcurrentAgents m = clampConcurrency env /\ 1 <= maxConcurrentAgents m.
Proof.
  intros Hr. rewrite (reachable_cap _ _ _ Hr). split; [done|apply clampConcurrency_positive].
Qed.

Lemma cap_is_fixed_witness :
  maxConcurrentAgents (after barging (Some "1")) = 1.
Proof.
  apply (cap_is_fixed JSON_parse_demo (Some "1") (after barging (Some "1"))).
  eapply reachable_after. vm_compute. reflexivity.
Defined.

Lemma run_grows parse env ls : forall m m',
  reachable parse env m -> run parse ls m = Some m' -> grows m m'.
Proof.
  induction ls as [|l ls IH]; intros m m' Hr; simpl.
  - intros [= <-]. apply grows_refl.
  - destruct (step parse l m) as [m1|] eqn:Hstep; [|discriminate]. intros Hrun.
    eapply grows_trans.
    + eapply step_grows; [by eapply reachable_fresh|exact Hstep].
    + eapply IH; [by eapply reachable_step|exact Hrun].
Qed.

(** X4.  A session record is never dropped nor rewritten: whatever steps are
    taken from a reachable state, a record that is on the heap stays there
    with its id, its creation time, its problem and its paths, and the
    events it had are still there, in the same order, before any new one. *)
Theorem records_only_grow parse env ls m m' sid s :
  reachable parse env m -> run parse ls m = Some m' -> heap m !! sid = Some s ->
  exists s', heap m' !! sid = Some s' /\ extends s s'.
Proof. intros Hr Hrun Hs. by eapply run_grows. Qed.

Lemma records_only_grow_witness :
  exists s', heap (after solved_run None) !! 0%nat = Some s' /\ extends created_session s'.
Proof.
  apply (records_only_grow JSON_parse_demo None
           [Resume 0%nat; Resume 0%nat; Resume 0%nat;
            StreamItem 0%nat (thread_started "t1");
            StreamItem 0%nat (item_completed (agent_message solved_text));
            StreamEnd 0%nat]
           (after [create] None) (after solved_run None) 0%nat created_session).
  - eapply reachable_after. vm_compute. reflexivity.
  - vm_compute. reflexivity.
  - vm_compute. reflexivity.
Defined.

(** X5.  In every reachable state a record is stored under its own id,
    [createdAt <= updatedAt <= Date.now()], its events are in the order of
    their time stamps, and every time stamp lies between [createdAt] and
    [updatedAt]. *)
Theorem time_stamps_are_consistent parse env m sid s :
  reachable parse env m -> heap m !! sid = Some s ->
  session_id s = sid /\ createdAt s <= updatedAt s <= clock m /\ chronological s.
Proof. intros Hr. by apply (reachable_well_stamped _ _ _ Hr). Qed.

Lemma run_ages parse env ls : forall m m',
  reachable parse env m -> run parse ls m = Some m' -> ages m m'.
Proof.
  induction ls as [|l ls IH]; intros m m' Hr; simpl.
  - intros [= <-]. apply ages_refl.
  - destruct (step parse l m) as [m1|] eqn:Hstep; [|discriminate]. intros Hrun.
    eapply ages_trans.
    + eapply step_ages; [by eapply reachable_fresh|exact Hstep].
    + eapply IH; [by eapply reachable_step|exact Hrun].
Qed.

(** X6.  Time and [updatedAt] only move forward: along any steps from a
    reachable state the clock does not go back and the [updatedAt] of a
    record does not decrease. *)
Theorem updatedAt_never_decreases parse env ls m m' sid s :
  reachable parse env m -> run parse ls m = Some m' -> heap m !! sid = Some s ->
  clock m <= clock m'
  /\ exists s', heap m' !! sid = Some s' /\ updatedAt s <= updatedAt s'.
Proof.
  intros Hr Hrun Hs. destruct (run_ages _ _ _ _ _ Hr Hrun) as [Hc Hw].
  split; [done|]. destruct (Hw (reachable_well_stamped _ _ _ Hr)) as [_ Hu]. by apply Hu.
Qed.

(** ** The subscriber registry *)

Lemma registry_ok_ext m m' :
  sessions m' = sessions m -> clients m' = clients m -> clientSets m' = clientSets m ->
  sockets m' = sockets m -> nextSocket m' = nextSocket m -> nextSet m' = nextSet m ->
  registry_ok m -> registry_ok m'.
Proof. unfold registry_ok. by intros -> -> -> -> -> ->. Qed.

Lemma socket_alike_refl s : socket_alike s s.
Proof. by split. Qed.

Lemma socket_alike_send msg s : socket_alike s (socket_send msg s).
Proof. by split. Qed.

Lemma socket_alike_close code reason s : socket_alike s (socket_close code reason s).
Proof. split; [done|]. simpl. by destruct (readyState s). Qed.

Lemma socket_alike_closing s : socket_alike s (set_readyState CLOSING s).
Proof. by split. Qed.

(** Writes to the sockets that keep their handlers. *)
Lemma registry_ok_sockets m socks :
  (forall k, match sockets m !! k, socks !! k with
             | Some s, Some s' => socket_alike s s'
             | None, None => True
             | _, _ => False
             end) ->
  registry_ok m -> registry_ok (set_sockets socks m).
Proof.
  intros Hk (H1 & H2 & H3 & H4 & H5 & H6). unfold registry_ok. simpl.
  split; [done|]. split; [done|]. split; [done|]. split; [|split].
  - intros r members k Hr Hin. destruct (H4 r members k Hr Hin) as (s & sid & Hs & Hh & Hc).
    specialize (Hk k). rewrite Hs in Hk. destruct (socks !! k) as [s'|]; [|done].
    destruct Hk as [Hh' Hc']. exists s', sid. rewrite Hh'. auto.
  - intros k s' Hs'. specialize (Hk k). rewrite Hs' in Hk.
    destruct (sockets m !! k) as [s|] eqn:Hs; [|done]. eauto.
  - intros k s' sid r Hs' Hh'. specialize (Hk k). rewrite Hs' in Hk.
    destruct (sockets m !! k) as [s|] eqn:Hs; [|done]. destruct Hk as [Hh _].
    rewrite Hh in Hh'. eauto.
Qed.

Lemma alter_alike (f : Socket -> Socket) k0 (socks : gmap nat Socket) :
  (forall s, socket_alike s (f s)) ->
  forall k, match socks !! k, alter f k0 socks !! k with
            | Some s, Some s' => socket_alike s s'
            | None, None => True
            | _, _ => False
            end.
Proof.
  intros Hf k. destruct (decide (k0 = k)) as [->|Hne].
  - rewrite lookup_alter_eq. destruct (socks !! k); simpl; auto.
  - rewrite lookup_alter_ne by done. destruct (socks !! k); auto using socket_alike_refl.
Qed.

Lemma registry_ok_alter_socket m f k0 :
  (forall s, socket_alike s (f s)) ->
  registry_ok m -> registry_ok (set_sockets (alter f k0 (sockets m)) m).
Proof. intros Hf. apply registry_ok_sockets. by apply alter_alike. Qed.

Lemma elem_of_set_delete_iff k x l : x ∈ set_delete k l <-> x ∈ l /\ x <> k.
Proof.
  unfold set_delete. rewrite !list_elem_of_In, filter_In, negb_true_iff, Nat.eqb_neq.
  reflexivity.
Qed.

Lemma NoDup_set_delete k l : NoDup l -> NoDup (set_delete k l).
Proof.
  unfold set_delete. rewrite !NoDup_ListNoDup. apply List.NoDup_filter.
Qed.

(** A socket leaves a [Set]. *)
Lemma registry_ok_set_delete m k r :
  registry_ok m -> registry_ok (set_clientSets (alter (set_delete k) r (clientSets m)) m).
Proof.
  intros (H1 & H2 & H3 & H4 & H5 & H6). unfold registry_ok. simpl.
  split; [|split; [done|split; [|split; [|done]]]].
  - intros sid r0 Hc. destruct (H1 sid r0 Hc) as [Hin [members Hm]]. split; [done|].
    destruct (decide (r = r0)) as [->|Hne].
    + rewrite lookup_alter_eq, Hm. by eexists.
    + rewrite lookup_alter_ne by done. by eexists.
  - intros r0 members Hm. destruct (decide (r = r0)) as [->|Hne].
    + rewrite lookup_alter_eq in Hm. destruct (clientSets m !! r0) as [l|] eqn:Hl; [|done].
      injection Hm as <-. destruct (H3 r0 l Hl). auto using NoDup_set_delete.
    + rewrite lookup_alter_ne in Hm by done. eauto.
  - intros r0 members k0 Hm Hin. destruct (decide (r = r0)) as [->|Hne].
    + rewrite lookup_alter_eq in Hm. destruct (clientSets m !! r0) as [l|] eqn:Hl; [|done].
      injection Hm as <-. apply elem_of_set_delete_iff in Hin as [Hin _]. eauto.
    + rewrite lookup_alter_ne in Hm by done. eauto.
Qed.

(** An entry leaves the registry. *)
Lemma registry_ok_delete_entry m sid :
  registry_ok m -> registry_ok (set_clients (delete sid (clients m)) m).
Proof.
  intros (H1 & H2 & H3 & H4 & H5 & H6). unfold registry_ok. simpl.
  split; [|split; [|split; [done|split; [done|split; [done|]]]]].
  - intros j r Hj. apply lookup_delete_Some in Hj as [_ Hj]. eauto.
  - intros j j' r Hj Hj'. apply lookup_delete_Some in Hj as [_ Hj].
    apply lookup_delete_Some in Hj' as [_ Hj']. eauto.
  - intros k s j r Hs Hh. destruct (H6 k s j r Hs Hh) as [Hr Hu]. split; [done|].
    intros j' Hj'. apply lookup_delete_Some in Hj' as [_ Hj']. eauto.
Qed.

(** The key set of the store changes where the registry has no entry. *)
Lemma registry_ok_sessions m X :
  (forall sid, is_Some (clients m !! sid) -> sid ∈ X) ->
  registry_ok m -> registry_ok (set_sessions X m).
Proof.
  intros HX (H1 & H2 & H3 & H4 & H5 & H6). unfold registry_ok. simpl.
  split; [|done]. intros sid r Hc. destruct (H1 sid r Hc). split; [|done].
  apply HX. by rewrite Hc.
Qed.

Lemma keeps_registry_refl m : keeps_registry m m.
Proof. by intros H. Qed.

Lemma keeps_registry_trans a b c :
  keeps_registry a b -> keeps_registry b c -> keeps_registry a c.
Proof. unfold keeps_registry. auto. Qed.

Lemma broadcast_one_keeps_registry r msg m k : keeps_registry m (broadcast_one r msg m k).
Proof.
  intros H. unfold broadcast_one. destruct (sockets m !! k) as [s|]; [|done].
  destruct (readyState s); auto using registry_ok_set_delete.
  apply registry_ok_alter_socket; auto using socket_alike_send.
Qed.

Lemma broadcast_keeps_registry sid msg : preserves keeps_registry (broadcast sid msg).
Proof.
  intros m. simpl. destruct (clients m !! sid); [|apply keeps_registry_refl].
  apply foldl_rel;
    [apply keeps_registry_refl|apply keeps_registry_trans
    |intros; apply broadcast_one_keeps_registry].
Qed.

Lemma broadcastSnapshot_keeps_registry sid :
  preserves keeps_registry (broadcastSnapshot sid).
Proof.
  intros m. destruct (sessions_get sid m) as [s|] eqn:H.
  - rewrite (broadcastSnapshot_live _ _ _ H). apply broadcast_keeps_registry.
  - rewrite (broadcastSnapshot_dead _ _ H). apply keeps_registry_refl.
Qed.

Lemma close_all_alike members : forall (socks : gmap nat Socket) k,
  match socks !! k, close_all members socks !! k with
  | Some s, Some s' => socket_alike s s'
  | None, None => True
  | _, _ => False
  end.
Proof.
  induction members as [|k0 l IH]; intros socks k; simpl.
  - destruct (socks !! k); auto using socket_alike_refl.
  - specialize (IH (alter (socket_close 1000 "Session cancelled") k0 socks) k).
    pose proof (alter_alike (socket_close 1000 "Session cancelled") k0 socks
                  (socket_alike_close _ _) k) as Ha.
    unfold close_all in *.
    destruct (socks !! k) as [s|], (alter _ k0 socks !! k) as [s1|]; try done.
    destruct (foldl _ _ l !! k) as [s2|]; [|done].
    destruct Ha as [Ha1 Ha2], IH as [Hb1 Hb2]. split; [congruence|auto].
Qed.

Lemma removeSession_tail_keeps_registry sid :
  preserves keeps_registry (removeSession_tail sid).
Proof.
  intros m. destruct (sessions_get sid m) as [s|] eqn:H.
  2:{ rewrite (removeSession_tail_dead _ _ H). apply keeps_registry_refl. }
  rewrite (removeSession_tail_live _ _ _ H). intros Hok.
  unfold retired.
  set (m1 := snd (assign sid (fun s0 => set_updatedAt (clock m) (set_status cancelled s0)) m)).
  assert (H1 : registry_ok m1) by (revert Hok; by apply registry_ok_ext).
  set (m2 := snd (broadcastSnapshot sid m1)).
  assert (H2 : registry_ok m2) by (by apply broadcastSnapshot_keeps_registry).
  clearbody m2. clear m1 H1 Hok H.
  unfold close_subscribers, mbind, M_bind, bind, gets, modify, ret. simpl.
  destruct (clients m2 !! sid) as [r|] eqn:Hr; simpl.
  - apply (registry_ok_ext
             (set_sessions (sessions m2 ∖ {[sid]})
                (set_sockets (close_all (default [] (clientSets m2 !! r)) (sockets m2))
                   (set_clients (delete sid (clients m2)) m2)))); try reflexivity.
    apply registry_ok_sessions.
    { simpl. intros j [r0 Hj]. apply lookup_delete_Some in Hj as [Hne Hj].
      apply elem_of_difference. split; [|by rewrite elem_of_singleton].
      by destruct H2 as (H1 & _); destruct (H1 j r0 Hj). }
    apply registry_ok_sockets; [intros k; apply close_all_alike|].
    by apply registry_ok_delete_entry.
  - apply registry_ok_sessions; [|done].
    intros j [r0 Hj]. apply elem_of_difference.
    split; [by destruct H2 as (H1 & _); destruct (H1 j r0 Hj)|].
    rewrite elem_of_singleton. congruence.
Qed.

Lemma NoDup_set_add k l : NoDup l -> NoDup (set_add k l).
Proof.
  intros H. unfold set_add. destruct (existsb (Nat.eqb k) l) eqn:E; [done|].
  apply NoDup_app. split; [done|]. split; [|apply NoDup_singleton].
  intros x Hx Hk. apply list_elem_of_singleton in Hk as ->.
  assert (existsb (Nat.eqb k) l = true); [|congruence].
  apply existsb_exists. exists k. split; [by apply list_elem_of_In|apply Nat.eqb_refl].
Qed.

Lemma elem_of_set_add k x l : x ∈ set_add k l -> x = k \/ x ∈ l.
Proof.
  unfold set_add. destruct (existsb (Nat.eqb k) l); [auto|].
  rewrite elem_of_app, list_elem_of_singleton. tauto.
Qed.

(** A socket that was just upgraded. *)
Lemma registry_ok_new_socket m : registry_ok m -> registry_ok (upgraded m).
Proof.
  intros (H1 & H2 & H3 & H4 & H5 & H6). unfold registry_ok. simpl.
  split; [done|]. split; [done|]. split; [done|]. split; [|split].
  - intros r members k Hr Hin. destruct (H4 r members k Hr Hin) as (sk & sid & Hk & ?).
    exists sk, sid. rewrite lookup_insert_ne; [done|]. intros <-.
    specialize (H5 _ _ Hk). lia.
  - intros k sk Hk. destruct (decide (nextSocket m = k)) as [<-|Hne]; [lia|].
    rewrite lookup_insert_ne in Hk by done. specialize (H5 _ _ Hk). lia.
  - intros k sk sid r Hk Hh. destruct (decide (nextSocket m = k)) as [<-|Hne].
    + rewrite lookup_insert_eq in Hk. injection Hk as <-. discriminate.
    + rewrite lookup_insert_ne in Hk by done. eauto.
Qed.

(** A new, empty [Set]. *)
Lemma registry_ok_new_set m : registry_ok m -> registry_ok (new_set m).
Proof.
  intros (H1 & H2 & H3 & H4 & H5 & H6). unfold registry_ok. simpl.
  split; [|split; [done|split; [|split; [|split; [done|]]]]].
  - intros sid r Hc. destruct (H1 sid r Hc) as [Hin [members Hm]]. split; [done|].
    rewrite lookup_insert_ne; [by eexists|]. intros <-. destruct (H3 _ _ Hm). lia.
  - intros r members Hm. destruct (decide (nextSet m = r)) as [<-|Hne].
    + rewrite lookup_insert_eq in Hm. injection Hm as <-. split; [lia|apply NoDup_nil_2].
    + rewrite lookup_insert_ne in Hm by done. destruct (H3 _ _ Hm). split; [lia|done].
  - intros r members k Hm Hin. destruct (decide (nextSet m = r)) as [<-|Hne].
    + rewrite lookup_insert_eq in Hm. injection Hm as <-. by apply elem_of_nil in Hin.
    + rewrite lookup_insert_ne in Hm by done. eauto.
  - intros k s sid r Hk Hh. destruct (H6 k s sid r Hk Hh). split; [lia|done].
Qed.

(** Socket [k], open and without handlers, joins the [Set] [r] of session
    [sid]: [r] is the one the registry holds for [sid], or one that nothing
    refers to. *)
Lemma registry_ok_subscribe m sid r k s members :
  registry_ok m -> sid ∈ sessions m ->
  sockets m !! k = Some s -> handlers s = None -> readyState s <> CLOSED ->
  clientSets m !! r = Some members ->
  (clients m !! sid = Some r
   \/ (clients m !! sid = None
       /\ (forall sid', clients m !! sid' <> Some r)
       /\ (forall k' s' sid', sockets m !! k' = Some s' -> handlers s' <> Some (sid', r)))) ->
  registry_ok (subscribe sid r k m).
Proof.
  intros (H1 & H2 & H3 & H4 & H5 & H6) Hlive Hk Hh Hopen Hm Hcase.
  assert (Hnot : forall r0 l, clientSets m !! r0 = Some l -> k ∉ l).
  { intros r0 l Hl Hin. destruct (H4 r0 l k Hl Hin) as (s' & sid' & Hk' & Hh' & _).
    congruence. }
  assert (Hinj : forall sid', <[sid := r]> (clients m) !! sid' = Some r -> sid' = sid).
  { intros sid' Hc. destruct (decide (sid = sid')) as [->|Hne]; [done|].
    rewrite lookup_insert_ne in Hc by done.
    destruct Hcase as [Hc0|(_ & Hfree & _)]; [by eapply H2|by destruct (Hfree sid')]. }
  unfold registry_ok. simpl. split; [|split; [|split; [|split; [|split]]]].
  - intros j r0 Hj. destruct (decide (sid = j)) as [->|Hne].
    + rewrite lookup_insert_eq in Hj. injection Hj as <-. split; [done|].
      rewrite lookup_alter_eq, Hm. by eexists.
    + rewrite lookup_insert_ne in Hj by done. destruct (H1 j r0 Hj) as [? [l Hl]].
      split; [done|]. destruct (decide (r = r0)) as [->|Hr].
      * rewrite lookup_alter_eq, Hl. by eexists.
      * rewrite lookup_alter_ne by done. by eexists.
  - intros j j' r0 Hj Hj'. destruct (decide (r0 = r)) as [->|Hr].
    + by rewrite (Hinj j Hj), (Hinj j' Hj').
    + destruct (decide (sid = j)) as [->|Hne];
        [rewrite lookup_insert_eq in Hj; congruence|].
      destruct (decide (sid = j')) as [->|Hne'];
        [rewrite lookup_insert_eq in Hj'; congruence|].
      rewrite lookup_insert_ne in Hj, Hj' by done. eauto.
  - intros r0 l Hl. destruct (decide (r = r0)) as [->|Hr].
    + rewrite lookup_alter_eq, Hm in Hl. injection Hl as <-. destruct (H3 _ _ Hm).
      auto using NoDup_set_add.
    + rewrite lookup_alter_ne in Hl by done. eauto.
  - intros r0 l x Hl Hin.
    assert (Hold : forall l0, clientSets m !! r0 = Some l0 -> x ∈ l0 ->
      exists s0 sid0, alter (set_handlers (Some (sid, r))) k (sockets m) !! x = Some s0
        /\ handlers s0 = Some (sid0, r0) /\ readyState s0 <> CLOSED).
    { intros l0 Hl0 Hx. destruct (H4 r0 l0 x Hl0 Hx) as (s0 & sid0 & Hs0 & ? & ?).
      exists s0, sid0. rewrite lookup_alter_ne; [done|]. intros <-.
      by apply (Hnot r0 l0). }
    destruct (decide (r = r0)) as [->|Hr].
    + rewrite lookup_alter_eq, Hm in Hl. injection Hl as <-.
      apply elem_of_set_add in Hin as [->|Hin]; [|by eapply Hold].
      exists (set_handlers (Some (sid, r0)) s), sid.
      rewrite lookup_alter_eq, Hk. done.
    + rewrite lookup_alter_ne in Hl by done. by eapply Hold.
  - intros x sx Hx. destruct (decide (k = x)) as [->|Hne].
    + eauto.
    + rewrite lookup_alter_ne in Hx by done. eauto.
  - intros x sx j r0 Hx Hhx. destruct (decide (k = x)) as [->|Hne].
    + rewrite lookup_alter_eq, Hk in Hx. injection Hx as <-. simpl in Hhx.
      injection Hhx as <- <-. split; [by destruct (H3 _ _ Hm)|exact Hinj].
    + rewrite lookup_alter_ne in Hx by done. destruct (H6 x sx j r0 Hx Hhx) as [Hlt Hu].
      split; [done|]. intros j' Hj'. destruct (decide (sid = j')) as [<-|Hne'].
      * rewrite lookup_insert_eq in Hj'. injection Hj' as <-.
        destruct Hcase as [Hc0|(_ & _ & Hfree)]; [by apply Hu|].
        by destruct (Hfree x sx j Hx).
      * rewrite lookup_insert_ne in Hj' by done. by apply Hu.
Qed.

Lemma registerClient_unfold sid m :
  registerClient sid m
  = (Normal (nextSocket m),
     match sessions_get sid m with
     | None => refused (nextSocket m) (upgraded m)
     | Some s =>
         greeted s (nextSocket m)
           (match clients m !! sid with
            | Some r => subscribe sid r (nextSocket m) (upgraded m)
            | None => subscribe sid (nextSet m) (nextSocket m) (new_set (upgraded m))
            end)
     end).
Proof.
  unfold registerClient, mbind, M_bind, bind, gets, modify, ret.
  change (sessions_get sid (snd (_, _))) with (sessions_get sid m).
  cbn [fst snd].
  change (sessions_get sid (set_sockets _ _)) with (sessions_get sid m).
  destruct (sessions_get sid m) as [s|]; [|reflexivity].
  change (clients (set_sockets _ _) !! sid) with (clients m !! sid).
  destruct (clients m !! sid) as [r|]; reflexivity.
Qed.

Lemma registerClient_keeps_registry sid : preserves keeps_registry (registerClient sid).
Proof.
  intros m Hok. rewrite registerClient_unfold. cbn [snd].
  assert (H1 : registry_ok (upgraded m)) by (by apply registry_ok_new_socket).
  assert (Hk : sockets (upgraded m) !! nextSocket m = Some fresh_socket)
    by apply lookup_insert_eq.
  destruct (sessions_get sid m) as [s|] eqn:Hs.
  - apply sessions_get_Some in Hs as [Hin _].
    apply registry_ok_alter_socket; [apply socket_alike_send|].
    destruct (clients m !! sid) as [r|] eqn:Hc.
    + destruct Hok as (Ho1 & _). destruct (Ho1 sid r Hc) as [_ [members Hm]].
      eapply (registry_ok_subscribe (upgraded m) sid r (nextSocket m) fresh_socket members);
        eauto; discriminate.
    + assert (H2 : registry_ok (new_set (upgraded m))) by (by apply registry_ok_new_set).
      eapply (registry_ok_subscribe (new_set (upgraded m)) sid (nextSet m) (nextSocket m)
                fresh_socket []); eauto; try discriminate.
      * apply lookup_insert_eq.
      * right. split; [done|]. destruct H1 as (Ha & _ & Hb & _ & _ & Hd). split.
        -- intros sid' Hc'. destruct (Ha sid' _ Hc') as [_ [l Hl]].
           destruct (Hb _ _ Hl). simpl in *. lia.
        -- intros k' s' sid' Hk' Hh'. destruct (Hd k' s' sid' _ Hk' Hh'). simpl in *. lia.
  - apply registry_ok_alter_socket; [|done].
    intros s0. split; [done|]. simpl. by destruct (readyState s0).
Qed.

(** A socket that is in no [Set] reports that it closed. *)
Lemma registry_ok_closed m k :
  (forall r members, clientSets m !! r = Some members -> k ∉ members) ->
  registry_ok m -> registry_ok (set_sockets (alter (set_readyState CLOSED) k (sockets m)) m).
Proof.
  intros Hout (H1 & H2 & H3 & H4 & H5 & H6). unfold registry_ok. simpl.
  split; [done|]. split; [done|]. split; [done|]. split; [|split].
  - intros r members x Hr Hin. destruct (H4 r members x Hr Hin) as (s & sid & Hs & ?).
    exists s, sid. rewrite lookup_alter_ne; [done|]. intros <-. by apply (Hout r members).
  - intros x sx Hx. destruct (decide (k = x)) as [->|Hne].
    + rewrite lookup_alter_eq in Hx. destruct (sockets m !! x) eqn:E; [|done]. eauto.
    + rewrite lookup_alter_ne in Hx by done. eauto.
  - intros x sx sid r Hx Hh. destruct (decide (k = x)) as [->|Hne].
    + rewrite lookup_alter_eq in Hx. destruct (sockets m !! x) as [s0|] eqn:E; [|done].
      injection Hx as <-. eauto.
    + rewrite lookup_alter_ne in Hx by done. eauto.
Qed.

(** Where socket [k] can be a member. *)
Lemma member_set m k s r members :
  registry_ok m -> sockets m !! k = Some s ->
  clientSets m !! r = Some members -> k ∈ members ->
  exists sid, handlers s = Some (sid, r).
Proof.
  intros (_ & _ & _ & H4 & _) Hk Hm Hin.
  destruct (H4 r members k Hm Hin) as (s' & sid & Hk' & Hh & _). exists sid. congruence.
Qed.

Lemma on_close_unfold k m :
  snd (on_close k m)
  = match s ← sockets m !! k; handlers s with
    | Some (sid, r) =>
        let m1 := set_clientSets (alter (set_delete k) r (clientSets m))
                    (set_sockets (alter (set_readyState CLOSED) k (sockets m)) m) in
        match default [] (clientSets m1 !! r) with
        | [] => set_clients (delete sid (clients m1)) m1
        | _ => m1
        end
    | None => set_sockets (alter (set_readyState CLOSED) k (sockets m)) m
    end.
Proof.
  unfold on_close, mbind, M_bind, bind, gets, modify, ret. cbn [fst snd].
  change (sockets (set_sockets (alter (set_readyState CLOSED) k (sockets m)) m))
    with (alter (set_readyState CLOSED) k (sockets m)).
  rewrite lookup_alter_eq.
  destruct (sockets m !! k) as [s|]; simpl; [|reflexivity].
  destruct (handlers s) as [[sid r]|]; [|reflexivity].
  simpl. by destruct (alter (set_delete k) r (clientSets m) !! r) as [[|]|].
Qed.

Lemma on_close_keeps_registry k : preserves keeps_registry (on_close k).
Proof.
  intros m Hok. rewrite on_close_unfold.
  destruct (sockets m !! k) as [s|] eqn:Hk; simpl.
  2:{ apply registry_ok_closed; [|done]. intros r members Hm Hin.
      destruct Hok as (_ & _ & _ & H4 & _).
      destruct (H4 r members k Hm Hin) as (? & ? & ? & _). congruence. }
  destruct (handlers s) as [[sid r]|] eqn:Hh.
  2:{ apply registry_ok_closed; [|done]. intros r members Hm Hin.
      destruct (member_set m k s r members Hok Hk Hm Hin). congruence. }
  assert (H1 : registry_ok
    (set_sockets (alter (set_readyState CLOSED) k (sockets m))
       (set_clientSets (alter (set_delete k) r (clientSets m)) m))).
  { apply (registry_ok_closed (set_clientSets (alter (set_delete k) r (clientSets m)) m));
      [|by apply registry_ok_set_delete].
    simpl. intros r0 members Hm Hin. destruct (decide (r = r0)) as [->|Hne].
    - rewrite lookup_alter_eq in Hm. destruct (clientSets m !! r0) as [l|]; [|done].
      injection Hm as <-. apply elem_of_set_delete_iff in Hin as [_ ?]. done.
    - rewrite lookup_alter_ne in Hm by done.
      destruct (member_set m k s r0 members Hok Hk Hm Hin). congruence. }
  destruct (default [] (alter (set_delete k) r (clientSets m) !! r)).
  - revert H1. intros H1. apply (registry_ok_delete_entry _ sid) in H1.
    revert H1. by apply registry_ok_ext.
  - revert H1. by apply registry_ok_ext.
Qed.

Lemma on_error_keeps_registry k : preserves keeps_registry (on_error k).
Proof.
  intros m Hok. unfold on_error, mbind, M_bind, bind, gets, modify, ret. cbn [fst snd].
  destruct (option_bind _ _ _ (sockets m !! k)) as [[sid r]|]; [|done].
  by apply registry_ok_set_delete.
Qed.

Lemma step_keeps_registry parse l m m' :
  fresh_ok m -> step parse l m = Some m' -> keeps_registry m m'.
Proof.
  apply (step_related keeps_registry);
    auto using keeps_registry_refl, broadcast_keeps_registry,
      removeSession_tail_keeps_registry, registerClient_keeps_registry,
      on_close_keeps_registry, on_error_keeps_registry.
  - apply keeps_registry_trans.
  - intros a b Hh Hs Hc Hcs Hk Hns Hnt _ _. exact (registry_ok_ext a b Hs Hc Hcs Hk Hns Hnt).
  - intros sid ev a s _ _ Hok. revert Hok. by apply registry_ok_ext.
  - intros sid g a s _ _ Hok. revert Hok. by apply registry_ok_ext.
  - intros pb ws art a _ Hok. unfold allocate.
    apply (registry_ok_ext (set_sessions ({[nextUuid a]} ∪ sessions a) a)); try reflexivity.
    apply registry_ok_sessions; [|done]. intros sid [r Hr].
    apply elem_of_union_r. by destruct Hok as (H1 & _); destruct (H1 sid r Hr).
  - intros k a Hok. apply registry_ok_alter_socket; [apply socket_alike_closing|done].
  - intros dt a _ Hok. revert Hok. by apply registry_ok_ext.
Qed.

Lemma newManager_registry env : registry_ok (newManager env).
Proof.
  unfold registry_ok. simpl.
  repeat match goal with |- _ /\ _ => split end; intros *; by rewrite lookup_empty.
Qed.

Lemma reachable_registry parse env m : reachable parse env m -> registry_ok m.
Proof.
  induction 1 as [|l m m' Hr IH Hstep]; [apply newManager_registry|].
  by apply (step_keeps_registry _ _ _ _ (reachable_fresh _ _ _ Hr) Hstep).
Qed.

(** ** Items of the stream *)

Lemma tracks_any sid {A} (c : M A) P : tracks sid c P -> tracks sid c (fun _ _ => True).
Proof. intros H. eapply tracks_weaken; [exact H|done]. Qed.

Lemma tracks_bind_any sid {A B} (c : M A) (k : A -> M B) :
  tracks sid c (fun _ _ => True) -> (forall a, tracks sid (k a) (fun _ _ => True)) ->
  tracks sid (bind c k) (fun _ _ => True).
Proof. intros Hc Hk. eapply tracks_any, tracks_bind; eauto. Qed.

Ltac alive :=
  unfold mbind, M_bind;
  repeat first
    [ eapply tracks_any, tracks_publishEvent
    | eapply tracks_any, tracks_updateStatus
    | eapply tracks_any, tracks_updateSessionMetadata
    | eapply tracks_any, tracks_broadcastSnapshot
    | eapply tracks_any, tracks_broadcast
    | eapply tracks_any, tracks_ret
    | match goal with
      | |- tracks _ (match ?x with _ => _ end) _ => destruct x
      | |- tracks _ (if ?x then _ else _) _ => destruct x
      | |- tracks _ (let _ := _ in _) _ => cbv zeta
      | |- tracks _ (bind _ _) _ => apply tracks_bind_any; [|intros]
      end ].

Lemma handleThreadEvent_alive parse sid ev :
  tracks sid (handleThreadEvent parse sid ev) (fun _ _ => True).
Proof.
  unfold handleThreadEvent, handleItemEvent, handleAgentMessage, handleCommandExecution,
    handleMcpToolCall.
  destruct ev; alive.
Qed.

(** ** What [broadcast] and the handlers of a socket do *)

Lemma broadcast_one_sockets r msg m k0 k :
  sockets (broadcast_one r msg m k0) !! k
  = if decide (k = k0) then deliver msg <$> sockets m !! k else sockets m !! k.
Proof.
  unfold broadcast_one. destruct (decide (k = k0)) as [->|Hne].
  - destruct (sockets m !! k0) as [s|] eqn:Hs; [|by rewrite Hs].
    unfold deliver. destruct (readyState s) eqn:Hr; simpl; rewrite ?lookup_alter_eq, Hs;
      simpl; by rewrite ?Hr.
  - destruct (sockets m !! k0) as [s|]; [|done].
    destruct (readyState s); simpl; by rewrite ?lookup_alter_ne.
Qed.

Lemma foldl_broadcast_sockets r msg l : forall m k,
  NoDup l ->
  sockets (foldl (broadcast_one r msg) m l) !! k
  = if decide (k ∈ l) then deliver msg <$> sockets m !! k else sockets m !! k.
Proof.
  induction l as [|k0 l IH]; intros m k Hnd; cbn [foldl].
  - case_decide as H; [by apply elem_of_nil in H|done].
  - apply NoDup_cons in Hnd as [Hk0 Hnd]. rewrite IH by done.
    rewrite broadcast_one_sockets.
    destruct (decide (k ∈ l)) as [Hin|Hout], (decide (k = k0)) as [Heq|Hne];
      try (subst k; done); case_decide as H; try done.
    + destruct H. by apply list_elem_of_further.
    + destruct H. subst k. apply list_elem_of_here.
    + by apply elem_of_cons in H as [?|?].
Qed.

Lemma broadcast_one_clientSets r msg m k0 :
  clientSets (broadcast_one r msg m k0)
  = match sockets m !! k0 with
    | Some s => if gone s then alter (set_delete k0) r (clientSets m) else clientSets m
    | None => clientSets m
    end.
Proof.
  unfold broadcast_one, gone. destruct (sockets m !! k0) as [s|]; [|done].
  by destruct (readyState s).
Qed.

(** The members of the [Set] after the loop: those the loop did not meet
    closing or closed. *)
Lemma foldl_broadcast_members r msg l : forall m members,
  NoDup l -> clientSets m !! r = Some members ->
  exists members',
    clientSets (foldl (broadcast_one r msg) m l) !! r = Some members'
    /\ (forall x, x ∈ members' <->
          x ∈ members /\ ~ (x ∈ l /\ exists s, sockets m !! x = Some s /\ gone s = true))
    /\ forall r', r' <> r ->
         clientSets (foldl (broadcast_one r msg) m l) !! r' = clientSets m !! r'.
Proof.
  induction l as [|k0 l IH]; intros m members Hnd Hm; cbn [foldl].
  - exists members. split; [done|]. split; [|done]. intros x. split; [|tauto].
    intros Hx. split; [done|]. intros [H%elem_of_nil _]. done.
  - apply NoDup_cons in Hnd as [Hk0 Hnd].
    set (m1 := broadcast_one r msg m k0).
    assert (Hs1 : forall x, x <> k0 -> sockets m1 !! x = sockets m !! x).
    { intros x Hx. unfold m1. rewrite broadcast_one_sockets. by rewrite decide_False. }
    assert (Hg1 : forall x s1, sockets m1 !! x = Some s1 ->
              exists s0, sockets m !! x = Some s0 /\ gone s1 = gone s0).
    { intros x s1. unfold m1. rewrite broadcast_one_sockets.
      destruct (decide (x = k0)) as [->|Hne]; [|by eauto].
      destruct (sockets m !! k0) as [s0|]; [|done]. simpl. intros [= <-].
      exists s0. split; [done|]. unfold deliver, gone.
      destruct (readyState s0) eqn:E; simpl; by rewrite ?E. }
    pose proof (broadcast_one_clientSets r msg m k0) as Hc1. fold m1 in Hc1.
    destruct (sockets m !! k0) as [s0|] eqn:Hk0s.
    + destruct (gone s0) eqn:Hgone.
      * assert (Hm1 : clientSets m1 !! r = Some (set_delete k0 members))
          by (by rewrite Hc1, lookup_alter_eq, Hm).
        destruct (IH m1 _ Hnd Hm1) as (members' & Hr & Hiff & Hoth).
        exists members'. split; [done|]. split.
        -- intros x. rewrite Hiff, elem_of_set_delete_iff. split.
           ++ intros [[Hx Hne] Hno]. split; [done|].
              intros [[->|Hin]%elem_of_cons (s & Hs & Hg)]; [done|].
              apply Hno. split; [done|]. rewrite Hs1 by done. eauto.
           ++ intros [Hx Hno]. split; [split; [done|]|].
              ** intros ->. apply Hno. split; [apply list_elem_of_here|eauto].
              ** intros [Hin (s1 & Hs & Hg)]. apply Hno.
                 split; [by apply list_elem_of_further|].
                 destruct (Hg1 x s1 Hs) as (s2 & Hs2 & Heq). exists s2. by rewrite <- Heq.
        -- intros r' Hne. rewrite Hoth by done. rewrite Hc1. by rewrite lookup_alter_ne.
      * assert (Hm1 : clientSets m1 !! r = Some members) by (by rewrite Hc1).
        destruct (IH m1 _ Hnd Hm1) as (members' & Hr & Hiff & Hoth).
        exists members'. split; [done|]. split.
        -- intros x. rewrite Hiff. split.
           ++ intros [Hx Hno]. split; [done|].
              intros [[->|Hin]%elem_of_cons (s & Hs & Hg)]; [congruence|].
              apply Hno. split; [done|]. destruct (decide (x = k0)) as [->|Hne].
              ** congruence.
              ** rewrite Hs1 by done. eauto.
           ++ intros [Hx Hno]. split; [done|]. intros [Hin (s1 & Hs & Hg)]. apply Hno.
              split; [by apply list_elem_of_further|].
              destruct (Hg1 x s1 Hs) as (s2 & Hs2 & Heq). exists s2. by rewrite <- Heq.
        -- intros r' Hne. rewrite Hoth by done. by rewrite Hc1.
    + assert (Hm1 : clientSets m1 !! r = Some members) by (by rewrite Hc1).
      destruct (IH m1 _ Hnd Hm1) as (members' & Hr & Hiff & Hoth).
      exists members'. split; [done|]. split.
      * intros x. rewrite Hiff. split.
        -- intros [Hx Hno]. split; [done|].
           intros [[->|Hin]%elem_of_cons (s & Hs & Hg)]; [congruence|].
           apply Hno. split; [done|]. destruct (decide (x = k0)) as [->|Hne].
           ++ congruence.
           ++ rewrite Hs1 by done. eauto.
        -- intros [Hx Hno]. split; [done|]. intros [Hin (s1 & Hs & Hg)]. apply Hno.
           split; [by apply list_elem_of_further|].
           destruct (Hg1 x s1 Hs) as (s2 & Hs2 & Heq). exists s2. by rewrite <- Heq.
      * intros r' Hne. rewrite Hoth by done. by rewrite Hc1.
Qed.

(** [broadcast] on a registry entry whose [Set] lists its members once. *)
Lemma broadcast_spec sid msg m r members :
  clients m !! sid = Some r -> clientSets m !! r = Some members -> NoDup members ->
  (forall k, sockets (snd (broadcast sid msg m)) !! k
             = if decide (k ∈ members) then deliver msg <$> sockets m !! k
               else sockets m !! k)
  /\ (exists members',
        clientSets (snd (broadcast sid msg m)) !! r = Some members'
        /\ forall x, x ∈ members' <->
             x ∈ members /\ ~ (exists s, sockets m !! x = Some s /\ gone s = true))
  /\ (forall r', r' <> r ->
        clientSets (snd (broadcast sid msg m)) !! r' = clientSets m !! r')
  /\ only_sockets m (snd (broadcast sid msg m)).
Proof.
  intros Hc Hm Hnd. split; [|split; [|split]]; try apply broadcast_only_sockets.
  - intros k. simpl. rewrite Hc, Hm. simpl. by apply foldl_broadcast_sockets.
  - simpl. rewrite Hc, Hm. simpl.
    destruct (foldl_broadcast_members r msg members m members Hnd Hm)
      as (members' & Hr & Hiff & _).
    exists members'. split; [done|]. intros x. rewrite Hiff. split.
    + intros [Hx Hno]. split; [done|]. intros Hg. apply Hno. by split.
    + intros [Hx Hno]. split; [done|]. intros [_ Hg]. by apply Hno.
  - intros r' Hne. simpl. rewrite Hc, Hm. simpl.
    by destruct (foldl_broadcast_members r msg members m members Hnd Hm) as (_ & _ & _ & ->).
Qed.

(** X7.  In a reachable state, [broadcast(sessionId, payload)] sends the
    payload to the members of the session's [Set] that are [OPEN], each of
    which was registered for this session, and leaves the messages, the
    state and the handlers of every other socket as they were. *)
Theorem broadcast_reaches_own_subscribers parse env m sid msg k s :
  reachable parse env m -> sockets m !! k = Some s ->
  (member_of sid k m -> readyState s = OPEN ->
   sockets (snd (broadcast sid msg m)) !! k = Some (socket_send msg s)
   /\ exists r, handlers s = Some (sid, r))
  /\ (~ (member_of sid k m /\ readyState s = OPEN) ->
      sockets (snd (broadcast sid msg m)) !! k = Some s).
Proof.
  intros Hr Hk. pose proof (reachable_registry _ _ _ Hr) as Hok.
  destruct (clients m !! sid) as [r|] eqn:Hc.
  2:{ split.
      - intros (r & members & Hc' & _). congruence.
      - intros _. simpl. by rewrite Hc. }
  destruct Hok as (H1 & _ & H3 & H4 & _ & H6).
  destruct (H1 sid r Hc) as [_ [members Hm]]. destruct (H3 r members Hm) as [_ Hnd].
  destruct (broadcast_spec sid msg m r members Hc Hm Hnd) as (Hs & _). rewrite Hs, Hk.
  split.
  - intros (r' & members' & Hc' & Hm' & Hin) Ho.
    assert (r' = r) as -> by congruence. assert (members' = members) as -> by congruence.
    rewrite decide_True by done. simpl. unfold deliver. rewrite Ho. split; [done|].
    destruct (H4 r members k Hm Hin) as (s' & sid' & Hk' & Hh & _).
    assert (s' = s) as -> by congruence.
    destruct (H6 k s sid' r Hk Hh) as [_ Hu]. rewrite <- (Hu sid Hc) in Hh. eauto.
  - intros Hno. case_decide as Hin; [|done]. simpl. unfold deliver.
    destruct (readyState s) eqn:Ho; try done. destruct Hno. split; [|done].
    by exists r, members.
Qed.

Lemma broadcast_reaches_own_subscribers_witness :
  exists s,
    sockets (after [create; RegisterClient 0%nat] None) !! 0%nat = Some s
    /\ sockets (snd (broadcast 0 (MsgError "x") (after [create; RegisterClient 0%nat] None)))
         !! 0%nat = Some (socket_send (MsgError "x") s)
    /\ handlers s = Some (0%nat, 0%nat).
Proof.
  destruct (broadcast_reaches_own_subscribers JSON_parse_demo None
              (after [create; RegisterClient 0%nat] None) 0%nat (MsgError "x") 0%nat
              (default fresh_socket
                 (sockets (after [create; RegisterClient 0%nat] None) !! 0%nat)))
    as [Hyes _].
  - eapply reachable_after. vm_compute. reflexivity.
  - vm_compute. reflexivity.
  - destruct Hyes as [Hsent [r Hr]].
    + exists 0%nat, [0%nat].
      split; [vm_compute; reflexivity|]. split; [vm_compute; reflexivity|].
      apply list_elem_of_here.
    + vm_compute. reflexivity.
    + eexists. split; [vm_compute; reflexivity|]. split; [exact Hsent|].
      vm_compute. reflexivity.
Defined.

(** X8.  The ["close"] handler of a socket deletes the registry entry of its
    session as soon as the [Set] the socket was added to is left without
    member, whichever [Set] the entry holds by then. *)
Theorem close_handler_drops_entry k m s sid r members :
  sockets m !! k = Some s -> handlers s = Some (sid, r) ->
  clientSets m !! r = Some members -> (forall x, x ∈ members -> x = k) ->
  clients (snd (on_close k m)) !! sid = None.
Proof.
  intros Hk Hh Hm Honly. rewrite on_close_unfold, Hk. simpl. rewrite Hh.
  rewrite lookup_alter_eq, Hm. simpl.
  assert (set_delete k members = []) as ->.
  { apply elem_of_nil_inv. intros x Hx. apply elem_of_set_delete_iff in Hx as [Hx Hne].
    by apply Hne, Honly. }
  simpl. apply lookup_delete_eq.
Qed.

Lemma close_handler_drops_entry_witness :
  reachable JSON_parse_demo None (after stale_close None)
  /\ clients (after stale_close None) !! 0%nat = Some 1%nat
  /\ subscribed 1 2 (after stale_close None)
  /\ step JSON_parse_demo (SocketClose 0%nat) (after stale_close None)
     = Some (snd (on_close 0 (after stale_close None)))
  /\ clients (snd (on_close 0 (after stale_close None))) !! 0%nat = None.
Proof.
  split; [eapply reachable_after; vm_compute; reflexivity|].
  split; [vm_compute; reflexivity|].
  split.
  { exists [2%nat]. eexists. split; [vm_compute; reflexivity|].
    split; [apply list_elem_of_here|]. split; vm_compute; reflexivity. }
  split; [vm_compute; reflexivity|].
  apply (close_handler_drops_entry 0%nat (after stale_close None)
           (default fresh_socket (sockets (after stale_close None) !! 0%nat))
           0%nat 0%nat []).
  - vm_compute. reflexivity.
  - vm_compute. reflexivity.
  - vm_compute. reflexivity.
  - intros x Hx. by apply elem_of_nil in Hx.
Defined.

(** X9.  In every reachable state an entry of [clients] is that of a session
    of the store, and its [Set] holds, each once, sockets that are not
    [CLOSED] and whose handlers were installed by [registerClient] for that
    session and that [Set]. *)
Theorem registry_entries_are_live parse env m sid r :
  reachable parse env m -> clients m !! sid = Some r ->
  sid ∈ sessions m
  /\ exists members,
       clientSets m !! r = Some members /\ NoDup members
       /\ forall k, k ∈ members ->
            exists s, sockets m !! k = Some s /\ handlers s = Some (sid, r)
                      /\ readyState s <> CLOSED.
Proof.
  intros Hr Hc. destruct (reachable_registry _ _ _ Hr) as (H1 & _ & H3 & H4 & _ & H6).
  destruct (H1 sid r Hc) as [Hin [members Hm]]. split; [done|].
  exists members. split; [done|]. split; [by destruct (H3 r members Hm)|].
  intros k Hk. destruct (H4 r members k Hm Hk) as (s & sid' & Hs & Hh & Hcl).
  exists s. split; [done|]. split; [|done].
  destruct (H6 k s sid' r Hs Hh) as [_ Hu]. by rewrite <- (Hu sid Hc) in Hh.
Qed.

Lemma registry_entries_are_live_witness :
  0%nat ∈ sessions (after stale_close None)
  /\ exists members,
       clientSets (after stale_close None) !! 1%nat = Some members /\ NoDup members
       /\ forall k, k ∈ members ->
            exists s, sockets (after stale_close None) !! k = Some s
                      /\ handlers s = Some (0%nat, 1%nat) /\ readyState s <> CLOSED.
Proof.
  apply (registry_entries_are_live JSON_parse_demo None (after stale_close None)).
  - eapply reachable_after. vm_compute. reflexivity.
  - vm_compute. reflexivity.
Defined.

(** X10.  An item of the stream is always consumed.  While the session is in
    the store, [handleThreadEvent] returns normally whatever the event, the
    session stays in the store and the run stays in the loop; once the
    session is out of the store, the run is marked cancelled and leaves the
    loop, and neither the records, the store nor the sockets are touched. *)
Theorem stream_item_never_fails parse tid t ev m :
  tasks m !! tid = Some t -> pc t = AwaitNext ->
  exists m',
    step parse (StreamItem tid ev) m = Some m'
    /\ match sessions_get (run_session t) m with
       | Some _ =>
           fst (handleThreadEvent parse (run_session t) ev m) = Normal tt
           /\ m' = snd (handleThreadEvent parse (run_session t) ev m)
           /\ is_Some (sessions_get (run_session t) m')
           /\ tasks m' !! tid = Some t
       | None =>
           heap m' = heap m /\ sessions m' = sessions m /\ sockets m' = sockets m
           /\ tasks m' !! tid
              = Some (set_pc (AwaitIteratorReturn None) (set_cancelled true t))
       end.
Proof.
  intros Ht Hpc. simpl. rewrite Ht, Hpc. simpl. eexists. split; [reflexivity|].
  unfold stream_item, mbind, M_bind, bind, gets, sessions_has. cbn [fst snd].
  destruct (sessions_get (run_session t) m) as [s|] eqn:Hs; cbn [negb].
  - destruct (handleThreadEvent_alive parse (run_session t) ev m s Hs)
      as (u & s' & Hn & Hget & _).
    unfold attempt.
    pose proof (handleThreadEvent_admission parse (run_session t) ev m) as (Hta & _).
    destruct (handleThreadEvent parse (run_session t) ev m) as [c m1]. simpl in *.
    subst c. simpl. destruct u. split; [done|]. split; [done|].
    split; [by rewrite Hget|]. by rewrite Hta.
  - simpl. split; [done|]. split; [done|]. split; [done|].
    by rewrite !lookup_alter_eq, Ht.
Qed.

Lemma stream_item_never_fails_witness :
  exists m',
    step JSON_parse_demo (StreamItem 0%nat (turn_failed "boom"))
      (after [create; Resume 0%nat; Resume 0%nat; Resume 0%nat] None) = Some m'
    /\ is_Some (sessions_get 0 m')
    /\ (pc <$> tasks m' !! 0%nat) = Some AwaitNext.
Proof.
  destruct (stream_item_never_fails JSON_parse_demo 0%nat
              (default {| run_session := 0; isHint := false; hint := None; pc := Finished;
                          run_cancelled := false; thread := None |}
                 (tasks (after [create; Resume 0%nat; Resume 0%nat; Resume 0%nat] None)
                    !! 0%nat))
              (turn_failed "boom")
              (after [create; Resume 0%nat; Resume 0%nat; Resume 0%nat] None))
    as (m' & Hstep & Hcase).
  - vm_compute. reflexivity.
  - vm_compute. reflexivity.
  - exists m'. split; [exact Hstep|].
    destruct (sessions_get _ _) eqn:E in Hcase; [|vm_compute in E; discriminate].
    destruct Hcase as (_ & _ & Hlive & Ht). split; [exact Hlive|]. by rewrite Ht.
Defined.

(** ** Registered controllers *)

Lemma same_streams_refl m : same_streams m m.
Proof. by split; [|split]. Qed.

Lemma same_streams_trans a b c : same_streams a b -> same_streams b c -> same_streams a c.
Proof.
  intros (Ht & Hs & Hh) (Ht' & Hs' & Hh'). split; [|split].
  - intros tid. by rewrite Ht', Ht.
  - by rewrite Hs', Hs.
  - auto.
Qed.

Lemma streams_ok_same m m' : same_streams m m' -> streams_ok m -> streams_ok m'.
Proof.
  intros (Ht & Hs & Hh) [Ha Hb]. split.
  - intros sid tid Hst. rewrite Hs in Hst. destruct (Ha sid tid Hst) as (t & Htid & Hrs & Hp).
    specialize (Ht tid). rewrite Htid in Ht. destruct (tasks m' !! tid) as [t'|]; [|done].
    simpl in Ht. injection Ht as Hrs' Hpc'. exists t'. by rewrite Hrs', Hpc'.
  - intros tid t' Htid. specialize (Ht tid). rewrite Htid in Ht.
    destruct (tasks m !! tid) as [t|] eqn:E; [|done]. simpl in Ht. injection Ht as Hrs' _.
    rewrite Hrs'. apply Hh. by eapply Hb.
Qed.

#[local] Hint Resolve same_streams_refl same_streams_trans : pres.

Lemma same_streams_frame m m' :
  tasks m' = tasks m -> activeStreams m' = activeStreams m -> heap m' = heap m ->
  same_streams m m'.
Proof. intros Ht Hs Hh. split; [|split]; [by rewrite Ht|done|by rewrite Hh]. Qed.

#[local] Hint Extern 3 (preserves same_streams (modify _)) =>
  apply preserves_modify; intros; apply same_streams_frame; reflexivity : pres.

Lemma assign_same_streams sid f : preserves same_streams (assign sid f).
Proof.
  intros m. split; [done|]. split; [done|]. intros j Hj. simpl.
  destruct (decide (sid = j)) as [->|Hne].
  - rewrite lookup_alter_eq. destruct Hj as [s ->]. by eexists.
  - by rewrite lookup_alter_ne.
Qed.

Lemma broadcast_same_streams sid msg : preserves same_streams (broadcast sid msg).
Proof.
  intros m. destruct (broadcast_only_sockets sid msg m)
    as (Hh & _ & _ & Hs & _ & _ & _ & Ht & _).
  by apply same_streams_frame.
Qed.

Lemma randomUUID_same_streams : preserves same_streams randomUUID.
Proof. intros m. by apply same_streams_frame. Qed.

#[local] Hint Resolve assign_same_streams broadcast_same_streams randomUUID_same_streams
  : pres.

Lemma broadcastSnapshot_same_streams sid : preserves same_streams (broadcastSnapshot sid).
Proof. unfold broadcastSnapshot. pres. Qed.

Lemma publishEvent_same_streams sid lvl msg det :
  preserves same_streams (publishEvent sid lvl msg det).
Proof. unfold publishEvent, Date_now. pres. Qed.

Lemma updateStatus_same_streams sid st : preserves same_streams (updateStatus sid st).
Proof. unfold updateStatus, Date_now. pres. Qed.

Lemma updateSessionMetadata_same_streams sid f :
  preserves same_streams (updateSessionMetadata sid f).
Proof. unfold updateSessionMetadata, Date_now. pres. Qed.

#[local] Hint Resolve broadcastSnapshot_same_streams publishEvent_same_streams
  updateStatus_same_streams updateSessionMetadata_same_streams : pres.

Lemma handleThreadEvent_same_streams parse sid ev :
  preserves same_streams (handleThreadEvent parse sid ev).
Proof.
  unfold handleThreadEvent, handleItemEvent, handleAgentMessage, handleCommandExecution,
    handleMcpToolCall.
  destruct ev; pres.
Qed.

(** A write to a run that leaves it where it is. *)
Lemma alter_task_same_streams tid f :
  (forall t, run_session (f t) = run_session t /\ pc (f t) = pc t) ->
  preserves same_streams (alter_task tid f).
Proof.
  intros Hf m. split; [|by split]. intros j. simpl.
  destruct (decide (tid = j)) as [->|Hne].
  - rewrite lookup_alter_eq. destruct (tasks m !! j) as [t|]; [|done]. simpl.
    by destruct (Hf t) as [-> ->].
  - by rewrite lookup_alter_ne.
Qed.

#[local] Hint Extern 2 (preserves same_streams (alter_task _ _)) =>
  apply alter_task_same_streams; intros; split; reflexivity : pres.

Lemma start_run_same_streams tid t : preserves same_streams (start_run tid t).
Proof. unfold start_run. pres. Qed.

Lemma admitted_same_streams tid t : preserves same_streams (admitted tid t).
Proof. unfold admitted. pres. apply start_run_same_streams. Qed.

Lemma stream_catch_same_streams tid sid text :
  preserves same_streams (stream_catch tid sid text).
Proof. unfold stream_catch. pres. Qed.

Lemma removeSession_tail_same_streams sid : preserves same_streams (removeSession_tail sid).
Proof. unfold removeSession_tail, Date_now. pres. Qed.

Lemma registerClient_same_streams sid : preserves same_streams (registerClient sid).
Proof. unfold registerClient. pres. Qed.

Lemma on_close_same_streams k : preserves same_streams (on_close k).
Proof. unfold on_close. pres. Qed.

Lemma on_error_same_streams k : preserves same_streams (on_error k).
Proof. unfold on_error. pres. Qed.

(** A run moves: a registered run stays in its stream loop. *)
Lemma streams_ok_set_pc m tid p :
  streams_ok m ->
  (forall sid, activeStreams m !! sid = Some tid -> streaming p = true) ->
  streams_ok (snd (alter_task tid (set_pc p) m)).
Proof.
  intros [Ha Hb] Hp. split; simpl.
  - intros sid j Hst. destruct (Ha sid j Hst) as (t & Ht & Hrs & Hs).
    destruct (decide (tid = j)) as [->|Hne].
    + rewrite lookup_alter_eq, Ht. simpl. eexists. split; [done|]. split; [done|].
      simpl. by eapply Hp.
    + rewrite lookup_alter_ne by done. eauto.
  - intros j t' Hj. destruct (decide (tid = j)) as [->|Hne].
    + rewrite lookup_alter_eq in Hj. destruct (tasks m !! j) as [t|] eqn:E; [|done].
      injection Hj as <-. simpl. by eapply Hb.
    + rewrite lookup_alter_ne in Hj by done. by eapply Hb.
Qed.

(** No controller is registered for a run that is not in its stream loop. *)
Lemma streams_ok_unreferenced m tid t :
  streams_ok m -> tasks m !! tid = Some t -> streaming (pc t) = false ->
  forall sid, activeStreams m !! sid <> Some tid.
Proof.
  intros [Ha _] Ht Hs sid Hst. destruct (Ha sid tid Hst) as (t' & Ht' & _ & Hs').
  congruence.
Qed.

Lemma run_exit_unfold tid m :
  snd (run_exit tid m)
  = snd (alter_task tid (set_pc Finished)
           (match slotQueue m with
            | [] => set_activeAgentCount (Z.max 0 (activeAgentCount m - 1)) m
            | next :: rest =>
                snd (alter_task next (set_pc AwaitSlotWoken)
                       (set_slotQueue rest
                          (set_activeAgentCount (Z.max 0 (activeAgentCount m - 1)) m)))
            end)).
Proof.
  unfold run_exit, releaseAgentSlot, mbind, M_bind, bind, modify, gets, ret. simpl.
  by destruct (slotQueue m).
Qed.

(** The outer [finally] of a run for which no controller is registered. *)
Lemma run_exit_streams tid m :
  streams_ok m -> ledger m -> (forall sid, activeStreams m !! sid <> Some tid) ->
  streams_ok (snd (run_exit tid m)).
Proof.
  intros Hok K Hun. rewrite run_exit_unfold.
  set (m0 := set_activeAgentCount (Z.max 0 (activeAgentCount m - 1)) m).
  assert (H0 : streams_ok m0) by (by eapply streams_ok_same; [apply same_streams_frame|]).
  destruct (slotQueue m) as [|next rest] eqn:Eq.
  - apply streams_ok_set_pc; [done|]. intros sid Hst. by destruct (Hun sid).
  - apply streams_ok_set_pc.
    + apply streams_ok_set_pc.
      * by eapply streams_ok_same; [apply same_streams_frame|].
      * intros sid Hst. simpl in Hst.
        destruct K as (_ & _ & K3 & _). rewrite Eq in K3.
        specialize (K3 next (list_elem_of_here _ _)). unfold pcs in K3.
        rewrite lookup_fmap in K3. destruct (tasks m !! next) as [tn|] eqn:En; [|done].
        injection K3 as Hpc.
        destruct (streams_ok_unreferenced m next tn Hok En ltac:(by rewrite Hpc) sid Hst).
    + intros sid Hst. simpl in Hst. by destruct (Hun sid).
Qed.

(** A stretch of the outer [try] block of a run that is not in its stream
    loop, and does not enter it. *)
Lemma outer_try_streams tid body m t :
  streams_ok m -> ledger m -> tasks m !! tid = Some t -> streaming (pc t) = false ->
  preserves same_streams body -> preserves same_permits body ->
  streams_ok (snd (outer_try tid body m)).
Proof.
  intros Hok K Ht Hs Hb Hp. unfold outer_try, mbind, M_bind, bind, attempt.
  specialize (Hb m). specialize (Hp m). destruct (body m) as [r m1]. simpl in *.
  pose proof (streams_ok_same _ _ Hb Hok) as H1.
  pose proof (ledger_same_permits _ _ Hp K) as K1.
  assert (Hun : forall sid, activeStreams m1 !! sid <> Some tid).
  { destruct Hb as (Hkey & Hst & _). rewrite Hst.
    by apply (streams_ok_unreferenced m tid t). }
  destruct r as [[p|]|e].
  - apply streams_ok_set_pc; [done|]. intros sid Hst. by destruct (Hun sid).
  - by apply run_exit_streams.
  - pose proof (run_exit_streams tid m1 H1 K1 Hun) as H2.
    destruct (run_exit tid m1) as [[u|e'] m2]; exact H2.
Qed.

Lemma stream_finally_unfold tid sid m :
  stream_finally tid sid m
  = settle tid sid (set_activeStreams (delete sid (activeStreams m)) m).
Proof. reflexivity. Qed.

Lemma settle_same_streams tid sid : preserves same_streams (settle tid sid).
Proof. unfold settle. pres. Qed.

Lemma settle_permits tid sid : preserves same_permits (settle tid sid).
Proof.
  unfold settle. eauto with pres.
  repeat (pres_step; eauto using same_permits_refl, same_permits_trans,
            updateStatus_permits, broadcastSnapshot_permits with pres).
Qed.

(** Leaving the stream loop. *)
Lemma leave_stream_streams tid body m t :
  streams_ok m -> ledger m -> tasks m !! tid = Some t ->
  preserves same_streams body -> preserves same_permits body ->
  streams_ok (snd (leave_stream tid (run_session t) body m)).
Proof.
  intros Hok K Ht Hb Hp. unfold leave_stream, try_finally.
  specialize (Hb m). specialize (Hp m). destruct (body m) as [r m1]. simpl in *.
  pose proof (streams_ok_same _ _ Hb Hok) as H1.
  pose proof (ledger_same_permits _ _ Hp K) as K1.
  rewrite stream_finally_unfold.
  set (m2 := set_activeStreams (delete (run_session t) (activeStreams m1)) m1).
  assert (H2 : streams_ok m2).
  { destruct H1 as [Ha Hb1]. split; [|exact Hb1]. intros sid j Hst. simpl in Hst.
    apply lookup_delete_Some in Hst as [_ Hst]. eauto. }
  assert (K2 : ledger m2) by (eapply ledger_same_permits; [|exact K1]; by repeat split).
  assert (Hun2 : forall sid, activeStreams m2 !! sid <> Some tid).
  { intros sid Hst. simpl in Hst. apply lookup_delete_Some in Hst as [Hne Hst].
    destruct H1 as [Ha _]. destruct (Ha sid tid Hst) as (t1 & Ht1 & Hrs & _).
    destruct Hb as (Hkey & _). specialize (Hkey tid). rewrite Ht, Ht1 in Hkey.
    simpl in Hkey. congruence. }
  pose proof (settle_same_streams tid (run_session t) m2) as Hs3.
  pose proof (settle_permits tid (run_session t) m2) as Hp3.
  destruct (settle tid (run_session t) m2) as [rf m3]. simpl in *.
  pose proof (streams_ok_same _ _ Hs3 H2) as H3.
  pose proof (ledger_same_permits _ _ Hp3 K2) as K3.
  assert (Hun3 : forall sid, activeStreams m3 !! sid <> Some tid).
  { destruct Hs3 as (_ & -> & _). exact Hun2. }
  pose proof (run_exit_streams tid m3 H3 K3 Hun3) as H4.
  destruct rf as [u|e]; simpl; destruct (run_exit tid m3) as [[u'|e'] m4]; exact H4.
Qed.

Lemma resumeRun_streams tid t m :
  streams_ok m -> ledger m -> tasks m !! tid = Some t -> resumable (pc t) = true ->
  streams_ok (snd (resumeRun tid t m)).
Proof.
  intros Hok K Ht Hr. unfold resumeRun. destruct (pc t) eqn:Hpc; try discriminate.
  - unfold acquireAgentSlot_resumed, mbind, M_bind, bind, modify, ret. cbn [fst snd].
    apply streams_ok_set_pc.
    + by eapply streams_ok_same; [apply same_streams_frame|].
    + intros sid Hst. simpl in Hst.
      destruct (streams_ok_unreferenced m tid t Hok Ht ltac:(by rewrite Hpc) sid Hst).
  - eapply outer_try_streams; eauto using admitted_same_streams, admitted_permits.
    by rewrite Hpc.
  - eapply outer_try_streams; eauto using start_run_same_streams, start_run_permits.
    by rewrite Hpc.
  - unfold outer_try, open_stream, mbind, M_bind, bind, attempt, modify, ret.
    cbn [fst snd].
    assert (Hun : forall sid, activeStreams m !! sid <> Some tid)
      by (apply (streams_ok_unreferenced m tid t Hok Ht); by rewrite Hpc).
    destruct Hok as [Ha Hb]. split; simpl.
    + intros sid j Hst. destruct (decide (run_session t = sid)) as [<-|Hne].
      * rewrite lookup_insert_eq in Hst. injection Hst as <-.
        rewrite lookup_alter_eq, Ht. simpl. eauto.
      * rewrite lookup_insert_ne in Hst by done.
        assert (tid <> j) by (intros ->; by destruct (Hun sid)).
        rewrite lookup_alter_ne by done. eauto.
    + intros j t' Hj. destruct (decide (tid = j)) as [->|Hne].
      * rewrite lookup_alter_eq, Ht in Hj. injection Hj as <-. simpl. by eapply Hb.
      * rewrite lookup_alter_ne in Hj by done. by eapply Hb.
  - eapply leave_stream_streams; eauto.
    + destruct thrown; [apply stream_catch_same_streams|apply preserves_ret; auto with pres].
    + destruct thrown; [apply stream_catch_permits|
                        apply preserves_ret, same_permits_refl].
Qed.

Lemma stream_item_streams parse tid t ev m :
  streams_ok m -> tasks m !! tid = Some t -> pc t = AwaitNext ->
  streams_ok (snd (stream_item parse tid t ev m)).
Proof.
  intros Hok Ht Hpc. unfold stream_item, mbind, M_bind, bind, gets. cbn [fst snd].
  destruct (sessions_has (run_session t) m); cbn [negb].
  - unfold attempt.
    pose proof (handleThreadEvent_same_streams parse (run_session t) ev m) as Hs.
    destruct (handleThreadEvent parse (run_session t) ev m) as [[u|e] m1]; simpl in *.
    + by eapply streams_ok_same.
    + apply streams_ok_set_pc; [by eapply streams_ok_same|done].
  - change (streams_ok (snd (alter_task tid (set_pc (AwaitIteratorReturn None))
                               (snd (alter_task tid (set_cancelled true) m))))).
    apply streams_ok_set_pc; [|done].
    eapply streams_ok_same; [|exact Hok].
    apply alter_task_same_streams. by intros.
Qed.

Lemma runAgentSession_streams sid is_hint hint_text m :
  streams_ok m -> ledger m -> streams_ok (snd (runAgentSession sid is_hint hint_text m)).
Proof.
  intros Hok K. unfold runAgentSession, mbind, M_bind.
  unfold bind at 1. unfold gets at 1. cbn [fst snd].
  destruct (activeStreams m !! sid); [done|].
  unfold bind at 1. unfold gets at 1. cbn [fst snd].
  destruct (sessions_get sid m) as [s|] eqn:Hs; [|done].
  destruct (is_hint && negb (thread_established s)); [done|].
  unfold bind at 1. unfold gets at 1. cbn [fst snd].
  unfold bind at 1. unfold gets at 1. cbn [fst snd].
  unfold bind at 1.
  set (queued :=
    if maxConcurrentAgents m <=? activeAgentCount m
    then bind (publishEvent sid info "Agent run queued awaiting available execution slot."
                 (Some [("maxConcurrentAgents", JNum (maxConcurrentAgents m))]))
              (fun _ => ret tt)
    else ret tt).
  assert (Hq : preserves same_streams queued) by (unfold queued; pres).
  assert (Hp : preserves same_permits queued).
  { unfold queued. destruct (_ <=? _); [|apply preserves_ret, same_permits_refl].
    apply preserves_bind; [apply same_permits_trans|apply publishEvent_permits|].
    intros. apply preserves_ret, same_permits_refl. }
  specialize (Hq m). specialize (Hp m).
  destruct (queued m) as [[u|e] m1]; simpl in Hq, Hp;
    pose proof (streams_ok_same _ _ Hq Hok) as H1; [|exact H1].
  pose proof (ledger_same_permits _ _ Hp K) as K1.
  assert (Hnew : tasks m1 !! nextTask m1 = None).
  { destruct (tasks m1 !! nextTask m1) as [t0|] eqn:E; [|done].
    destruct K1 as (K11 & _).
    assert (nextTask m1 < nextTask m1)%nat; [|lia].
    apply (K11 (nextTask m1) (pc t0)). unfold pcs. by rewrite lookup_fmap, E. }
  assert (Hheap : is_Some (heap m1 !! sid)).
  { destruct Hq as (_ & _ & Hh). apply Hh. apply sessions_get_Some in Hs as [_ ->]. eauto. }
  unfold bind, gets, modify, acquireAgentSlot, mbind, M_bind, bind, gets, modify, ret.
  simpl. destruct H1 as [Ha Hb].
  destruct (activeAgentCount m1 <? maxConcurrentAgents m1); simpl; split; simpl.
  all: try (intros sid0 j Hst; destruct (Ha sid0 j Hst) as (t0 & Ht0 & ?);
            exists t0; rewrite lookup_insert_ne; [done|congruence]).
  all: intros j t' Hj; destruct (decide (nextTask m1 = j)) as [<-|Hne];
    [rewrite lookup_insert_eq in Hj; injection Hj as <-; exact Hheap
    |rewrite lookup_insert_ne in Hj by done; by eapply Hb].
Qed.

Lemma keeps_runs_refl m : keeps_runs m m.
Proof. by intros K. Qed.

Lemma keeps_runs_trans a b c : keeps_runs a b -> keeps_runs b c -> keeps_runs a c.
Proof. unfold keeps_runs. auto. Qed.

Lemma same_keeps_runs {A} (c : M A) :
  preserves same_streams c -> preserves same_permits c -> preserves keeps_runs c.
Proof.
  intros Hs Hp m [K Hok]. split.
  - by eapply ledger_same_permits.
  - by eapply streams_ok_same.
Qed.

Lemma runAgentSession_keeps_runs sid is_hint hint_text :
  preserves keeps_runs (runAgentSession sid is_hint hint_text).
Proof.
  intros m [K Hok]. split;
    [by apply runAgentSession_ledger|by apply runAgentSession_streams].
Qed.

#[local] Hint Resolve keeps_runs_refl keeps_runs_trans runAgentSession_keeps_runs : pres.
#[local] Hint Extern 2 (preserves keeps_runs (publishEvent _ _ _ _)) =>
  apply same_keeps_runs;
    [apply publishEvent_same_streams|apply publishEvent_permits] : pres.
#[local] Hint Extern 2 (preserves keeps_runs (updateStatus _ _)) =>
  apply same_keeps_runs;
    [apply updateStatus_same_streams|apply updateStatus_permits] : pres.
#[local] Hint Extern 2 (preserves keeps_runs (updateSessionMetadata _ _)) =>
  apply same_keeps_runs;
    [apply updateSessionMetadata_same_streams|apply updateSessionMetadata_permits]
  : pres.
#[local] Hint Extern 2 (preserves keeps_runs (broadcastSnapshot _)) =>
  apply same_keeps_runs;
    [apply broadcastSnapshot_same_streams|apply broadcastSnapshot_permits] : pres.

Lemma announce_keeps_runs uuid workspace artifact :
  preserves keeps_runs (announce uuid workspace artifact).
Proof. unfold announce. pres. Qed.

Lemma allocate_same_streams pb workspace artifact m :
  same_streams m (allocate pb workspace artifact m).
Proof.
  split; [done|]. split; [done|]. intros sid Hsid. simpl.
  destruct (decide (nextUuid m = sid)) as [->|Hne].
  - rewrite lookup_insert_eq. by eexists.
  - by rewrite lookup_insert_ne.
Qed.

Lemma createSession_runs pb workspace artifact m :
  runs_ok m -> runs_ok (snd (createSession pb workspace artifact m)).
Proof.
  intros [K Hok]. rewrite createSession_unfold. apply announce_keeps_runs. split.
  - eapply ledger_same_permits; [|exact K]. by repeat split.
  - eapply streams_ok_same; [apply allocate_same_streams|exact Hok].
Qed.

Lemma submitHint_keeps_runs sid hint_text :
  preserves keeps_runs (submitHint sid hint_text).
Proof. unfold submitHint. pres. Qed.

Lemma removeSession_same_streams sid : preserves same_streams (removeSession sid).
Proof. unfold removeSession. pres. apply removeSession_tail_same_streams. Qed.

Lemma removeSession_resumed_streams rid sid m :
  streams_ok m -> streams_ok (snd (removeSession_resumed rid sid m)).
Proof.
  intros Hok. unfold removeSession_resumed, mbind, M_bind, bind, modify. cbn [fst snd].
  eapply streams_ok_same; [apply removeSession_tail_same_streams|].
  destruct Hok as [Ha Hb]. split; [|exact Hb]. intros j tid Hst. simpl in Hst.
  apply lookup_delete_Some in Hst as [_ Hst]. eauto.
Qed.

(** Every step keeps the ledger and the controllers in order. *)
Lemma step_runs parse l m m' : step parse l m = Some m' -> runs_ok m -> runs_ok m'.
Proof.
  intros Hstep HK. split; [by eapply step_ledger; [exact Hstep|apply HK]|].
  destruct HK as [K Hok]. destruct l; simpl in Hstep.
  - injection Hstep as <-. by apply createSession_runs.
  - injection Hstep as <-. by apply submitHint_keeps_runs.
  - injection Hstep as <-. eapply streams_ok_same; [apply removeSession_same_streams|done].
  - destruct (removals m !! rid); [|discriminate]. injection Hstep as <-.
    by apply removeSession_resumed_streams.
  - injection Hstep as <-. eapply streams_ok_same; [apply registerClient_same_streams|done].
  - destruct (tasks m !! tid) as [t|] eqn:Ht; [|discriminate].
    destruct (resumable (pc t)) eqn:Hr; [|discriminate]. injection Hstep as <-.
    by apply resumeRun_streams.
  - destruct (tasks m !! tid) as [t|] eqn:Ht; [|discriminate].
    destruct (pc t) eqn:Hpc; try discriminate. injection Hstep as <-.
    eapply (outer_try_streams tid _ m t); auto.
    + by rewrite Hpc.
    + apply preserves_throw, same_streams_refl.
    + apply preserves_throw, same_permits_refl.
  - destruct (tasks m !! tid) as [t|] eqn:Ht; [|discriminate].
    destruct (pc t) eqn:Hpc; try discriminate. injection Hstep as <-.
    by apply stream_item_streams.
  - destruct (tasks m !! tid) as [t|] eqn:Ht; [|discriminate].
    destruct (pc t) eqn:Hpc; try discriminate. injection Hstep as <-.
    apply leave_stream_streams; auto.
    + apply preserves_ret, same_streams_refl.
    + apply preserves_ret, same_permits_refl.
  - destruct (tasks m !! tid) as [t|] eqn:Ht; [|discriminate].
    destruct (pc t) eqn:Hpc; try discriminate. injection Hstep as <-.
    apply leave_stream_streams; auto.
    + apply stream_catch_same_streams.
    + apply stream_catch_permits.
  - destruct (sockets m !! k) as [s|]; [|discriminate].
    destruct (readyState s); try discriminate; injection Hstep as <-;
      (eapply streams_ok_same; [|exact Hok]); by apply same_streams_frame.
  - destruct (sockets m !! k) as [s|]; [|discriminate].
    destruct (readyState s); try discriminate; injection Hstep as <-;
      (eapply streams_ok_same; [apply on_close_same_streams|done]).
  - destruct (sockets m !! k) as [s|]; [|discriminate].
    destruct (readyState s); try discriminate; injection Hstep as <-;
      (eapply streams_ok_same; [apply on_error_same_streams|done]).
  - destruct (0 <=? dt); [|discriminate]. injection Hstep as <-.
    eapply streams_ok_same; [|exact Hok]. by apply same_streams_frame.
Qed.

Lemma newManager_streams env : streams_ok (newManager env).
Proof. split; intros ? ? H; simpl in H; by rewrite lookup_empty in H. Qed.

Lemma reachable_runs parse env m : reachable parse env m -> runs_ok m.
Proof.
  induction 1 as [|l m m' _ IH Hstep].
  - split; [apply newManager_ledger|apply newManager_streams].
  - by eapply step_runs.
Qed.

Lemma time_stamps_are_consistent_witness :
  exists s, heap (after streaming_later None) !! 0%nat = Some s
    /\ session_id s = 0%nat
    /\ createdAt s <= updatedAt s <= clock (after streaming_later None)
    /\ chronological s.
Proof.
  exists (default created_session (heap (after streaming_later None) !! 0%nat)).
  split; [vm_compute; reflexivity|].
  apply (time_stamps_are_consistent JSON_parse_demo None (after streaming_later None)).
  - eapply reachable_after. vm_compute. reflexivity.
  - vm_compute. reflexivity.
Defined.

Lemma updatedAt_never_decreases_witness :
  clock (after [create] None) <= clock (after streaming_later None)
  /\ exists s', heap (after streaming_later None) !! 0%nat = Some s'
       /\ updatedAt created_session <= updatedAt s'.
Proof.
  apply (updatedAt_never_decreases JSON_parse_demo None
           [Tick 5; Resume 0%nat; Resume 0%nat; Tick 2; Resume 0%nat]
           (after [create] None) (after streaming_later None) 0%nat created_session).
  - eapply reachable_after. vm_compute. reflexivity.
  - vm_compute. reflexivity.
  - vm_compute. reflexivity.
Defined.

(** X11.  In every reachable state a controller registered in [activeStreams]
    for a session belongs to a run of that session that is inside its stream
    loop; the session was created, and the run holds a permit, so that
    [activeAgentCount] is at least 1. *)
Theorem registered_controller_is_streaming parse env m sid tid :
  reachable parse env m -> activeStreams m !! sid = Some tid ->
  exists t, tasks m !! tid = Some t /\ run_session t = sid
    /\ streaming (pc t) = true /\ is_Some (heap m !! sid)
    /\ 1 <= activeAgentCount m.
Proof.
  intros Hr Hst. destruct (reachable_runs _ _ _ Hr) as [K [Ha Hb]].
  destruct (Ha _ _ Hst) as (t & Ht & Hrs & Hs). exists t.
  split; [done|]. split; [done|]. split; [done|]. split.
  - rewrite <- Hrs. by eapply Hb.
  - eapply (ledger_on_count_pos _ _ _ _ tid (pc t) K); [by apply pcs_lookup|].
    by destruct (pc t).
Qed.

Lemma registered_controller_is_streaming_witness :
  exists t, tasks (after streaming_later None) !! 0%nat = Some t /\ run_session t = 0%nat
    /\ streaming (pc t) = true /\ is_Some (heap (after streaming_later None) !! 0%nat)
    /\ 1 <= activeAgentCount (after streaming_later None).
Proof.
  apply (registered_controller_is_streaming JSON_parse_demo None
           (after streaming_later None) 0%nat 0%nat).
  - eapply reachable_after. vm_compute. reflexivity.
  - vm_compute. reflexivity.
Defined.

(** ** New runs *)

Lemma runAgentSession_starts sid is_hint hint_text m s :
  sessions_get sid m = Some s -> activeStreams m !! sid = None ->
  (is_hint = true -> thread_established s = true) ->
  exists m' s',
    runAgentSession sid is_hint hint_text m = (Normal tt, m')
    /\ sessions_get sid m' = Some s'
    /\ nextTask m' = S (nextTask m)
    /\ activeStreams m' = activeStreams m
    /\ exists p,
         tasks m' !! nextTask m = Some (new_run sid is_hint hint_text p)
         /\ admission_of m m' sid s s' (new_run sid is_hint hint_text p).
Proof.
  intros Hs Ha Hth. unfold runAgentSession, mbind, M_bind.
  rewrite (bind_normal _ _ m None m) by (unfold gets; by rewrite Ha). cbv beta iota.
  rewrite (bind_normal _ _ m (Some s) m) by (unfold gets; by rewrite Hs). cbv beta iota.
  assert (is_hint && negb (thread_established s) = false) as ->.
  { destruct is_hint; [|done]. by rewrite Hth. }
  rewrite (bind_normal _ _ m (activeAgentCount m) m) by reflexivity. cbv beta.
  rewrite (bind_normal _ _ m (maxConcurrentAgents m) m) by reflexivity. cbv beta.
  unfold admission_of.
  destruct (maxConcurrentAgents m <=? activeAgentCount m) eqn:Hq.
  - assert ((activeAgentCount m <? maxConcurrentAgents m) = false) as Hlt by lia.
    rewrite Hlt.
    pose proof (publishEvent_live sid info
                  "Agent run queued awaiting available execution slot."
                  (Some [("maxConcurrentAgents", JNum (maxConcurrentAgents m))]) m s Hs) as E.
    pose proof (sessions_get_publishEvent sid info
                  "Agent run queued awaiting available execution slot."
                  (Some [("maxConcurrentAgents", JNum (maxConcurrentAgents m))]) m s Hs) as G.
    pose proof (publishEvent_admission sid info
                  "Agent run queued awaiting available execution slot."
                  (Some [("maxConcurrentAgents", JNum (maxConcurrentAgents m))]) m)
      as (At & Ac & Aq & An & Ak).
    rewrite E in G, At, Ac, Aq, An, Ak. cbn [snd] in G, At, Ac, Aq, An, Ak.
    rewrite (bind_normal _ _ _ _ _ (bind_normal _ _ _ _ _ E)).
    set (m1 := snd (broadcast sid _ _)) in *.
    assert (Hst : activeStreams m1 = activeStreams m).
    { unfold m1. by destruct (broadcast_only_sockets sid
        (MsgEvent (new_event m info "Agent run queued awaiting available execution slot."
                     (Some [("maxConcurrentAgents", JNum (maxConcurrentAgents m))])))
        (snd (assign sid (push_event (new_event m info
                "Agent run queued awaiting available execution slot."
                (Some [("maxConcurrentAgents", JNum (maxConcurrentAgents m))])))
           (set_nextUuid (S (nextUuid m)) m)))) as (_ & _ & _ & -> & _). }
    clearbody m1.
    unfold bind, gets, modify, acquireAgentSlot, mbind, M_bind, bind, gets, modify, ret.
    simpl. rewrite Ac, Ak, Hlt. simpl.
    eexists _, _. split; [reflexivity|]. simpl.
    split; [exact G|]. split; [by rewrite An|]. split; [done|].
    exists AwaitSlotQueued. rewrite An, lookup_insert_eq. split; [done|].
    split; [by eexists|]. split; [done|]. by rewrite Ac, Aq.
  - assert ((activeAgentCount m <? maxConcurrentAgents m) = true) as Hlt by lia.
    rewrite Hlt.
    unfold bind, gets, modify, acquireAgentSlot, mbind, M_bind, bind, gets, modify, ret.
    simpl. rewrite Hlt. simpl.
    eexists _, _. split; [reflexivity|]. simpl.
    split; [exact Hs|]. split; [done|]. split; [done|].
    exists AwaitSlotGranted. rewrite lookup_insert_eq. done.
Qed.

Lemma activeStreams_publishEvent sid lvl msg det m :
  activeStreams (snd (publishEvent sid lvl msg det m)) = activeStreams m.
Proof.
  destruct (sessions_get sid m) as [s|] eqn:H.
  - rewrite (publishEvent_live _ _ _ _ _ _ H). cbn [snd].
    by destruct (broadcast_only_sockets sid (MsgEvent (new_event m lvl msg det))
      (snd (assign sid (push_event (new_event m lvl msg det))
              (set_nextUuid (S (nextUuid m)) m)))) as (_ & _ & _ & -> & _).
  - by rewrite (publishEvent_dead _ _ _ _ _ H).
Qed.

Lemma activeStreams_updateStatus sid st m :
  activeStreams (snd (updateStatus sid st m)) = activeStreams m.
Proof.
  destruct (sessions_get sid m) as [s|] eqn:H.
  - rewrite (updateStatus_live _ _ _ _ H). cbn [snd].
    by destruct (broadcast_only_sockets sid (MsgStatus st (clock m))
      (snd (assign sid (fun s0 => set_updatedAt (clock m) (set_status st s0)) m)))
      as (_ & _ & _ & -> & _).
  - by rewrite (updateStatus_dead _ _ _ H).
Qed.

Lemma activeStreams_updateSessionMetadata sid f m :
  activeStreams (snd (updateSessionMetadata sid f m)) = activeStreams m.
Proof.
  destruct (sessions_get sid m) as [s|] eqn:H.
  - by rewrite (updateSessionMetadata_live _ _ _ _ H).
  - by rewrite (updateSessionMetadata_dead _ _ _ H).
Qed.

(** X12.  An accepted hint.  When the session is in the store, has a thread
    and no registered controller, [submitHint] returns normally; it appends
    the task event "Operator hint received." with the trimmed hint cut to 400
    characters, sets the status to [pending] and the result to [null], keeps
    [threadId] and [error], and starts a hint run with the trimmed hint, which
    is granted a permit at once or queued, with the event that says so,
    according to the counter. *)
Theorem submitHint_accepted sid hint_text m s :
  sessions_get sid m = Some s -> thread_established s = true ->
  activeStreams m !! sid = None ->
  exists m' s0 s' ev p,
    submitHint sid hint_text m = (Normal tt, m')
    /\ level ev = task /\ message ev = "Operator hint received."
    /\ details ev = Some [("hint", JStr (truncate (trim hint_text) 400))]
    /\ status s0 = pending /\ result s0 = None /\ threadId s0 = threadId s
    /\ error s0 = error s /\ events s0 = events s ++ [ev]
    /\ sessions_get sid m' = Some s'
    /\ tasks m' !! nextTask m = Some (new_run sid true (Some (trim hint_text)) p)
    /\ nextTask m' = S (nextTask m)
    /\ admission_of m m' sid s0 s' (new_run sid true (Some (trim hint_text)) p).
Proof.
  intros Hs Hth Ha. unfold submitHint, mbind, M_bind.
  rewrite (bind_normal _ _ m (Some s) m) by (unfold gets; by rewrite Hs).
  cbv beta iota. rewrite Hth. cbn [negb].
  rewrite (bind_normal _ _ m None m) by (unfold gets; by rewrite Ha).
  cbv beta iota zeta.
  set (det := Some [("hint", JStr (truncate (trim hint_text) 400))]).
  pose proof (publishEvent_live sid task "Operator hint received." det m s Hs) as E1.
  pose proof (sessions_get_publishEvent sid task "Operator hint received." det m s Hs) as G1.
  pose proof (publishEvent_admission sid task "Operator hint received." det m) as A1.
  pose proof (activeStreams_publishEvent sid task "Operator hint received." det m) as S1.
  rewrite E1 in G1, A1, S1. cbn [snd] in G1, A1, S1.
  rewrite (bind_normal _ _ _ _ _ E1). cbv beta.
  set (ev := new_event m task "Operator hint received." det) in *.
  set (m1 := snd (broadcast sid (MsgEvent ev) _)) in *. clearbody m1.
  pose proof (updateStatus_live sid pending m1 _ G1) as E2.
  pose proof (sessions_get_updateStatus sid pending m1 _ G1) as G2.
  pose proof (updateStatus_admission sid pending m1) as A2.
  pose proof (activeStreams_updateStatus sid pending m1) as S2.
  rewrite E2 in G2, A2, S2. cbn [snd] in G2, A2, S2.
  rewrite (bind_normal _ _ _ _ _ E2). cbv beta.
  set (m2 := snd (broadcast sid (MsgStatus pending (clock m1)) _)) in *. clearbody m2.
  pose proof (updateSessionMetadata_live sid (set_result None) m2 _ G2) as E3.
  pose proof (sessions_get_updateSessionMetadata sid (set_result None) m2 _ G2) as G3.
  pose proof (updateSessionMetadata_admission sid (set_result None) m2) as A3.
  pose proof (activeStreams_updateSessionMetadata sid (set_result None) m2) as S3.
  rewrite E3 in G3, A3, S3. cbn [snd] in G3, A3, S3.
  rewrite (bind_normal _ _ _ _ _ E3). cbv beta.
  set (m3 := snd (assign sid _ m2)) in *. clearbody m3.
  set (s3 := set_updatedAt (clock m2)
               (set_result None (set_updatedAt (clock m1) (set_status pending (push_event ev s)))))
    in *.
  destruct (runAgentSession_starts sid true (Some (trim hint_text)) m3 s3 G3)
    as (m' & s' & E4 & G4 & N4 & _ & p & T4 & Adm).
  { rewrite S3, S2, S1. exact Ha. }
  { intros _. exact Hth. }
  destruct A1 as (T1 & C1 & Q1 & N1 & K1), A2 as (T2 & C2 & Q2 & N2 & K2),
    A3 as (T3 & C3 & Q3 & N3 & K3).
  assert (Hn : nextTask m3 = nextTask m) by congruence.
  assert (Hc : activeAgentCount m3 = activeAgentCount m) by congruence.
  assert (Hq : slotQueue m3 = slotQueue m) by congruence.
  assert (Hk : maxConcurrentAgents m3 = maxConcurrentAgents m) by congruence.
  exists m', s3, s', ev, p. unfold void. rewrite E4. cbn [snd].
  split; [done|]. split; [done|]. split; [done|]. split; [done|].
  split; [done|]. split; [done|]. split; [done|]. split; [done|]. split; [done|].
  split; [done|]. rewrite <- Hn. split; [done|]. split; [done|].
  unfold admission_of in *. by rewrite <- Hc, <- Hq, <- Hk, <- Hn.
Qed.

Lemma submitHint_accepted_witness :
  exists m' s',
    submitHint 0 "  look at the tcache " (after first_run_done None) = (Normal tt, m')
    /\ sessions_get 0 m' = Some s' /\ status s' = pending
    /\ (hint <$> tasks m' !! 1%nat) = Some (Some "look at the tcache").
Proof.
  destruct (submitHint_accepted 0 "  look at the tcache " (after first_run_done None)
              (default created_session (sessions_get 0 (after first_run_done None))))
    as (m' & s0 & s' & ev & p & E & _ & _ & _ & Hst & _ & _ & _ & _ & G & T & _ & Adm).
  - vm_compute. reflexivity.
  - vm_compute. reflexivity.
  - vm_compute. reflexivity.
  - exists m', s'. split; [exact E|]. split; [exact G|].
    assert (Hn : nextTask (after first_run_done None) = 1%nat)
      by (vm_compute; reflexivity).
    rewrite Hn in T. rewrite T.
    split; [|vm_compute; reflexivity].
    unfold admission_of in Adm.
    assert (Hfree : (activeAgentCount (after first_run_done None)
                     <? maxConcurrentAgents (after first_run_done None)) = true)
      by (vm_compute; reflexivity).
    rewrite Hfree in Adm. destruct Adm as (-> & _). exact Hst.
Defined.




(** ** Hints, [truncate] and [registerClient] *)

Lemma trim_end_idem s : trim_end (trim_end s) = trim_end s.
Proof.
  induction s as [|c s IH]; [done|]. simpl.
  destruct (trim_end s) as [|d t] eqn:E.
  - destruct (is_space c) eqn:Hc; [done|]. simpl. by rewrite Hc.
  - change (trim_end (String c (String d t))) with
      (match trim_end (String d t) with
       | EmptyString => if is_space c then EmptyString else String c EmptyString
       | t' => String c t'
       end).
    by rewrite IH.
Qed.

Lemma trim_start_head s :
  match trim_start s with String c _ => is_space c = false | EmptyString => True end.
Proof.
  induction s as [|c s IH]; [done|]. simpl. destruct (is_space c) eqn:Hc; [done|].
  exact Hc.
Qed.

Lemma trim_end_head c s :
  is_space c = false -> exists t, trim_end (String c s) = String c t.
Proof. intros Hc. simpl. destruct (trim_end s); rewrite ?Hc; eauto. Qed.

Lemma trim_idem s : trim (trim s) = trim s.
Proof.
  unfold trim. pose proof (trim_start_head s) as H.
  destruct (trim_start s) as [|c t]; [done|].
  destruct (trim_end_head c t H) as [t' E]. rewrite E.
  change (trim_start (String c t')) with (if is_space c then trim_start t' else String c t').
  rewrite H, <- E. apply trim_end_idem.
Qed.

(** X14.  White space around a hint makes no difference: [submitHint] does
    with [hint] exactly what it does with [hint.trim()]. *)
Theorem submitHint_trims sid hint_text m :
  submitHint sid (trim hint_text) m = submitHint sid hint_text m.
Proof. unfold submitHint. by rewrite trim_idem. Qed.

Lemma length_substring_0 m : forall s,
  (m <= String.length s)%nat -> String.length (substring 0 m s) = m.
Proof.
  induction m as [|m IH]; intros s H.
  - by destruct s.
  - destruct s as [|c s]; simpl in *; [lia|]. rewrite IH; lia.
Qed.

Lemma substring_0_app m : forall s t,
  String.length s = m -> substring 0 m (s ++ t) = s.
Proof.
  induction m as [|m IH]; intros s t H.
  - destruct s; [|discriminate]. by destruct t.
  - destruct s as [|c s]; [discriminate|]. simpl in *. rewrite IH; [done|lia].
Qed.

Lemma string_length_app (s t : string) :
  String.length (s ++ t) = (String.length s + String.length t)%nat.
Proof. induction s as [|c s IH]; simpl; [done|by rewrite IH]. Qed.

(** X15.  [truncate(value, length)] returns a value of at most [length]
    characters unchanged; a longer one is cut to its first [length]
    characters, followed by the ellipsis.  In both cases the first [length]
    characters are kept, and truncating twice is truncating once. *)
Theorem truncate_cuts value length :
  ((String.length value <= length)%nat -> truncate value length = value)
  /\ ((length < String.length value)%nat ->
        truncate value length = (substring 0 length value ++ ellipsis)%string
        /\ String.length (truncate value length)
           = (length + String.length ellipsis)%nat)
  /\ substring 0 length (truncate value length) = substring 0 length value
  /\ truncate (truncate value length) length = truncate value length.
Proof.
  unfold truncate. destruct (String.length value <=? length)%nat eqn:E.
  - apply Nat.leb_le in E. split; [done|]. split; [lia|]. split; [done|].
    apply Nat.leb_le in E. by rewrite E.
  - apply Nat.leb_gt in E. split; [lia|].
    assert (Hl : String.length (substring 0 length value) = length)
      by (apply length_substring_0; lia).
    split; [intros _; split; [done|by rewrite string_length_app, Hl]|].
    split; [by rewrite substring_0_app|].
    rewrite string_length_app, Hl.
    assert ((length + String.length ellipsis <=? length)%nat = false) as ->
      by (apply Nat.leb_gt; simpl; lia).
    by rewrite substring_0_app.
Qed.

Lemma elem_of_set_add_2 k x l : x = k \/ x ∈ l -> x ∈ set_add k l.
Proof.
  unfold set_add. destruct (existsb (Nat.eqb k) l) eqn:E.
  - intros [->|H]; [|done]. apply existsb_exists in E as (y & Hy & Hky).
    apply Nat.eqb_eq in Hky as ->. by apply list_elem_of_In.
  - rewrite elem_of_app, list_elem_of_singleton. tauto.
Qed.

(** X16.  In a reachable state, [registerClient] for a session of the store
    leaves the new socket open and subscribed to the session, with the
    snapshot of the session as the only message sent on it; the subscribers
    the session had stay subscribed, and no other socket nor the store is
    touched. *)
Theorem registerClient_subscribes parse env sid m s :
  reachable parse env m -> sessions_get sid m = Some s ->
  exists r,
    sockets m !! nextSocket m = None
    /\ fst (registerClient sid m) = Normal (nextSocket m)
    /\ sockets (snd (registerClient sid m)) !! nextSocket m
       = Some {| readyState := OPEN; sent := [MsgSnapshot (serializeSession s)];
                 closes := []; handlers := Some (sid, r) |}
    /\ member_of sid (nextSocket m) (snd (registerClient sid m))
    /\ (forall k, member_of sid k m -> member_of sid k (snd (registerClient sid m)))
    /\ (forall k, k <> nextSocket m ->
          sockets (snd (registerClient sid m)) !! k = sockets m !! k)
    /\ heap (snd (registerClient sid m)) = heap m
    /\ sessions (snd (registerClient sid m)) = sessions m.
Proof.
  intros Hr Hs. destruct (reachable_registry _ _ _ Hr) as (H1 & _ & H3 & H4 & H5 & _).
  assert (Hnew : sockets m !! nextSocket m = None).
  { destruct (sockets m !! nextSocket m) as [s0|] eqn:E; [|done].
    specialize (H5 _ _ E). lia. }
  rewrite registerClient_unfold, Hs. cbn [fst snd].
  destruct (clients m !! sid) as [r|] eqn:Hc.
  - destruct (H1 _ _ Hc) as [_ [members Hm]]. exists r.
    split; [done|]. split; [done|]. split.
    { simpl. by rewrite !lookup_alter_eq, lookup_insert_eq. }
    split.
    { exists r, (set_add (nextSocket m) members). simpl.
      rewrite lookup_insert_eq, lookup_alter_eq, Hm. split; [done|]. split; [done|].
      apply elem_of_set_add_2. by left. }
    split.
    { intros k (r' & members' & Hc' & Hm' & Hin).
      assert (r' = r) as -> by congruence. assert (members' = members) as -> by congruence.
      exists r, (set_add (nextSocket m) members). simpl.
      rewrite lookup_insert_eq, lookup_alter_eq, Hm. split; [done|]. split; [done|].
      apply elem_of_set_add_2. by right. }
    split; [|done]. intros k Hk. simpl.
    by rewrite !lookup_alter_ne, lookup_insert_ne.
  - exists (nextSet m). split; [done|]. split; [done|]. split.
    { simpl. by rewrite !lookup_alter_eq, lookup_insert_eq. }
    split.
    { exists (nextSet m), (set_add (nextSocket m) []). simpl.
      rewrite lookup_insert_eq, lookup_alter_eq, lookup_insert_eq.
      split; [done|]. split; [done|]. apply list_elem_of_here. }
    split.
    { intros k (r' & members' & Hc' & _). congruence. }
    split; [|done]. intros k Hk. simpl.
    by rewrite !lookup_alter_ne, lookup_insert_ne.
Qed.

Lemma registerClient_subscribes_witness :
  exists r,
    fst (registerClient 0 (after [create] None)) = Normal 0%nat
    /\ sockets (snd (registerClient 0 (after [create] None))) !! 0%nat
       = Some {| readyState := OPEN;
                 sent := [MsgSnapshot (serializeSession created_session)];
                 closes := []; handlers := Some (0%nat, r) |}
    /\ member_of 0 0 (snd (registerClient 0 (after [create] None))).
Proof.
  destruct (registerClient_subscribes JSON_parse_demo None 0%nat (after [create] None)
              created_session) as (r & _ & Hk & Hsock & Hmem & _).
  - eapply reachable_after. vm_compute. reflexivity.
  - vm_compute. reflexivity.
  - exists r. split; [exact Hk|]. split; [exact Hsock|exact Hmem].
Defined.

(** X17.  [registerClient] for a session that is not in the store sends the
    error "Session not found" on the socket, closes it with code 1008, and
    leaves the registry and the store as they were. *)
Theorem registerClient_refuses sid m :
  sessions_get sid m = None ->
  fst (registerClient sid m) = Normal (nextSocket m)
  /\ sockets (snd (registerClient sid m)) !! nextSocket m
     = Some {| readyState := CLOSING; sent := [MsgError "Session not found"];
               closes := [(1008, "Session not found")]; handlers := None |}
  /\ clients (snd (registerClient sid m)) = clients m
  /\ clientSets (snd (registerClient sid m)) = clientSets m
  /\ heap (snd (registerClient sid m)) = heap m
  /\ sessions (snd (registerClient sid m)) = sessions m.
Proof.
  intros Hs. rewrite registerClient_unfold, Hs. cbn [fst snd]. split; [done|].
  split; [|done]. simpl. by rewrite lookup_alter_eq, lookup_insert_eq.
Qed.

Lemma registerClient_refuses_witness :
  sockets (snd (registerClient 7 (after [create] None))) !! 0%nat
  = Some {| readyState := CLOSING; sent := [MsgError "Session not found"];
            closes := [(1008, "Session not found")]; handlers := None |}.
Proof.
  apply (registerClient_refuses 7%nat (after [create] None)). vm_compute. reflexivity.
Defined.

(** ** The HTTP handlers *)

Lemma not_filled_string_spec k body :
  not_filled_string (prop k body) = false <-> filled k body.
Proof.
  unfold filled, not_filled_string. destruct (prop k body) as [[]|]; split;
    try discriminate; try (by intros (? & [=] & _)).
  - intros H. eexists. split; [done|]. intros E. by rewrite E in H.
  - intros (s0 & [= <-] & Hne). destruct (trim s); [done|reflexivity].
Qed.

Lemma app_nil_iff {A} (l1 l2 : list A) : l1 ++ l2 = [] <-> l1 = [] /\ l2 = [].
Proof. split; [apply app_eq_nil|by intros [-> ->]]. Qed.

Lemma one_error_nil (b : bool) (msg : string) :
  (if b then [msg] else []) = [] <-> b = false.
Proof. by destruct b. Qed.

(** X18.  [validateCreateSessionBody] reports no error exactly when
    [probCategory], [probTitle] and [probDescription] are strings that are
    not blank and [probFile] is missing, [null] or a string. *)
Theorem validateCreateSessionBody_accepts body :
  validateCreateSessionBody body = [] <-> valid_session_request body.
Proof.
  unfold validateCreateSessionBody, valid_session_request.
  rewrite !app_nil_iff, !one_error_nil, !not_filled_string_spec.
  assert (not_nullish (prop "probFile" body) && negb (is_string (prop "probFile" body))
          = false
          <-> prop "probFile" body = None \/ prop "probFile" body = Some JNull
              \/ exists s, prop "probFile" body = Some (JStr s)) as ->; [|tauto].
  destruct (prop "probFile" body) as [[]|]; simpl; split; eauto; try discriminate;
    intros [?|[?|[? ?]]]; discriminate.
Qed.

Lemma submitHint_completes sid hint_text m :
  (exists text statusCode code,
     submitHint sid hint_text m = (Throw (SessionManagerError text statusCode code), m)
     /\ (statusCode = 404 \/ statusCode = 409))
  \/ fst (submitHint sid hint_text m) = Normal tt.
Proof.
  unfold submitHint, mbind, M_bind.
  destruct (sessions_get sid m) as [s|] eqn:Hs.
  2:{ left. unfold bind, gets, throw. rewrite Hs. eauto 10. }
  rewrite (bind_normal _ _ m (Some s) m) by (unfold gets; by rewrite Hs).
  cbv beta iota. destruct (thread_established s) eqn:Ht; cbn [negb].
  2:{ left. unfold throw. eauto 10. }
  destruct (activeStreams m !! sid) as [tid|] eqn:Ha.
  { left. unfold bind, gets, throw. rewrite Ha. eauto 10. }
  right. rewrite (bind_normal _ _ m None m) by (unfold gets; by rewrite Ha).
  cbv beta iota zeta.
  eapply tracks_then_normal; [apply tracks_publishEvent|exact Hs|].
  intros _ m1 s1 H1.
  eapply tracks_then_normal; [apply tracks_updateStatus|exact H1|].
  intros _ m2 s2 H2.
  eapply tracks_then_normal; [apply tracks_updateSessionMetadata|exact H2|].
  reflexivity.
Qed.

(** X19.  The hint endpoint always answers, with 202, 400, 404 or 409 and
    never with 500.  When it answers 202, the id was given, the hint is a
    string that is not blank and [sessionManager.submitHint] returned
    normally; with any other answer the manager is left as it was. *)
Theorem submitHint_handler_answers id body m :
  exists resp,
    fst (submitHint_handler id body m) = Normal resp
    /\ ((res_status resp = 202
         /\ exists sid hint_text,
              id = Some sid /\ prop "hint" (or_empty body) = Some (JStr hint_text)
              /\ trim hint_text <> ""
              /\ submitHint sid hint_text m = (Normal tt, snd (submitHint_handler id body m)))
        \/ ((res_status resp = 400 \/ res_status resp = 404 \/ res_status resp = 409)
            /\ snd (submitHint_handler id body m) = m)).
Proof.
  unfold submitHint_handler. destruct id as [sid|]; [|by eauto 10].
  destruct (prop "hint" (or_empty body)) as [[| | |h| |]|]; try (by eauto 10).
  destruct (Nat.eqb (String.length (trim h)) 0) eqn:Hb; [by eauto 10|].
  assert (Hne : trim h <> "") by (intros E; by rewrite E in Hb).
  unfold mbind, M_bind, bind, attempt.
  destruct (submitHint_completes sid h m) as [(text & c & code & E & Hc)|E].
  - rewrite E. simpl. eexists. split; [done|]. right. simpl. split; [|done].
    destruct Hc as [->| ->]; auto.
  - destruct (submitHint sid h m) as [[[]|e] m'] eqn:E'; [|discriminate].
    simpl. eexists. split; [done|]. left. split; [done|]. by exists sid, h.
Qed.

(** ** The directory name of a workspace *)

Lemma replace_runs_dashed s : forall b, dashed b (replace_runs b s) = true.
Proof.
  induction s as [|c s IH]; intros b; [done|]. simpl.
  destruct (is_slug_char c) eqn:Hc.
  - simpl. by rewrite Hc.
  - destruct b; [apply IH|]. simpl. apply IH.
Qed.

Lemma is_dash_not_slug c : is_dash c = true -> is_slug_char c = false.
Proof.
  unfold is_dash, is_slug_char. intros H. apply Nat.eqb_eq in H. rewrite H. reflexivity.
Qed.

Lemma strip_start_dashed s : forall b, dashed b s = true -> dashed true (strip_start s) = true.
Proof.
  induction s as [|c s IH]; intros b H; [done|]. simpl in *.
  destruct (is_dash c) eqn:Hd.
  - rewrite (is_dash_not_slug _ Hd) in H. simpl in H.
    apply andb_true_iff in H as [_ H]. by eapply IH.
  - simpl. destruct (is_slug_char c); [done|]. by rewrite Hd in *.
Qed.

Lemma strip_end_slug s : forall b,
  dashed b s = true -> strip_end s = "" \/ slug_from b (strip_end s) = true.
Proof.
  induction s as [|c s IH]; intros b H; [by left|]. simpl in H.
  change (strip_end (String c s)) with
    (match strip_end s with
     | EmptyString => if is_dash c then EmptyString else String c EmptyString
     | t => String c t
     end).
  destruct (is_slug_char c) eqn:Hc.
  - assert (Hd : is_dash c = false).
    { destruct (is_dash c) eqn:Hd; [|done]. by rewrite (is_dash_not_slug _ Hd) in Hc. }
    destruct (IH false H) as [E|E].
    + rewrite E, Hd. right. simpl. by rewrite Hc.
    + destruct (strip_end s) as [|d t]; [right; rewrite Hd; simpl; by rewrite Hc|].
      right. change (slug_from b (String c (String d t)))
        with (if is_slug_char c then slug_from false (String d t)
              else is_dash c && negb b && slug_from true (String d t)).
      by rewrite Hc.
  - apply andb_true_iff in H as [H H2]. apply andb_true_iff in H as [Hd Hb].
    destruct (IH true H2) as [E|E].
    + rewrite E, Hd. by left.
    + destruct (strip_end s) as [|d t]; [by left; rewrite Hd|].
      right. change (slug_from b (String c (String d t)))
        with (if is_slug_char c then slug_from false (String d t)
              else is_dash c && negb b && slug_from true (String d t)).
      by rewrite Hc, Hd, Hb.
Qed.

Lemma slug_char_pretty_N_char d : (d < 10)%N -> is_slug_char (pretty_N_char d) = true.
Proof.
  intros H.
  assert (d = 0 \/ d = 1 \/ d = 2 \/ d = 3 \/ d = 4 \/ d = 5 \/ d = 6 \/ d = 7 \/ d = 8
          \/ d = 9)%N as Hd by lia.
  repeat destruct Hd as [->|Hd]; try subst d; reflexivity.
Qed.

Lemma slug_from_pretty_N_go n : forall s b,
  (0 < n)%N -> slug_from b (pretty_N_go n s) = slug_from false s.
Proof.
  induction n as [n IH] using (well_founded_ind N.lt_wf_0). intros s b Hn.
  rewrite pretty_N_go_step by done.
  assert (Hmod : (n `mod` 10 < 10)%N) by (apply N.mod_lt; lia).
  destruct (decide (n `div` 10 = 0)%N) as [H0|H0].
  - rewrite H0, pretty_N_go_0. simpl. by rewrite slug_char_pretty_N_char.
  - rewrite IH; [|apply N.div_lt; lia|by apply N.neq_0_lt_0]. simpl.
    by rewrite slug_char_pretty_N_char.
Qed.

Lemma slug_from_pretty now b : 0 <= now -> slug_from b (pretty now) = true.
Proof.
  intros H. destruct now as [|p|p]; [reflexivity| |lia].
  change (pretty (Z.pos p)) with (pretty_N_go (N.pos p) "").
  by rewrite slug_from_pretty_N_go.
Qed.

(** X20.  The directory name that [sanitizeTitle] makes of a title is never
    empty and matches [[a-z0-9]+(-[a-z0-9]+)*]: lower-case letters and digits
    in groups separated by single dashes, hence no path separator, no dot
    and no dash at either end.  This holds also when the title has no usable
    character and the name is ["challenge-" + Date.now()]. *)
Theorem sanitizeTitle_is_slug now title :
  0 <= now -> is_slug (sanitizeTitle now title) = true.
Proof.
  intros Hnow. unfold sanitizeTitle, is_slug. cbv zeta.
  set (t := toLowerCase (trim title)).
  pose proof (strip_end_slug _ true
                (strip_start_dashed _ false (replace_runs_dashed t false))) as H.
  destruct (strip_end (strip_start (replace_runs false t))) as [|c r] eqn:E.
  - simpl. by apply slug_from_pretty.
  - simpl (0 <? _)%nat. cbv iota. by destruct H.
Qed.

Lemma sanitizeTitle_is_slug_witness :
  is_slug (sanitizeTitle 1700000000000 "  Heap Playground (v2)! ") = true.
Proof. apply (sanitizeTitle_is_slug 1700000000000). lia. Defined.

(** ** The wait queue *)

Lemma woken_insert (mp : gmap nat RunPc) i p :
  woken_on (<[i := p]> mp)
  = woken_on mp - (match mp !! i with Some q => woken_of q | None => 0 end) + woken_of p.
Proof.
  unfold woken_on. rewrite size_filter_insert. unfold woken_of. simpl.
  destruct (mp !! i) as [q|]; repeat case_decide; repeat destruct (is_woken _);
    try lia; congruence.
Qed.

Lemma woken_nonneg mp : 0 <= woken_on mp.
Proof. unfold woken_on. lia. Qed.

Lemma served_same cap m m' : same_permits m m' -> served cap m -> served cap m'.
Proof. intros (Hp & Hc & Hq & _). unfold served. by rewrite Hp, Hc, Hq. Qed.

Lemma pcs_set_pc tid p m :
  pcs (snd (alter_task tid (set_pc p) m)) = alter (fun _ => p) tid (pcs m).
Proof. unfold pcs. simpl. by rewrite (pc_fmap_alter _ (fun _ => p)). Qed.

(** A run moves between two places where it is not on its way to a
    permit. *)
Lemma set_pc_served cap tid m p0 p :
  pcs m !! tid = Some p0 -> is_woken p0 = false -> is_woken p = false ->
  served cap m -> served cap (snd (alter_task tid (set_pc p) m)).
Proof.
  intros H0 Hw0 Hw Hs. unfold served. rewrite pcs_set_pc.
  rewrite (alter_const_insert _ _ _ _ H0). simpl. intros Hq. specialize (Hs Hq).
  rewrite woken_insert, H0. unfold woken_of. rewrite Hw0, Hw. lia.
Qed.

Lemma holds_permit_not_woken p : holds_permit p = true -> is_woken p = false.
Proof. by destruct p. Qed.

(** The outer [finally]: the permit goes back, or to the head of the queue. *)
Lemma run_exit_served cap tid m p0 :
  ledger m -> pcs m !! tid = Some p0 -> holds_permit p0 = true ->
  served cap m -> served cap (snd (run_exit tid m)).
Proof.
  intros K H0 Hh Hs.
  pose proof (ledger_on_count_pos _ _ _ _ _ _ K H0 Hh) as Hpos.
  pose proof (holds_permit_not_woken _ Hh) as Hw0.
  rewrite run_exit_unfold. unfold served in *.
  destruct (slotQueue m) as [|next rest] eqn:Eq.
  - intros Hq. simpl in Hq. by rewrite Eq in Hq.
  - rewrite pcs_set_pc, pcs_set_pc.
    change (pcs (set_slotQueue _ _)) with (pcs m). simpl. intros _.
    specialize (Hs ltac:(done)).
    destruct K as (_ & _ & K3 & _). rewrite Eq in K3.
    pose proof (K3 next (list_elem_of_here _ _)) as Hn.
    assert (Hne : next <> tid) by (intros ->; rewrite H0 in Hn; by injection Hn as ->).
    rewrite (alter_const_insert _ _ p0) by (by rewrite lookup_alter_ne).
    rewrite woken_insert, lookup_alter_ne, H0 by done.
    rewrite (alter_const_insert _ _ _ _ Hn), woken_insert, Hn.
    unfold woken_of. rewrite Hw0. simpl. lia.
Qed.

Lemma outer_try_served cap tid body m p0 :
  ledger m -> pcs m !! tid = Some p0 -> holds_permit p0 = true ->
  preserves same_permits body ->
  yields (fun r => r = None \/ exists p, r = Some p /\ holds_permit p = true) body ->
  served cap m -> served cap (snd (outer_try tid body m)).
Proof.
  intros K H0 Hh Hb Hy Hs. unfold outer_try, mbind, M_bind, bind, attempt.
  specialize (Hb m). specialize (Hy m). destruct (body m) as [r m1]. simpl in *.
  pose proof (ledger_same_permits _ _ Hb K) as K1.
  pose proof (served_same _ _ _ Hb Hs) as S1.
  assert (H1 : pcs m1 !! tid = Some p0) by (by rewrite (pcs_same_permits _ _ _ Hb)).
  destruct r as [[p|]|e].
  - destruct (Hy _ eq_refl) as [?|(p' & [= <-] & Hp)]; [done|].
    eapply set_pc_served; eauto using holds_permit_not_woken.
  - by eapply run_exit_served.
  - pose proof (run_exit_served cap tid m1 p0 K1 H1 Hh S1) as S2.
    destruct (run_exit tid m1) as [[u|e'] m2]; exact S2.
Qed.

Lemma leave_stream_served cap tid sid body m p0 :
  ledger m -> pcs m !! tid = Some p0 -> holds_permit p0 = true ->
  preserves same_permits body ->
  served cap m -> served cap (snd (leave_stream tid sid body m)).
Proof.
  intros K H0 Hh Hb Hs. unfold leave_stream, try_finally.
  specialize (Hb m). destruct (body m) as [r m1]. simpl in *.
  pose proof (stream_finally_permits tid sid m1) as Hf.
  destruct (stream_finally tid sid m1) as [rf m2]. simpl in *.
  pose proof (same_permits_trans _ _ _ Hb Hf) as H12.
  pose proof (ledger_same_permits _ _ H12 K) as K2.
  pose proof (served_same _ _ _ H12 Hs) as S2.
  assert (H2 : pcs m2 !! tid = Some p0) by (by rewrite (pcs_same_permits _ _ _ H12)).
  pose proof (run_exit_served cap tid m2 p0 K2 H2 Hh S2) as S3.
  destruct rf as [u|e]; simpl; destruct (run_exit tid m2) as [[u'|e'] m3]; exact S3.
Qed.

Lemma resumeRun_served cap tid t m :
  ledger m -> tasks m !! tid = Some t -> resumable (pc t) = true ->
  served cap m -> served cap (snd (resumeRun tid t m)).
Proof.
  intros K Ht Hr Hs. pose proof (pcs_lookup _ _ _ Ht) as H0. unfold resumeRun.
  destruct (pc t) eqn:Hpc; try discriminate.
  - unfold acquireAgentSlot_resumed, mbind, M_bind, bind, modify, ret. cbn [fst snd].
    unfold served in *. rewrite pcs_set_pc. simpl. intros Hq. specialize (Hs Hq).
    change (pcs (set_activeAgentCount (activeAgentCount m + 1) m)) with (pcs m).
    rewrite (alter_const_insert _ _ _ _ H0), woken_insert, H0. unfold woken_of. simpl. lia.
  - eapply outer_try_served; eauto using admitted_permits, admitted_yields.
  - eapply outer_try_served; eauto using start_run_permits.
    intros m0 a Ha. right. by eapply start_run_yields.
  - eapply outer_try_served; eauto using open_stream_permits.
    intros m0 a Ha. right. by eapply open_stream_yields.
  - eapply leave_stream_served; eauto.
    destruct thrown; [apply stream_catch_permits|apply preserves_ret, same_permits_refl].
Qed.

Lemma stream_item_served cap parse tid t ev m :
  tasks m !! tid = Some t -> pc t = AwaitNext ->
  served cap m -> served cap (snd (stream_item parse tid t ev m)).
Proof.
  intros Ht Hpc Hs. pose proof (pcs_lookup _ _ _ Ht) as H0. rewrite Hpc in H0.
  unfold stream_item, mbind, M_bind, bind, gets. simpl.
  destruct (sessions_has (run_session t) m).
  - simpl. unfold attempt.
    pose proof (handleThreadEvent_permits parse (run_session t) ev m) as Hp.
    destruct (handleThreadEvent parse (run_session t) ev m) as [[u|e] m1]; simpl in *.
    + by eapply served_same.
    + eapply (set_pc_served cap tid _ AwaitNext); [|done|done|by eapply served_same].
      by rewrite (pcs_same_permits _ _ _ Hp).
  - pose proof (alter_task_permits tid (set_cancelled true) ltac:(reflexivity) m) as Hp.
    change (served cap (snd (alter_task tid (set_pc (AwaitIteratorReturn None))
                               (snd (alter_task tid (set_cancelled true) m))))).
    eapply (set_pc_served cap tid _ AwaitNext); [|done|done|by eapply served_same].
    by rewrite (pcs_same_permits _ _ _ Hp).
Qed.

(** A new run: counted when a permit is free, queued when the house is
    full. *)
Lemma runAgentSession_service cap sid is_hint hint_text :
  preserves (keeps_service cap) (runAgentSession sid is_hint hint_text).
Proof.
  intros m (K & Hcap & Hs).
  split; [by apply runAgentSession_ledger|].
  assert (Hsame : maxConcurrentAgents m = cap /\ served cap m) by done.
  pose (P := fun m' : Manager => maxConcurrentAgents m' = cap /\ served cap m').
  change (P (snd (runAgentSession sid is_hint hint_text m))).
  unfold runAgentSession, mbind, M_bind.
  unfold bind at 1. unfold gets at 1. cbn [fst snd].
  destruct (activeStreams m !! sid); [exact Hsame|].
  unfold bind at 1. unfold gets at 1. cbn [fst snd].
  destruct (sessions_get sid m) as [s|]; [|exact Hsame].
  destruct (is_hint && negb (thread_established s)); [exact Hsame|].
  unfold bind at 1. unfold gets at 1. cbn [fst snd].
  unfold bind at 1. unfold gets at 1. cbn [fst snd].
  unfold bind at 1.
  set (queued :=
    if maxConcurrentAgents m <=? activeAgentCount m
    then bind (publishEvent sid info "Agent run queued awaiting available execution slot."
                 (Some [("maxConcurrentAgents", JNum (maxConcurrentAgents m))]))
              (fun _ => ret tt)
    else ret tt).
  assert (Hq : preserves same_admission queued).
  { unfold queued. destruct (_ <=? _); [|apply preserves_ret, same_admission_refl].
    apply preserves_bind; [apply same_admission_trans|apply publishEvent_admission|].
    intros. apply preserves_ret, same_admission_refl. }
  specialize (Hq m).
  destruct (queued m) as [[u|e] m1]; simpl in Hq;
    pose proof (same_admission_permits _ _ Hq) as Hp;
    pose proof (served_same _ _ _ Hp Hs) as S1;
    destruct Hq as (_ & _ & _ & _ & Hk); [|split; [by rewrite <- Hk in Hcap|exact S1]].
  pose proof (ledger_same_permits _ _ Hp K) as K1.
  assert (Hnone : pcs m1 !! nextTask m1 = None).
  { destruct (pcs m1 !! nextTask m1) as [p0|] eqn:E; [|done].
    destruct K1 as (K11 & _). specialize (K11 _ _ E). lia. }
  unfold bind, gets, modify, acquireAgentSlot, mbind, M_bind, bind, gets, modify, ret.
  simpl. unfold P.
  destruct (activeAgentCount m1 <? maxConcurrentAgents m1) eqn:Hlt; simpl;
    (split; [by rewrite Hk|]); unfold served, pcs in *; simpl; rewrite fmap_insert; simpl;
    intros Hne; rewrite woken_insert, Hnone; unfold woken_of; simpl.
  - specialize (S1 Hne). lia.
  - pose proof (woken_nonneg (pc <$> tasks m1)). lia.
Qed.

Lemma same_keeps_service cap {A} (c : M A) :
  preserves same_admission c -> preserves (keeps_service cap) c.
Proof.
  intros Hc m (K & Hcap & Hs). specialize (Hc m).
  pose proof (same_admission_permits _ _ Hc) as Hp.
  destruct Hc as (_ & _ & _ & _ & Hk).
  split; [by eapply ledger_same_permits|]. split; [by rewrite Hk|by eapply served_same].
Qed.

Lemma keeps_service_refl cap m : keeps_service cap m m.
Proof. by intros K. Qed.

Lemma keeps_service_trans cap a b c :
  keeps_service cap a b -> keeps_service cap b c -> keeps_service cap a c.
Proof. unfold keeps_service. auto. Qed.

#[local] Hint Resolve keeps_service_refl keeps_service_trans runAgentSession_service : pres.
#[local] Hint Extern 2 (preserves (keeps_service _) (publishEvent _ _ _ _)) =>
  apply same_keeps_service, publishEvent_admission : pres.
#[local] Hint Extern 2 (preserves (keeps_service _) (updateStatus _ _)) =>
  apply same_keeps_service, updateStatus_admission : pres.
#[local] Hint Extern 2 (preserves (keeps_service _) (updateSessionMetadata _ _)) =>
  apply same_keeps_service, updateSessionMetadata_admission : pres.
#[local] Hint Extern 2 (preserves (keeps_service _) (broadcastSnapshot _)) =>
  apply same_keeps_service, broadcastSnapshot_admission : pres.

Lemma announce_service cap uuid workspace artifact :
  preserves (keeps_service cap) (announce uuid workspace artifact).
Proof. unfold announce. pres. Qed.

Lemma submitHint_service cap sid hint_text :
  preserves (keeps_service cap) (submitHint sid hint_text).
Proof. unfold submitHint. pres. Qed.

Lemma exec_served cap {A} (c : M A) m m' :
  preserves same_permits c -> exec c m = Some m' -> served cap m -> served cap m'.
Proof. intros Hc [= <-]. by apply served_same. Qed.

Lemma step_served cap parse l m m' :
  ledger m -> maxConcurrentAgents m = cap -> served cap m ->
  step parse l m = Some m' -> served cap m'.
Proof.
  intros K Hcap Hs Hstep. destruct l; simpl in Hstep.
  - injection Hstep as <-. rewrite createSession_unfold.
    apply announce_service. split; [|split; [done|]].
    + eapply ledger_same_permits; [|exact K]. by repeat split.
    + eapply served_same; [|exact Hs]. by repeat split.
  - injection Hstep as <-. by apply submitHint_service.
  - by eapply exec_served; [apply removeSession_permits|..].
  - destruct (removals m !! rid); [|discriminate].
    by eapply exec_served; [apply removeSession_resumed_permits|..].
  - by eapply exec_served; [apply registerClient_permits|..].
  - destruct (tasks m !! tid) as [t|] eqn:Ht; [|discriminate].
    destruct (resumable (pc t)) eqn:Hr; [|discriminate]. injection Hstep as <-.
    by apply resumeRun_served.
  - destruct (tasks m !! tid) as [t|] eqn:Ht; [|discriminate].
    destruct (pc t) eqn:Hpc; try discriminate. injection Hstep as <-.
    eapply (outer_try_served cap tid _ m AwaitRunStreamed); auto.
    + rewrite (pcs_lookup _ _ _ Ht). by rewrite Hpc.
    + apply preserves_throw, same_permits_refl.
    + intros m0 a Ha. discriminate Ha.
  - destruct (tasks m !! tid) as [t|] eqn:Ht; [|discriminate].
    destruct (pc t) eqn:Hpc; try discriminate. injection Hstep as <-.
    by apply stream_item_served.
  - destruct (tasks m !! tid) as [t|] eqn:Ht; [|discriminate].
    destruct (pc t) eqn:Hpc; try discriminate. injection Hstep as <-.
    eapply (leave_stream_served cap tid _ _ m AwaitNext); auto.
    + rewrite (pcs_lookup _ _ _ Ht). by rewrite Hpc.
    + apply preserves_ret, same_permits_refl.
  - destruct (tasks m !! tid) as [t|] eqn:Ht; [|discriminate].
    destruct (pc t) eqn:Hpc; try discriminate. injection Hstep as <-.
    eapply (leave_stream_served cap tid _ _ m AwaitNext); auto.
    + rewrite (pcs_lookup _ _ _ Ht). by rewrite Hpc.
    + apply stream_catch_permits.
  - destruct (sockets m !! k) as [s|]; [|discriminate].
    destruct (readyState s); try discriminate; injection Hstep as <-;
      (eapply served_same; [|exact Hs]); by repeat split.
  - destruct (sockets m !! k) as [s|]; [|discriminate].
    destruct (readyState s); try discriminate;
      by eapply exec_served; [apply on_close_permits|..].
  - destruct (sockets m !! k) as [s|]; [|discriminate].
    destruct (readyState s); try discriminate;
      by eapply exec_served; [apply on_error_permits|..].
  - destruct (0 <=? dt); [|discriminate]. injection Hstep as <-.
    eapply served_same; [|exact Hs]. by repeat split.
Qed.

Lemma reachable_served parse env m :
  reachable parse env m -> served (clampConcurrency env) m.
Proof.
  induction 1 as [|l m m' Hr IH Hstep]; [by intros Hq|].
  eapply step_served; [by eapply reachable_ledger|by eapply reachable_cap|exact IH|exact Hstep].
Qed.

(** X21.  No run waits while a permit lies idle: in every reachable state
    with a run in [slotQueue], the runs counted in [activeAgentCount] and the
    runs that [releaseAgentSlot] has woken and that have not counted
    themselves yet are together at least [maxConcurrentAgents]. *)
Theorem queue_is_served parse env m :
  reachable parse env m -> slotQueue m <> [] ->
  maxConcurrentAgents m <= activeAgentCount m + woken m.
Proof.
  intros Hr Hq. rewrite (reachable_cap _ _ _ Hr). by apply (reachable_served _ _ _ Hr).
Qed.

Lemma queue_is_served_witness :
  slotQueue (after first_of_three_done (Some "1")) = [2%nat]
  /\ activeAgentCount (after first_of_three_done (Some "1")) = 0
  /\ maxConcurrentAgents (after first_of_three_done (Some "1"))
     <= activeAgentCount (after first_of_three_done (Some "1"))
        + woken (after first_of_three_done (Some "1")).
Proof.
  split; [vm_compute; reflexivity|]. split; [vm_compute; reflexivity|].
  apply (queue_is_served JSON_parse_demo (Some "1")).
  - eapply reachable_after. vm_compute. reflexivity.
  - vm_compute. discriminate.
Defined.

(** ** Runs that end early *)

Lemma run_exit_released tid m t :
  ledger m -> tasks m !! tid = Some t -> holds_permit (pc t) = true ->
  released tid m (snd (run_exit tid m)).
Proof.
  intros K Ht Hh. pose proof (pcs_lookup _ _ _ Ht) as H0.
  pose proof (ledger_on_count_pos _ _ _ _ _ _ K H0 Hh) as Hpos.
  rewrite run_exit_unfold. unfold released.
  destruct (slotQueue m) as [|next rest] eqn:Eq.
  - rewrite pcs_set_pc. simpl. rewrite Eq.
    change (pcs (set_activeAgentCount _ m)) with (pcs m).
    rewrite lookup_alter_eq, H0. simpl. repeat split; try done. lia.
  - rewrite pcs_set_pc, pcs_set_pc. change (pcs (set_slotQueue _ _)) with (pcs m). simpl.
    destruct K as (_ & _ & K3 & _). rewrite Eq in K3.
    pose proof (K3 next (list_elem_of_here _ _)) as Hn.
    assert (Hne : next <> tid).
    { intros ->. rewrite H0 in Hn. injection Hn as Hpc. by rewrite Hpc in Hh. }
    rewrite lookup_alter_eq, (lookup_alter_ne _ _ next tid), H0 by done.
    rewrite (lookup_alter_ne _ _ tid next), lookup_alter_eq, Hn by done.
    simpl. repeat split; try done. lia.
Qed.

(** X22.  A run whose session was removed while it waited, with its permit,
    for its turn or for its prompt, ends as soon as it goes on: the permit
    goes back, the head of the queue, if any, is woken, and neither the
    records, the store, the registry, the sockets nor the controllers are
    touched. *)
Theorem run_of_removed_session_ends parse env tid t m :
  reachable parse env m -> tasks m !! tid = Some t ->
  pc t = AwaitSlotGranted \/ pc t = AwaitPrompt ->
  sessions_get (run_session t) m = None ->
  exists m', step parse (Resume tid) m = Some m' /\ released tid m m'.
Proof.
  intros Hr Ht Hpc Hs. pose proof (reachable_ledger _ _ _ Hr) as K.
  pose proof (run_exit_released tid m t K Ht) as Hrel.
  simpl. rewrite Ht. unfold resumeRun.
  destruct Hpc as [Hpc|Hpc]; rewrite Hpc in *; simpl; (eexists; split; [reflexivity|]).
  - unfold outer_try, admitted, mbind, M_bind, bind, attempt, gets, ret. rewrite Hs.
    cbn [fst snd]. by apply Hrel.
  - unfold outer_try, start_run, mbind, M_bind, bind, attempt. cbv zeta.
    rewrite (updateStatus_dead _ _ _ Hs). cbn [fst snd].
    specialize (Hrel eq_refl). destruct (run_exit tid m) as [[u|e] m1]; exact Hrel.
Qed.

Lemma run_of_removed_session_ends_witness :
  exists m', step JSON_parse_demo (Resume 0%nat) (after removed_at_once None) = Some m'
    /\ released 0 (after removed_at_once None) m'.
Proof.
  apply (run_of_removed_session_ends JSON_parse_demo None 0%nat
           (default {| run_session := 0; isHint := false; hint := None; pc := Finished;
                       run_cancelled := false; thread := None |}
              (tasks (after removed_at_once None) !! 0%nat))).
  - eapply reachable_after. vm_compute. reflexivity.
  - vm_compute. reflexivity.
  - left. vm_compute. reflexivity.
  - vm_compute. reflexivity.
Defined.

(** X23.  When [thread.runStreamed] rejects, the run ends in its outer
    [finally]: the permit goes back and the head of the queue, if any, is
    woken.  No event is published and no record is written: the session
    stays as [updateStatus(sessionId, "running")] left it. *)
Theorem runStreamed_rejection_is_silent parse env tid t text m :
  reachable parse env m -> tasks m !! tid = Some t -> pc t = AwaitRunStreamed ->
  exists m', step parse (RunStreamedRejected tid text) m = Some m' /\ released tid m m'.
Proof.
  intros Hr Ht Hpc. pose proof (reachable_ledger _ _ _ Hr) as K.
  pose proof (run_exit_released tid m t K Ht) as Hrel. rewrite Hpc in Hrel.
  specialize (Hrel eq_refl).
  simpl. rewrite Ht, Hpc. simpl. eexists. split; [reflexivity|].
  unfold outer_try, mbind, M_bind, bind, attempt, throw. cbn [fst snd].
  destruct (run_exit tid m) as [[u|e] m1]; exact Hrel.
Qed.

Lemma runStreamed_rejection_is_silent_witness :
  exists m' s,
    step JSON_parse_demo (RunStreamedRejected 0%nat "no engine")
      (after awaiting_runStreamed None) = Some m'
    /\ released 0 (after awaiting_runStreamed None) m'
    /\ sessions_get 0 (after awaiting_runStreamed None) = Some s
    /\ status s = running.
Proof.
  destruct (runStreamed_rejection_is_silent JSON_parse_demo None 0%nat
              (default {| run_session := 0; isHint := false; hint := None; pc := Finished;
                          run_cancelled := false; thread := None |}
                 (tasks (after awaiting_runStreamed None) !! 0%nat))
              "no engine" (after awaiting_runStreamed None)) as (m' & Hstep & Hrel).
  - eapply reachable_after. vm_compute. reflexivity.
  - vm_compute. reflexivity.
  - vm_compute. reflexivity.
  - exists m'. eexists. split; [exact Hstep|]. split; [exact Hrel|].
    split; vm_compute; reflexivity.
Defined.

(** ** Status and result *)

Lemma sound_fields s s' :
  status s' = status s -> result s' = result s -> sound s -> sound s'.
Proof.
  intros Hst Hr (H1 & H2 & H3). unfold sound, solved_result. rewrite Hst, Hr. auto.
Qed.

Lemma sound_status st s :
  st <> completed -> st <> status_error -> sound s -> sound (set_status st s).
Proof.
  intros Hc He (H1 & H2 & H3). split; [done|]. split; [exact H2|]. simpl. done.
Qed.

Lemma keeps_sound_refl m : keeps_sound m m.
Proof. by intros H. Qed.

Lemma keeps_sound_trans a b c : keeps_sound a b -> keeps_sound b c -> keeps_sound a c.
Proof. unfold keeps_sound. auto. Qed.

Lemma keeps_sound_frame m m' : heap m' = heap m -> keeps_sound m m'.
Proof. intros Hh Hall sid s. rewrite Hh. apply Hall. Qed.

Lemma keeps_sound_alter sid f m m' :
  heap m' = alter f sid (heap m) -> (forall s, sound s -> sound (f s)) -> keeps_sound m m'.
Proof.
  intros Hh Hf Hall j s'. rewrite Hh. destruct (decide (sid = j)) as [->|Hne].
  - rewrite lookup_alter_eq. destruct (heap m !! j) as [s|] eqn:E; [|done].
    intros [= <-]. apply Hf. by eapply Hall.
  - rewrite lookup_alter_ne by done. apply Hall.
Qed.

#[local] Hint Resolve keeps_sound_refl keeps_sound_trans : pres.
#[local] Hint Extern 3 (preserves keeps_sound (modify _)) =>
  apply preserves_modify; intros; apply keeps_sound_frame; reflexivity : pres.

Lemma broadcast_keeps_sound sid msg : preserves keeps_sound (broadcast sid msg).
Proof.
  intros m. apply keeps_sound_frame. by destruct (broadcast_only_sockets sid msg m).
Qed.

Lemma randomUUID_keeps_sound : preserves keeps_sound randomUUID.
Proof. intros m. by apply keeps_sound_frame. Qed.

Lemma assign_keeps_sound sid f :
  (forall s, sound s -> sound (f s)) -> preserves keeps_sound (assign sid f).
Proof. intros Hf m. by apply (keeps_sound_alter sid f). Qed.

#[local] Hint Resolve broadcast_keeps_sound randomUUID_keeps_sound : pres.

Lemma broadcastSnapshot_keeps_sound sid : preserves keeps_sound (broadcastSnapshot sid).
Proof. unfold broadcastSnapshot. pres. Qed.

Lemma publishEvent_keeps_sound sid lvl msg det :
  preserves keeps_sound (publishEvent sid lvl msg det).
Proof.
  unfold publishEvent, Date_now. pres. apply assign_keeps_sound.
  intros s0. by apply sound_fields.
Qed.

Lemma updateStatus_keeps_sound sid st :
  st <> completed -> st <> status_error -> preserves keeps_sound (updateStatus sid st).
Proof.
  intros Hc He. unfold updateStatus, Date_now. pres. apply assign_keeps_sound.
  intros s0 Hs0. apply (sound_fields (set_status st s0)); [done|done|by apply sound_status].
Qed.

Lemma updateSessionMetadata_keeps_sound sid f :
  (forall s, status (f s) = status s /\ result (f s) = result s) ->
  preserves keeps_sound (updateSessionMetadata sid f).
Proof.
  intros Hf. unfold updateSessionMetadata, Date_now. pres. apply assign_keeps_sound.
  intros s0 Hs0. destruct (Hf s0) as [H1 H2]. by apply (sound_fields s0).
Qed.

#[local] Hint Resolve broadcastSnapshot_keeps_sound publishEvent_keeps_sound : pres.
#[local] Hint Extern 2 (preserves keeps_sound (updateStatus _ _)) =>
  apply updateStatus_keeps_sound; discriminate : pres.
#[local] Hint Extern 2 (preserves keeps_sound (updateSessionMetadata _ _)) =>
  apply updateSessionMetadata_keeps_sound; intros; split; reflexivity : pres.
#[local] Hint Extern 2 (preserves keeps_sound (alter_task _ _)) =>
  apply preserves_modify; intros; apply keeps_sound_frame; reflexivity : pres.

Lemma writes_to_refl sid m : writes_to sid m m.
Proof. by split; [|split]. Qed.

Lemma writes_to_trans sid a b c : writes_to sid a b -> writes_to sid b c -> writes_to sid a c.
Proof.
  intros (S1 & O1 & D1) (S2 & O2 & D2). split; [by rewrite S2|]. split.
  - intros j Hj. by rewrite O2, O1.
  - intros Hd. rewrite <- (D1 Hd). apply D2.
    unfold sessions_get in *. rewrite S1, (D1 Hd). exact Hd.
Qed.

Lemma writes_to_frame sid m m' :
  heap m' = heap m -> sessions m' = sessions m -> writes_to sid m m'.
Proof. intros Hh Hs. split; [done|]. by split; intros; rewrite Hh. Qed.

#[local] Hint Resolve writes_to_refl writes_to_trans : pres.
#[local] Hint Extern 3 (preserves (writes_to _) (modify _)) =>
  apply preserves_modify; intros; apply writes_to_frame; reflexivity : pres.

Lemma broadcast_writes_to sid j msg : preserves (writes_to sid) (broadcast j msg).
Proof.
  intros m. destruct (broadcast_only_sockets j msg m) as (Hh & Hs & _).
  by apply writes_to_frame.
Qed.

Lemma broadcastSnapshot_writes_to sid : preserves (writes_to sid) (broadcastSnapshot sid).
Proof.
  unfold broadcastSnapshot, mbind, M_bind. apply preserves_bind; [apply writes_to_trans|..].
  - apply preserves_gets, writes_to_refl.
  - intros [s|]; [apply broadcast_writes_to|apply preserves_ret, writes_to_refl].
Qed.

Lemma writes_to_assign sid f m s :
  sessions_get sid m = Some s -> writes_to sid m (snd (assign sid f m)).
Proof.
  intros H. split; [done|]. split.
  - intros j Hj. simpl. by rewrite lookup_alter_ne.
  - intros Hd. congruence.
Qed.

Lemma publishEvent_writes_to sid lvl msg det :
  preserves (writes_to sid) (publishEvent sid lvl msg det).
Proof.
  intros m. destruct (sessions_get sid m) as [s|] eqn:H.
  - rewrite (publishEvent_live _ _ _ _ _ _ H). cbn [snd].
    eapply writes_to_trans; [|apply broadcast_writes_to].
    eapply writes_to_trans; [apply (writes_to_frame sid m (set_nextUuid (S (nextUuid m)) m));
                             reflexivity|].
    by eapply writes_to_assign.
  - rewrite (publishEvent_dead _ _ _ _ _ H). apply writes_to_refl.
Qed.

Lemma updateStatus_writes_to sid st : preserves (writes_to sid) (updateStatus sid st).
Proof.
  intros m. destruct (sessions_get sid m) as [s|] eqn:H.
  - rewrite (updateStatus_live _ _ _ _ H). cbn [snd].
    eapply writes_to_trans; [|apply broadcast_writes_to]. by eapply writes_to_assign.
  - rewrite (updateStatus_dead _ _ _ H). apply writes_to_refl.
Qed.

Lemma updateSessionMetadata_writes_to sid f :
  preserves (writes_to sid) (updateSessionMetadata sid f).
Proof.
  intros m. destruct (sessions_get sid m) as [s|] eqn:H.
  - rewrite (updateSessionMetadata_live _ _ _ _ H). cbn [snd]. by eapply writes_to_assign.
  - rewrite (updateSessionMetadata_dead _ _ _ H). apply writes_to_refl.
Qed.

#[local] Hint Resolve broadcast_writes_to broadcastSnapshot_writes_to publishEvent_writes_to
  updateStatus_writes_to updateSessionMetadata_writes_to : pres.

(** A statement on a session of the store: where it leads. *)
Lemma tracks_step sid {A} (c : M A) P m s :
  tracks sid c P -> preserves (writes_to sid) c -> sessions_get sid m = Some s ->
  exists a m1 s1, c m = (Normal a, m1) /\ sessions_get sid m1 = Some s1 /\ P s s1
    /\ writes_to sid m m1.
Proof.
  intros Hc Hw H. destruct (Hc m s H) as (a & s1 & Hn & Hget & HP).
  exists a, (snd (c m)), s1. split; [by apply surjective_pairing_normal|].
  split; [done|]. split; [done|apply Hw].
Qed.

(** The record of [sid] is in order after writes to it alone. *)
Lemma sound_after sid m m' s' :
  writes_to sid m m' -> sessions_get sid m' = Some s' -> sound s' ->
  keeps_sound m m'.
Proof.
  intros (_ & Ho & _) Hget Hs' Hall j s Hj. destruct (decide (j = sid)) as [->|Hne].
  - apply sessions_get_Some in Hget as [_ Hget]. congruence.
  - rewrite Ho in Hj by done. by eapply Hall.
Qed.

(** The same when the session is not in the store. *)
Lemma sound_dead sid m m' :
  writes_to sid m m' -> sessions_get sid m = None -> keeps_sound m m'.
Proof.
  intros (_ & Ho & Hd) Hnone Hall j s Hj. destruct (decide (j = sid)) as [->|Hne].
  - rewrite (Hd Hnone) in Hj. by eapply Hall.
  - rewrite Ho in Hj by done. by eapply Hall.
Qed.

(** A body that leaves the record of its session in order. *)
Lemma body_sound sid {A} (c : M A) :
  tracks sid c (fun s s' => sound s -> sound s') -> preserves (writes_to sid) c ->
  preserves keeps_sound c.
Proof.
  intros Hc Hw m Hall. destruct (sessions_get sid m) as [s|] eqn:H.
  - destruct (tracks_step sid c _ m s Hc Hw H) as (a & m1 & s1 & E & G & HP & W).
    rewrite E. cbn [snd]. eapply (sound_after sid m m1 s1); eauto.
    apply HP. apply sessions_get_Some in H as [_ H]. by eapply Hall.
  - by eapply (sound_dead sid); [apply Hw|..].
Qed.

Lemma parsed_passes_check parse text structured :
  parseAgentStructuredOutput parse text = Some structured ->
  isAgentStructuredOutput structured = true.
Proof.
  unfold parseAgentStructuredOutput. destruct (parse text) as [v|]; [|discriminate].
  destruct (isAgentStructuredOutput v) eqn:Hv; [|discriminate]. by intros [= <-].
Qed.

Lemma handleAgentMessage_keeps_sound parse sid text :
  preserves keeps_sound (handleAgentMessage parse sid text).
Proof.
  unfold handleAgentMessage.
  destruct (parseAgentStructuredOutput parse text) as [structured|] eqn:Hp; [|pres].
  pose proof (parsed_passes_check _ _ _ Hp) as Hv.
  destruct (parsed_inference_status _ _ _ Hp) as (x & Hx & Hcases).
  assert (Hs : str_prop "inferenceStatus" structured = x)
    by (unfold str_prop; by rewrite Hx).
  rewrite Hs. cbv zeta.
  assert (Hlast : tracks sid
    (if (x =? "solved")%string then updateStatus sid completed
     else if (x =? "failed")%string then updateStatus sid awaiting_hint
          else updateStatus sid awaiting_hint)
    (fun s s' => exists ts, s' = set_updatedAt ts
       (set_status (if (x =? "solved")%string then completed else awaiting_hint) s))).
  { destruct (x =? "solved")%string; [|destruct (x =? "failed")%string];
      apply tracks_updateStatus. }
  apply (body_sound sid).
  - eapply tracks_weaken; [tracking|].
    intros s s' (s1 & [ts1 ->] & s2 & (ev & -> & _) & s3 & <- & s4 & <- & ts & ->) _.
    split; [simpl; by destruct (x =? "solved")%string|].
    split; [simpl; by intros r [= <-]|]. simpl.
    destruct (String.eqb_spec x "solved") as [->|Hne]; [|discriminate].
    intros _. exists structured. by split.
  - unfold mbind, M_bind.
    repeat (apply preserves_bind; [apply writes_to_trans|auto with pres|intros]).
    destruct (x =? "solved")%string; [|destruct (x =? "failed")%string];
      apply updateStatus_writes_to.
Qed.
#[local] Hint Resolve handleAgentMessage_keeps_sound : pres.

Lemma handleThreadEvent_keeps_sound parse sid ev :
  preserves keeps_sound (handleThreadEvent parse sid ev).
Proof.
  unfold handleThreadEvent, handleItemEvent, handleCommandExecution, handleMcpToolCall.
  destruct ev; pres.
Qed.

(** [updateStatus(sessionId, "running")] and the reset of [error] and,
    for a hint, of [result]. *)
Lemma start_run_keeps_sound tid t : preserves keeps_sound (start_run tid t).
Proof.
  intros m Hall. unfold start_run. cbv zeta. unfold mbind, M_bind.
  destruct (sessions_get (run_session t) m) as [s|] eqn:H.
  2:{ unfold bind. by rewrite (updateStatus_dead _ _ _ H). }
  destruct (tracks_step _ _ _ m s (tracks_updateStatus (run_session t) running)
              (updateStatus_writes_to _ _) H)
    as (a1 & m1 & s1 & E1 & G1 & [ts1 ->] & W1).
  rewrite (bind_normal _ _ _ _ _ E1).
  destruct (tracks_step _ _ _ m1 _
              (tracks_updateSessionMetadata (run_session t)
                 (fun state => (if isHint t then set_result None else fun s0 => s0)
                                 (set_error None state)))
              (updateSessionMetadata_writes_to _ _) G1)
    as (a2 & m2 & s2 & E2 & G2 & [ts2 ->] & W2).
  rewrite (bind_normal _ _ _ _ _ E2).
  assert (H2 : all_sound m2).
  { eapply (sound_after (run_session t) m m2); [by eapply writes_to_trans|exact G2| |done].
    apply sessions_get_Some in H as [_ H]. destruct (Hall _ _ H) as (_ & Hv & _).
    split; [by destruct (isHint t)|]. split; [|by destruct (isHint t)].
    intros r. destruct (isHint t); simpl; [discriminate|apply Hv]. }
  revert H2.
  match goal with |- all_sound ?a -> all_sound (snd (?c ?a)) =>
    change (keeps_sound a (snd (c a))); generalize a end.
  change (preserves keeps_sound
    (bind (publishEvent (run_session t) info
             (if isHint t then "Processing operator hint with Codex agent."
              else "Starting Codex agent run.")
             (Some [("source", JStr (if isHint t then "hint" else "initial"))]))
       (fun _ => bind (gets (fun m0 => heap m0 !! run_session t))
          (fun currentSession =>
             bind (alter_task tid (set_thread
                     (match currentSession with
                      | Some cs =>
                          if thread_established cs
                          then Some (resumeThread (default "" (threadId cs)))
                          else Some startThread
                      | None => Some startThread
                      end)))
               (fun _ => ret (Some AwaitRunStreamed)))))).
  pres.
Qed.
#[local] Hint Resolve start_run_keeps_sound : pres.

Lemma admitted_keeps_sound tid t : preserves keeps_sound (admitted tid t).
Proof. unfold admitted. pres. Qed.

Lemma open_stream_keeps_sound tid t : preserves keeps_sound (open_stream tid t).
Proof. unfold open_stream. pres. Qed.

Lemma stream_catch_keeps_sound tid sid text : preserves keeps_sound (stream_catch tid sid text).
Proof. unfold stream_catch. pres. Qed.

Lemma stream_finally_keeps_sound tid sid : preserves keeps_sound (stream_finally tid sid).
Proof. unfold stream_finally. pres. Qed.

Lemma run_exit_keeps_sound tid : preserves keeps_sound (run_exit tid).
Proof. unfold run_exit, releaseAgentSlot. pres. Qed.

#[local] Hint Resolve admitted_keeps_sound open_stream_keeps_sound stream_catch_keeps_sound
  stream_finally_keeps_sound run_exit_keeps_sound handleThreadEvent_keeps_sound : pres.

Lemma outer_try_keeps_sound tid body :
  preserves keeps_sound body -> preserves keeps_sound (outer_try tid body).
Proof. intros Hb. unfold outer_try. pres. Qed.

Lemma leave_stream_keeps_sound tid sid body :
  preserves keeps_sound body -> preserves keeps_sound (leave_stream tid sid body).
Proof. intros Hb. unfold leave_stream. pres. Qed.

Lemma stream_item_keeps_sound parse tid t ev :
  preserves keeps_sound (stream_item parse tid t ev).
Proof. unfold stream_item. pres. Qed.

Lemma resumeRun_keeps_sound tid t : preserves keeps_sound (resumeRun tid t).
Proof.
  unfold resumeRun, acquireAgentSlot_resumed.
  destruct (pc t); pres; try (apply outer_try_keeps_sound; pres).
  apply leave_stream_keeps_sound. pres.
Qed.

Lemma runAgentSession_keeps_sound sid is_hint hint_text :
  preserves keeps_sound (runAgentSession sid is_hint hint_text).
Proof. unfold runAgentSession, acquireAgentSlot. pres. Qed.
#[local] Hint Resolve runAgentSession_keeps_sound : pres.

Lemma createSession_keeps_sound pb workspace artifact :
  preserves keeps_sound (createSession pb workspace artifact).
Proof.
  intros m Hall. rewrite createSession_unfold.
  assert (H0 : all_sound (allocate pb workspace artifact m)).
  { intros j s. unfold allocate. simpl. destruct (decide (nextUuid m = j)) as [->|Hne].
    - rewrite lookup_insert_eq. intros [= <-]. split; [done|]. by split.
    - rewrite lookup_insert_ne by done. apply Hall. }
  revert H0. generalize (allocate pb workspace artifact m).
  change (preserves keeps_sound (announce (nextUuid m) workspace artifact)).
  unfold announce. pres.
Qed.

(** A hint: [pending], then no result. *)
Lemma submitHint_keeps_sound sid hint_text : preserves keeps_sound (submitHint sid hint_text).
Proof.
  intros m Hall. unfold submitHint, mbind, M_bind.
  destruct (sessions_get sid m) as [s|] eqn:H.
  2:{ unfold bind, gets, throw. by rewrite H. }
  rewrite (bind_normal _ _ m (Some s) m) by (unfold gets; by rewrite H).
  cbv beta iota. destruct (thread_established s); cbn [negb]; [|done].
  destruct (activeStreams m !! sid) as [tid|] eqn:Ha.
  { unfold bind, gets, throw. by rewrite Ha. }
  rewrite (bind_normal _ _ m None m) by (unfold gets; by rewrite Ha).
  cbv beta iota zeta.
  destruct (tracks_step _ _ _ m s
              (tracks_publishEvent sid task "Operator hint received."
                 (Some [("hint", JStr (truncate (trim hint_text) 400))]))
              (publishEvent_writes_to _ _ _ _) H)
    as (a1 & m1 & s1 & E1 & G1 & (ev & -> & _) & W1).
  rewrite (bind_normal _ _ _ _ _ E1).
  destruct (tracks_step _ _ _ m1 _ (tracks_updateStatus sid pending)
              (updateStatus_writes_to _ _) G1)
    as (a2 & m2 & s2 & E2 & G2 & [ts2 ->] & W2).
  rewrite (bind_normal _ _ _ _ _ E2).
  destruct (tracks_step _ _ _ m2 _ (tracks_updateSessionMetadata sid (set_result None))
              (updateSessionMetadata_writes_to _ _) G2)
    as (a3 & m3 & s3 & E3 & G3 & [ts3 ->] & W3).
  rewrite (bind_normal _ _ _ _ _ E3).
  apply (preserves_void keeps_sound _ (runAgentSession_keeps_sound _ _ _)).
  eapply (sound_after sid m m3);
    [eapply writes_to_trans; [eapply writes_to_trans|]; eassumption|exact G3| |done].
  split; [done|]. by split.
Qed.

Lemma removeSession_tail_keeps_sound sid : preserves keeps_sound (removeSession_tail sid).
Proof.
  intros m. destruct (sessions_get sid m) as [s|] eqn:H.
  - rewrite (removeSession_tail_live _ _ _ H).
    eapply keeps_sound_trans.
    + destruct (retired_store sid m) as (Hh & _).
      apply (keeps_sound_alter sid _ m _ Hh). intros s0 Hs0.
      apply (sound_fields (set_status cancelled s0)); [done|done|by apply sound_status].
    + generalize (retired sid m). change (preserves keeps_sound (close_subscribers sid)).
      unfold close_subscribers. pres.
  - rewrite (removeSession_tail_dead _ _ H). apply keeps_sound_refl.
Qed.
#[local] Hint Resolve removeSession_tail_keeps_sound : pres.

Lemma removeSession_keeps_sound sid : preserves keeps_sound (removeSession sid).
Proof. unfold removeSession. pres. Qed.

Lemma removeSession_resumed_keeps_sound rid sid :
  preserves keeps_sound (removeSession_resumed rid sid).
Proof. unfold removeSession_resumed. pres. Qed.

Lemma registerClient_keeps_sound sid : preserves keeps_sound (registerClient sid).
Proof. unfold registerClient. pres. Qed.

Lemma on_close_keeps_sound k : preserves keeps_sound (on_close k).
Proof. unfold on_close. pres. Qed.

Lemma on_error_keeps_sound k : preserves keeps_sound (on_error k).
Proof. unfold on_error. pres. Qed.

Lemma exec_keeps_sound {A} (c : M A) m m' :
  preserves keeps_sound c -> exec c m = Some m' -> keeps_sound m m'.
Proof. intros Hc [= <-]. apply Hc. Qed.

Lemma step_keeps_sound parse l m m' : step parse l m = Some m' -> keeps_sound m m'.
Proof.
  intros Hstep. destruct l; simpl in Hstep.
  - eapply exec_keeps_sound; [apply createSession_keeps_sound|done].
  - eapply exec_keeps_sound; [apply submitHint_keeps_sound|done].
  - eapply exec_keeps_sound; [apply removeSession_keeps_sound|done].
  - destruct (removals m !! rid); [|discriminate].
    eapply exec_keeps_sound; [apply removeSession_resumed_keeps_sound|done].
  - eapply exec_keeps_sound; [apply registerClient_keeps_sound|done].
  - destruct (tasks m !! tid) as [t|]; [|discriminate].
    destruct (resumable (pc t)); [|discriminate].
    eapply exec_keeps_sound; [apply resumeRun_keeps_sound|done].
  - destruct (tasks m !! tid) as [t|]; [|discriminate].
    destruct (is_AwaitRunStreamed (pc t)); [|discriminate].
    eapply exec_keeps_sound; [|done]. apply outer_try_keeps_sound.
    apply preserves_throw, keeps_sound_refl.
  - destruct (tasks m !! tid) as [t|]; [|discriminate].
    destruct (is_AwaitNext (pc t)); [|discriminate].
    eapply exec_keeps_sound; [apply stream_item_keeps_sound|done].
  - destruct (tasks m !! tid) as [t|]; [|discriminate].
    destruct (is_AwaitNext (pc t)); [|discriminate].
    eapply exec_keeps_sound; [|done]. apply leave_stream_keeps_sound.
    apply preserves_ret, keeps_sound_refl.
  - destruct (tasks m !! tid) as [t|]; [|discriminate].
    destruct (is_AwaitNext (pc t)); [|discriminate].
    eapply exec_keeps_sound; [|done]. apply leave_stream_keeps_sound.
    apply stream_catch_keeps_sound.
  - destruct (sockets m !! k) as [s|]; [|discriminate].
    destruct (readyState s); try discriminate; injection Hstep as <-;
      by apply keeps_sound_frame.
  - destruct (sockets m !! k) as [s|]; [|discriminate].
    destruct (readyState s); try discriminate;
      (eapply exec_keeps_sound; [apply on_close_keeps_sound|done]).
  - destruct (sockets m !! k) as [s|]; [|discriminate].
    destruct (readyState s); try discriminate;
      (eapply exec_keeps_sound; [apply on_error_keeps_sound|done]).
  - destruct (0 <=? dt); [|discriminate]. injection Hstep as <-.
    by apply keeps_sound_frame.
Qed.

Lemma reachable_sound parse env m : reachable parse env m -> all_sound m.
Proof.
  induction 1 as [|l m m' _ IH Hstep].
  - intros sid s H. simpl in H. by rewrite lookup_empty in H.
  - by eapply step_keeps_sound.
Qed.

(** X24.  In every reachable state the status of a record is never
    ["error"], its result, when it has one, is a value that passed
    [isAgentStructuredOutput], and a [completed] record has a result whose
    [inferenceStatus] is ["solved"]. *)
Theorem completed_means_solved parse env m sid s :
  reachable parse env m -> heap m !! sid = Some s ->
  status s <> status_error
  /\ (forall r, result s = Some r -> isAgentStructuredOutput r = true)
  /\ (status s = completed ->
      exists r, result s = Some r /\ prop "inferenceStatus" r = Some (JStr "solved")).
Proof. intros Hr Hs. by apply (reachable_sound _ _ _ Hr sid s). Qed.

Lemma completed_means_solved_witness :
  exists s,
    heap (after solved_run None) !! 0%nat = Some s /\ status s = completed
    /\ exists r, result s = Some r /\ prop "inferenceStatus" r = Some (JStr "solved").
Proof.
  exists (default created_session (heap (after solved_run None) !! 0%nat)).
  split; [vm_compute; reflexivity|]. split; [vm_compute; reflexivity|].
  apply (completed_means_solved JSON_parse_demo None (after solved_run None) 0%nat).
  - eapply reachable_after. vm_compute. reflexivity.
  - vm_compute. reflexivity.
  - vm_compute. reflexivity.
Defined.

(** ** Progress events *)

(** X25.  An event of the stream that reports progress (every event but
    [thread.started], [turn.failed], [error], an item of type [error] and a
    completed agent message) is handled without failure and changes nothing
    of a session of the store but its [events], by at most one appended
    event, and the [updatedAt] that goes with it: [status], [result],
    [threadId] and [error] stay. *)
Theorem progress_events_only_append parse sid ev m s :
  sessions_get sid m = Some s -> is_progress ev = true ->
  fst (handleThreadEvent parse sid ev m) = Normal tt
  /\ exists s', sessions_get sid (snd (handleThreadEvent parse sid ev m)) = Some s'
       /\ (s' = s \/ exists e, s' = push_event e s).
Proof.
  intros H Hp.
  assert (Ht : tracks sid (handleThreadEvent parse sid ev)
                 (fun s s' => s' = s \/ exists e, s' = push_event e s)).
  { unfold handleThreadEvent, handleItemEvent, handleCommandExecution, handleMcpToolCall.
    destruct ev as [| | | |item|item|item| |]; try discriminate;
      try destruct item; try discriminate; cbv zeta;
      try match goal with |- context [match ?p with started => _ | _ => _ end] =>
        destruct p end;
      (eapply tracks_weaken; [tracking|]); cbv beta;
      intros s0 s1 Hch;
      repeat match goal with
             | H : exists _, _ |- _ => destruct H
             | H : _ /\ _ |- _ => destruct H
             end; subst; eauto. }
  destruct (Ht m s H) as ([] & s' & Hn & Hget & Hrel). eauto.
Qed.

Lemma progress_events_only_append_witness :
  fst (handleThreadEvent JSON_parse_demo 0 (item_updated (todo_list JNull))
         (after [create] None)) = Normal tt
  /\ exists s',
       sessions_get 0 (snd (handleThreadEvent JSON_parse_demo 0
                              (item_updated (todo_list JNull)) (after [create] None)))
       = Some s'
       /\ (s' = created_session \/ exists e, s' = push_event e created_session).
Proof.
  apply (progress_events_only_append JSON_parse_demo 0%nat (item_updated (todo_list JNull))
           (after [create] None) created_session).
  - vm_compute. reflexivity.
  - reflexivity.
Defined.

(** * Executions under the event loop *)

(** ** Requests start when no woken run is left to continue *)

Lemma loop_step_step parse l m m' :
  loop_step parse l m = Some m' ->
  step parse l m = Some m' /\ (is_request l = true -> wake_pending m = false).
Proof.
  unfold loop_step. destruct (is_request l); simpl.
  - destruct (wake_pending m); [discriminate|]. auto.
  - intros H. split; [done|discriminate].
Qed.

Lemma scheduled_reachable parse env m : scheduled parse env m -> reachable parse env m.
Proof.
  induction 1 as [|l m m' _ IH Hstep]; [apply reachable_init|].
  eapply reachable_step; [exact IH|]. by apply loop_step_step in Hstep as [? _].
Qed.

Lemma loop_run_run parse ls : forall m m',
  loop_run parse ls m = Some m' -> run parse ls m = Some m'.
Proof.
  induction ls as [|l ls IH]; intros m m'; simpl; [done|].
  destruct (loop_step parse l m) as [m1|] eqn:E; [|discriminate].
  apply loop_step_step in E as [-> _]. apply IH.
Qed.

Lemma scheduled_run parse env ls : forall m m',
  scheduled parse env m -> loop_run parse ls m = Some m' -> scheduled parse env m'.
Proof.
  induction ls as [|l ls IH]; intros m m' Hs; simpl; [by intros [= <-]|].
  destruct (loop_step parse l m) as [m1|] eqn:E; [|discriminate].
  apply IH. by eapply scheduled_step.
Qed.

Lemma scheduled_after ls env m :
  loop_run JSON_parse_demo ls (newManager env) = Some m ->
  scheduled JSON_parse_demo env (after ls env).
Proof.
  intros H. unfold after. rewrite (loop_run_run _ _ _ _ H). simpl.
  eapply scheduled_run; [apply scheduled_init|exact H].
Qed.

Lemma wake_pending_false m tid t :
  wake_pending m = false -> tasks m !! tid = Some t -> pc t <> AwaitSlotWoken.
Proof.
  unfold wake_pending. intros H Ht Hpc. apply bool_decide_eq_false in H.
  apply H. exists tid, t. split; [done|]. by rewrite Hpc.
Qed.

Lemma quiet_woken m : wake_pending m = false -> woken m = 0.
Proof.
  intros H. unfold woken, woken_on.
  replace (filter _ (pcs m)) with (∅ : gmap nat RunPc); [by rewrite map_size_empty|].
  symmetry. apply map_empty_filter_2. intros tid p Hp Hw. simpl in Hw.
  unfold pcs in Hp. rewrite lookup_fmap in Hp.
  destruct (tasks m !! tid) as [t|] eqn:Ht; [|done]. injection Hp as <-.
  pose proof (wake_pending_false m tid t H Ht). by destruct (pc t).
Qed.

(** ** What a request does to the admission state *)

Lemma enters_same m m' : same_admission m m' -> enters m m'.
Proof. intros H. left. by apply same_admission_permits. Qed.

Lemma enters_after m m1 m' : same_admission m m1 -> enters m1 m' -> enters m m'.
Proof.
  intros Ha He. pose proof (same_admission_permits _ _ Ha) as (Hp & Hc & Hq & Hn).
  destruct Ha as (_ & _ & _ & _ & Hk).
  destruct He as [Hs|(Hn' & He)].
  - left. eapply same_permits_trans; [|exact Hs]. by repeat split.
  - right. rewrite Hp, Hc, Hq, Hn, Hk in *. split; [done|exact He].
Qed.

Lemma preserves_enters_same {A} (c : M A) :
  preserves same_admission c -> preserves enters c.
Proof. intros Hc m. apply enters_same, Hc. Qed.

Lemma preserves_enters_bind {A B} (c : M A) (k : A -> M B) :
  preserves same_admission c -> (forall a, preserves enters (k a)) ->
  preserves enters (bind c k).
Proof.
  intros Hc Hk m. unfold bind. specialize (Hc m).
  destruct (c m) as [[a|e] m1]; simpl in *; [|by apply enters_same].
  eapply enters_after; [exact Hc|apply Hk].
Qed.

Lemma runAgentSession_enters sid is_hint hint_text :
  preserves enters (runAgentSession sid is_hint hint_text).
Proof.
  intros m. unfold runAgentSession, mbind, M_bind.
  unfold bind at 1. unfold gets at 1. cbn [fst snd].
  destruct (activeStreams m !! sid); [left; apply same_permits_refl|].
  unfold bind at 1. unfold gets at 1. cbn [fst snd].
  destruct (sessions_get sid m) as [s|]; [|left; apply same_permits_refl].
  destruct (is_hint && negb (thread_established s)); [left; apply same_permits_refl|].
  unfold bind at 1. unfold gets at 1. cbn [fst snd].
  unfold bind at 1. unfold gets at 1. cbn [fst snd].
  unfold bind at 1.
  set (queued :=
    if maxConcurrentAgents m <=? activeAgentCount m
    then bind (publishEvent sid info "Agent run queued awaiting available execution slot."
                 (Some [("maxConcurrentAgents", JNum (maxConcurrentAgents m))]))
              (fun _ => ret tt)
    else ret tt).
  assert (Hq : preserves same_admission queued).
  { unfold queued. destruct (_ <=? _); [|apply preserves_ret, same_admission_refl].
    apply preserves_bind; [apply same_admission_trans|apply publishEvent_admission|].
    intros. apply preserves_ret, same_admission_refl. }
  specialize (Hq m).
  destruct (queued m) as [[u|e] m1]; simpl in Hq; [|by apply enters_same].
  eapply enters_after; [exact Hq|].
  unfold bind, gets, modify, acquireAgentSlot, mbind, M_bind, bind, gets, modify, ret.
  simpl. right.
  destruct (activeAgentCount m1 <? maxConcurrentAgents m1) eqn:Hlt; simpl;
    (split; [reflexivity|]); [left|right]; unfold pcs; simpl; rewrite fmap_insert; simpl.
  - apply Z.ltb_lt in Hlt. by repeat split.
  - apply Z.ltb_ge in Hlt. by repeat split.
Qed.

Lemma announce_enters uuid workspace artifact :
  preserves enters (announce uuid workspace artifact).
Proof.
  unfold announce, mbind, M_bind.
  apply preserves_enters_bind; [apply broadcastSnapshot_admission|intros _].
  apply preserves_enters_bind; [apply publishEvent_admission|intros _].
  intros m. unfold bind, void.
  pose proof (runAgentSession_enters uuid false None m) as H.
  destruct (runAgentSession uuid false None m) as [[u|e] m1]; exact H.
Qed.

Lemma createSession_enters pb workspace artifact :
  preserves enters (createSession pb workspace artifact).
Proof.
  intros m. rewrite createSession_unfold.
  eapply enters_after; [|apply announce_enters]. by repeat split.
Qed.

Lemma submitHint_enters sid hint_text : preserves enters (submitHint sid hint_text).
Proof.
  unfold submitHint, mbind, M_bind.
  apply preserves_enters_bind; [apply preserves_gets, same_admission_refl|].
  intros [s|]; [|apply preserves_enters_same, preserves_throw, same_admission_refl].
  destruct (negb (thread_established s));
    [apply preserves_enters_same, preserves_throw, same_admission_refl|].
  apply preserves_enters_bind; [apply preserves_gets, same_admission_refl|].
  intros [c|]; [apply preserves_enters_same, preserves_throw, same_admission_refl|].
  cbv zeta.
  apply preserves_enters_bind; [apply publishEvent_admission|intros _].
  apply preserves_enters_bind; [apply updateStatus_admission|intros _].
  apply preserves_enters_bind; [apply updateSessionMetadata_admission|intros _].
  intros m. apply runAgentSession_enters.
Qed.

Lemma exec_enters {A} (c : M A) m m' :
  preserves same_permits c -> exec c m = Some m' -> enters m m'.
Proof. intros Hc [= <-]. left. apply Hc. Qed.

Lemma request_enters parse l m m' :
  is_request l = true -> step parse l m = Some m' -> enters m m'.
Proof.
  intros Hl Hstep. destruct l; try discriminate; simpl in Hstep.
  - injection Hstep as <-. apply createSession_enters.
  - injection Hstep as <-. apply submitHint_enters.
  - by eapply exec_enters; [apply removeSession_permits|].
Qed.

(** ** What the other steps do to it *)

Lemma advances_after m m1 m' : same_permits m m1 -> advances m1 m' -> advances m m'.
Proof.
  intros (Hp & Hc & Hq & Hn) Ha.
  destruct Ha as [Hs|tid H0 Hp' Hc' Hq' Hn'|tid p0 p H0 Hh Hhp Hp' Hc' Hq' Hn'
                  |tid p0 H0 Hh Hc' Hn' Hm].
  - apply advances_same. eapply same_permits_trans; [|exact Hs]. by repeat split.
  - apply (advances_counted _ _ tid); congruence.
  - apply (advances_along _ _ tid p0 p); congruence.
  - apply (advances_released _ _ tid p0); try congruence.
    rewrite <- Hq, <- Hp. exact Hm.
Qed.

Lemma set_pc_advances tid m p0 p :
  pcs m !! tid = Some p0 -> holds_permit p0 = true -> holds_permit p = true ->
  advances m (snd (alter_task tid (set_pc p) m)).
Proof.
  intros H0 Hh Hp. apply (advances_along _ _ tid p0 p); try done.
  rewrite pcs_set_pc. by apply alter_const_insert with p0.
Qed.

Lemma run_exit_advances tid m p0 :
  ledger m -> pcs m !! tid = Some p0 -> holds_permit p0 = true ->
  advances m (snd (run_exit tid m)).
Proof.
  intros K H0 Hh. pose proof (ledger_on_count_pos _ _ _ _ _ _ K H0 Hh) as Hpos.
  rewrite run_exit_unfold. apply (advances_released _ _ tid p0); try done.
  - destruct (slotQueue m); simpl; lia.
  - by destruct (slotQueue m).
  - destruct (slotQueue m) as [|next rest] eqn:Eq.
    + split; [done|]. rewrite pcs_set_pc.
      change (pcs (set_activeAgentCount _ m)) with (pcs m).
      by apply alter_const_insert with p0.
    + destruct K as (_ & _ & K3 & _). rewrite Eq in K3.
      pose proof (K3 next (list_elem_of_here _ _)) as Hn.
      assert (Hne : next <> tid) by (intros ->; rewrite H0 in Hn; by injection Hn as ->).
      split; [done|]. split; [done|]. split; [done|].
      rewrite pcs_set_pc, pcs_set_pc. change (pcs (set_slotQueue _ _)) with (pcs m).
      rewrite (alter_const_insert _ _ _ _ Hn).
      apply alter_const_insert with p0. by rewrite lookup_insert_ne.
Qed.

Lemma outer_try_advances tid body m p0 :
  ledger m -> pcs m !! tid = Some p0 -> holds_permit p0 = true ->
  preserves same_permits body ->
  yields (fun r => r = None \/ exists p, r = Some p /\ holds_permit p = true) body ->
  advances m (snd (outer_try tid body m)).
Proof.
  intros K H0 Hh Hb Hy. unfold outer_try, mbind, M_bind, bind, attempt.
  specialize (Hb m). specialize (Hy m). destruct (body m) as [r m1]. simpl in *.
  pose proof (ledger_same_permits _ _ Hb K) as K1.
  assert (H1 : pcs m1 !! tid = Some p0) by (by rewrite (pcs_same_permits _ _ _ Hb)).
  apply (advances_after _ m1); [exact Hb|].
  destruct r as [[p|]|e].
  - destruct (Hy _ eq_refl) as [?|(p' & [= <-] & Hp)]; [done|].
    by eapply set_pc_advances.
  - by eapply run_exit_advances.
  - pose proof (run_exit_advances tid m1 p0 K1 H1 Hh) as S2.
    destruct (run_exit tid m1) as [[u|e'] m2]; exact S2.
Qed.

Lemma leave_stream_advances tid sid body m p0 :
  ledger m -> pcs m !! tid = Some p0 -> holds_permit p0 = true ->
  preserves same_permits body ->
  advances m (snd (leave_stream tid sid body m)).
Proof.
  intros K H0 Hh Hb. unfold leave_stream, try_finally.
  specialize (Hb m). destruct (body m) as [r m1]. simpl in *.
  pose proof (stream_finally_permits tid sid m1) as Hf.
  destruct (stream_finally tid sid m1) as [rf m2]. simpl in *.
  pose proof (same_permits_trans _ _ _ Hb Hf) as H12.
  pose proof (ledger_same_permits _ _ H12 K) as K2.
  assert (H2 : pcs m2 !! tid = Some p0) by (by rewrite (pcs_same_permits _ _ _ H12)).
  pose proof (run_exit_advances tid m2 p0 K2 H2 Hh) as S3.
  apply (advances_after _ m2); [exact H12|].
  destruct rf as [u|e]; simpl; destruct (run_exit tid m2) as [[u'|e'] m3]; exact S3.
Qed.

Lemma resumeRun_advances tid t m :
  ledger m -> tasks m !! tid = Some t -> resumable (pc t) = true ->
  advances m (snd (resumeRun tid t m)).
Proof.
  intros K Ht Hr. pose proof (pcs_lookup _ _ _ Ht) as H0. unfold resumeRun.
  destruct (pc t) eqn:Hpc; try discriminate.
  - unfold acquireAgentSlot_resumed, mbind, M_bind, bind, modify, ret. cbn [fst snd].
    apply (advances_counted _ _ tid); try done.
    rewrite pcs_set_pc. change (pcs (set_activeAgentCount _ m)) with (pcs m).
    by apply alter_const_insert with AwaitSlotWoken.
  - eapply outer_try_advances; eauto using admitted_permits, admitted_yields.
  - eapply outer_try_advances; eauto using start_run_permits.
    intros m0 a Ha. right. by eapply start_run_yields.
  - eapply outer_try_advances; eauto using open_stream_permits.
    intros m0 a Ha. right. by eapply open_stream_yields.
  - eapply leave_stream_advances; eauto.
    destruct thrown; [apply stream_catch_permits|apply preserves_ret, same_permits_refl].
Qed.

Lemma stream_item_advances parse tid t ev m :
  tasks m !! tid = Some t -> pc t = AwaitNext ->
  advances m (snd (stream_item parse tid t ev m)).
Proof.
  intros Ht Hpc. pose proof (pcs_lookup _ _ _ Ht) as H0. rewrite Hpc in H0.
  unfold stream_item, mbind, M_bind, bind, gets. simpl.
  destruct (sessions_has (run_session t) m).
  - simpl. unfold attempt.
    pose proof (handleThreadEvent_permits parse (run_session t) ev m) as Hp.
    destruct (handleThreadEvent parse (run_session t) ev m) as [[u|e] m1]; simpl in *.
    + by apply advances_same.
    + apply (advances_after _ m1); [exact Hp|].
      eapply (set_pc_advances tid _ AwaitNext); [|done|done].
      by rewrite (pcs_same_permits _ _ _ Hp).
  - pose proof (alter_task_permits tid (set_cancelled true) ltac:(reflexivity) m) as Hp.
    change (advances m (snd (alter_task tid (set_pc (AwaitIteratorReturn None))
                               (snd (alter_task tid (set_cancelled true) m))))).
    apply (advances_after _ (snd (alter_task tid (set_cancelled true) m))); [exact Hp|].
    eapply (set_pc_advances tid _ AwaitNext); [|done|done].
    by rewrite (pcs_same_permits _ _ _ Hp).
Qed.

Lemma exec_advances {A} (c : M A) m m' :
  preserves same_permits c -> exec c m = Some m' -> advances m m'.
Proof. intros Hc [= <-]. apply advances_same, Hc. Qed.

Lemma step_advances parse l m m' :
  ledger m -> is_request l = false -> step parse l m = Some m' -> advances m m'.
Proof.
  intros K Hl Hstep. destruct l; try discriminate; simpl in Hstep.
  - destruct (removals m !! rid); [|discriminate].
    by eapply exec_advances; [apply removeSession_resumed_permits|].
  - by eapply exec_advances; [apply registerClient_permits|].
  - destruct (tasks m !! tid) as [t|] eqn:Ht; [|discriminate].
    destruct (resumable (pc t)) eqn:Hr; [|discriminate]. injection Hstep as <-.
    by apply resumeRun_advances.
  - destruct (tasks m !! tid) as [t|] eqn:Ht; [|discriminate].
    destruct (pc t) eqn:Hpc; try discriminate. injection Hstep as <-.
    eapply (outer_try_advances tid _ m AwaitRunStreamed); auto.
    + rewrite (pcs_lookup _ _ _ Ht). by rewrite Hpc.
    + apply preserves_throw, same_permits_refl.
    + intros m0 a Ha. discriminate Ha.
  - destruct (tasks m !! tid) as [t|] eqn:Ht; [|discriminate].
    destruct (pc t) eqn:Hpc; try discriminate. injection Hstep as <-.
    by apply stream_item_advances.
  - destruct (tasks m !! tid) as [t|] eqn:Ht; [|discriminate].
    destruct (pc t) eqn:Hpc; try discriminate. injection Hstep as <-.
    eapply (leave_stream_advances tid _ _ m AwaitNext); auto.
    + rewrite (pcs_lookup _ _ _ Ht). by rewrite Hpc.
    + apply preserves_ret, same_permits_refl.
  - destruct (tasks m !! tid) as [t|] eqn:Ht; [|discriminate].
    destruct (pc t) eqn:Hpc; try discriminate. injection Hstep as <-.
    eapply (leave_stream_advances tid _ _ m AwaitNext); auto.
    + rewrite (pcs_lookup _ _ _ Ht). by rewrite Hpc.
    + apply stream_catch_permits.
  - destruct (sockets m !! k) as [s|]; [|discriminate].
    destruct (readyState s); try discriminate; injection Hstep as <-;
      apply advances_same; by repeat split.
  - destruct (sockets m !! k) as [s|]; [|discriminate].
    destruct (readyState s); try discriminate;
      by eapply exec_advances; [apply on_close_permits|].
  - destruct (sockets m !! k) as [s|]; [|discriminate].
    destruct (readyState s); try discriminate;
      by eapply exec_advances; [apply on_error_permits|].
  - destruct (0 <=? dt); [|discriminate]. injection Hstep as <-.
    apply advances_same. by repeat split.
Qed.

(** ** The cap under the event loop *)

Lemma ledger_fresh m : ledger m -> pcs m !! nextTask m = None.
Proof.
  intros (K1 & _). destruct (pcs m !! nextTask m) as [p|] eqn:E; [|done].
  specialize (K1 _ _ E). lia.
Qed.

Lemma enters_capped m m' :
  ledger m -> maxConcurrentAgents m' = maxConcurrentAgents m -> woken m = 0 ->
  capped m -> enters m m' -> capped m'.
Proof.
  unfold capped, woken. intros K Hk Hw Hc He. rewrite Hk.
  destruct He as [(Hp & Hcnt & _)|(_ & [(Hlt & Hp & Hcnt & _)|(Hge & Hp & Hcnt & _)])];
    rewrite Hcnt, Hp; [done|..];
    rewrite woken_insert, (ledger_fresh _ K); unfold woken_of; simpl; lia.
Qed.

Lemma advances_capped m m' :
  ledger m -> maxConcurrentAgents m' = maxConcurrentAgents m ->
  capped m -> advances m m' -> capped m'.
Proof.
  unfold capped, woken. intros K Hk Hc Ha. rewrite Hk.
  destruct Ha as [(Hp & Hcnt & _)|tid H0 Hp Hcnt _ _|tid p0 p H0 Hh Hhp Hp Hcnt _ _
                  |tid p0 H0 Hh Hcnt _ Hm].
  - by rewrite Hcnt, Hp.
  - rewrite Hcnt, Hp, woken_insert, H0. unfold woken_of. simpl. lia.
  - rewrite Hcnt, Hp, woken_insert, H0. unfold woken_of.
    rewrite (holds_permit_not_woken _ Hh), (holds_permit_not_woken _ Hhp). lia.
  - rewrite Hcnt. destruct (slotQueue m) as [|next rest].
    + destruct Hm as (_ & ->). rewrite woken_insert, H0. unfold woken_of.
      rewrite (holds_permit_not_woken _ Hh). simpl. lia.
    + destruct Hm as (_ & Hne & Hn & ->).
      rewrite woken_insert, lookup_insert_ne, H0, woken_insert, Hn by done. unfold woken_of.
      rewrite (holds_permit_not_woken _ Hh). simpl. lia.
Qed.

(** ** The order of arrival *)

Lemma in_arrival_order_nil : in_arrival_order [].
Proof. intros i j a b Hi. by rewrite lookup_nil in Hi. Qed.

Lemma in_arrival_order_tail a q : in_arrival_order (a :: q) -> in_arrival_order q.
Proof. intros H i j x y Hi Hj Hlt. apply (H (S i) (S j) x y); simpl; auto; lia. Qed.

Lemma in_arrival_order_head a q b : in_arrival_order (a :: q) -> b ∈ q -> (a < b)%nat.
Proof.
  intros H Hb. apply list_elem_of_lookup in Hb as [j Hj].
  apply (H 0%nat (S j) a b); simpl; auto; lia.
Qed.

Lemma in_arrival_order_snoc q n :
  in_arrival_order q -> (forall a, a ∈ q -> (a < n)%nat) -> in_arrival_order (q ++ [n]).
Proof.
  intros H Hn i j a b Hi Hj Hlt.
  destruct (decide (j < length q)%nat) as [Hj'|Hj'].
  - rewrite lookup_app_l in Hi, Hj by lia. eauto.
  - rewrite lookup_app_r in Hj by lia.
    apply list_lookup_singleton_Some in Hj as [Hj <-].
    rewrite lookup_app_l in Hi by lia. apply Hn. by eapply list_elem_of_lookup_2.
Qed.

Lemma enters_fifo m m' :
  ledger m -> (slotQueue m <> [] -> maxConcurrentAgents m <= activeAgentCount m) ->
  fifo m -> enters m m' -> fifo m'.
Proof.
  intros K Hfull (Ho & Hl) He. pose proof K as (K1 & _ & K3 & _).
  destruct He as [(Hp & _ & Hq & _)|(_ & [(Hlt & Hp & _ & Hq)|(Hge & Hp & _ & Hq)])].
  - split; [by rewrite Hq|]. intros tid p q. rewrite Hp, Hq. apply Hl.
  - assert (Hnil : slotQueue m = []).
    { destruct (slotQueue m) as [|a q] eqn:E; [done|]. specialize (Hfull ltac:(done)). lia. }
    split; [rewrite Hq, Hnil; apply in_arrival_order_nil|].
    intros tid p q _ _. rewrite Hq, Hnil. intros Hin. by apply elem_of_nil in Hin.
  - assert (Hbelow : forall a, a ∈ slotQueue m -> (a < nextTask m)%nat).
    { intros a Ha. eapply K1. by apply K3. }
    split; [rewrite Hq; by apply in_arrival_order_snoc|].
    intros tid p q. rewrite Hp, Hq. intros Hp' Hnq Hin.
    destruct (decide (tid = nextTask m)) as [->|Hne].
    { rewrite lookup_insert_eq in Hp'. by injection Hp' as <-. }
    rewrite lookup_insert_ne in Hp' by done.
    apply elem_of_app in Hin as [Hin|Hin]; [by eapply Hl|].
    apply list_elem_of_singleton in Hin as ->. by eapply K1.
Qed.

Lemma waiters_last_move m m' tid p0 p :
  pcs m !! tid = Some p0 -> p0 <> AwaitSlotQueued ->
  pcs m' = <[tid := p]> (pcs m) -> slotQueue m' = slotQueue m ->
  waiters_last m -> waiters_last m'.
Proof.
  intros H0 Hn0 Hp Hq Hl j pj q. rewrite Hp, Hq. intros Hj Hnq Hin.
  destruct (decide (j = tid)) as [->|Hne]; [by eapply Hl|].
  rewrite lookup_insert_ne in Hj by done. by eapply Hl.
Qed.

Lemma holds_permit_not_queued p : holds_permit p = true -> p <> AwaitSlotQueued.
Proof. by intros H ->. Qed.

Lemma advances_fifo m m' : fifo m -> advances m m' -> fifo m'.
Proof.
  intros (Ho & Hl) Ha.
  destruct Ha as [(Hp & _ & Hq & _)|tid H0 Hp _ Hq _|tid p0 p H0 Hh Hhp Hp _ Hq _
                  |tid p0 H0 Hh _ _ Hm].
  - split; [by rewrite Hq|]. intros tid p q. rewrite Hp, Hq. apply Hl.
  - split; [by rewrite Hq|]. by eapply waiters_last_move.
  - split; [by rewrite Hq|].
    eapply waiters_last_move; eauto using holds_permit_not_queued.
  - destruct (slotQueue m) as [|next rest] eqn:Eq.
    + destruct Hm as (Hq & _). split; [rewrite Hq; apply in_arrival_order_nil|].
      intros j pj q _ _. rewrite Hq. intros Hin. by apply elem_of_nil in Hin.
    + destruct Hm as (Hq & Hne & _ & Hp).
      split; [rewrite Hq; by eapply in_arrival_order_tail|].
      intros j pj q. rewrite Hp, Hq. intros Hj Hnq Hin.
      destruct (decide (j = tid)) as [->|Hjt].
      { eapply Hl; eauto using holds_permit_not_queued.
        rewrite Eq. by apply list_elem_of_further. }
      rewrite lookup_insert_ne in Hj by done.
      destruct (decide (j = next)) as [->|Hjn]; [by eapply in_arrival_order_head|].
      rewrite lookup_insert_ne in Hj by done.
      eapply Hl; eauto. rewrite Eq. by apply list_elem_of_further.
Qed.

(** ** Every state of an execution *)

Lemma scheduled_full parse env m :
  scheduled parse env m -> wake_pending m = false ->
  slotQueue m <> [] -> maxConcurrentAgents m <= activeAgentCount m.
Proof.
  intros Hs Hj Hq. pose proof (scheduled_reachable _ _ _ Hs) as Hr.
  pose proof (queue_served_helper := reachable_served _ _ _ Hr).
  rewrite (reachable_cap _ _ _ Hr). specialize (queue_served_helper Hq).
  fold (woken m) in queue_served_helper. rewrite (quiet_woken _ Hj) in queue_served_helper. lia.
Qed.

Lemma scheduled_orderly parse env m : scheduled parse env m -> capped m /\ fifo m.
Proof.
  induction 1 as [|l m m' Hs [IHc IHf] Hstep].
  - split; [|split].
    + unfold capped. simpl. pose proof (clampConcurrency_positive env).
      change (woken (newManager env)) with 0. lia.
    + apply in_arrival_order_nil.
    + intros tid p q _ _ Hin. by apply elem_of_nil in Hin.
  - pose proof (scheduled_reachable _ _ _ Hs) as Hr.
    pose proof (reachable_ledger _ _ _ Hr) as K.
    apply loop_step_step in Hstep as [Hstep Hquiet].
    assert (Hk : maxConcurrentAgents m' = maxConcurrentAgents m).
    { rewrite (reachable_cap _ _ _ Hr).
      apply (reachable_cap parse env). by eapply reachable_step. }
    destruct (is_request l) eqn:Hl.
    + specialize (Hquiet eq_refl).
      pose proof (request_enters _ _ _ _ Hl Hstep) as He. split.
      * eapply enters_capped; eauto using quiet_woken.
      * eapply enters_fifo; eauto. by eapply scheduled_full.
    + pose proof (step_advances _ _ _ _ K Hl Hstep) as Ha. split.
      * by eapply advances_capped.
      * by eapply advances_fifo.
Qed.

(** ** What one step does to the queue *)

Lemma enters_wakes m m' tid :
  enters m m' -> pcs m' !! tid = Some AwaitSlotWoken -> pcs m !! tid = Some AwaitSlotWoken.
Proof.
  intros [(Hp & _)|(_ & [(_ & Hp & _)|(_ & Hp & _)])]; rewrite Hp; [done|..]; intros H;
    (destruct (decide (tid = nextTask m)) as [->|Hne];
     [by rewrite lookup_insert_eq in H|by rewrite lookup_insert_ne in H]).
Qed.

Lemma advances_wakes m m' tid :
  advances m m' -> pcs m' !! tid = Some AwaitSlotWoken ->
  pcs m !! tid = Some AwaitSlotWoken
  \/ exists rest, slotQueue m = tid :: rest /\ slotQueue m' = rest.
Proof.
  intros Ha.
  destruct Ha as [(Hp & _)|j H0 Hp _ _ _|j p0 p H0 Hh Hhp Hp _ _ _|j p0 H0 Hh _ _ Hm].
  - rewrite Hp. auto.
  - rewrite Hp. intros H. destruct (decide (tid = j)) as [->|Hne];
      [by rewrite lookup_insert_eq in H|rewrite lookup_insert_ne in H by done; auto].
  - rewrite Hp. intros H. destruct (decide (tid = j)) as [->|Hne].
    + rewrite lookup_insert_eq in H. injection H as ->. discriminate.
    + rewrite lookup_insert_ne in H by done. auto.
  - destruct (slotQueue m) as [|next rest].
    + destruct Hm as (_ & ->). intros H. destruct (decide (tid = j)) as [->|Hne];
        [by rewrite lookup_insert_eq in H|rewrite lookup_insert_ne in H by done; auto].
    + destruct Hm as (Hq & _ & _ & ->). intros H.
      destruct (decide (tid = j)) as [->|Hne]; [by rewrite lookup_insert_eq in H|].
      rewrite lookup_insert_ne in H by done.
      destruct (decide (tid = next)) as [->|Hnn]; [right; eauto|].
      rewrite lookup_insert_ne in H by done. auto.
Qed.

Lemma enters_count m m' : enters m m' -> activeAgentCount m <= activeAgentCount m'.
Proof. intros [(_ & -> & _)|(_ & [(_ & _ & -> & _)|(_ & _ & -> & _)])]; lia. Qed.

Lemma advances_release m m' next rest :
  advances m m' -> activeAgentCount m' < activeAgentCount m ->
  slotQueue m = next :: rest ->
  slotQueue m' = rest /\ pcs m' !! next = Some AwaitSlotWoken.
Proof.
  intros Ha Hlt Eq.
  destruct Ha as [(_ & Hc & _)|j _ _ Hc _ _|j p0 p _ _ _ _ Hc _ _|j p0 H0 Hh _ _ Hm];
    try lia.
  rewrite Eq in Hm. destruct Hm as (Hq & Hne & _ & ->). split; [done|].
  by rewrite lookup_insert_ne, lookup_insert_eq.
Qed.

Lemma enters_granted m m' tid :
  (slotQueue m <> [] -> maxConcurrentAgents m <= activeAgentCount m) ->
  enters m m' -> pcs m !! tid = None -> pcs m' !! tid = Some AwaitSlotGranted ->
  slotQueue m = [].
Proof.
  intros Hfull [(Hp & _)|(_ & [(Hlt & _)|(_ & Hp & _)])] Hnone; [rewrite Hp; congruence| |].
  - intros _. destruct (slotQueue m); [done|]. specialize (Hfull ltac:(done)). lia.
  - rewrite Hp. intros H. destruct (decide (tid = nextTask m)) as [->|Hne];
      [by rewrite lookup_insert_eq in H|rewrite lookup_insert_ne in H by done; congruence].
Qed.

Lemma advances_domain m m' tid :
  advances m m' -> pcs m !! tid = None -> pcs m' !! tid = None.
Proof.
  intros Ha Hnone.
  destruct Ha as [(Hp & _)|j H0 Hp _ _ _|j p0 p H0 Hh Hhp Hp _ _ _|j p0 H0 Hh _ _ Hm].
  - by rewrite Hp.
  - rewrite Hp, lookup_insert_ne; [done|congruence].
  - rewrite Hp, lookup_insert_ne; [done|congruence].
  - destruct (slotQueue m) as [|next rest].
    + destruct Hm as (_ & ->). rewrite lookup_insert_ne; [done|congruence].
    + destruct Hm as (_ & _ & Hn & ->). rewrite !lookup_insert_ne; [done|congruence..].
Qed.

Lemma enters_numbered m m' tid j p :
  ledger m -> enters m m' -> pcs m !! tid = None -> is_Some (pcs m' !! tid) ->
  pcs m !! j = Some p -> (j < tid)%nat.
Proof.
  intros (K1 & _) [(Hp & _)|(_ & [(_ & Hp & _)|(_ & Hp & _)])] Hnone; rewrite Hp;
    [intros [? ?]; congruence|..]; intros Hsome Hj;
    (destruct (decide (tid = nextTask m)) as [->|Hne]; [by eapply K1|]);
    rewrite lookup_insert_ne in Hsome by done; destruct Hsome; congruence.
Qed.

Lemma enters_finishes m m' tid :
  enters m m' -> pcs m' !! tid = Some Finished -> pcs m !! tid = Some Finished.
Proof.
  intros [(Hp & _)|(_ & [(_ & Hp & _)|(_ & Hp & _)])]; rewrite Hp; [done|..]; intros H;
    (destruct (decide (tid = nextTask m)) as [->|Hne];
     [by rewrite lookup_insert_eq in H|by rewrite lookup_insert_ne in H]).
Qed.

Lemma advances_finishes m m' tid :
  advances m m' -> pcs m' !! tid = Some Finished -> pcs m !! tid <> Some Finished ->
  activeAgentCount m' = activeAgentCount m - 1.
Proof.
  intros Ha H Hn.
  destruct Ha as [(Hp & _)|j H0 Hp _ _ _|j p0 p H0 Hh Hhp Hp _ _ _|j p0 H0 Hh Hc _ _];
    [| | |exact Hc]; exfalso; rewrite Hp in H; try done;
    (destruct (decide (tid = j)) as [->|Hne];
     [rewrite lookup_insert_eq in H|by rewrite lookup_insert_ne in H]).
  - discriminate.
  - injection H as ->. discriminate.
Qed.

(** C2.  In every state of an execution under the event loop, the counter
    [activeAgentCount] is the number of runs that hold a permit and does not
    exceed [maxConcurrentAgents], the cap read from [AGENT_MAX_CONCURRENCY],
    which is at least 1; the runs that [releaseAgentSlot] has woken and that
    have not counted themselves in yet fit under the cap as well. *)
Theorem permits_within_cap parse env m :
  scheduled parse env m ->
  maxConcurrentAgents m = clampConcurrency env
  /\ 1 <= maxConcurrentAgents m
  /\ activeAgentCount m = permits_held m
  /\ permits_held m + woken m <= maxConcurrentAgents m
  /\ activeAgentCount m <= maxConcurrentAgents m.
Proof.
  intros Hs. pose proof (scheduled_reachable _ _ _ Hs) as Hr.
  destruct (scheduled_orderly _ _ _ Hs) as (Hc & _). unfold capped in Hc.
  destruct (reachable_ledger _ _ _ Hr) as (_ & _ & _ & K4). fold (permits_held m) in K4.
  pose proof (woken_nonneg (pcs m)) as Hw. fold (woken m) in Hw.
  split; [by eapply reachable_cap|].
  split; [rewrite (reachable_cap _ _ _ Hr); apply clampConcurrency_positive|].
  split; [done|]. split; lia.
Qed.

Lemma permits_within_cap_witness :
  maxConcurrentAgents (after handover (Some "1")) = 1
  /\ activeAgentCount (after handover (Some "1")) = 0
  /\ woken (after handover (Some "1")) = 1
  /\ permits_held (after handover (Some "1")) + woken (after handover (Some "1"))
     <= maxConcurrentAgents (after handover (Some "1")).
Proof.
  split; [vm_compute; reflexivity|]. split; [vm_compute; reflexivity|].
  split; [vm_compute; reflexivity|].
  destruct (permits_within_cap JSON_parse_demo (Some "1") (after handover (Some "1")))
    as (_ & _ & _ & H & _); [|exact H].
  eapply scheduled_after. vm_compute. reflexivity.
Defined.

(** C8.  Permits are granted in the order of arrival; runs are numbered as
    they call [acquireAgentSlot].  In every state of an execution under the
    event loop, [slotQueue] lists its runs in that order, and every run that
    is not waiting in the queue (it was granted a permit at once, or was
    woken) arrived before every run that still waits there.  For every step
    from such a state: a new run gets a number above those of all runs so
    far; the only run that becomes woken is the head of the queue, which
    leaves the queue; a run that finishes, which is when [releaseAgentSlot]
    is called, lowers the counter by one; a step that lowers the counter
    while runs are queued wakes the head of the queue; and a new run is
    granted a permit at once only when the queue is empty. *)
Theorem permits_granted_in_arrival_order parse env m :
  scheduled parse env m ->
  in_arrival_order (slotQueue m)
  /\ (forall tid p q, pcs m !! tid = Some p -> p <> AwaitSlotQueued -> q ∈ slotQueue m ->
        (tid < q)%nat)
  /\ (forall l m', loop_step parse l m = Some m' ->
        (forall tid j p, pcs m !! tid = None -> is_Some (pcs m' !! tid) ->
           pcs m !! j = Some p -> (j < tid)%nat)
        /\ (forall tid, pcs m' !! tid = Some AwaitSlotWoken ->
           pcs m !! tid = Some AwaitSlotWoken
           \/ exists rest, slotQueue m = tid :: rest /\ slotQueue m' = rest)
        /\ (forall tid, pcs m' !! tid = Some Finished -> pcs m !! tid <> Some Finished ->
              activeAgentCount m' = activeAgentCount m - 1)
        /\ (activeAgentCount m' < activeAgentCount m ->
            forall next rest, slotQueue m = next :: rest ->
              slotQueue m' = rest /\ pcs m' !! next = Some AwaitSlotWoken)
        /\ (forall tid, pcs m !! tid = None -> pcs m' !! tid = Some AwaitSlotGranted ->
              slotQueue m = [])).
Proof.
  intros Hs. destruct (scheduled_orderly _ _ _ Hs) as (_ & Ho & Hl).
  split; [done|]. split; [done|]. intros l m' Hstep.
  pose proof (scheduled_reachable _ _ _ Hs) as Hr.
  pose proof (reachable_ledger _ _ _ Hr) as K.
  apply loop_step_step in Hstep as [Hstep Hquiet].
  destruct (is_request l) eqn:Hl'.
  - specialize (Hquiet eq_refl).
    pose proof (request_enters _ _ _ _ Hl' Hstep) as He.
    split; [|split; [|split; [|split]]].
    + intros tid j p. by eapply enters_numbered.
    + intros tid H. left. by eapply enters_wakes.
    + intros tid H Hn. destruct Hn. by eapply enters_finishes.
    + intros Hlt. pose proof (enters_count _ _ He). lia.
    + intros tid. eapply enters_granted; eauto. by eapply scheduled_full.
  - pose proof (step_advances _ _ _ _ K Hl' Hstep) as Ha.
    split; [|split; [|split; [|split]]].
    + intros tid j p Hnone H. rewrite (advances_domain _ _ _ Ha Hnone) in H.
      by destruct H.
    + intros tid. by apply advances_wakes.
    + intros tid. by apply advances_finishes.
    + intros Hlt next rest. by apply advances_release.
    + intros tid Hnone H. by rewrite (advances_domain _ _ _ Ha Hnone) in H.
Qed.

Lemma permits_granted_in_arrival_order_witness :
  slotQueue (after handover (Some "1")) = [2%nat]
  /\ pcs (after handover (Some "1")) !! 1%nat = Some AwaitSlotWoken
  /\ (forall q, q ∈ slotQueue (after handover (Some "1")) -> (1 < q)%nat).
Proof.
  split; [vm_compute; reflexivity|].
  assert (E : pcs (after handover (Some "1")) !! 1%nat = Some AwaitSlotWoken)
    by (vm_compute; reflexivity).
  split; [exact E|].
  destruct (permits_granted_in_arrival_order JSON_parse_demo (Some "1")
              (after handover (Some "1"))) as (_ & H & _).
  - eapply scheduled_after. vm_compute. reflexivity.
  - intros q. by apply (H 1%nat AwaitSlotWoken q E).
Defined.

(** The order of the event loop is what keeps the cap.  In [step] alone,
    where a request may start between the call of [resolve] in
    [releaseAgentSlot] and the continuation of the woken run, the counter
    passes it: with one permit, run 0 ends and wakes run 1, a session created
    right then starts run 2, which finds the counter at 0 and takes the
    permit, and run 1 then counts itself in.  [loop_step] refuses that
    request. *)
Remark step_alone_passes_the_cap :
  reachable JSON_parse_demo (Some "1") (after barging (Some "1"))
  /\ maxConcurrentAgents (after barging (Some "1")) = 1
  /\ activeAgentCount (after barging (Some "1")) = 2
  /\ permits_held (after barging (Some "1")) = 2
  /\ loop_run JSON_parse_demo barging (newManager (Some "1")) = None.
Proof.
  split; [eapply reachable_after; vm_compute; reflexivity|]. by_computation.
Qed.

(** In the same way, in [step] alone a session created while run 1 is woken
    and run 2 still queued starts run 3, which is granted a permit at once,
    ahead of run 2.  [loop_step] refuses that request as well. *)
Remark step_alone_lets_an_arrival_overtake :
  exists t2 t3 : RunTask,
    reachable JSON_parse_demo (Some "1") (after overtaking (Some "1"))
    /\ slotQueue (after overtaking (Some "1")) = [2%nat]
    /\ tasks (after overtaking (Some "1")) !! 2%nat = Some t2
    /\ pc t2 = AwaitSlotQueued
    /\ tasks (after overtaking (Some "1")) !! 3%nat = Some t3
    /\ pc t3 = AwaitSlotGranted
    /\ loop_run JSON_parse_demo overtaking (newManager (Some "1")) = None.
Proof.
  eexists _, _. split; [eapply reachable_after; vm_compute; reflexivity|]. by_computation.
Qed.

(** * The thread of a session, step by step *)

Lemma thread_started_tracks parse sid x :
  tracks sid (handleThreadEvent parse sid (thread_started x))
    (fun _ s' => threadId s' = Some x).
Proof.
  unfold handleThreadEvent, mbind, M_bind. eapply tracks_weaken.
  - eapply tracks_bind; [apply tracks_updateSessionMetadata|intros].
    eapply tracks_bind; [apply tracks_publishEvent|intros]. apply tracks_broadcastSnapshot.
  - intros s s' (s1 & (ts & ->) & s2 & (ev & -> & _) & <-). reflexivity.
Qed.

Lemma thread_started_writes_to parse sid x :
  preserves (writes_to sid) (handleThreadEvent parse sid (thread_started x)).
Proof.
  unfold handleThreadEvent, mbind, M_bind.
  apply preserves_bind; [apply writes_to_trans|apply updateSessionMetadata_writes_to|intros].
  apply preserves_bind; [apply writes_to_trans|apply publishEvent_writes_to|intros].
  apply broadcastSnapshot_writes_to.
Qed.

(** A thread-established event delivered to a run whose session is in the
    store. *)
Lemma stream_item_thread_started parse tid t x m s :
  sessions_get (run_session t) m = Some s ->
  exists m1 s1,
    stream_item parse tid t (thread_started x) m = (Normal tt, m1)
    /\ sessions_get (run_session t) m1 = Some s1 /\ threadId s1 = Some x
    /\ writes_to (run_session t) m m1.
Proof.
  intros Hs.
  destruct (tracks_step _ _ _ m s (thread_started_tracks parse (run_session t) x)
              (thread_started_writes_to parse (run_session t) x) Hs)
    as (a & m1 & s1 & E & G & Hth & Hw).
  exists m1, s1. split; [|done].
  unfold stream_item, mbind, M_bind, bind, gets, sessions_has. cbn [fst snd]. rewrite Hs.
  cbn [negb]. unfold attempt. rewrite E. reflexivity.
Qed.

(** The same event for a run whose session is not in the store any more. *)
Lemma stream_item_dead parse tid t ev m :
  sessions_get (run_session t) m = None ->
  heap (snd (stream_item parse tid t ev m)) = heap m.
Proof.
  intros Hs. unfold stream_item, mbind, M_bind, bind, gets, sessions_has. cbn [fst snd].
  rewrite Hs. reflexivity.
Qed.

Lemma keeps_thread_reported l sid m : keeps_thread l = true -> reported_thread l sid m = None.
Proof. destruct l as [| | | | | | |tid ev| | | | | |]; try done. by destruct ev. Qed.

(** C9 (amended).  A step that delivers a thread-established event to a run
    of session [sid] while [sid] is in the store sets the [threadId] of [sid]
    to the identifier the event carries, whatever it was before; every other
    step leaves the [threadId] of [sid] as it is.  Such an event can always
    be delivered to a run that waits for the next item of its stream, and
    the session of that run, when it is in the store, then has the
    identifier of the event.  A run started for a session whose thread is
    established asks the engine to resume that thread. *)
Theorem threadId_changes_only_by_thread_started parse :
  (forall env m l m' sid s,
     reachable parse env m -> step parse l m = Some m' -> heap m !! sid = Some s ->
     exists s', heap m' !! sid = Some s'
       /\ threadId s' = match reported_thread l sid m with
                        | Some x => Some x
                        | None => threadId s
                        end)
  /\ (forall tid t x m s,
        tasks m !! tid = Some t -> pc t = AwaitNext ->
        sessions_get (run_session t) m = Some s ->
        exists m' s',
          step parse (StreamItem tid (thread_started x)) m = Some m'
          /\ sessions_get (run_session t) m' = Some s' /\ threadId s' = Some x)
  /\ (forall tid t m s x,
        tasks m !! tid = Some t -> sessions_get (run_session t) m = Some s ->
        threadId s = Some x -> x <> "" ->
        exists t', tasks (snd (start_run tid t m)) !! tid = Some t'
          /\ thread t' = Some (resumeThread x)).
Proof.
  split; [|split; [|apply start_run_resumes]].
  - intros env m l m' sid s Hr Hstep Hs.
    destruct (keeps_thread l) eqn:Hk.
    { rewrite (keeps_thread_reported _ sid m Hk).
      pose proof (step_evolves _ _ _ _ Hstep) as He. rewrite Hk in He.
      destruct (He (reachable_fresh _ _ _ Hr)) as (_ & Ho & _).
      destruct (Ho sid s Hs) as (s' & Hs' & _ & Hth). exists s'. split; [done|].
      by apply Hth. }
    destruct l as [| | | | | | |tid ev| | | | | |]; try discriminate.
    destruct ev as [x| | | | | | | |]; try discriminate.
    simpl in Hstep. unfold reported_thread.
    destruct (tasks m !! tid) as [t|]; [|discriminate].
    destruct (is_AwaitNext (pc t)); [|discriminate]. injection Hstep as <-.
    destruct (sessions_get (run_session t) m) as [s0|] eqn:H0.
    + destruct (stream_item_thread_started parse tid t x m s0 H0)
        as (m1 & s1 & E & G & Hth & (_ & Hother & _)).
      rewrite E. cbn [snd]. case_bool_decide as Hsid.
      * subst sid. unfold sessions_has. rewrite H0. cbn [andb].
        apply sessions_get_Some in G as [_ G]. eauto.
      * cbn [andb]. exists s. split; [|done]. rewrite Hother by done. exact Hs.
    + rewrite (stream_item_dead _ _ _ _ _ H0). exists s. split; [done|].
      case_bool_decide as Hsid; [|done]. subst sid. unfold sessions_has. by rewrite H0.
  - intros tid t x m s Ht Hpc Hs.
    destruct (stream_item_thread_started parse tid t x m s Hs)
      as (m1 & s1 & E & G & Hth & _).
    exists m1, s1. split; [|done]. simpl. rewrite Ht, Hpc. simpl. unfold exec.
    by rewrite E.
Qed.

Lemma threadId_changes_only_by_thread_started_witness :
  exists s s',
    heap (after first_run_streaming None) !! 0%nat = Some s
    /\ threadId s = None
    /\ step JSON_parse_demo (StreamItem 0%nat (thread_started "t1"))
         (after first_run_streaming None)
       = Some (after (first_run_streaming ++ [StreamItem 0%nat (thread_started "t1")]) None)
    /\ heap (after (first_run_streaming ++ [StreamItem 0%nat (thread_started "t1")]) None)
         !! 0%nat = Some s'
    /\ threadId s' = Some "t1".
Proof.
  destruct (proj1 (threadId_changes_only_by_thread_started JSON_parse_demo) None
              (after first_run_streaming None) (StreamItem 0%nat (thread_started "t1"))
              (after (first_run_streaming ++ [StreamItem 0%nat (thread_started "t1")]) None)
              0%nat
              (default created_session (heap (after first_run_streaming None) !! 0%nat)))
    as (s' & Hs' & Hth).
  - eapply reachable_after. vm_compute. reflexivity.
  - vm_compute. reflexivity.
  - vm_compute. reflexivity.
  - exists (default created_session (heap (after first_run_streaming None) !! 0%nat)), s'.
    split; [vm_compute; reflexivity|]. split; [vm_compute; reflexivity|].
    split; [vm_compute; reflexivity|]. split; [exact Hs'|].
    assert (E : reported_thread (StreamItem 0%nat (thread_started "t1")) 0%nat
                  (after first_run_streaming None) = Some "t1")
      by (vm_compute; reflexivity).
    rewrite E in Hth. exact Hth.
Defined.

(** C9 (as stated) fails: the run resumed on thread [t1] receives a
    thread-established event for [t2], and the session's [threadId], which
    was [t1], becomes [t2]. *)
Lemma threadId_replaced_by_later_event :
  exists s t s',
    heap (after (first_run_done ++ [SubmitHint 0%nat "look at the tcache";
                                    Resume 1%nat; Resume 1%nat]) None) !! 0%nat = Some s
    /\ threadId s = Some "t1"
    /\ tasks (after rethreaded None) !! 1%nat = Some t
    /\ thread t = Some (resumeThread "t1")
    /\ step JSON_parse_demo (StreamItem 1%nat (thread_started "t2"))
         (after (first_run_done ++ [SubmitHint 0%nat "look at the tcache";
                                    Resume 1%nat; Resume 1%nat]) None)
       = Some (after rethreaded None)
    /\ heap (after rethreaded None) !! 0%nat = Some s'
    /\ threadId s' = Some "t2".
Proof. eexists _, _, _. by_computation. Qed.
